(** * Compute-graph pipeline: a shallow embedding and its checked properties

    The development follows the C++ sources under
    [refactored_project/lib/code_property_graph]:

    - [ComputeGraphAnchor.cpp]   anchor scoring ([ComputeAnchorScore]);
    - [ComputeGraph.cpp]         the graph container ([CreateNode], [AddEdge],
                                 [RemoveEdge], [Clear], [TopologicalSort],
                                 [ComputeCanonicalSignature]) and the graph set
                                 ([Deduplicate]);
    - [ComputeGraphBuilder*.cpp] loop wiring, callee analysis and the
                                 backward trace of the builder;
    - [CPGBuilder.cpp], [CPGAnnotation.cpp]  the ICFG parameter nodes and
                                 the data-flow path query.

    Maps of the program ([std::map], [std::set]) are finite maps and sets of
    stdpp; where the program iterates over a [std::map] the model walks its
    keys in ascending order.  C++ [int] values are in [Z]; the 64-bit
    identifiers are in [N], their increment wraps at [2^64]. *)

From Stdlib Require Import ZArith NArith Lia.
From stdpp Require Import base option list sorting relations gmap strings pretty.

Set Default Proof Using "Type".
Local Open Scope Z_scope.

(* ===================================================================== *)
(** * 1. Enumerations (ComputeGraphBase.h)                                *)
(* ===================================================================== *)

(** [enum class ComputeNodeKind]; the declaration order gives the value of
    [static_cast<int>]. *)
Inductive ComputeNodeKind :=
  | NK_Constant | NK_Variable | NK_Parameter
  | NK_BinaryOp | NK_UnaryOp | NK_CompareOp
  | NK_Load | NK_Store | NK_ArrayAccess | NK_MemberAccess
  | NK_Phi | NK_Select | NK_LoopInduction | NK_Loop | NK_Branch
  | NK_Call | NK_IntrinsicCall
  | NK_Cast | NK_Return | NK_Unknown.

(** [enum class ComputeEdgeKind]. *)
Inductive ComputeEdgeKind :=
  | EK_DataFlow | EK_Control | EK_Memory | EK_Call | EK_Return | EK_LoopCarried.

(** [enum class OpCode]. *)
Inductive OpCode :=
  | Op_Add | Op_Sub | Op_Mul | Op_Div | Op_Mod
  | Op_And | Op_Or | Op_Xor | Op_Shl | Op_Shr
  | Op_Neg | Op_Not | Op_BitNot
  | Op_Lt | Op_Gt | Op_Le | Op_Ge | Op_Eq | Op_Ne
  | Op_Assign | Op_Unknown.

Global Instance ComputeNodeKind_eq_dec : EqDecision ComputeNodeKind.
Proof. solve_decision. Defined.
Global Instance ComputeEdgeKind_eq_dec : EqDecision ComputeEdgeKind.
Proof. solve_decision. Defined.
Global Instance OpCode_eq_dec : EqDecision OpCode.
Proof. solve_decision. Defined.

(** [static_cast<int>(kind)] *)
Definition ComputeNodeKind_to_int (k : ComputeNodeKind) : Z :=
  match k with
  | NK_Constant => 0 | NK_Variable => 1 | NK_Parameter => 2
  | NK_BinaryOp => 3 | NK_UnaryOp => 4 | NK_CompareOp => 5
  | NK_Load => 6 | NK_Store => 7 | NK_ArrayAccess => 8 | NK_MemberAccess => 9
  | NK_Phi => 10 | NK_Select => 11 | NK_LoopInduction => 12 | NK_Loop => 13
  | NK_Branch => 14 | NK_Call => 15 | NK_IntrinsicCall => 16
  | NK_Cast => 17 | NK_Return => 18 | NK_Unknown => 19
  end.

Definition ComputeEdgeKind_to_int (k : ComputeEdgeKind) : Z :=
  match k with
  | EK_DataFlow => 0 | EK_Control => 1 | EK_Memory => 2
  | EK_Call => 3 | EK_Return => 4 | EK_LoopCarried => 5
  end.

Definition OpCode_to_int (o : OpCode) : Z :=
  match o with
  | Op_Add => 0 | Op_Sub => 1 | Op_Mul => 2 | Op_Div => 3 | Op_Mod => 4
  | Op_And => 5 | Op_Or => 6 | Op_Xor => 7 | Op_Shl => 8 | Op_Shr => 9
  | Op_Neg => 10 | Op_Not => 11 | Op_BitNot => 12
  | Op_Lt => 13 | Op_Gt => 14 | Op_Le => 15 | Op_Ge => 16 | Op_Eq => 17
  | Op_Ne => 18 | Op_Assign => 19 | Op_Unknown => 20
  end.

(** Statements and declarations of the analysed program are known to the
    pipeline by their address only. *)
Definition StmtPtr := N.
Definition FuncPtr := N.

(* ===================================================================== *)
(** * 2. Anchor finder (ComputeGraphAnchor.cpp)                           *)
(* ===================================================================== *)

Module Anchor.

(** [clang::BinaryOperatorKind], the operators the visitor looks at. *)
Inductive BinaryOperatorKind :=
  | BO_Mul | BO_Div | BO_Rem | BO_Add | BO_Sub | BO_Shl | BO_Shr
  | BO_LT | BO_GT | BO_LE | BO_GE | BO_EQ | BO_NE
  | BO_And | BO_Xor | BO_Or | BO_LAnd | BO_LOr
  | BO_Assign
  | BO_MulAssign | BO_DivAssign | BO_RemAssign | BO_AddAssign | BO_SubAssign
  | BO_ShlAssign | BO_ShrAssign | BO_AndAssign | BO_XorAssign | BO_OrAssign
  | BO_Comma.

(** [struct AnchorPoint] *)
Record AnchorPoint := mkAnchorPoint {
  stmt : StmtPtr;
  func : FuncPtr;
  expectedKind : ComputeNodeKind;
  opCode : OpCode;
  loopDepth : Z;
  isInLoop : bool;
  score : Z;
  sourceText : string;
  sourceLine : Z;
}.

(** [AnchorFinder::ComputeAnchorScore] *)
Definition ComputeAnchorScore (anchor : AnchorPoint) : Z :=
  let score := 0 in
  let score := score + loopDepth anchor * 100 in
  let score :=
    match opCode anchor with
    | Op_Mul => score + 80
    | Op_Add | Op_Sub | Op_Shl | Op_Shr | Op_And | Op_Or | Op_Xor => score + 60
    | Op_Div | Op_Mod => score + 40
    | _ => score
    end in
  let score :=
    if decide (expectedKind anchor = NK_ArrayAccess) then score + 70 else score in
  let score :=
    if decide (expectedKind anchor = NK_Call) then score + 50 else score in
  score.

(** [AnchorVisitor::GetOpCode] *)
Definition GetOpCode (op : BinaryOperatorKind) : OpCode :=
  match op with
  | BO_Add | BO_AddAssign => Op_Add
  | BO_Sub | BO_SubAssign => Op_Sub
  | BO_Mul | BO_MulAssign => Op_Mul
  | BO_Div | BO_DivAssign => Op_Div
  | BO_Rem | BO_RemAssign => Op_Mod
  | BO_Shl | BO_ShlAssign => Op_Shl
  | BO_Shr | BO_ShrAssign => Op_Shr
  | BO_And | BO_AndAssign => Op_And
  | BO_Or | BO_OrAssign => Op_Or
  | BO_Xor | BO_XorAssign => Op_Xor
  | BO_LT => Op_Lt
  | BO_GT => Op_Gt
  | BO_LE => Op_Le
  | BO_GE => Op_Ge
  | BO_EQ => Op_Eq
  | BO_NE => Op_Ne
  | BO_Assign => Op_Assign
  | _ => Op_Unknown
  end.

(** [AnchorVisitor::IsVectorizableBinaryOp] *)
Definition IsVectorizableBinaryOp (op : BinaryOperatorKind) : bool :=
  match op with
  | BO_Add | BO_Sub | BO_Mul | BO_Div | BO_Rem | BO_Shl | BO_Shr
  | BO_And | BO_Or | BO_Xor
  | BO_LT | BO_GT | BO_LE | BO_GE | BO_EQ | BO_NE
  | BO_AddAssign | BO_SubAssign | BO_MulAssign | BO_DivAssign | BO_RemAssign
  | BO_ShlAssign | BO_ShrAssign | BO_AndAssign | BO_OrAssign | BO_XorAssign => true
  | _ => false
  end.

(** What the visitor reads of a [clang::BinaryOperator]: its address, its
    operator, and the text and line the frontend reports for it. *)
Record BinaryOperator := mkBinaryOperator {
  bo_stmt : StmtPtr;
  bo_opcode : BinaryOperatorKind;
  bo_text : string;
  bo_line : Z;
}.

(** A parent in [astContext.getParents]: [parent.get<BinaryOperator>()]
    gives the operator when the parent is one, a null pointer otherwise. *)
Definition DynTypedNode := option BinaryOperatorKind.

(** The fields of [AnchorVisitor] that the emitting path reads and writes. *)
Record AnchorVisitor := mkAnchorVisitor {
  currentFunc : FuncPtr;
  anchors : list AnchorPoint;
  currentLoopDepth : Z;
  isInLoopIncrement : bool;
  addedStmts : gset StmtPtr;
}.

(** [AnchorVisitor::AddAnchor]; [score] keeps its default until
    [FindAnchorsInFunction] fills it in. *)
Definition AddAnchor (s : StmtPtr) (text : string) (line : Z)
    (kind : ComputeNodeKind) (op : OpCode) (v : AnchorVisitor) : AnchorVisitor :=
  if decide (s ∈ addedStmts v) then v
  else
    let anchor := {|
      stmt := s; func := currentFunc v; expectedKind := kind; opCode := op;
      loopDepth := currentLoopDepth v;
      isInLoop := bool_decide (currentLoopDepth v > 0);
      score := 0; sourceText := text; sourceLine := line |} in
    {| currentFunc := currentFunc v;
       anchors := anchors v ++ [anchor];
       currentLoopDepth := currentLoopDepth v;
       isInLoopIncrement := isInLoopIncrement v;
       addedStmts := {[ s ]} ∪ addedStmts v |}.

(** [AnchorVisitor::MarkSubExprsAsAdded], given the addresses of the
    statement and of all its descendants. *)
Definition MarkSubExprsAsAdded (subtree : list StmtPtr) (v : AnchorVisitor)
    : AnchorVisitor :=
  {| currentFunc := currentFunc v;
     anchors := anchors v;
     currentLoopDepth := currentLoopDepth v;
     isInLoopIncrement := isInLoopIncrement v;
     addedStmts := list_to_set subtree ∪ addedStmts v |}.

(** [AnchorVisitor::CheckTopLevelExpression]: the loop over the parents
    stops at the first vectorizable binary operator. *)
Definition CheckTopLevelExpression (binOp : BinaryOperator)
    (parents : list DynTypedNode) (subtree : list StmtPtr)
    (v : AnchorVisitor) : AnchorVisitor :=
  let hasParentBinOp :=
    existsb (fun parent =>
               match parent with
               | Some parentBinOp => IsVectorizableBinaryOp parentBinOp
               | None => false
               end) parents in
  if hasParentBinOp then v
  else
    MarkSubExprsAsAdded subtree
      (AddAnchor (bo_stmt binOp) (bo_text binOp) (bo_line binOp)
                 NK_BinaryOp (GetOpCode (bo_opcode binOp)) v).

(** The scoring loop at the end of [AnchorFinder::FindAnchorsInFunction]. *)
Definition AssignScores (l : list AnchorPoint) : list AnchorPoint :=
  map (fun a => {| stmt := stmt a; func := func a;
                   expectedKind := expectedKind a; opCode := opCode a;
                   loopDepth := loopDepth a; isInLoop := isInLoop a;
                   score := ComputeAnchorScore a;
                   sourceText := sourceText a; sourceLine := sourceLine a |}) l.

(** The score formula in the words of the specification. *)
Definition spec_op_bonus (op : OpCode) : Z :=
  match op with
  | Op_Mul => 80
  | Op_Add | Op_Sub | Op_Shl | Op_Shr | Op_And | Op_Or | Op_Xor => 60
  | Op_Div | Op_Mod => 40
  | _ => 0
  end.

Definition spec_kind_bonus (k : ComputeNodeKind) : Z :=
  match k with
  | NK_ArrayAccess => 70
  | NK_Call => 50
  | _ => 0
  end.

Definition spec_score (a : AnchorPoint) : Z :=
  100 * loopDepth a + spec_op_bonus (opCode a) + spec_kind_bonus (expectedKind a).

(** Scenario 1, [for (int i = 0; i < n; ++i) sum += a[i] * b[i];]: the
    visitor reaches the compound assignment inside the loop body, at loop
    depth 1, with nothing emitted yet; its only parent is the [for]
    statement. *)
Definition accumulator_binop : BinaryOperator :=
  {| bo_stmt := 10%N; bo_opcode := BO_AddAssign;
     bo_text := "sum += a[i] * b[i]"; bo_line := 2 |}.

Definition accumulator_visitor : AnchorVisitor :=
  {| currentFunc := 1%N; anchors := []; currentLoopDepth := 1;
     isInLoopIncrement := false; addedStmts := ∅ |}.

Definition accumulator_anchors : list AnchorPoint :=
  AssignScores
    (anchors (CheckTopLevelExpression accumulator_binop [None]
                [10%N; 11%N; 12%N; 13%N; 14%N; 15%N; 16%N; 17%N; 18%N]
                accumulator_visitor)).

(** The anchor of scenario 1 before scoring. *)
Definition accumulator_anchor : AnchorPoint :=
  {| stmt := 10%N; func := 1%N; expectedKind := NK_BinaryOp; opCode := Op_Add;
     loopDepth := 1; isInLoop := true; score := 0;
     sourceText := "sum += a[i] * b[i]"; sourceLine := 2 |}.

End Anchor.

(* ===================================================================== *)
(** * 3. Compute graph (ComputeGraph.h, ComputeGraph.cpp)                 *)
(* ===================================================================== *)

(** [ComputeNode::NodeId] and [ComputeEdge::EdgeId] are [uint64_t]. *)
Definition NodeId := N.
Definition EdgeId := N.

(** [x++] on a [uint64_t]. *)
Definition incr64 (x : N) : N := ((x + 1) mod 2 ^ 64)%N.

(** Ascending key order, the iteration order of a [std::map]. *)
Definition std_map_keys {V} (m : gmap N V) : list N :=
  merge_sort N.le (map fst (map_to_list m)).

(** The entries of a [std::map] in iteration order. *)
Definition std_map_items {V} (m : gmap N V) : list (N * V) :=
  omap (fun k => pair k <$> m !! k) (std_map_keys m).

Module ComputeNode.

(** [class ComputeNode], without the type description, the constant value
    and the AST pointers other than the statement. *)
Record t := mk {
  kind : ComputeNodeKind;
  id : NodeId;
  name : string;
  astStmt : option StmtPtr;
  containingFunc : option FuncPtr;
  opCode : OpCode;
  properties : gmap string string;
  inputNodes : list NodeId;
  outputNodes : list NodeId;
  loopDepth : Z;
  loopContextId : NodeId;
  loopContextVar : string;
  loopContextLine : Z;
  sourceText : string;
  sourceLine : Z;
}.

(** [ComputeNode::ComputeNode(k, nodeId)] with the in-class defaults. *)
Definition new (k : ComputeNodeKind) (nodeId : NodeId) : t :=
  {| kind := k; id := nodeId; name := ""; astStmt := None;
     containingFunc := None; opCode := Op_Unknown; properties := ∅;
     inputNodes := []; outputNodes := [];
     loopDepth := 0; loopContextId := 0%N; loopContextVar := "";
     loopContextLine := 0; sourceText := ""; sourceLine := 0 |}.

Definition set_inputNodes (l : list NodeId) (n : t) : t :=
  {| kind := kind n; id := id n; name := name n; astStmt := astStmt n;
     containingFunc := containingFunc n; opCode := opCode n;
     properties := properties n; inputNodes := l;
     outputNodes := outputNodes n; loopDepth := loopDepth n;
     loopContextId := loopContextId n; loopContextVar := loopContextVar n;
     loopContextLine := loopContextLine n; sourceText := sourceText n;
     sourceLine := sourceLine n |}.

Definition set_outputNodes (l : list NodeId) (n : t) : t :=
  {| kind := kind n; id := id n; name := name n; astStmt := astStmt n;
     containingFunc := containingFunc n; opCode := opCode n;
     properties := properties n; inputNodes := inputNodes n;
     outputNodes := l; loopDepth := loopDepth n;
     loopContextId := loopContextId n; loopContextVar := loopContextVar n;
     loopContextLine := loopContextLine n; sourceText := sourceText n;
     sourceLine := sourceLine n |}.

Definition set_properties (p : gmap string string) (n : t) : t :=
  {| kind := kind n; id := id n; name := name n; astStmt := astStmt n;
     containingFunc := containingFunc n; opCode := opCode n;
     properties := p; inputNodes := inputNodes n;
     outputNodes := outputNodes n; loopDepth := loopDepth n;
     loopContextId := loopContextId n; loopContextVar := loopContextVar n;
     loopContextLine := loopContextLine n; sourceText := sourceText n;
     sourceLine := sourceLine n |}.

(** The fields a caller fills in after [CreateNode]. *)
Definition describe (nm : string) (op : OpCode) (line : Z) (n : t) : t :=
  {| kind := kind n; id := id n; name := nm; astStmt := astStmt n;
     containingFunc := containingFunc n; opCode := op;
     properties := properties n; inputNodes := inputNodes n;
     outputNodes := outputNodes n; loopDepth := loopDepth n;
     loopContextId := loopContextId n; loopContextVar := loopContextVar n;
     loopContextLine := loopContextLine n; sourceText := sourceText n;
     sourceLine := line |}.

(** [ComputeNode::SetProperty] *)
Definition SetProperty (key value : string) (n : t) : t :=
  set_properties (<[key := value]> (properties n)) n.

(** [ComputeNode::GetProperty] *)
Definition GetProperty (key : string) (n : t) : string :=
  default "" (properties n !! key).

End ComputeNode.

Module ComputeEdge.

(** [class ComputeEdge], without weight and properties. *)
Record t := mk {
  id : EdgeId;
  kind : ComputeEdgeKind;
  sourceId : NodeId;
  targetId : NodeId;
  label : string;
}.

End ComputeEdge.

Module ComputeGraph.

(** [class ComputeGraph].  [stmtToNode] and [nameToNode] are never written
    by the program apart from being cleared, and are left out. *)
Record t := mk {
  name : string;
  nextNodeId : NodeId;
  nextEdgeId : EdgeId;
  nodes : gmap NodeId ComputeNode.t;
  edges : gmap EdgeId ComputeEdge.t;
  inEdges : gmap NodeId (list EdgeId);
  outEdges : gmap NodeId (list EdgeId);
  properties : gmap string string;
}.

(** [ComputeGraph::ComputeGraph(graphName)]: [nextNodeId = 1] ("start at 1,
    0 is the invalid id"), [nextEdgeId = 0]. *)
Definition new (graphName : string) : t :=
  {| name := graphName; nextNodeId := 1%N; nextEdgeId := 0%N;
     nodes := ∅; edges := ∅; inEdges := ∅; outEdges := ∅; properties := ∅ |}.

Definition set_nodes (m : gmap NodeId ComputeNode.t) (g : t) : t :=
  {| name := name g; nextNodeId := nextNodeId g; nextEdgeId := nextEdgeId g;
     nodes := m; edges := edges g; inEdges := inEdges g;
     outEdges := outEdges g; properties := properties g |}.

(** [ComputeGraph::CreateNode]: returns the graph and the new node. *)
Definition CreateNode (kind : ComputeNodeKind) (g : t) : t * ComputeNode.t :=
  let node := ComputeNode.new kind (nextNodeId g) in
  ({| name := name g; nextNodeId := incr64 (nextNodeId g);
      nextEdgeId := nextEdgeId g;
      nodes := <[ComputeNode.id node := node]> (nodes g);
      edges := edges g; inEdges := inEdges g; outEdges := outEdges g;
      properties := properties g |}, node).

(** [ComputeGraph::GetNode] *)
Definition GetNode (nid : NodeId) (g : t) : option ComputeNode.t :=
  nodes g !! nid.

(** [ComputeGraph::GetEdge] *)
Definition GetEdge (eid : EdgeId) (g : t) : option ComputeEdge.t :=
  edges g !! eid.

(** A write through the [shared_ptr] returned by [GetNode]. *)
Definition update_node (nid : NodeId) (f : ComputeNode.t -> ComputeNode.t)
    (g : t) : t :=
  set_nodes (alter f nid (nodes g)) g.

(** [ComputeGraph::AddEdge] with [UpdateAdjacencyLists] inlined. *)
Definition AddEdge (src tgt : NodeId) (kind : ComputeEdgeKind)
    (varName : string) (g : t) : t * ComputeEdge.t :=
  let edge := {| ComputeEdge.id := nextEdgeId g; ComputeEdge.kind := kind;
                 ComputeEdge.sourceId := src; ComputeEdge.targetId := tgt;
                 ComputeEdge.label := varName |} in
  let edges' := <[ComputeEdge.id edge := edge]> (edges g) in
  let outEdges' := <[src := (default [] (outEdges g !! src)) ++ [ComputeEdge.id edge]]> (outEdges g) in
  let inEdges' := <[tgt := (default [] (inEdges g !! tgt)) ++ [ComputeEdge.id edge]]> (inEdges g) in
  let nodes1 :=
    alter (fun n => ComputeNode.set_outputNodes (ComputeNode.outputNodes n ++ [tgt]) n)
          src (nodes g) in
  let nodes2 :=
    alter (fun n => ComputeNode.set_inputNodes (ComputeNode.inputNodes n ++ [src]) n)
          tgt nodes1 in
  ({| name := name g; nextNodeId := nextNodeId g;
      nextEdgeId := incr64 (nextEdgeId g);
      nodes := nodes2; edges := edges';
      inEdges := inEdges'; outEdges := outEdges';
      properties := properties g |}, edge).

(** [ComputeGraph::RemoveEdge] *)
Definition RemoveEdge (eid : EdgeId) (g : t) : t :=
  match edges g !! eid with
  | None => g
  | Some edge =>
      let outEdges' :=
        <[ComputeEdge.sourceId edge :=
            filter (fun x => x ≠ eid) (default [] (outEdges g !! ComputeEdge.sourceId edge))]>
          (outEdges g) in
      let inEdges' :=
        <[ComputeEdge.targetId edge :=
            filter (fun x => x ≠ eid) (default [] (inEdges g !! ComputeEdge.targetId edge))]>
          (inEdges g) in
      {| name := name g; nextNodeId := nextNodeId g; nextEdgeId := nextEdgeId g;
         nodes := nodes g; edges := delete eid (edges g);
         inEdges := inEdges'; outEdges := outEdges';
         properties := properties g |}
  end.

(** [ComputeGraph::GetIncomingEdges] *)
Definition GetIncomingEdges (nid : NodeId) (g : t) : list ComputeEdge.t :=
  omap (fun eid => GetEdge eid g) (default [] (inEdges g !! nid)).

(** [ComputeGraph::GetOutgoingEdges] *)
Definition GetOutgoingEdges (nid : NodeId) (g : t) : list ComputeEdge.t :=
  omap (fun eid => GetEdge eid g) (default [] (outEdges g !! nid)).

(** [ComputeGraph::GetAllNodes], [GetAllEdges] *)
Definition GetAllNodes (g : t) : list ComputeNode.t :=
  map snd (std_map_items (nodes g)).
Definition GetAllEdges (g : t) : list ComputeEdge.t :=
  map snd (std_map_items (edges g)).

(** [ComputeGraph::GetRootNodes], [GetLeafNodes] *)
Definition GetRootNodes (g : t) : list ComputeNode.t :=
  filter (fun n => ComputeNode.inputNodes n = []) (GetAllNodes g).
Definition GetLeafNodes (g : t) : list ComputeNode.t :=
  filter (fun n => ComputeNode.outputNodes n = []) (GetAllNodes g).

(** [ComputeGraph::Clear] *)
Definition Clear (g : t) : t :=
  {| name := name g; nextNodeId := 0%N; nextEdgeId := 0%N;
     nodes := ∅; edges := ∅; inEdges := ∅; outEdges := ∅;
     properties := properties g |}.

(** [ComputeGraph::SetProperty], [GetProperty] *)
Definition SetProperty (key value : string) (g : t) : t :=
  {| name := name g; nextNodeId := nextNodeId g; nextEdgeId := nextEdgeId g;
     nodes := nodes g; edges := edges g; inEdges := inEdges g;
     outEdges := outEdges g; properties := <[key := value]> (properties g) |}.
Definition GetProperty (key : string) (g : t) : string :=
  default "" (properties g !! key).

(** A run of [CreateNode] calls; the identifiers handed out, in order. *)
Fixpoint create_nodes (kinds : list ComputeNodeKind) (g : t)
    : t * list NodeId :=
  match kinds with
  | [] => (g, [])
  | k :: rest =>
      let r := create_nodes rest (fst (CreateNode k g)) in
      (fst r, ComputeNode.id (snd (CreateNode k g)) :: snd r)
  end.

(** ** Agreement of the adjacency bookkeeping with the edge map *)

(** The edges of the edge map that leave, respectively enter, a node. *)
Definition edges_from (nid : NodeId) (g : t) : list ComputeEdge.t :=
  filter (fun e => ComputeEdge.sourceId e = nid) (map snd (map_to_list (edges g))).
Definition edges_into (nid : NodeId) (g : t) : list ComputeEdge.t :=
  filter (fun e => ComputeEdge.targetId e = nid) (map snd (map_to_list (edges g))).

(** The per-node vectors agree with the edge map: for every node,
    [outputNodes] holds the targets of the edges that leave it and
    [inputNodes] the sources of the edges that enter it, each as often as
    there are such edges. *)
Definition adjacency_agrees (g : t) : Prop :=
  map_Forall (fun nid node =>
                ComputeNode.outputNodes node
                  ≡ₚ map ComputeEdge.targetId (edges_from nid g)
                ∧ ComputeNode.inputNodes node
                  ≡ₚ map ComputeEdge.sourceId (edges_into nid g))
             (nodes g).

(** Nodes are stored under their identifier and edges join stored nodes. *)
Definition nodes_keyed (g : t) : Prop :=
  map_Forall (fun nid node => ComputeNode.id node = nid) (nodes g).
Definition edges_closed (g : t) : Prop :=
  map_Forall (fun _ e => is_Some (nodes g !! ComputeEdge.sourceId e)
                         ∧ is_Some (nodes g !! ComputeEdge.targetId e))
             (edges g).

(** The edge lists agree with the edge map: an edge is stored under its
    identifier and listed in [outEdges] of its source, and an identifier
    listed in [outEdges] of a node names, if any, an edge that leaves it. *)
Definition outEdges_agree (g : t) : Prop :=
  map_Forall (fun eid e =>
                ComputeEdge.id e = eid
                ∧ eid ∈ default [] (outEdges g !! ComputeEdge.sourceId e))
             (edges g)
  ∧ map_Forall (fun nid l =>
                  Forall (fun eid =>
                            default nid (ComputeEdge.sourceId <$> edges g !! eid)
                            = nid) l)
               (outEdges g).

Global Instance adjacency_agrees_dec g : Decision (adjacency_agrees g).
Proof. unfold adjacency_agrees. apply _. Defined.
Global Instance nodes_keyed_dec g : Decision (nodes_keyed g).
Proof. unfold nodes_keyed. apply _. Defined.
Global Instance edges_closed_dec g : Decision (edges_closed g).
Proof. unfold edges_closed. apply _. Defined.
Global Instance outEdges_agree_dec g : Decision (outEdges_agree g).
Proof. unfold outEdges_agree. apply _. Defined.

(** The next edge identifier is not in use. *)
Definition edge_id_fresh (g : t) : Prop :=
  edges g !! nextEdgeId g = None
  ∧ map_Forall (fun _ l => nextEdgeId g ∉ l) (outEdges g).

Global Instance edge_id_fresh_dec g : Decision (edge_id_fresh g).
Proof. unfold edge_id_fresh. apply _. Defined.

(** There is an edge from [u] to [v]. *)
Definition edge_rel (g : t) (u v : NodeId) : Prop :=
  ∃ eid e, edges g !! eid = Some e
           ∧ ComputeEdge.sourceId e = u ∧ ComputeEdge.targetId e = v.

(** No node reaches itself along one or more edges. *)
Definition acyclic (g : t) : Prop := ∀ u, ¬ tc (edge_rel g) u u.

(** ** Topological sort *)

(** The state of the loop of [TopologicalSort]: the result vector, the
    queue and the [inDegree] map. *)
Record TopoState := mkTopo {
  result : list ComputeNode.t;
  queue : list NodeId;
  inDegree : gmap NodeId Z;
}.

(** [if (--inDegree[outId] == 0) queue.push(outId)]; reading a missing key
    of a [std::map<_, int>] inserts 0. *)
Definition topo_visit_output (st : TopoState) (outId : NodeId) : TopoState :=
  let d := default 0 (inDegree st !! outId) - 1 in
  {| result := result st;
     queue := if decide (d = 0) then queue st ++ [outId] else queue st;
     inDegree := <[outId := d]> (inDegree st) |}.

(** The initial [inDegree] map. *)
Definition topo_inDegree (g : t) : gmap NodeId Z :=
  (fun n => Z.of_nat (length (ComputeNode.inputNodes n))) <$> nodes g.

(** The initial queue: the keys of [inDegree] with value 0, ascending. *)
Definition topo_init (g : t) : TopoState :=
  let deg := topo_inDegree g in
  {| result := [];
     queue := filter (fun k => deg !! k = Some 0) (std_map_keys deg);
     inDegree := deg |}.

(** One turn of the [while (!queue.empty())] loop. *)
Definition topo_step (g : t) (nodeId : NodeId) (rest : list NodeId)
    (st : TopoState) : TopoState :=
  match GetNode nodeId g with
  | Some node =>
      foldl topo_visit_output
            {| result := result st ++ [node]; queue := rest;
               inDegree := inDegree st |}
            (ComputeNode.outputNodes node)
  | None => {| result := result st; queue := rest; inDegree := inDegree st |}
  end.

Fixpoint topo_loop (fuel : nat) (g : t) (st : TopoState) : TopoState :=
  match fuel with
  | O => st
  | S fuel' =>
      match queue st with
      | [] => st
      | nodeId :: rest => topo_loop fuel' g (topo_step g nodeId rest st)
      end
  end.

(** [ComputeGraph::TopologicalSort].  An identifier enters the queue at most
    once and only if it is a key of [nodes], so the loop runs at most
    [size nodes] turns (lemma [topo_loop_fuel_enough] below). *)
Definition TopologicalSort (g : t) : list ComputeNode.t :=
  result (topo_loop (size (nodes g)) g (topo_init g)).

(** ** The quantities the loop of [TopologicalSort] works with *)

(** [inDegree[w]] as the loop reads it: a missing key reads as 0. *)
Definition topo_deg (st : TopoState) (w : NodeId) : Z :=
  default 0 (inDegree st !! w).

(** The [inputNodes] and [outputNodes] of the node stored under [v]. *)
Definition topo_ins (g : t) (v : NodeId) : list NodeId :=
  default [] (ComputeNode.inputNodes <$> nodes g !! v).
Definition topo_outs (g : t) (v : NodeId) : list NodeId :=
  default [] (ComputeNode.outputNodes <$> nodes g !! v).

(** How often [w] occurs in [l]. *)
Definition occurrences (w : NodeId) (l : list NodeId) : nat :=
  length (filter (fun x => x = w) l).

(** The inputs of [v] that are not among [popped]. *)
Definition topo_pending (g : t) (popped : list NodeId) (v : NodeId)
    : list NodeId :=
  filter (fun u => u ∉ popped) (topo_ins g v).

(** What holds of the queue in every graph, [popped] being the identifiers
    taken from the queue so far: no identifier is queued twice, a queued
    one is a key of [nodes] and its count is used up, and a positive count
    belongs to a key of [nodes]. *)
Definition topo_queue_inv (g : t) (popped : list NodeId) (st : TopoState)
    : Prop :=
  NoDup (popped ++ queue st)
  ∧ (∀ w, w ∈ popped ++ queue st → is_Some (nodes g !! w) ∧ topo_deg st w <= 0)
  ∧ (∀ w, 1 <= topo_deg st w → is_Some (nodes g !! w)).

(** What holds in a graph whose node vectors mirror each other: the result
    lists the popped nodes, the count of a node is the number of its inputs
    not yet popped, the nodes popped or queued are those without such an
    input, and every input of a popped node was popped before it. *)
Definition topo_order_inv (g : t) (popped : list NodeId) (st : TopoState)
    : Prop :=
  map ComputeNode.id (result st) = popped
  ∧ Forall (fun n => nodes g !! ComputeNode.id n = Some n) (result st)
  ∧ (∀ w, is_Some (nodes g !! w) →
          topo_deg st w = Z.of_nat (length (topo_pending g popped w)))
  ∧ (∀ w, is_Some (nodes g !! w) →
          w ∈ popped ++ queue st ↔ topo_pending g popped w = [])
  ∧ (∀ l1 v l2, popped = l1 ++ v :: l2 → ∀ u, u ∈ topo_ins g v → u ∈ l1).

(** The node vectors mirror each other and name stored nodes. *)
Definition vectors_mirror (g : t) : Prop :=
  (∀ u v, occurrences v (topo_outs g u) = occurrences u (topo_ins g v))
  ∧ (∀ u v, v ∈ topo_outs g u → is_Some (nodes g !! v)).

(** Every edge leads to a larger identifier. *)
Definition edges_ascend (g : t) : Prop :=
  map_Forall (fun _ e => (ComputeEdge.sourceId e < ComputeEdge.targetId e)%N)
             (edges g).

Global Instance edges_ascend_dec g : Decision (edges_ascend g).
Proof. unfold edges_ascend. apply _. Defined.

(** The number of edges from [u] to [v] in the edge map. *)
Definition edge_count (g : t) (u v : NodeId) : nat :=
  length (filter (fun e => ComputeEdge.sourceId e = u
                           ∧ ComputeEdge.targetId e = v)
                 (map snd (map_to_list (edges g)))).

(** ** Canonical signature *)

(** [ComputeGraph::ComputeCanonicalSignature] *)
Definition signature_of_node (n : ComputeNode.t) : string :=
  pretty (ComputeNodeKind_to_int (ComputeNode.kind n))
  +:+ (if decide (ComputeNode.opCode n = Op_Unknown) then ""
       else ":" +:+ pretty (OpCode_to_int (ComputeNode.opCode n)))
  +:+ ";".

Definition signature_of_edge (e : ComputeEdge.t) : string :=
  pretty (ComputeEdge.sourceId e) +:+ "->" +:+ pretty (ComputeEdge.targetId e)
  +:+ ":" +:+ pretty (ComputeEdgeKind_to_int (ComputeEdge.kind e)) +:+ ";".

Definition ComputeCanonicalSignature (g : t) : string :=
  String.concat "" (map signature_of_node (TopologicalSort g))
  +:+ "|"
  +:+ String.concat "" (map signature_of_edge (GetAllEdges g)).

(** [ComputeGraph::IsIsomorphicTo] *)
Definition IsIsomorphicTo (g other : t) : bool :=
  bool_decide (ComputeCanonicalSignature g = ComputeCanonicalSignature other).

(** ** Small graphs used as examples *)

(** Two nodes and one DataFlow edge [1 -> 2]. *)
Definition example_edge_graph : t :=
  let g := fst (CreateNode NK_Variable (new "example")) in
  let g := fst (CreateNode NK_BinaryOp g) in
  fst (AddEdge 1%N 2%N EK_DataFlow "x" g).

(** The same with a LoopCarried back-edge [2 -> 1]. *)
Definition example_back_edge_graph : t :=
  fst (AddEdge 2%N 1%N EK_LoopCarried "x (next iter)" example_edge_graph).

End ComputeGraph.

(** ** The graph set *)

Module ComputeGraphSet.

(** [class ComputeGraphSet]: the vector of graphs. *)
Definition t := list ComputeGraph.t.

(** [ComputeGraphSet::AddGraph] *)
Definition AddGraph (g : ComputeGraph.t) (s : t) : t := s ++ [g].

(** The state of the loop of [Deduplicate]. *)
Record DedupState := mkDedup {
  unique : list ComputeGraph.t;
  seenAnchors : gset string;
  seenSignatures : gset string;
}.

Definition anchorKey (g : ComputeGraph.t) : string :=
  ComputeGraph.GetProperty "anchor_func" g +:+ ":" +:+
  ComputeGraph.GetProperty "anchor_line" g.

Definition Deduplicate_step (st : DedupState) (g : ComputeGraph.t) : DedupState :=
  if decide (anchorKey g ∈ seenAnchors st) then st
  else
    let sig := ComputeGraph.ComputeCanonicalSignature g in
    if decide (sig ∈ seenSignatures st) then st
    else {| unique := unique st ++ [g];
            seenAnchors := {[ anchorKey g ]} ∪ seenAnchors st;
            seenSignatures := {[ sig ]} ∪ seenSignatures st |}.

(** [ComputeGraphSet::Deduplicate] *)
Definition Deduplicate (graphs : t) : t :=
  unique (foldl Deduplicate_step
                {| unique := []; seenAnchors := ∅; seenSignatures := ∅ |}
                graphs).

(** The seen-sets are the keys and signatures of the graphs kept so far. *)
Definition seen_ok (st : DedupState) : Prop :=
  (∀ k, k ∈ seenAnchors st ↔ k ∈ map anchorKey (unique st))
  ∧ (∀ s, s ∈ seenSignatures st ↔ s ∈ map ComputeGraph.ComputeCanonicalSignature (unique st)).

End ComputeGraphSet.

(* ===================================================================== *)
(** * 4. Compute graph builder (ComputeGraphBuilder*.cpp)                 *)
(* ===================================================================== *)

Module Builder.

(** [struct ComputeGraphBuilder::LoopInfo] *)
Record LoopInfo := mkLoopInfo {
  loopNodeId : NodeId;
  loopStmt : option StmtPtr;
  initStmt : option StmtPtr;
  initNodeId : NodeId;
  bodyStartLine : Z;
  bodyEndLine : Z;
  loopVarName : string;
  anchorNodeId : NodeId;
}.

(** [LoopInfo()] *)
Definition LoopInfo_default : LoopInfo :=
  {| loopNodeId := 0%N; loopStmt := None; initStmt := None; initNodeId := 0%N;
     bodyStartLine := 0; bodyEndLine := 0; loopVarName := "";
     anchorNodeId := 0%N |}.

(** [ComputeGraphBuilder::ConnectNodes], on [currentGraph]. *)
Definition ConnectNodes (from to : NodeId) (kind : ComputeEdgeKind)
    (label : string) (g : ComputeGraph.t) : ComputeGraph.t :=
  if decide (from = to ∨ from = 0%N ∨ to = 0%N) then g
  else if existsb (fun edge =>
                     bool_decide (ComputeEdge.targetId edge = to
                                  ∧ ComputeEdge.kind edge = kind
                                  ∧ ComputeEdge.label edge = label))
                  (ComputeGraph.GetOutgoingEdges from g)
  then g
  else fst (ComputeGraph.AddEdge from to kind label g).

(** Step 1 of [ConnectLoopVarInitToLoop]: the scan over all nodes for the
    external initializer; the state is [(initNodeId, initLine)]. *)
Definition FindLoopVarInit_step (loopInfo : LoopInfo) (loopLine : Z)
    (acc : NodeId * Z) (entry : NodeId * ComputeNode.t) : NodeId * Z :=
  let '(nid, node) := entry in
  if decide (nid = loopNodeId loopInfo) then acc
  else if decide (ComputeNode.name node = loopVarName loopInfo
                  ∧ ComputeNode.kind node = NK_Variable
                  ∧ ComputeNode.sourceLine node > 0
                  ∧ ComputeNode.sourceLine node < loopLine)
  then if decide (ComputeNode.sourceLine node > snd acc)
       then (nid, ComputeNode.sourceLine node)
       else acc
  else acc.

(** A candidate for the external initializer of the loop variable. *)
Definition init_candidate (loopInfo : LoopInfo) (loopLine : Z)
    (nid : NodeId) (node : ComputeNode.t) : Prop :=
  nid ≠ loopNodeId loopInfo
  ∧ ComputeNode.name node = loopVarName loopInfo
  ∧ ComputeNode.kind node = NK_Variable
  ∧ ComputeNode.sourceLine node > 0
  ∧ ComputeNode.sourceLine node < loopLine.

Definition FindLoopVarInit (loopInfo : LoopInfo) (loopLine : Z)
    (g : ComputeGraph.t) : NodeId * Z :=
  foldl (FindLoopVarInit_step loopInfo loopLine) (0%N, 0)
        (std_map_items (ComputeGraph.nodes g)).

(** Step 4: the identifiers of the outgoing DataFlow edges of the
    initializer that do not go to the Loop node. *)
Definition edgesToRemove (initId loopId : NodeId) (g : ComputeGraph.t)
    : list EdgeId :=
  map ComputeEdge.id
      (filter (fun edge => ComputeEdge.targetId edge ≠ loopId
                           ∧ ComputeEdge.kind edge = EK_DataFlow)
              (ComputeGraph.GetOutgoingEdges initId g)).

(** [ComputeGraphBuilder::ConnectLoopVarInitToLoop], on [currentGraph]. *)
Definition ConnectLoopVarInitToLoop (loopInfo : LoopInfo) (g : ComputeGraph.t)
    : ComputeGraph.t :=
  if decide (loopNodeId loopInfo = 0%N ∨ loopVarName loopInfo = "") then g
  else
    match ComputeGraph.GetNode (loopNodeId loopInfo) g with
    | None => g
    | Some loopNode =>
        let loopLine := ComputeNode.sourceLine loopNode in
        let initId := fst (FindLoopVarInit loopInfo loopLine g) in
        if decide (initId = 0%N) then g
        else
          let hasInitEdge :=
            existsb (fun edge =>
                       bool_decide (ComputeEdge.targetId edge = loopNodeId loopInfo))
                    (ComputeGraph.GetOutgoingEdges initId g) in
          let g1 :=
            if hasInitEdge then g
            else ConnectNodes initId (loopNodeId loopInfo) EK_DataFlow
                              ("init:" +:+ loopVarName loopInfo) g in
          let g2 :=
            foldl (fun acc eid => ComputeGraph.RemoveEdge eid acc) g1
                  (edgesToRemove initId (loopNodeId loopInfo) g1) in
          ComputeGraph.update_node initId
            (fun n => ComputeNode.SetProperty "loop_node_id"
                        (pretty (loopNodeId loopInfo))
                        (ComputeNode.SetProperty "is_loop_var_init" "true" n))
            g2
    end.

(** ** Two graphs as [BuildFromAnchor] hands them to the loop wiring *)

(** [int i = 0; while (i < n) { s += a[i]; ++i; }]: node 1 is the
    declaration of [i] on line 1, node 2 the loop on line 2, node 3 the use
    of [i] on line 3 that the backward trace has connected to node 1. *)
Definition while_loop_graph : ComputeGraph.t :=
  let g := fst (ComputeGraph.CreateNode NK_Variable (ComputeGraph.new "f_L3")) in
  let g := ComputeGraph.update_node 1%N (ComputeNode.describe "i" Op_Unknown 1) g in
  let g := fst (ComputeGraph.CreateNode NK_Loop g) in
  let g := ComputeGraph.update_node 2%N (ComputeNode.describe "while" Op_Unknown 2) g in
  let g := fst (ComputeGraph.CreateNode NK_Variable g) in
  let g := ComputeGraph.update_node 3%N (ComputeNode.describe "i" Op_Unknown 3) g in
  ConnectNodes 1%N 3%N EK_DataFlow "i" g.

Definition while_loop_info : LoopInfo :=
  {| loopNodeId := 2%N; loopStmt := Some 20%N; initStmt := None;
     initNodeId := 0%N; bodyStartLine := 2; bodyEndLine := 5;
     loopVarName := "i"; anchorNodeId := 0%N |}.

(** [#define INIT int i = 0] on line 1 and
    [for (INIT; i < n; ++i) s += a[i];] on line 5: the declaration in the
    init slot is spelled on line 1, so node 1 (the declaration, line 1) is
    below the line of the loop (node 2, line 5); [ProcessForStmt] has
    connected it to the loop with a Control edge labelled [init], and the
    backward trace has connected it to the use of [i] (node 3). *)
Definition macro_init_graph : ComputeGraph.t :=
  let g := fst (ComputeGraph.CreateNode NK_Variable (ComputeGraph.new "f_L5")) in
  let g := ComputeGraph.update_node 1%N (ComputeNode.describe "i" Op_Unknown 1) g in
  let g := fst (ComputeGraph.CreateNode NK_Loop g) in
  let g := ComputeGraph.update_node 2%N (ComputeNode.describe "for" Op_Unknown 5) g in
  let g := fst (ComputeGraph.CreateNode NK_Variable g) in
  let g := ComputeGraph.update_node 3%N (ComputeNode.describe "i" Op_Unknown 5) g in
  let g := ConnectNodes 1%N 2%N EK_Control "init" g in
  ConnectNodes 1%N 3%N EK_DataFlow "i" g.

Definition macro_init_info : LoopInfo :=
  {| loopNodeId := 2%N; loopStmt := Some 20%N; initStmt := Some 21%N;
     initNodeId := 1%N; bodyStartLine := 5; bodyEndLine := 5;
     loopVarName := "i"; anchorNodeId := 0%N |}.

(** ** Callee analysis (ComputeGraphBuilderProcess.cpp, ComputeGraphBuilder.cpp) *)

(** What the builder reads of a [clang::FunctionDecl]. *)
Record FunctionDecl := mkFunctionDecl {
  fd_canonical : FuncPtr;         (* getCanonicalDecl() *)
  fd_name : string;               (* getNameAsString() *)
  fd_hasBody : bool;              (* hasBody() *)
  fd_isIntrinsic : bool;          (* IsVectorIntrinsicFunction(func, sm) *)
}.

(** What the builder reads of a [clang::CallExpr]; a null direct callee is
    [None]. *)
Record CallExpr := mkCallExpr {
  ce_stmt : StmtPtr;
  ce_directCallee : option FunctionDecl;
}.

(** The call stack, the depth counter and their limits, the graph under
    construction, and a history of the entries into [AnalyzeCalleeBody]:
    each entry keeps the callee together with [currentCallStack] and
    [currentCallDepth] as they were when [ProcessCalleeAnalysis] decided to
    enter. *)
Record t := mk {
  enableInterprocedural : bool;
  maxCallDepth : Z;
  currentCallDepth : Z;
  currentCallStack : gset FuncPtr;
  currentLoopInfo : LoopInfo;
  currentGraph : ComputeGraph.t;
  entered : list (FuncPtr * gset FuncPtr * Z);
}.

Definition set_graph (g : ComputeGraph.t) (b : t) : t :=
  {| enableInterprocedural := enableInterprocedural b;
     maxCallDepth := maxCallDepth b;
     currentCallDepth := currentCallDepth b;
     currentCallStack := currentCallStack b;
     currentLoopInfo := currentLoopInfo b;
     currentGraph := g;
     entered := entered b |}.

Definition set_call_state (depth : Z) (stack : gset FuncPtr) (b : t) : t :=
  {| enableInterprocedural := enableInterprocedural b;
     maxCallDepth := maxCallDepth b;
     currentCallDepth := depth;
     currentCallStack := stack;
     currentLoopInfo := currentLoopInfo b;
     currentGraph := currentGraph b;
     entered := entered b |}.

Definition record_entry (e : FuncPtr * gset FuncPtr * Z) (b : t) : t :=
  {| enableInterprocedural := enableInterprocedural b;
     maxCallDepth := maxCallDepth b;
     currentCallDepth := currentCallDepth b;
     currentCallStack := currentCallStack b;
     currentLoopInfo := currentLoopInfo b;
     currentGraph := currentGraph b;
     entered := entered b ++ [e] |}.

(** The state in which [BuildFromAnchor] starts lowering: an empty call
    stack, depth 0, a fresh graph. *)
Definition BuildFromAnchor_init (enable : bool) (maxDepth : Z)
    (graphName : string) : t :=
  {| enableInterprocedural := enable; maxCallDepth := maxDepth;
     currentCallDepth := 0; currentCallStack := ∅;
     currentLoopInfo := LoopInfo_default;
     currentGraph := ComputeGraph.new graphName;
     entered := [] |}.

(** The work [AnalyzeCalleeBody] does for one callee, as the sequence of its
    effects: lowering steps on the graph (parameter nodes, argument and
    body statements, context stamping) and, whenever [BuildExpressionTree]
    reaches a call expression, [ProcessCallExpr] on it, which ends in
    [ProcessCalleeAnalysis]. *)
Inductive BodyStep :=
  | Lower (f : ComputeGraph.t -> ComputeGraph.t)
  | LowerCall (call : CallExpr) (nodeId : NodeId).

(** An entry into [AnalyzeCalleeBody] respects the guard: the callee was
    not on the call stack and the depth was below the limit. *)
Definition entry_ok (maxDepth : Z) (e : FuncPtr * gset FuncPtr * Z) : Prop :=
  (e.1.1 ∉ e.1.2) ∧ e.2 < maxDepth.

(** What a lowering step may change between two builder states: the graph
    and the history, which only grows by entries that respect the guard. *)
Definition call_state_kept (b b' : t) : Prop :=
  enableInterprocedural b' = enableInterprocedural b
  ∧ maxCallDepth b' = maxCallDepth b
  ∧ currentCallDepth b' = currentCallDepth b
  ∧ currentCallStack b' = currentCallStack b
  ∧ ∃ new, entered b' = entered b ++ new
           ∧ Forall (entry_ok (maxCallDepth b)) new.

(** [ComputeGraphBuilder::ShouldSkipCalleeAnalysis] *)
Definition ShouldSkipCalleeAnalysis (callee : FunctionDecl) : bool :=
  negb (fd_hasBody callee) || fd_isIntrinsic callee.

Section CalleeAnalysis.

(** The lowering the frontend's AST induces for each callee body. *)
Variable calleeBody : FunctionDecl -> NodeId -> CallExpr -> list BodyStep.

(** One effect of the callee's lowering. *)
Definition BodyStep_run (process : CallExpr -> NodeId -> t -> t)
    (acc : t) (step : BodyStep) : t :=
  match step with
  | Lower f => set_graph (f (currentGraph acc)) acc
  | LowerCall call nodeId => process call nodeId acc
  end.

(** [ComputeGraphBuilder::AnalyzeCalleeBody], over the function that
    handles nested call expressions. *)
Definition AnalyzeCalleeBody
    (process : CallExpr -> NodeId -> t -> t)
    (callee : FunctionDecl) (callNodeId : NodeId) (callExpr : CallExpr)
    (b : t) : t :=
  if ShouldSkipCalleeAnalysis callee then b
  else
    let b1 :=
      set_graph
        (ComputeGraph.update_node callNodeId
           (fun n => ComputeNode.SetProperty "callee_name" (fd_name callee)
                       (ComputeNode.SetProperty "callee_analyzed" "true" n))
           (currentGraph b)) b in
    foldl (BodyStep_run process) b1 (calleeBody callee callNodeId callExpr).

(** [ComputeGraphBuilder::ProcessCalleeAnalysis].  The recursion through
    [AnalyzeCalleeBody] is on [fuel]; every entry raises
    [currentCallDepth], which the first guard bounds by [maxCallDepth]. *)
Fixpoint ProcessCalleeAnalysis_fuel (fuel : nat) (callExpr : CallExpr)
    (nodeId : NodeId) (b : t) : t :=
  if negb (enableInterprocedural b)
     || bool_decide (currentCallDepth b >= maxCallDepth b) then b
  else
    match ce_directCallee callExpr with
    | None => b
    | Some callee =>
        if negb (fd_hasBody callee) then b
        else if fd_isIntrinsic callee then
          set_graph
            (ComputeGraph.update_node nodeId
               (ComputeNode.SetProperty "is_intrinsic" "true")
               (currentGraph b)) b
        else if decide (fd_canonical callee ∈ currentCallStack b) then b
        else
          match fuel with
          | O => b
          | S fuel' =>
              let b1 :=
                record_entry
                  (fd_canonical callee, currentCallStack b, currentCallDepth b) b in
              let b2 :=
                set_call_state (currentCallDepth b1 + 1)
                               ({[ fd_canonical callee ]} ∪ currentCallStack b1) b1 in
              let b3 :=
                AnalyzeCalleeBody (ProcessCalleeAnalysis_fuel fuel')
                                  callee nodeId callExpr b2 in
              set_call_state (currentCallDepth b3 - 1)
                             (currentCallStack b3 ∖ {[ fd_canonical callee ]}) b3
          end
    end.

Definition ProcessCalleeAnalysis (callExpr : CallExpr) (nodeId : NodeId)
    (b : t) : t :=
  ProcessCalleeAnalysis_fuel
    (Z.to_nat (maxCallDepth b - currentCallDepth b)) callExpr nodeId b.

End CalleeAnalysis.

(** ** A recursive callee and a chain of callees *)

(** [int fact(int n) { return n <= 1 ? 1 : n * fact(n - 1); }]: lowering the
    body of [fact] reaches the call of [fact] in it. *)
Definition fact_decl : FunctionDecl :=
  {| fd_canonical := 7%N; fd_name := "fact"; fd_hasBody := true;
     fd_isIntrinsic := false |}.
Definition fact_call : CallExpr :=
  {| ce_stmt := 70%N; ce_directCallee := Some fact_decl |}.

(** [f1] calls [f2], [f2] calls [f3], and so on without end. *)
Definition chain_decl (i : N) : FunctionDecl :=
  {| fd_canonical := i; fd_name := "f"; fd_hasBody := true;
     fd_isIntrinsic := false |}.
Definition chain_call (i : N) : CallExpr :=
  {| ce_stmt := (100 + i)%N; ce_directCallee := Some (chain_decl i) |}.

Definition example_calleeBody (callee : FunctionDecl) (callNodeId : NodeId)
    (callExpr : CallExpr) : list BodyStep :=
  if decide (fd_canonical callee = 7%N) then
    [Lower (fun g => fst (ComputeGraph.CreateNode NK_Parameter g));
     LowerCall fact_call 0%N]
  else
    [LowerCall (chain_call (fd_canonical callee + 1)) 0%N].

End Builder.

(* ===================================================================== *)
(** * 5. Backward trace (ComputeGraphBuilderTrace.cpp)                    *)
(* ===================================================================== *)

Module Trace.

(** A [clang::DeclRefExpr]: the name of the declaration it refers to and
    whether that declaration is a [VarDecl]. *)
Record DeclRefExpr := mkDeclRefExpr {
  ref_name : string;
  ref_isVarDecl : bool;
}.

(** The statement shapes the trace distinguishes.  For an assignment and
    for [++]/[--] the operand is given when, after
    [IgnoreParenImpCasts], it is a [DeclRefExpr]. *)
Inductive StmtShape :=
  | DeclStmt (vars : list string)
  | AssignmentOp (lhs : option DeclRefExpr)
  | IncDecOp (sub : option DeclRefExpr)
  | OtherStmt.

(** A statement: its address, its shape and the line [GetSourceLine]
    reports for it. *)
Record Stmt := mkStmt {
  ptr : StmtPtr;
  shape : StmtShape;
  line : Z;
}.

Definition GetSourceLine (s : Stmt) : Z := line s.

(** [ComputeGraphBuilder::StmtDefinesVariable] *)
Definition StmtDefinesVariable (s : Stmt) (varName : string) : bool :=
  match shape s with
  | DeclStmt vars => existsb (fun v => bool_decide (v = varName)) vars
  | AssignmentOp (Some lhs) => bool_decide (ref_name lhs = varName)
  | IncDecOp (Some sub) => bool_decide (ref_name sub = varName)
  | _ => false
  end.

(** [CPGContext::GetDefinedVars] (CPGAnnotation.cpp) *)
Definition GetDefinedVars (s : Stmt) : gset string :=
  match shape s with
  | AssignmentOp (Some lhs) =>
      if ref_isVarDecl lhs then {[ ref_name lhs ]} else ∅
  | DeclStmt vars => list_to_set vars
  | IncDecOp (Some sub) =>
      if ref_isVarDecl sub then {[ ref_name sub ]} else ∅
  | _ => ∅
  end.

(** [CPGContext::GetDefinedVarsCached]: the cache holds, for a statement of
    the CFG, the value [GetDefinedVars] gave when the reaching definitions
    were built, and the function falls back to [GetDefinedVars]. *)
Definition GetDefinedVarsCached (s : Stmt) : gset string := GetDefinedVars s.

(** The part of [LoopInfo] the trace reads. *)
Record LoopInfo := mkLoopInfo {
  loopNodeId : NodeId;
  bodyStartLine : Z;
  bodyEndLine : Z;
  loopVarName : string;
}.

(** [ComputeGraphBuilder::IsLoopVariable] *)
Definition IsLoopVariable (li : LoopInfo) (currentGraph : ComputeGraph.t)
    (varName : string) (currentLine : Z) : bool :=
  if decide (loopVarName li = "") then false
  else if decide (varName ≠ loopVarName li) then false
  else
    let loopLine :=
      if decide (loopNodeId li ≠ 0%N) then
        match ComputeGraph.GetNode (loopNodeId li) currentGraph with
        | Some loopNode => ComputeNode.sourceLine loopNode
        | None => 0
        end
      else 0 in
    bool_decide ((loopLine > 0 ∧ currentLine = loopLine)
                 ∨ (currentLine >= bodyStartLine li
                    ∧ currentLine <= bodyEndLine li)).

(** [ComputeGraphBuilder::IsLoopCarriedDependency] *)
Definition IsLoopCarriedDependency (li : LoopInfo) (modLine currentLine : Z)
    : bool :=
  if decide (loopNodeId li = 0%N) then false
  else bool_decide (modLine >= bodyStartLine li
                    ∧ modLine <= bodyEndLine li
                    ∧ modLine >= currentLine).

(** [ModificationFinder], run over the statements of the function body: the
    assignments to, and the increments and decrements of, the variable.  The
    visitor compares declarations; the model names the declaration, one
    variable of that name being in scope. *)
Definition is_modification_of (varName : string) (s : Stmt) : bool :=
  match shape s with
  | AssignmentOp (Some lhs) => bool_decide (ref_name lhs = varName)
  | IncDecOp (Some sub) => bool_decide (ref_name sub = varName)
  | _ => false
  end.

Definition FindVariableModifications (body : list Stmt) (varName : string)
    : list Stmt :=
  filter (fun s => is_modification_of varName s = true) body.

(** [DefinitionFinder], which [FindDefinitionsInFunction] runs over the
    statements of the function body: a declaration statement is pushed once
    for each variable of that name it declares, an assignment or [++]/[--]
    when its operand names the variable.  The line of the use is stored and
    never read. *)
Definition FindDefinitionsInFunction (body : list Stmt) (varName : string)
    : list Stmt :=
  stmt ← body;
  match shape stmt with
  | DeclStmt vars => v ← vars; if decide (v = varName) then [stmt] else []
  | AssignmentOp (Some lhs) =>
      if decide (ref_name lhs = varName) then [stmt] else []
  | IncDecOp (Some sub) =>
      if decide (ref_name sub = varName) then [stmt] else []
  | _ => []
  end.

(** The kind of the edge [ProcessVariableModification] asks [ConnectNodes]
    for, from the node built for the modification (or for its left-hand
    side) to the node of the use, if any. *)
Definition ProcessVariableModification (li : LoopInfo) (modStmt useStmt : Stmt)
    : option ComputeEdgeKind :=
  if decide (ptr modStmt = ptr useStmt) then None
  else
    let modLine := GetSourceLine modStmt in
    let currentLine := GetSourceLine useStmt in
    if IsLoopCarriedDependency li modLine currentLine then Some EK_LoopCarried
    else if decide (modLine < currentLine) then Some EK_DataFlow
    else None.

(** The first loop of [FilterKilledDefinitions]: duplicates are skipped and
    the definitions below the use line are kept. *)
Fixpoint collect_defInfos (useLine : Z) (processedDefs : gset StmtPtr)
    (defs : list Stmt) : list Stmt :=
  match defs with
  | [] => []
  | def :: rest =>
      if decide (ptr def ∈ processedDefs) then
        collect_defInfos useLine processedDefs rest
      else
        let tail := collect_defInfos useLine ({[ ptr def ]} ∪ processedDefs) rest in
        if decide (GetSourceLine def < useLine) then def :: tail else tail
  end.

(** The comparison [a.line < b.line] of the sort, as the order it sorts
    into.  [std::sort] leaves the order of equal lines open; the model
    keeps the one of the merge sort. *)
Definition line_le (a b : Stmt) : Prop := line a <= line b.

Global Instance line_le_dec a b : Decision (line_le a b).
Proof. unfold line_le. apply _. Defined.

Global Instance line_le_total : Total line_le.
Proof. intros a b. unfold line_le. lia. Qed.

Global Instance line_le_trans : Transitive line_le.
Proof. intros a b c. unfold line_le. lia. Qed.

(** The kill loop: the definition at the head is dropped when a later one
    defines the variable. *)
Fixpoint kill_loop (varName : string) (defInfos : list Stmt) : list Stmt :=
  match defInfos with
  | [] => []
  | currentDef :: later =>
      let isKilled :=
        existsb (fun laterDef =>
                   bool_decide (varName ∈ GetDefinedVarsCached laterDef)) later in
      if isKilled then kill_loop varName later
      else currentDef :: kill_loop varName later
  end.

Definition MAX_DEFS_TO_CHECK : nat := 10.

(** [ComputeGraphBuilder::FilterKilledDefinitions] *)
Definition FilterKilledDefinitions (defs : list Stmt) (useStmt : Stmt)
    (varName : string) : list Stmt :=
  if decide (length defs <= 1)%nat then defs
  else
    let useLine := GetSourceLine useStmt in
    let defInfos := collect_defInfos useLine ∅ defs in
    match defInfos with
    | [] => []
    | _ =>
        let sorted := merge_sort line_le defInfos in
        let startIdx :=
          if decide (MAX_DEFS_TO_CHECK < length sorted)%nat
          then (length sorted - MAX_DEFS_TO_CHECK)%nat else 0%nat in
        kill_loop varName (drop startIdx sorted)
    end.

(** The four out-parameters of [FindNearestDefinitions]. *)
Record Nearest := mkNearest {
  nearestBackwardDef : option Stmt;
  nearestBackwardLine : Z;
  loopCarriedDef : option Stmt;
  maxLoopLine : Z;
}.

Definition FindNearestDefinitions_step (li : LoopInfo) (varName : string)
    (currentLine : Z) (acc : Nearest) (defStmt : Stmt) : Nearest :=
  if negb (StmtDefinesVariable defStmt varName) then acc
  else
    let defLine := GetSourceLine defStmt in
    if decide (defLine < currentLine) then
      if decide (defLine > nearestBackwardLine acc) then
        {| nearestBackwardDef := Some defStmt; nearestBackwardLine := defLine;
           loopCarriedDef := loopCarriedDef acc; maxLoopLine := maxLoopLine acc |}
      else acc
    else if decide (loopNodeId li ≠ 0%N) then
      if decide (defLine >= bodyStartLine li ∧ defLine <= bodyEndLine li) then
        if decide (defLine > maxLoopLine acc) then
          {| nearestBackwardDef := nearestBackwardDef acc;
             nearestBackwardLine := nearestBackwardLine acc;
             loopCarriedDef := Some defStmt; maxLoopLine := defLine |}
        else acc
      else acc
    else acc.

(** [ComputeGraphBuilder::FindNearestDefinitions] *)
Definition FindNearestDefinitions (li : LoopInfo) (filteredDefs : list Stmt)
    (varName : string) (currentLine : Z) : Nearest :=
  foldl (FindNearestDefinitions_step li varName currentLine)
        {| nearestBackwardDef := None; nearestBackwardLine := -1;
           loopCarriedDef := None; maxLoopLine := -1 |}
        filteredDefs.

(** The definitions [ProcessSingleVariableReference] hands to
    [ProcessDefinitionNode] after the reaching-definition query, with the
    kind of the edge into the node of the use. *)
Definition ReachingDefConnections (li : LoopInfo) (defs : list Stmt)
    (useStmt : Stmt) (varName : string) : list (Stmt * ComputeEdgeKind) :=
  let filteredDefs := FilterKilledDefinitions defs useStmt varName in
  let near :=
    FindNearestDefinitions li filteredDefs varName (GetSourceLine useStmt) in
  match nearestBackwardDef near with
  | Some d => [(d, EK_DataFlow)]
  | None => []
  end ++
  match loopCarriedDef near with
  | Some d =>
      if decide (option_map ptr (nearestBackwardDef near) = Some (ptr d)) then []
      else [(d, EK_LoopCarried)]
  | None => []
  end.

(** The edges of the modification scan that runs first, over the result of
    [FindVariableModifications]. *)
Definition ModificationConnections (li : LoopInfo) (mods : list Stmt)
    (useStmt : Stmt) : list (Stmt * ComputeEdgeKind) :=
  omap (fun m => pair m <$> ProcessVariableModification li m useStmt) mods.

(** The two sets [TraceAllDefinitionsBackward] shares among the references
    of one statement.  [tracedVars] holds declarations; the model names
    them, as [FindVariableModifications] does. *)
Record TraceSets := mkTraceSets {
  tracedVars : gset string;
  tracedVarNodes : gset (string * NodeId);
}.

(** The definitions [ProcessSingleVariableReference] filters: the result
    [traced] of [TraceVariableDefinitionsInterprocedural], as it comes, and
    the definitions found in the function when that is empty. *)
Definition definitions_to_filter (body traced : list Stmt) (varName : string)
    : list Stmt :=
  match traced with
  | [] => FindDefinitionsInFunction body varName
  | _ => traced
  end.

(** [ComputeGraphBuilder::ProcessSingleVariableReference], for the
    reference [varRef] with node [varNodeId] in [useStmt]: the two sets
    afterwards and the edges into [varNodeId] it asks for, each given by
    the statement whose node is the source and by its kind.  [body] holds
    the statements of the function that contains [useStmt] (none when it
    has no body) and [traced] is what
    [TraceVariableDefinitionsInterprocedural] returns for [varRef].  The
    edge is asked of [ConnectNodes] once a node is there or can be built
    for the statement, and [ConnectNodes] drops it when [varNodeId] is 0,
    when both ends are the same node and when the graph has the edge.  The
    call sites of a parameter ([TraceParameterToCallSites]) and the
    recursion into the statements connected are left out. *)
Definition ProcessSingleVariableReference (li : LoopInfo)
    (currentGraph : ComputeGraph.t) (body traced : list Stmt)
    (varRef : DeclRefExpr) (varNodeId : NodeId) (useStmt : Stmt)
    (sets : TraceSets) : TraceSets * list (Stmt * ComputeEdgeKind) :=
  let varName := ref_name varRef in
  let currentLine := GetSourceLine useStmt in
  if IsLoopVariable li currentGraph varName currentLine then (sets, [])
  else if negb (ref_isVarDecl varRef) then (sets, [])
  else
    let '(tracedVars', byModifications) :=
      if decide (varName ∈ tracedVars sets) then (tracedVars sets, [])
      else
        ({[ varName ]} ∪ tracedVars sets,
         ModificationConnections li (FindVariableModifications body varName)
           useStmt) in
    if decide (varNodeId = 0%N) then
      ({| tracedVars := tracedVars'; tracedVarNodes := tracedVarNodes sets |},
       byModifications)
    else if decide ((varName, varNodeId) ∈ tracedVarNodes sets) then
      ({| tracedVars := tracedVars'; tracedVarNodes := tracedVarNodes sets |},
       byModifications)
    else
      let defs := definitions_to_filter body traced varName in
      ({| tracedVars := tracedVars';
          tracedVarNodes := {[ (varName, varNodeId) ]} ∪ tracedVarNodes sets |},
       byModifications ++ ReachingDefConnections li defs useStmt varName).


(** Two assignments before a use:
<<
      x = 1;          // line 1
      x = 2;          // line 2
      int y = x + 1;  // line 3
>>
    [FindVariableModifications] finds both assignments; the second alone
    reaches the use.  With the declaration [int x = 1;] ([decl1]) on line 1
    instead, it finds the second alone. *)
Definition x_ref : DeclRefExpr := {| ref_name := "x"; ref_isVarDecl := true |}.
Definition decl1 : Stmt :=
  {| ptr := 100%N; shape := DeclStmt ["x"]; line := 1 |}.
Definition assign1 : Stmt :=
  {| ptr := 101%N; shape := AssignmentOp (Some x_ref); line := 1 |}.
Definition assign2 : Stmt :=
  {| ptr := 102%N; shape := AssignmentOp (Some x_ref); line := 2 |}.
Definition use3 : Stmt :=
  {| ptr := 103%N; shape := DeclStmt ["y"]; line := 3 |}.
Definition no_loop : LoopInfo :=
  {| loopNodeId := 0%N; bodyStartLine := 0; bodyEndLine := 0;
     loopVarName := "" |}.
Definition no_sets : TraceSets := {| tracedVars := ∅; tracedVarNodes := ∅ |}.

(** A definition of [x] on line 2, then [n] assignments to other variables
    on the lines 3, 4, ... and a use of [x] below them; all of them are in
    the traced list, which holds the definitions of the variables the
    reaching definition of [x] uses as well. *)
Definition t_ref : DeclRefExpr := {| ref_name := "t"; ref_isVarDecl := true |}.
Definition other_assign (i : nat) : Stmt :=
  {| ptr := N.of_nat (200 + i); shape := AssignmentOp (Some t_ref);
     line := 3 + Z.of_nat i |}.
Definition crowded_defs (n : nat) : list Stmt :=
  assign2 :: (other_assign <$> seq 0 n).
Definition use20 : Stmt :=
  {| ptr := 120%N; shape := DeclStmt ["y"]; line := 20 |}.

End Trace.

(* ===================================================================== *)
(** * 6. ICFG parameter nodes (CPGBase.h, CPGBuilder.cpp)                 *)
(* ===================================================================== *)

Module ICFG.

(** [enum class ICFGNodeKind] *)
Inductive ICFGNodeKind :=
  | IK_Entry | IK_Exit | IK_Statement | IK_CallSite | IK_ReturnSite
  | IK_FormalIn | IK_FormalOut | IK_ActualIn | IK_ActualOut.

(** [enum class ICFGEdgeKind] *)
Inductive ICFGEdgeKind :=
  | IE_Intraprocedural | IE_Call | IE_Return | IE_ParamIn | IE_ParamOut
  | IE_True | IE_False | IE_Unconditional.

Global Instance ICFGNodeKind_eq_dec : EqDecision ICFGNodeKind.
Proof. solve_decision. Defined.

(** An [ICFGNode*]: the nodes of a function live in the vector
    [icfgNodes[canonical]] and never move, so a pointer is the key of the
    vector and the position in it. *)
Definition NodeRef : Type := FuncPtr * nat.

(** [class ICFGNode] *)
Record ICFGNode := mkICFGNode {
  kind : ICFGNodeKind;
  stmt : option StmtPtr;
  func : FuncPtr;
  callExpr : option StmtPtr;
  callee : option FuncPtr;
  paramIndex : Z;
  paramName : string;
  successors : list (NodeRef * ICFGEdgeKind);
  predecessors : list (NodeRef * ICFGEdgeKind);
}.

(** What the linker reads of a [clang::FunctionDecl] and of a
    [clang::CallExpr]: the canonical declaration and the parameter names;
    the argument names [GetArgumentName] gives. *)
Record FunctionDecl := mkFunctionDecl {
  fd_ptr : FuncPtr;
  fd_canonical : FuncPtr;
  fd_params : list string;
}.

Record CallExpr := mkCallExpr {
  ce_stmt : StmtPtr;
  ce_args : list string;
}.

(** The part of [CPGContext] the parameter nodes live in. *)
Record CPGContext := mkCPGContext {
  icfgNodes : gmap FuncPtr (list ICFGNode);
}.

(** [ICFGNode(k)] with the in-class defaults, then [node->func = func]. *)
Definition ICFGNode_new (k : ICFGNodeKind) (f : FuncPtr) : ICFGNode :=
  {| kind := k; stmt := None; func := f; callExpr := None; callee := None;
     paramIndex := -1; paramName := ""; successors := []; predecessors := [] |}.

(** [CPGContext::CreateICFGNode] *)
Definition CreateICFGNode (k : ICFGNodeKind) (f : FunctionDecl)
    (ctx : CPGContext) : CPGContext * NodeRef :=
  let key := fd_canonical f in
  let vec := default [] (icfgNodes ctx !! key) in
  ({| icfgNodes := <[key := vec ++ [ICFGNode_new k (fd_ptr f)]]> (icfgNodes ctx) |},
   (key, length vec)).

(** A write through an [ICFGNode*]. *)
Definition update_node (r : NodeRef) (f : ICFGNode -> ICFGNode)
    (ctx : CPGContext) : CPGContext :=
  {| icfgNodes := alter (alter f (snd r)) (fst r) (icfgNodes ctx) |}.

(** [CPGContext::FindFormalInNode] *)
Definition FindFormalInNode (calleeDecl : FunctionDecl) (idx : Z)
    (ctx : CPGContext) : option NodeRef :=
  let canonicalCallee := fd_canonical calleeDecl in
  match icfgNodes ctx !! canonicalCallee with
  | None => None
  | Some vec =>
      match list_find (fun node => kind node = IK_FormalIn
                                   ∧ paramIndex node = idx) vec with
      | Some (i, _) => Some (canonicalCallee, i)
      | None => None
      end
  end.

(** [CPGContext::AddICFGEdge] *)
Definition AddICFGEdge (from to : NodeRef) (k : ICFGEdgeKind)
    (ctx : CPGContext) : CPGContext :=
  let ctx1 :=
    update_node from
      (fun n => {| kind := kind n; stmt := stmt n; func := func n;
                   callExpr := callExpr n; callee := callee n;
                   paramIndex := paramIndex n; paramName := paramName n;
                   successors := successors n ++ [(to, k)];
                   predecessors := predecessors n |}) ctx in
  update_node to
    (fun n => {| kind := kind n; stmt := stmt n; func := func n;
                 callExpr := callExpr n; callee := callee n;
                 paramIndex := paramIndex n; paramName := paramName n;
                 successors := successors n;
                 predecessors := predecessors n ++ [(from, k)] |}) ctx1.

(** One turn of the loop of [CreateParameterNodes]. *)
Definition CreateParameterNodes_step (caller calleeDecl : FunctionDecl)
    (call : CallExpr) (callNode : NodeRef) (ctx : CPGContext) (i : nat)
    : CPGContext :=
  let actualName := default "" (ce_args call !! i) in
  let formalName := default "" (fd_params calleeDecl !! i) in
  let '(ctx1, actualIn) := CreateICFGNode IK_ActualIn caller ctx in
  let ctx2 :=
    update_node actualIn
      (fun n => {| kind := kind n; stmt := stmt n; func := func n;
                   callExpr := Some (ce_stmt call);
                   callee := Some (fd_ptr calleeDecl);
                   paramIndex := Z.of_nat i; paramName := actualName;
                   successors := successors n;
                   predecessors := predecessors n |}) ctx1 in
  let '(ctx3, formalIn) :=
    match FindFormalInNode calleeDecl (Z.of_nat i) ctx2 with
    | Some formalIn => (ctx2, formalIn)
    | None =>
        let '(c, formalIn) := CreateICFGNode IK_FormalIn calleeDecl ctx2 in
        (update_node formalIn
           (fun n => {| kind := kind n; stmt := stmt n; func := func n;
                        callExpr := callExpr n; callee := callee n;
                        paramIndex := Z.of_nat i; paramName := formalName;
                        successors := successors n;
                        predecessors := predecessors n |}) c,
         formalIn)
    end in
  AddICFGEdge actualIn formalIn IE_ParamIn
    (AddICFGEdge callNode actualIn IE_ParamIn ctx3).

(** [CPGContext::CreateParameterNodes] *)
Definition CreateParameterNodes (caller calleeDecl : FunctionDecl)
    (call : CallExpr) (callNode : NodeRef) (ctx : CPGContext) : CPGContext :=
  let numArgs := length (ce_args call) in
  let numParams := length (fd_params calleeDecl) in
  let numToProcess := Nat.min numArgs numParams in
  foldl (CreateParameterNodes_step caller calleeDecl call callNode) ctx
        (seq 0 numToProcess).

(** The nodes of function [f] that satisfy [P]. *)
Definition nodes_where (P : ICFGNode -> Prop) `{!∀ n, Decision (P n)}
    (f : FuncPtr) (ctx : CPGContext) : list ICFGNode :=
  filter P (default [] (icfgNodes ctx !! f)).

Definition is_ActualIn (call : CallExpr) (i : nat) (n : ICFGNode) : Prop :=
  kind n = IK_ActualIn ∧ callExpr n = Some (ce_stmt call)
  ∧ paramIndex n = Z.of_nat i.

Definition is_FormalIn (i : Z) (n : ICFGNode) : Prop :=
  kind n = IK_FormalIn ∧ paramIndex n = i.

Global Instance is_ActualIn_dec call i n : Decision (is_ActualIn call i n).
Proof. unfold is_ActualIn. apply _. Defined.
Global Instance is_FormalIn_dec i n : Decision (is_FormalIn i n).
Proof. unfold is_FormalIn. apply _. Defined.

(** One linked call site, as [LinkSingleCallSite] hands it to
    [CreateParameterNodes]. *)
Record Link := mkLink {
  link_caller : FunctionDecl;
  link_callee : FunctionDecl;
  link_call : CallExpr;
  link_callNode : NodeRef;
}.

Definition link_all (ctx : CPGContext) (links : list Link) : CPGContext :=
  foldl (fun c l => CreateParameterNodes (link_caller l) (link_callee l)
                      (link_call l) (link_callNode l) c) ctx links.

(** No function has two [FormalIn] nodes of the same parameter index. *)
Definition FormalIn_unique (ctx : CPGContext) : Prop :=
  ∀ f i, (length (nodes_where (is_FormalIn i) f ctx) <= 1)%nat.

(** No [FormalIn] node at all, as before the call sites are linked:
    [CreateParameterNodes] is the one place that creates them. *)
Definition no_FormalIn (ctx : CPGContext) : Prop :=
  map_Forall (fun _ vec => Forall (fun n => kind n ≠ IK_FormalIn) vec)
             (icfgNodes ctx).

Global Instance no_FormalIn_dec ctx : Decision (no_FormalIn ctx).
Proof. unfold no_FormalIn. apply _. Defined.

(** [numToProcess] of a link. *)
Definition linked_positions (l : Link) : nat :=
  Nat.min (length (ce_args (link_call l))) (length (fd_params (link_callee l))).

(** Link [l] is of call expression [call], made in function [f], and
    processes argument position [j]. *)
Definition links_ActualIn (call : CallExpr) (j : nat) (f : FuncPtr) (l : Link)
    : Prop :=
  f = fd_canonical (link_caller l)
  ∧ ce_stmt (link_call l) = ce_stmt call
  ∧ (j < linked_positions l)%nat.

Global Instance links_ActualIn_dec call j f l :
  Decision (links_ActualIn call j f l).
Proof. unfold links_ActualIn. apply _. Defined.

(** Two calls of [add(a, b)] in [main], the second with a surplus
    argument:
<<
      int add(int a, int b);
      int main() { ... add(x, y) ... add(u, v, w) ... }
>>
    [main] has its entry node and the two call-site nodes, [add] its entry
    node. *)
Definition example_main : FunctionDecl :=
  {| fd_ptr := 1%N; fd_canonical := 1%N; fd_params := [] |}.
Definition example_add : FunctionDecl :=
  {| fd_ptr := 2%N; fd_canonical := 2%N; fd_params := ["a"; "b"] |}.
Definition example_call1 : CallExpr :=
  {| ce_stmt := 11%N; ce_args := ["x"; "y"] |}.
Definition example_call2 : CallExpr :=
  {| ce_stmt := 12%N; ce_args := ["u"; "v"; "w"] |}.

Definition example_ctx : CPGContext :=
  let c0 := {| icfgNodes := ∅ |} in
  let c1 := fst (CreateICFGNode IK_Entry example_main c0) in
  let c2 := fst (CreateICFGNode IK_CallSite example_main c1) in
  let c3 := fst (CreateICFGNode IK_CallSite example_main c2) in
  fst (CreateICFGNode IK_Entry example_add c3).

Definition example_links : list Link :=
  [ {| link_caller := example_main; link_callee := example_add;
       link_call := example_call1; link_callNode := (1%N, 1%nat) |};
    {| link_caller := example_main; link_callee := example_add;
       link_call := example_call2; link_callNode := (1%N, 2%nat) |} ].

End ICFG.

(* ===================================================================== *)
(** * 7. Data-flow path query (CPGAnnotation.cpp)                         *)
(* ===================================================================== *)

Module Query.

(** [struct DataDependency] *)
Inductive DepKind := Flow | Anti | Output.

Record DataDependency := mkDataDependency {
  sourceStmt : StmtPtr;
  sinkStmt : StmtPtr;
  varName : string;
  kind : DepKind;
}.

(** [class PDGNode] *)
Record PDGNode := mkPDGNode {
  stmt : StmtPtr;
  dataDeps : list DataDependency;
}.

(** The part of [CPGContext] the query reads: the PDG nodes and, for
    [GetDefinedVars], the variables each statement of the AST defines (a
    [std::set], in its iteration order). *)
Record CPGContext := mkCPGContext {
  pdgNodes : gmap StmtPtr PDGNode;
  GetDefinedVars : StmtPtr -> list string;
}.

(** [CPGContext::GetUses] *)
Definition GetUses (ctx : CPGContext) (defStmt : StmtPtr) (var : string)
    : list StmtPtr :=
  map fst
      (filter (fun entry =>
                 Exists (fun dep => sourceStmt dep = defStmt ∧ varName dep = var)
                        (dataDeps (snd entry)))
              (std_map_items (pdgNodes ctx))).

(** The worklist and the visited set of [HasDataFlowPath]. *)
Definition PathState : Type := list StmtPtr * gset StmtPtr.

(** [CPGContext::EnqueueVariableUses] *)
Definition EnqueueVariableUses (ctx : CPGContext) (current : StmtPtr)
    (var : string) (st : PathState) : PathState :=
  foldl (fun acc use =>
           if decide (use ∈ snd acc) then acc
           else (fst acc ++ [use], {[ use ]} ∪ snd acc))
        st (GetUses ctx current var).

(** [CPGContext::ProcessDefinedVarsForPath] *)
Definition ProcessDefinedVarsForPath (ctx : CPGContext) (current : StmtPtr)
    (filterVar : string) (st : PathState) : PathState :=
  foldl (fun acc var =>
           if decide (filterVar ≠ "" ∧ var ≠ filterVar) then acc
           else EnqueueVariableUses ctx current var acc)
        st (GetDefinedVars ctx current).

(** The [while (!worklist.empty())] loop; [None] when the fuel runs out. *)
Fixpoint HasDataFlowPath_loop (fuel : nat) (ctx : CPGContext)
    (sink : StmtPtr) (filterVar : string) (st : PathState) : option bool :=
  match fuel with
  | O => None
  | S fuel' =>
      match fst st with
      | [] => Some false
      | current :: rest =>
          if decide (current = sink) then Some true
          else HasDataFlowPath_loop fuel' ctx sink filterVar
                 (ProcessDefinedVarsForPath ctx current filterVar (rest, snd st))
      end
  end.

(** [CPGContext::HasDataFlowPath] with an explicit bound on the turns of
    the loop. *)
Definition HasDataFlowPath_fuel (fuel : nat) (ctx : CPGContext)
    (source sink : StmtPtr) (filterVar : string) : option bool :=
  HasDataFlowPath_loop fuel ctx sink filterVar ([source], {[ source ]}).

(** Every statement enters the worklist at most once, and apart from the
    source only keys of [pdgNodes] do: [size pdgNodes + 2] turns are
    enough (lemma [HasDataFlowPath_fuel_enough] below). *)
Definition HasDataFlowPath (ctx : CPGContext) (source sink : StmtPtr)
    (filterVar : string) : bool :=
  default false
    (HasDataFlowPath_fuel (size (pdgNodes ctx) + 2) ctx source sink filterVar).

(** What holds of the worklist of [HasDataFlowPath]: it holds no statement
    twice, also counting the statements [popped] from it; all of them are
    visited, and the visited statements are the source and keys of
    [pdgNodes]. *)
Definition path_inv (ctx : CPGContext) (source : StmtPtr)
    (popped : list StmtPtr) (st : PathState) : Prop :=
  NoDup (popped ++ fst st)
  ∧ (∀ x, x ∈ popped ++ fst st → x ∈ snd st)
  ∧ (∀ x, x ∈ snd st → x = source ∨ is_Some (pdgNodes ctx !! x)).

End Query.

(* ===================================================================== *)
(** * 7A. More of the graph container (ComputeGraph.cpp)                  *)
(* ===================================================================== *)

Module GraphEdit.
Import ComputeGraph.

(** The next edge identifier is in no [outEdges] or [inEdges] list and
    names no edge. *)
Definition edge_id_unused (g : t) : Prop :=
  edge_id_fresh g ∧ map_Forall (fun _ l => nextEdgeId g ∉ l) (inEdges g).

Global Instance edge_id_unused_dec g : Decision (edge_id_unused g).
Proof. unfold edge_id_unused. apply _. Defined.

(** [ComputeGraph::RemoveNode].  The [stmtToNode] and [nameToNode] entries
    it erases are not in the model. *)
Definition RemoveNode (nid : NodeId) (g : t) : t :=
  match nodes g !! nid with
  | None => g
  | Some _ =>
      let edgesToRemove :=
        map fst
            (filter (fun entry => ComputeEdge.sourceId (snd entry) = nid
                                  ∨ ComputeEdge.targetId (snd entry) = nid)
                    (std_map_items (edges g))) in
      let g1 := foldl (fun acc edgeId => RemoveEdge edgeId acc) g edgesToRemove in
      set_nodes (delete nid (nodes g1)) g1
  end.

End GraphEdit.

(* ===================================================================== *)
(** * 7B. Names and labels (ComputeGraph.cpp)                             *)
(* ===================================================================== *)

Module Printing.
Import Stdlib.Strings.Ascii.

(** [OpCodeToString] *)
Definition OpCodeToString (op : OpCode) : string :=
  match op with
  | Op_Add => "+" | Op_Sub => "-" | Op_Mul => "*" | Op_Div => "/"
  | Op_Mod => "%" | Op_And => "&" | Op_Or => "|" | Op_Xor => "^"
  | Op_Shl => "<<" | Op_Shr => ">>"
  | Op_Neg => "neg" | Op_Not => "!" | Op_BitNot => "~"
  | Op_Lt => "<" | Op_Gt => ">" | Op_Le => "<=" | Op_Ge => ">="
  | Op_Eq => "==" | Op_Ne => "!="
  | Op_Assign => "="
  | _ => "?"
  end.

(** [StringToOpCode]: the chain of [if]s, first match wins. *)
Definition StringToOpCode (str : string) : OpCode :=
  if bool_decide (str = "+" ∨ str = "Add") then Op_Add
  else if bool_decide (str = "-" ∨ str = "Sub") then Op_Sub
  else if bool_decide (str = "*" ∨ str = "Mul") then Op_Mul
  else if bool_decide (str = "/" ∨ str = "Div") then Op_Div
  else if bool_decide (str = "%" ∨ str = "Mod") then Op_Mod
  else if bool_decide (str = "&" ∨ str = "And") then Op_And
  else if bool_decide (str = "|" ∨ str = "Or") then Op_Or
  else if bool_decide (str = "^" ∨ str = "Xor") then Op_Xor
  else if bool_decide (str = "<<" ∨ str = "Shl") then Op_Shl
  else if bool_decide (str = ">>" ∨ str = "Shr") then Op_Shr
  else if bool_decide (str = "<" ∨ str = "Lt") then Op_Lt
  else if bool_decide (str = ">" ∨ str = "Gt") then Op_Gt
  else if bool_decide (str = "<=" ∨ str = "Le") then Op_Le
  else if bool_decide (str = ">=" ∨ str = "Ge") then Op_Ge
  else if bool_decide (str = "==" ∨ str = "Eq") then Op_Eq
  else if bool_decide (str = "!=" ∨ str = "Ne") then Op_Ne
  else if bool_decide (str = "=" ∨ str = "Assign") then Op_Assign
  else Op_Unknown.

(** [ComputeNodeKindToString] *)
Definition ComputeNodeKindToString (kind : ComputeNodeKind) : string :=
  match kind with
  | NK_Constant => "Const" | NK_Variable => "Var" | NK_Parameter => "Param"
  | NK_BinaryOp => "BinOp" | NK_UnaryOp => "UnaryOp" | NK_CompareOp => "CmpOp"
  | NK_Load => "Load" | NK_Store => "Store" | NK_ArrayAccess => "ArrayAccess"
  | NK_MemberAccess => "MemberAccess"
  | NK_Phi => "Phi" | NK_Select => "Select" | NK_LoopInduction => "LoopInd"
  | NK_Loop => "Loop" | NK_Branch => "Branch"
  | NK_Call => "Call" | NK_IntrinsicCall => "Intrinsic"
  | NK_Cast => "Cast" | NK_Return => "Return"
  | _ => "Unknown"
  end.

(** [ComputeEdgeKindToString] *)
Definition ComputeEdgeKindToString (kind : ComputeEdgeKind) : string :=
  match kind with
  | EK_DataFlow => "DataFlow" | EK_Control => "Control" | EK_Memory => "Memory"
  | EK_Call => "Call" | EK_Return => "Return" | EK_LoopCarried => "LoopCarried"
  end.

(** The characters [EscapeDotString] looks for. *)
Definition char_dquote : ascii := "034"%char.
Definition char_backslash : ascii := "\"%char.
Definition char_newline : ascii := "010"%char.
Definition char_return : ascii := "013"%char.

(** What [EscapeDotString] appends for one character. *)
Definition EscapeDotChar (c : ascii) : string :=
  if decide (c = char_dquote) then "'"
  else if decide (c = char_backslash) then "/"
  else if decide (c = char_newline) then " "
  else if decide (c = char_return) then ""
  else if decide (c = "<"%char) then "\<"
  else if decide (c = ">"%char) then "\>"
  else if decide (c = "{"%char) then "\{"
  else if decide (c = "}"%char) then "\}"
  else if decide (c = "|"%char) then "\|"
  else String c EmptyString.

(** [ComputeGraph::EscapeDotString] *)
Fixpoint EscapeDotString (str : string) : string :=
  match str with
  | EmptyString => EmptyString
  | String c rest => EscapeDotChar c +:+ EscapeDotString rest
  end.

(** [ComputeEdge::GetLabel] *)
Definition ComputeEdge_GetLabel (e : ComputeEdge.t) : string :=
  ComputeEdgeKindToString (ComputeEdge.kind e)
  +:+ (if decide (ComputeEdge.label e = "") then ""
       else ": " +:+ ComputeEdge.label e).

(** [ComputeNode::HasProperty], [IsVectorizable], [IsOperationNode],
    [IsMemoryNode] *)
Definition HasProperty (key : string) (n : ComputeNode.t) : bool :=
  bool_decide (is_Some (ComputeNode.properties n !! key)).

Definition IsVectorizable (n : ComputeNode.t) : bool :=
  match ComputeNode.kind n with
  | NK_BinaryOp | NK_UnaryOp | NK_CompareOp
  | NK_Load | NK_Store | NK_ArrayAccess | NK_Cast => true
  | NK_Call => HasProperty "vectorizable" n
  | _ => false
  end.

Definition IsOperationNode (n : ComputeNode.t) : bool :=
  bool_decide (ComputeNode.kind n = NK_BinaryOp
               ∨ ComputeNode.kind n = NK_UnaryOp
               ∨ ComputeNode.kind n = NK_CompareOp).

Definition IsMemoryNode (n : ComputeNode.t) : bool :=
  bool_decide (ComputeNode.kind n = NK_Load
               ∨ ComputeNode.kind n = NK_Store
               ∨ ComputeNode.kind n = NK_ArrayAccess).

End Printing.

(* ===================================================================== *)
(** * 7C. More of the graph set (ComputeGraph.cpp)                        *)
(* ===================================================================== *)

Module GraphSetOps.
Import ComputeGraphSet.

(** [ComputeGraphSet::RemoveGraph] *)
Definition RemoveGraph (name : string) (s : t) : t :=
  filter (B := list ComputeGraph.t) (fun g => ComputeGraph.name g ≠ name) s.

(** [ComputeGraphSet::GetGraph]: the first graph of that name. *)
Definition GetGraph (name : string) (s : t) : option ComputeGraph.t :=
  snd <$> list_find (fun g => ComputeGraph.name g = name) s.

End GraphSetOps.

(* ===================================================================== *)
(** * 7D. Ranking the anchors (ComputeGraphAnchor.cpp)                    *)
(* ===================================================================== *)

Module AnchorRank.
Import Anchor.

(** The configuration of [AnchorFinder]. *)
Record AnchorFinder := mkAnchorFinder {
  minLoopDepth : Z;
  includeNonLoopOps : bool;
}.

(** The first loop of [FilterAndRankAnchors]: one anchor per statement. *)
Definition unique_step (acc : gset StmtPtr * list AnchorPoint)
    (anchor : AnchorPoint) : gset StmtPtr * list AnchorPoint :=
  if decide (stmt anchor ∈ fst acc) then acc
  else ({[ stmt anchor ]} ∪ fst acc, snd acc ++ [anchor]).

(** The key ["funcName:line"]; a null [func] reads as ["unknown"]. *)
Definition locKey (getNameAsString : FuncPtr -> string) (anchor : AnchorPoint)
    : string :=
  (if decide (func anchor = 0%N) then "unknown"
   else getNameAsString (func anchor))
  +:+ ":" +:+ pretty (sourceLine anchor).

(** The state of the second loop. *)
Record FilterState := mkFilterState {
  seenStmts2 : gset StmtPtr;
  seenLocations : gset string;
  filtered : list AnchorPoint;
}.

Definition filter_step (finder : AnchorFinder)
    (getNameAsString : FuncPtr -> string)
    (st : FilterState) (anchor : AnchorPoint) : FilterState :=
  if decide (stmt anchor ∈ seenStmts2 st) then st
  else if decide (locKey getNameAsString anchor ∈ seenLocations st) then st
  else if bool_decide (loopDepth anchor < minLoopDepth finder)
          && negb (includeNonLoopOps finder) then st
  else {| seenStmts2 := {[ stmt anchor ]} ∪ seenStmts2 st;
          seenLocations := {[ locKey getNameAsString anchor ]} ∪ seenLocations st;
          filtered := filtered st ++ [anchor] |}.

(** The anchors that pass both loops, before they are sorted. *)
Definition filtered_anchors (finder : AnchorFinder)
    (getNameAsString : FuncPtr -> string) (anchors : list AnchorPoint)
    : list AnchorPoint :=
  let uniqueAnchors := snd (foldl unique_step (∅, []) anchors) in
  filtered (foldl (filter_step finder getNameAsString)
                  {| seenStmts2 := ∅; seenLocations := ∅; filtered := [] |}
                  uniqueAnchors).

(** The comparison [ComputeAnchorScore(a) > ComputeAnchorScore(b)] of the
    sort, as the order it sorts into.  [std::sort] leaves the order of equal
    scores open; the model keeps the one of the merge sort. *)
Definition score_ge (a b : AnchorPoint) : Prop :=
  ComputeAnchorScore b <= ComputeAnchorScore a.

Global Instance score_ge_dec a b : Decision (score_ge a b).
Proof. unfold score_ge. apply _. Defined.

Global Instance score_ge_total : Total score_ge.
Proof. intros a b. unfold score_ge. lia. Qed.

Global Instance score_ge_trans : Transitive score_ge.
Proof. intros a b c. unfold score_ge. lia. Qed.

Definition MAX_ANCHORS : nat := 50.

(** [AnchorFinder::FilterAndRankAnchors] *)
Definition FilterAndRankAnchors (finder : AnchorFinder)
    (getNameAsString : FuncPtr -> string) (anchors : list AnchorPoint)
    : list AnchorPoint :=
  let sorted := merge_sort score_ge
                  (filtered_anchors finder getNameAsString anchors) in
  if decide (MAX_ANCHORS < length sorted)%nat then take MAX_ANCHORS sorted
  else sorted.

End AnchorRank.

(* ===================================================================== *)
(** * 7E. More of the builder (ComputeGraphBuilder.cpp)                   *)
(* ===================================================================== *)

Module BuilderOps.
Import Anchor.

(** [ComputeGraphBuilder::GetOpCodeFromBinaryOp] *)
Definition GetOpCodeFromBinaryOp (op : BinaryOperatorKind) : OpCode :=
  match op with
  | BO_Add | BO_AddAssign => Op_Add
  | BO_Sub | BO_SubAssign => Op_Sub
  | BO_Mul | BO_MulAssign => Op_Mul
  | BO_Div | BO_DivAssign => Op_Div
  | BO_Rem => Op_Mod
  | BO_And => Op_And
  | BO_Or => Op_Or
  | BO_Xor => Op_Xor
  | BO_Shl => Op_Shl
  | BO_Shr => Op_Shr
  | BO_LT => Op_Lt
  | BO_GT => Op_Gt
  | BO_LE => Op_Le
  | BO_GE => Op_Ge
  | BO_EQ => Op_Eq
  | BO_NE => Op_Ne
  | BO_Assign => Op_Assign
  | _ => Op_Unknown
  end.

(** [ComputeGraphMerger::HasOverlap] *)
Definition HasOverlap (g1 g2 : ComputeGraph.t) : bool :=
  let g1Stmts : gset StmtPtr :=
    list_to_set (omap ComputeNode.astStmt (ComputeGraph.GetAllNodes g1)) in
  existsb (fun node =>
             match ComputeNode.astStmt node with
             | Some s => bool_decide (s ∈ g1Stmts)
             | None => false
             end)
          (ComputeGraph.GetAllNodes g2).

End BuilderOps.

(* ===================================================================== *)
(** * 7F. Worklist searches (CPGAnnotation.cpp)                           *)
(* ===================================================================== *)

(** [HasDataFlowPath] and [HasControlFlowPath] run the same loop over a
    queue and a visited set; they differ in the successors of a node.  The
    loop is stated once here, for the proofs, over any successor function;
    the two queries are shown to be instances of it. *)
Module Worklist.
Section Worklist.
Context {A : Type} `{Countable A}.
Variable succs : A -> list A.

Definition push_new (st : list A * gset A) (x : A) : list A * gset A :=
  if decide (x ∈ snd st) then st
  else (fst st ++ [x], {[ x ]} ∪ snd st).

Fixpoint search (fuel : nat) (sink : A) (st : list A * gset A) : option bool :=
  match fuel with
  | O => None
  | S fuel' =>
      match fst st with
      | [] => Some false
      | current :: rest =>
          if decide (current = sink) then Some true
          else search fuel' sink (foldl push_new (rest, snd st) (succs current))
      end
  end.

(** One step along the successor function. *)
Definition step (a b : A) : Prop := b ∈ succs a.

(** What holds of the queue and the visited set while the loop runs, with
    [popped] the nodes taken from the queue so far. *)
Definition search_inv (source sink : A) (popped : list A)
    (st : list A * gset A) : Prop :=
  NoDup (popped ++ fst st)
  ∧ (∀ x, x ∈ snd st ↔ x ∈ popped ++ fst st)
  ∧ (∀ x, x ∈ popped → x ≠ sink ∧ ∀ y, y ∈ succs x → y ∈ snd st)
  ∧ (∀ x, x ∈ snd st → rtc step source x).

End Worklist.
End Worklist.

Module FlowPath.
Import Query.

(** The statements [ProcessDefinedVarsForPath] looks at from [current]: the
    uses of each variable it defines that passes the filter. *)
Definition flow_succs (ctx : CPGContext) (filterVar : string)
    (current : StmtPtr) : list StmtPtr :=
  concat (map (GetUses ctx current)
              (filter (fun var => ¬ (filterVar ≠ "" ∧ var ≠ filterVar))
                      (GetDefinedVars ctx current))).

(** One data-flow step: [b] uses a variable that [a] defines and that the
    filter lets through (the empty filter lets every variable through). *)
Definition flows_to (ctx : CPGContext) (filterVar : string)
    (a b : StmtPtr) : Prop :=
  ∃ var, var ∈ GetDefinedVars ctx a
         ∧ (filterVar = "" ∨ var = filterVar)
         ∧ b ∈ GetUses ctx a var.

End FlowPath.

(* ===================================================================== *)
(** * 7G. Control-flow queries over the ICFG (CPGAnnotation.cpp)          *)
(* ===================================================================== *)

Module ControlFlow.
Import ICFG.

Global Instance ICFGEdgeKind_eq_dec : EqDecision ICFGEdgeKind.
Proof. solve_decision. Defined.

(** The node an [ICFGNode*] points to.  The nodes are owned by
    [icfgNodes] and never freed, so in the program every pointer finds its
    node. *)
Definition node_at (ctx : CPGContext) (r : NodeRef) : option ICFGNode :=
  match icfgNodes ctx !! fst r with
  | Some vec => vec !! snd r
  | None => None
  end.

(** [CPGContext::GetSuccessors] *)
Definition GetSuccessors (ctx : CPGContext) (node : NodeRef) : list NodeRef :=
  match node_at ctx node with
  | Some n => map fst (successors n)
  | None => []
  end.

(** [CPGContext::GetPredecessors] *)
Definition GetPredecessors (ctx : CPGContext) (node : NodeRef) : list NodeRef :=
  match node_at ctx node with
  | Some n => map fst (predecessors n)
  | None => []
  end.

(** The map [stmtToICFGNode]; an entry may hold a null pointer
    ([LinkSingleCallSite] reads it with [operator[]]). *)
Definition StmtMap : Type := gmap StmtPtr (option NodeRef).

(** [CPGContext::GetICFGNode] *)
Definition GetICFGNode (stmtToICFGNode : StmtMap) (stmt : StmtPtr)
    : option NodeRef :=
  match stmtToICFGNode !! stmt with
  | Some node => node
  | None => None
  end.

(** The body of the [for] loop over the successors in
    [HasControlFlowPath]. *)
Definition visit_successor (st : list NodeRef * gset NodeRef) (succ : NodeRef)
    : list NodeRef * gset NodeRef :=
  if decide (succ ∈ snd st) then st
  else (fst st ++ [succ], {[ succ ]} ∪ snd st).

(** The [while (!worklist.empty())] loop; [None] when the fuel runs out. *)
Fixpoint HasControlFlowPath_loop (fuel : nat) (ctx : CPGContext)
    (sinkNode : NodeRef) (st : list NodeRef * gset NodeRef) : option bool :=
  match fuel with
  | O => None
  | S fuel' =>
      match fst st with
      | [] => Some false
      | current :: rest =>
          if decide (current = sinkNode) then Some true
          else HasControlFlowPath_loop fuel' ctx sinkNode
                 (foldl visit_successor (rest, snd st) (GetSuccessors ctx current))
      end
  end.

(** Every node the successor vectors name. *)
Definition successor_targets (ctx : CPGContext) : list NodeRef :=
  concat (map (fun entry =>
                 concat (map (fun n => map fst (successors n)) (snd entry)))
              (map_to_list (icfgNodes ctx))).

(** [CPGContext::HasControlFlowPath].  A node enters the worklist at most
    once, and apart from the source only nodes that a successor vector
    names do: [length successor_targets + 2] turns are enough (theorem
    [HasControlFlowPath_reachability] below). *)
Definition HasControlFlowPath (stmtToICFGNode : StmtMap) (ctx : CPGContext)
    (source sink : StmtPtr) : bool :=
  match GetICFGNode stmtToICFGNode source, GetICFGNode stmtToICFGNode sink with
  | Some sourceNode, Some sinkNode =>
      default false
        (HasControlFlowPath_loop (length (successor_targets ctx) + 2) ctx
           sinkNode ([sourceNode], {[ sourceNode ]}))
  | _, _ => false
  end.

(** One step of control flow. *)
Definition icfg_step (ctx : CPGContext) (a b : NodeRef) : Prop :=
  b ∈ GetSuccessors ctx a.

(** The three accumulators of the depth-first search. *)
Record DfsState := mkDfs {
  currentPath : list NodeRef;
  visited : gset NodeRef;
  allPaths : list (list NodeRef);
}.

(** [CPGContext::FindPathsDFS] with [CPGContext::ExploreSuccessors] inlined
    as the fold.  The recursion is on [fuel]: each level raises [depth] by
    one and a call with [depth > maxDepth] returns at once, so
    [maxDepth - depth + 1] levels are enough. *)
Fixpoint FindPathsDFS (fuel : nat) (ctx : CPGContext) (node sink : NodeRef)
    (depth maxDepth : Z) (st : DfsState) : DfsState :=
  match fuel with
  | O => st
  | S fuel' =>
      if decide (depth > maxDepth) then st
      else
        let st1 := {| currentPath := currentPath st ++ [node];
                      visited := {[ node ]} ∪ visited st;
                      allPaths := allPaths st |} in
        let st2 :=
          if decide (node = sink) then
            {| currentPath := currentPath st1; visited := visited st1;
               allPaths := allPaths st1 ++ [currentPath st1] |}
          else
            foldl (fun acc succ =>
                     if decide (succ ∈ visited acc) then acc
                     else FindPathsDFS fuel' ctx succ sink (depth + 1)
                            maxDepth acc)
                  st1 (GetSuccessors ctx node) in
        {| currentPath := removelast (currentPath st2);
           visited := visited st2 ∖ {[ node ]};
           allPaths := allPaths st2 |}
  end.

(** [CPGContext::FindAllPaths] *)
Definition FindAllPaths (ctx : CPGContext) (source sink : NodeRef)
    (maxDepth : Z) : list (list NodeRef) :=
  allPaths (FindPathsDFS (Z.to_nat (maxDepth + 1)) ctx source sink 0 maxDepth
              {| currentPath := []; visited := ∅; allPaths := [] |}).

(** [q] leads from [a] to [b] along successor entries: it starts with
    [a], ends with [b], and each node is a successor of the one before. *)
Fixpoint is_chain (ctx : CPGContext) (a : NodeRef) (q : list NodeRef)
    (b : NodeRef) : Prop :=
  match q with
  | [] => False
  | x :: q' =>
      x = a ∧ match q' with
              | [] => a = b
              | y :: _ => y ∈ GetSuccessors ctx a ∧ is_chain ctx y q' b
              end
  end.

(** [CPGContext::GetSuccessorsWithEdgeKind], and the same reading of the
    [predecessors] vector. *)
Definition GetSuccessorsWithEdgeKind (ctx : CPGContext) (node : NodeRef)
    : list (NodeRef * ICFGEdgeKind) :=
  match node_at ctx node with
  | Some n => successors n
  | None => []
  end.

Definition predecessors_of (ctx : CPGContext) (node : NodeRef)
    : list (NodeRef * ICFGEdgeKind) :=
  match node_at ctx node with
  | Some n => predecessors n
  | None => []
  end.

(** How often [e] occurs in a vector of edges. *)
Definition count_edge (e : NodeRef * ICFGEdgeKind)
    (l : list (NodeRef * ICFGEdgeKind)) : nat :=
  length (filter (fun e' => e' = e) l).

(** Every successor entry has its predecessor entry and the other way
    round, as often: [a] lists [(b, k)] among its successors as many times
    as [b] lists [(a, k)] among its predecessors. *)
Definition edges_mirrored (ctx : CPGContext) : Prop :=
  ∀ a b k,
    count_edge (b, k) (GetSuccessorsWithEdgeKind ctx a)
    = count_edge (a, k) (predecessors_of ctx b).

(** No node has an edge, as right after the nodes are created. *)
Definition no_edges (ctx : CPGContext) : Prop :=
  map_Forall (fun _ vec =>
                Forall (fun n => successors n = [] ∧ predecessors n = []) vec)
             (icfgNodes ctx).

Global Instance no_edges_dec ctx : Decision (no_edges ctx).
Proof. unfold no_edges. apply _. Defined.

End ControlFlow.

(* ===================================================================== *)
(** * 7H. Reaching definitions (CPGBuilder.cpp)                           *)
(* ===================================================================== *)

Module ReachingDefs.

Definition BlockPtr := N.

(** [DefsMap] and [BlockDefsMap] *)
Abbreviation DefsMap := (gmap string (gset StmtPtr)).
Abbreviation BlockDefsMap := (gmap BlockPtr DefsMap).

(** [struct ReachingDefsInfo] *)
Record ReachingDefsInfo := mkReachingDefsInfo {
  reachingDefs : gmap StmtPtr DefsMap;
  definitions : gmap StmtPtr (gset string);
  uses : gmap StmtPtr (gset string);
}.

(** What the analysis reads of a [clang::CFGBlock]: its address; for each
    predecessor edge the block [getReachableBlock] gives, if any; for each
    element its statement, if it is a [CFGStmt]. *)
Record CFGBlock := mkCFGBlock {
  block_ptr : BlockPtr;
  block_preds : list (option BlockPtr);
  block_elems : list (option StmtPtr);
}.

(** [blockIn[var].insert(defs.begin(), defs.end())] *)
Definition merge_defs (blockIn : DefsMap) (entry : string * gset StmtPtr)
    : DefsMap :=
  <[fst entry := default ∅ (blockIn !! fst entry) ∪ snd entry]> blockIn.

(** [CPGContext::ComputeBlockIn].  The entries of a predecessor's map are
    merged one by one; the result does not depend on their order. *)
Definition ComputeBlockIn (block : CFGBlock) (blockOut : BlockDefsMap)
    : DefsMap :=
  foldl (fun blockIn pred =>
           match pred with
           | None => blockIn
           | Some predBlock =>
               match blockOut !! predBlock with
               | None => blockIn
               | Some predOut => foldl merge_defs blockIn (map_to_list predOut)
               end
           end)
        ∅ (block_preds block).

(** [currentDefs[def].clear(); currentDefs[def].insert(s)] *)
Definition gen_def (s : StmtPtr) (currentDefs : DefsMap) (def : string)
    : DefsMap :=
  <[def := {[ s ]}]> currentDefs.

(** One element of the block in [ApplyKillGen]; reading
    [info.definitions[s]] creates an empty entry where there is none. *)
Definition ApplyKillGen_step (st : DefsMap * ReachingDefsInfo)
    (elem : option StmtPtr) : DefsMap * ReachingDefsInfo :=
  match elem with
  | None => st
  | Some s =>
      let defs := default ∅ (definitions (snd st) !! s) in
      (foldl (gen_def s) (fst st) (elements defs),
       {| reachingDefs := <[s := fst st]> (reachingDefs (snd st));
          definitions := <[s := defs]> (definitions (snd st));
          uses := uses (snd st) |})
  end.

(** [CPGContext::ApplyKillGen] *)
Definition ApplyKillGen (block : CFGBlock) (currentDefs : DefsMap)
    (info : ReachingDefsInfo) : DefsMap * ReachingDefsInfo :=
  foldl ApplyKillGen_step (currentDefs, info) (block_elems block).

(** [CPGContext::ProcessBlockReachingDefs]; reading [blockOut[block]]
    creates an empty entry where there is none. *)
Definition ProcessBlockReachingDefs (block : CFGBlock)
    (st : BlockDefsMap * ReachingDefsInfo)
    : BlockDefsMap * ReachingDefsInfo * bool :=
  let blockIn := ComputeBlockIn block (fst st) in
  let oldOut := default ∅ (fst st !! block_ptr block) in
  let r := ApplyKillGen block blockIn (snd st) in
  (<[block_ptr block := fst r]> (fst st), snd r, bool_decide (fst r ≠ oldOut)).

(** The variables statement [s] defines, as [info.definitions] has them. *)
Definition defined_by (info : ReachingDefsInfo) (s : StmtPtr) : gset string :=
  default ∅ (definitions info !! s).

(** The last statement of a block that defines [var]. *)
Definition last_definition (info : ReachingDefsInfo) (var : string)
    (elems : list (option StmtPtr)) : option StmtPtr :=
  last (filter (fun s => var ∈ defined_by info s) (omap id elems)).

(** One block of a sweep of [IterateReachingDefs]; a null block is
    skipped. *)
Definition sweep_step (st : BlockDefsMap * ReachingDefsInfo * bool)
    (block : option CFGBlock) : BlockDefsMap * ReachingDefsInfo * bool :=
  match block with
  | None => st
  | Some b =>
      let r := ProcessBlockReachingDefs b (fst st) in
      (fst r, if snd r then true else snd st)
  end.

Definition kMaxIterations : nat := 100.

(** The [while (changed && iterations < kMaxIterations)] loop, with
    [remaining] sweeps left; the result carries [changed] as the loop
    leaves it. *)
Fixpoint IterateReachingDefs_loop (remaining : nat)
    (rpo : list (option CFGBlock)) (st : BlockDefsMap * ReachingDefsInfo)
    : BlockDefsMap * ReachingDefsInfo * bool :=
  match remaining with
  | O => (st, true)
  | S remaining' =>
      let r := foldl sweep_step (st, false) rpo in
      if snd r then IterateReachingDefs_loop remaining' rpo (fst r)
      else r
  end.

(** [CPGContext::IterateReachingDefs], over the blocks in the order of the
    [PostOrderCFGView]. *)
Definition IterateReachingDefs (rpo : list (option CFGBlock))
    (info : ReachingDefsInfo) : BlockDefsMap * ReachingDefsInfo * bool :=
  IterateReachingDefs_loop kMaxIterations rpo (∅, info).

(** [blockOut[block]] as a later sweep reads it. *)
Definition out_of (blockOut : BlockDefsMap) (block : BlockPtr) : DefsMap :=
  default ∅ (blockOut !! block).

(** A two-block loop: block 1 holds [x = ...] (statement 10), block 2
    holds [x = ...] (statement 20) and [y = ...] (statement 21); block 2
    follows block 1 and itself. *)
Definition example_rpo : list (option CFGBlock) :=
  [ Some {| block_ptr := 1%N; block_preds := []; block_elems := [Some 10%N] |};
    Some {| block_ptr := 2%N; block_preds := [Some 1%N; Some 2%N];
            block_elems := [Some 20%N; None; Some 21%N] |} ].

Definition example_info : ReachingDefsInfo :=
  {| reachingDefs := ∅;
     definitions := {[ 10%N := {[ "x" ]}; 20%N := {[ "x" ]};
                       21%N := {[ "y" ]} ]};
     uses := ∅ |}.

End ReachingDefs.

(* ===================================================================== *)
(** * 7I. Copies of a graph (ComputeGraph.cpp)                            *)
(* ===================================================================== *)

Module GraphCopy.
Import ComputeGraph.

(** The assignments [ExtractSubgraph] makes to the node it has created:
    every field of the model but the identifier, the adjacency vectors,
    [sourceText] and [sourceLine]. *)
Definition ExtractSubgraph_copy (node newNode : ComputeNode.t) : ComputeNode.t :=
  {| ComputeNode.kind := ComputeNode.kind newNode;
     ComputeNode.id := ComputeNode.id newNode;
     ComputeNode.name := ComputeNode.name node;
     ComputeNode.astStmt := ComputeNode.astStmt node;
     ComputeNode.containingFunc := ComputeNode.containingFunc node;
     ComputeNode.opCode := ComputeNode.opCode node;
     ComputeNode.properties := ComputeNode.properties node;
     ComputeNode.inputNodes := ComputeNode.inputNodes newNode;
     ComputeNode.outputNodes := ComputeNode.outputNodes newNode;
     ComputeNode.loopDepth := ComputeNode.loopDepth node;
     ComputeNode.loopContextId := ComputeNode.loopContextId node;
     ComputeNode.loopContextVar := ComputeNode.loopContextVar node;
     ComputeNode.loopContextLine := ComputeNode.loopContextLine node;
     ComputeNode.sourceText := ComputeNode.sourceText newNode;
     ComputeNode.sourceLine := ComputeNode.sourceLine newNode |}.

(** The first loop of [ExtractSubgraph], for one identifier of the set. *)
Definition ExtractSubgraph_node (g : t) (st : t * gmap NodeId NodeId)
    (nodeId : NodeId) : t * gmap NodeId NodeId :=
  match GetNode nodeId g with
  | None => st
  | Some node =>
      let r := CreateNode (ComputeNode.kind node) (fst st) in
      (update_node (ComputeNode.id (snd r)) (ExtractSubgraph_copy node) (fst r),
       <[nodeId := ComputeNode.id (snd r)]> (snd st))
  end.

(** The second loop, for one edge; [idMapping[id]] creates the entry 0
    for an identifier that was not copied. *)
Definition ExtractSubgraph_edge (nodeIds : gset NodeId)
    (st : t * gmap NodeId NodeId) (edge : ComputeEdge.t)
    : t * gmap NodeId NodeId :=
  if decide (ComputeEdge.sourceId edge ∈ nodeIds
             ∧ ComputeEdge.targetId edge ∈ nodeIds) then
    let newSrcId := default 0%N (snd st !! ComputeEdge.sourceId edge) in
    let idMapping1 := <[ComputeEdge.sourceId edge := newSrcId]> (snd st) in
    let newTgtId := default 0%N (idMapping1 !! ComputeEdge.targetId edge) in
    let idMapping2 := <[ComputeEdge.targetId edge := newTgtId]> idMapping1 in
    (fst (AddEdge newSrcId newTgtId (ComputeEdge.kind edge)
            (ComputeEdge.label edge) (fst st)),
     idMapping2)
  else st.

(** [ComputeGraph::ExtractSubgraph]; the set is walked in ascending
    order. *)
Definition ExtractSubgraph (nodeIds : gset NodeId) (g : t) : t :=
  let st1 := foldl (ExtractSubgraph_node g) (new (name g +:+ "_sub"), ∅)
                   (merge_sort N.le (elements nodeIds)) in
  fst (foldl (ExtractSubgraph_edge nodeIds) st1 (GetAllEdges g)).

(** [ComputeGraph::Clone] *)
Definition Clone (g : t) : t :=
  let cloned := ExtractSubgraph (dom (nodes g)) g in
  {| name := name g +:+ "_clone"; nextNodeId := nextNodeId cloned;
     nextEdgeId := nextEdgeId cloned; nodes := nodes cloned;
     edges := edges cloned; inEdges := inEdges cloned;
     outEdges := outEdges cloned; properties := properties cloned |}.

(** A node without its adjacency vectors. *)
Definition without_adjacency (n : ComputeNode.t) : ComputeNode.t :=
  ComputeNode.set_inputNodes [] (ComputeNode.set_outputNodes [] n).

(** The identifiers of a list, and of the set in ascending order, that are
    stored in the graph. *)
Definition stored_of (g : t) (ids : list NodeId) : list NodeId :=
  filter (fun i => is_Some (GetNode i g)) ids.

Definition stored_ids (nodeIds : gset NodeId) (g : t) : list NodeId :=
  stored_of g (merge_sort N.le (elements nodeIds)).

End GraphCopy.

(* ===================================================================== *)
(** * 7J. Pattern matching (ComputeGraph.h, ComputeGraph.cpp)             *)
(* ===================================================================== *)

Module PatternMatch.
Import ComputeGraph.

(** [struct PatternNode], the fields the matcher reads. *)
Record PatternNode := mkPatternNode {
  pn_kind : ComputeNodeKind;
  pn_opCode : OpCode;
  captureId : Z;
}.

(** [struct RewritePattern], the source pattern. *)
Record RewritePattern := mkRewritePattern {
  rp_name : string;
  pattern : list PatternNode;
}.

(** [std::map<int, ComputeNode::NodeId>] *)
Abbreviation Bindings := (gmap Z NodeId).

(** [PatternMatcher::MatchNode]: the answer and the bindings afterwards. *)
Definition MatchNode (g : t) (nodeId : NodeId) (patternNode : PatternNode)
    (bindings : Bindings) : bool * Bindings :=
  match GetNode nodeId g with
  | None => (false, bindings)
  | Some node =>
      if decide (pn_kind patternNode ≠ NK_Unknown
                 ∧ ComputeNode.kind node ≠ pn_kind patternNode)
      then (false, bindings)
      else if decide (pn_opCode patternNode ≠ Op_Unknown
                      ∧ ComputeNode.opCode node ≠ pn_opCode patternNode)
      then (false, bindings)
      else if decide (captureId patternNode >= 0) then
        match bindings !! captureId patternNode with
        | Some bound => (bool_decide (bound = nodeId), bindings)
        | None => (true, <[captureId patternNode := nodeId]> bindings)
        end
      else (true, bindings)
  end.

(** The search for a candidate in [FindMatches]: the first node of the
    graph that [MatchNode] accepts. *)
Fixpoint try_candidates (g : t) (patternNode : PatternNode)
    (bindings : Bindings) (candidates : list ComputeNode.t) : bool * Bindings :=
  match candidates with
  | [] => (false, bindings)
  | candidateNode :: rest =>
      let r := MatchNode g (ComputeNode.id candidateNode) patternNode bindings in
      if fst r then (true, snd r)
      else try_candidates g patternNode (snd r) rest
  end.

(** One turn of the loop over the remaining pattern nodes; the state is
    [(fullMatch, bindings)]. *)
Definition match_rest_step (g : t) (st : bool * Bindings)
    (patternNode : PatternNode) : bool * Bindings :=
  if fst st then
    match snd st !! captureId patternNode with
    | Some boundNodeId =>
        (match GetNode boundNodeId g with
         | Some boundNode =>
             bool_decide (ComputeNode.kind boundNode = pn_kind patternNode)
         | None => false
         end, snd st)
    | None => try_candidates g patternNode (snd st) (GetAllNodes g)
    end
  else st.

(** The body of the loop over the nodes of the graph. *)
Definition match_from (g : t) (first : PatternNode) (rest : list PatternNode)
    (node : ComputeNode.t) : option Bindings :=
  let r := MatchNode g (ComputeNode.id node) first ∅ in
  if fst r then
    let r2 := foldl (match_rest_step g) (true, snd r) rest in
    if fst r2 then Some (snd r2) else None
  else None.

(** [PatternMatcher::FindMatches] *)
Definition FindMatches (patterns : gmap string RewritePattern) (g : t)
    (patternName : string) : list Bindings :=
  match patterns !! patternName with
  | None => []
  | Some rewritePattern =>
      match pattern rewritePattern with
      | [] => []
      | firstPatternNode :: rest =>
          omap (match_from g firstPatternNode rest) (GetAllNodes g)
      end
  end.

(** The two tests [MatchNode] makes of a node. *)
Definition node_matches (p : PatternNode) (node : ComputeNode.t) : Prop :=
  (pn_kind p = NK_Unknown ∨ ComputeNode.kind node = pn_kind p)
  ∧ (pn_opCode p = Op_Unknown ∨ ComputeNode.opCode node = pn_opCode p).

(** Every binding is of a capture of the pattern, to a stored node that
    passes the tests of a pattern node with that capture. *)
Definition bindings_sound (g : t) (all : list PatternNode) (b : Bindings)
    : Prop :=
  ∀ c nid, b !! c = Some nid →
    0 <= c ∧ ∃ p node, p ∈ all ∧ captureId p = c
                       ∧ GetNode nid g = Some node ∧ node_matches p node.

(** Every capture of the pattern nodes [ps] is bound. *)
Definition covered (b : Bindings) (ps : list PatternNode) : Prop :=
  ∀ p, p ∈ ps → 0 <= captureId p → is_Some (b !! captureId p).

End PatternMatch.

(* ===================================================================== *)
(** * 7K. Merging graphs (ComputeGraphBuilder.cpp, ComputeGraph.cpp)      *)
(* ===================================================================== *)

Module GraphMerge.
Import ComputeGraph.

(** [ComputeGraphMerger::CopyNodeProperties] *)
Definition CopyNodeProperties (src dst : ComputeNode.t) : ComputeNode.t :=
  {| ComputeNode.kind := ComputeNode.kind dst;
     ComputeNode.id := ComputeNode.id dst;
     ComputeNode.name := ComputeNode.name src;
     ComputeNode.astStmt := ComputeNode.astStmt src;
     ComputeNode.containingFunc := ComputeNode.containingFunc src;
     ComputeNode.opCode := ComputeNode.opCode src;
     ComputeNode.properties := ComputeNode.properties src;
     ComputeNode.inputNodes := ComputeNode.inputNodes dst;
     ComputeNode.outputNodes := ComputeNode.outputNodes dst;
     ComputeNode.loopDepth := ComputeNode.loopDepth src;
     ComputeNode.loopContextId := ComputeNode.loopContextId dst;
     ComputeNode.loopContextVar := ComputeNode.loopContextVar dst;
     ComputeNode.loopContextLine := ComputeNode.loopContextLine dst;
     ComputeNode.sourceText := ComputeNode.sourceText src;
     ComputeNode.sourceLine := ComputeNode.sourceLine src |}.

(** The locals of [ComputeGraphMerger::Merge]. *)
Record MergeState := mkMergeState {
  merged : t;
  g1Map : gmap NodeId NodeId;
  g2Map : gmap NodeId NodeId;
  stmtToNode : gmap StmtPtr NodeId;
}.

(** [merged->CreateNode(node->kind)] and [CopyNodeProperties]: the graph
    and the identifier of the new node. *)
Definition copy_into (node : ComputeNode.t) (m : t) : t * NodeId :=
  let r := CreateNode (ComputeNode.kind node) m in
  (update_node (ComputeNode.id (snd r)) (CopyNodeProperties node) (fst r),
   ComputeNode.id (snd r)).

(** [if (node->astStmt) stmtToNode[node->astStmt] = newNode->id] *)
Definition register_stmt (node : ComputeNode.t) (newId : NodeId)
    (m : gmap StmtPtr NodeId) : gmap StmtPtr NodeId :=
  match ComputeNode.astStmt node with
  | Some s => <[s := newId]> m
  | None => m
  end.

(** [map[key]] of a [std::map] with identifiers as values: the map with
    the entry 0 created where there was none, and the value. *)
Definition map_index (m : gmap NodeId NodeId) (key : NodeId)
    : gmap NodeId NodeId * NodeId :=
  (<[key := default 0%N (m !! key)]> m, default 0%N (m !! key)).

(** The loop over the nodes of [g1]. *)
Definition Merge_node1 (st : MergeState) (node : ComputeNode.t) : MergeState :=
  let r := copy_into node (merged st) in
  {| merged := fst r;
     g1Map := <[ComputeNode.id node := snd r]> (g1Map st);
     g2Map := g2Map st;
     stmtToNode := register_stmt node (snd r) (stmtToNode st) |}.

(** The loop over the edges of [g1]. *)
Definition Merge_edge1 (st : MergeState) (edge : ComputeEdge.t) : MergeState :=
  let r1 := map_index (g1Map st) (ComputeEdge.sourceId edge) in
  let r2 := map_index (fst r1) (ComputeEdge.targetId edge) in
  {| merged := fst (AddEdge (snd r1) (snd r2) (ComputeEdge.kind edge)
                      (ComputeEdge.label edge) (merged st));
     g1Map := fst r2; g2Map := g2Map st; stmtToNode := stmtToNode st |}.

(** The loop over the nodes of [g2]: a node whose statement is known is
    mapped to the node that has it, any other node is copied. *)
Definition Merge_node2 (st : MergeState) (node : ComputeNode.t) : MergeState :=
  match ComputeNode.astStmt node ≫= (fun s => stmtToNode st !! s) with
  | Some existing =>
      {| merged := merged st; g1Map := g1Map st;
         g2Map := <[ComputeNode.id node := existing]> (g2Map st);
         stmtToNode := stmtToNode st |}
  | None =>
      let r := copy_into node (merged st) in
      {| merged := fst r; g1Map := g1Map st;
         g2Map := <[ComputeNode.id node := snd r]> (g2Map st);
         stmtToNode := register_stmt node (snd r) (stmtToNode st) |}
  end.

(** The loop over the edges of [g2]. *)
Definition Merge_edge2 (st : MergeState) (edge : ComputeEdge.t) : MergeState :=
  let r1 := map_index (g2Map st) (ComputeEdge.sourceId edge) in
  let r2 := map_index (fst r1) (ComputeEdge.targetId edge) in
  let fromId := snd r1 in
  let toId := snd r2 in
  let exists_ :=
    existsb (fun existingEdge =>
               bool_decide (ComputeEdge.targetId existingEdge = toId
                            ∧ ComputeEdge.kind existingEdge
                              = ComputeEdge.kind edge))
            (GetOutgoingEdges fromId (merged st)) in
  {| merged := if exists_ then merged st
               else fst (AddEdge fromId toId (ComputeEdge.kind edge)
                           (ComputeEdge.label edge) (merged st));
     g1Map := g1Map st; g2Map := fst r2; stmtToNode := stmtToNode st |}.

(** [ComputeGraphMerger::Merge] *)
Definition Merge (g1 g2 : t) : t :=
  let st0 := {| merged := new (name g1 +:+ "_merged");
                g1Map := ∅; g2Map := ∅; stmtToNode := ∅ |} in
  let st1 := foldl Merge_node1 st0 (GetAllNodes g1) in
  let st2 := foldl Merge_edge1 st1 (GetAllEdges g1) in
  let st3 := foldl Merge_node2 st2 (GetAllNodes g2) in
  let st4 := foldl Merge_edge2 st3 (GetAllEdges g2) in
  merged st4.

(** One pass of the two nested loops of [MergeOverlapping]: the first pair
    [i < j] of overlapping graphs is merged into position [i] and position
    [j] is erased; [None] when no pair overlaps. *)
Fixpoint MergeOverlapping_pass (graphs : list t) : option (list t) :=
  match graphs with
  | [] => None
  | gi :: later =>
      match list_find (fun gj => BuilderOps.HasOverlap gi gj = true) later with
      | Some (j, gj) => Some (Merge gi gj :: delete j later)
      | None => cons gi <$> MergeOverlapping_pass later
      end
  end.

(** The [while (changed)] loop. *)
Fixpoint MergeOverlapping_loop (fuel : nat) (graphs : list t) : list t :=
  match fuel with
  | O => graphs
  | S fuel' =>
      match MergeOverlapping_pass graphs with
      | Some graphs' => MergeOverlapping_loop fuel' graphs'
      | None => graphs
      end
  end.

(** [ComputeGraphSet::MergeOverlapping].  Every pass but the last makes
    the vector shorter by one, so as many passes as there are graphs are
    enough. *)
Definition MergeOverlapping (graphs : list t) : list t :=
  MergeOverlapping_loop (length graphs) graphs.

(** The statements attached to the nodes of a graph, in the order of
    [GetAllNodes]. *)
Definition stmts_of (g : t) : list StmtPtr :=
  omap ComputeNode.astStmt (GetAllNodes g).

(** The statement of each stored node, by key. *)
Definition stmts_map (g : t) : gmap NodeId (option StmtPtr) :=
  ComputeNode.astStmt <$> nodes g.

Definition has_stmt (g : t) (s : StmtPtr) : Prop :=
  ∃ j, stmts_map g !! j = Some (Some s).

Definition stmt_unique (g : t) : Prop :=
  ∀ i j s, stmts_map g !! i = Some (Some s) →
           stmts_map g !! j = Some (Some s) → i = j.

(** What the loops over the nodes keep: the next identifier is [k] and no
    node is stored from [k] on; [stmtToNode] names, for exactly the
    statements of the merged graph, a node that has the statement. *)
Definition merge_inv (k : NodeId) (m : t) (sm : gmap StmtPtr NodeId) : Prop :=
  nextNodeId m = k
  ∧ (∀ j, (k <= j)%N → stmts_map m !! j = None)
  ∧ (∀ s nid, sm !! s = Some nid → stmts_map m !! nid = Some (Some s))
  ∧ (∀ j s, stmts_map m !! j = Some (Some s) → is_Some (sm !! s)).

(** Graphs for the examples: one node per statement of the list. *)
Definition with_stmt (s : StmtPtr) (n : ComputeNode.t) : ComputeNode.t :=
  {| ComputeNode.kind := ComputeNode.kind n;
     ComputeNode.id := ComputeNode.id n;
     ComputeNode.name := ComputeNode.name n;
     ComputeNode.astStmt := Some s;
     ComputeNode.containingFunc := ComputeNode.containingFunc n;
     ComputeNode.opCode := ComputeNode.opCode n;
     ComputeNode.properties := ComputeNode.properties n;
     ComputeNode.inputNodes := ComputeNode.inputNodes n;
     ComputeNode.outputNodes := ComputeNode.outputNodes n;
     ComputeNode.loopDepth := ComputeNode.loopDepth n;
     ComputeNode.loopContextId := ComputeNode.loopContextId n;
     ComputeNode.loopContextVar := ComputeNode.loopContextVar n;
     ComputeNode.loopContextLine := ComputeNode.loopContextLine n;
     ComputeNode.sourceText := ComputeNode.sourceText n;
     ComputeNode.sourceLine := ComputeNode.sourceLine n |}.

Definition example_stmts_graph (graphName : string) (stmts : list StmtPtr) : t :=
  foldl (fun g s =>
           let r := CreateNode NK_BinaryOp g in
           update_node (ComputeNode.id (snd r)) (with_stmt s) (fst r))
        (new graphName) stmts.

End GraphMerge.

(* ===================================================================== *)
(** * 8. Properties                                                       *)
(* ===================================================================== *)

(** ** 8.1 Anchor scores *)

Section AnchorScore.
Import Anchor.

Lemma ComputeAnchorScore_spec_score (a : AnchorPoint) :
  ComputeAnchorScore a = spec_score a.
Proof.
  unfold ComputeAnchorScore, spec_score, spec_op_bonus, spec_kind_bonus.
  destruct (opCode a), (expectedKind a); simpl; lia.
Qed.

Lemma AddAnchor_new_anchor s text ln k op v a :
  a ∈ anchors (AddAnchor s text ln k op v) → a ∉ anchors v →
  expectedKind a = k ∧ opCode a = op ∧ loopDepth a = currentLoopDepth v.
Proof.
  unfold AddAnchor. case_decide; simpl; [done|].
  intros Hin Hnot. apply elem_of_app in Hin as [Hin|Hin]; [done|].
  apply list_elem_of_singleton in Hin. by subst a.
Qed.

(** C1 (amended): every anchor that [CheckTopLevelExpression] emits has the
    expected kind BinaryOp, so its score is
    [100 * loop_depth + op_bonus] with a kind bonus of 0, where the score
    of any anchor is [100 * loop_depth + op_bonus + kind_bonus] with the
    bonuses of the specification. *)
Theorem emitted_anchor_score (binOp : BinaryOperator)
    (parents : list DynTypedNode) (subtree : list StmtPtr)
    (v : AnchorVisitor) (a : AnchorPoint) :
  a ∈ anchors (CheckTopLevelExpression binOp parents subtree v) →
  a ∉ anchors v →
  expectedKind a = NK_BinaryOp
  ∧ ComputeAnchorScore a
    = 100 * loopDepth a + spec_op_bonus (opCode a)
      + spec_kind_bonus (expectedKind a)
  ∧ ComputeAnchorScore a
    = 100 * currentLoopDepth v + spec_op_bonus (GetOpCode (bo_opcode binOp)).
Proof.
  unfold CheckTopLevelExpression. intros Hin Hnot.
  match type of Hin with context [existsb ?f parents] =>
    destruct (existsb f parents); [done|] end.
  simpl in Hin.
  destruct (AddAnchor_new_anchor _ _ _ _ _ _ _ Hin Hnot) as (Hk & Hop & Hd).
  split; [done|]. split; [apply ComputeAnchorScore_spec_score|].
  rewrite ComputeAnchorScore_spec_score. unfold spec_score.
  rewrite Hk, Hop, Hd. simpl. lia.
Qed.

Lemma emitted_anchor_score_witness :
  expectedKind accumulator_anchor = NK_BinaryOp
  ∧ ComputeAnchorScore accumulator_anchor
    = 100 * 1 + 60 + 0
  ∧ ComputeAnchorScore accumulator_anchor = 100 * 1 + 60.
Proof.
  apply (emitted_anchor_score accumulator_binop [None]
           [10%N; 11%N; 12%N; 13%N; 14%N; 15%N; 16%N; 17%N; 18%N]
           accumulator_visitor accumulator_anchor).
  - vm_compute. apply list_elem_of_here.
  - vm_compute. apply not_elem_of_nil.
Defined.

(** C1 (as stated) fails: the anchor at [sum += a[i] * b[i]] at loop
    depth 1 is scored 160, not 230. *)
Lemma accumulator_score_is_160_not_230 :
  map score accumulator_anchors = [160]
  ∧ map score accumulator_anchors ≠ [230].
Proof. split; [reflexivity|]. vm_compute. discriminate. Qed.

End AnchorScore.

(** ** 8.2 Node identifiers *)

Section NodeIds.
Import ComputeGraph.

Lemma CreateNode_id k g : ComputeNode.id (snd (CreateNode k g)) = nextNodeId g.
Proof. reflexivity. Qed.

Lemma CreateNode_nextNodeId k g :
  nextNodeId (fst (CreateNode k g)) = incr64 (nextNodeId g).
Proof. reflexivity. Qed.

Lemma create_nodes_ids kinds g :
  (N.of_nat (length kinds) + nextNodeId g < 2 ^ 64)%N →
  snd (create_nodes kinds g)
  = map (fun i => (nextNodeId g + N.of_nat i)%N) (seq 0 (length kinds))
  ∧ nextNodeId (fst (create_nodes kinds g))
    = (nextNodeId g + N.of_nat (length kinds))%N.
Proof.
  revert g. induction kinds as [|k rest IH]; intros g Hlt.
  { simpl. split; [done|]. lia. }
  cbn [create_nodes fst snd length seq map].
  rewrite CreateNode_id.
  specialize (IH (fst (CreateNode k g))).
  rewrite CreateNode_nextNodeId in IH.
  assert (Hn : incr64 (nextNodeId g) = (nextNodeId g + 1)%N).
  { unfold incr64. apply N.mod_small. simpl length in Hlt. lia. }
  rewrite Hn in IH. simpl length in Hlt.
  destruct IH as [IH1 IH2]. { lia. }
  rewrite IH1, IH2. split; [|lia].
  f_equal; [lia|]. rewrite <- seq_shift, map_map.
  apply map_ext. intros i. lia.
Qed.

(** Between two calls of [Clear], and below [2^64] nodes, a graph hands
    out the identifiers 1, 2, 3, ...: each is at least 1 and none is
    handed out twice. *)
Lemma fresh_graph_node_ids name kinds :
  (N.of_nat (length kinds) + 1 < 2 ^ 64)%N →
  let ids := snd (create_nodes kinds (new name)) in
  Forall (fun i => (1 <= i)%N) ids ∧ NoDup ids.
Proof.
  intros Hlt ids. subst ids.
  destruct (create_nodes_ids kinds (new name)) as [-> _]; [simpl; lia|].
  simpl. split.
  - apply Forall_forall. intros i Hi.
    apply list_elem_of_In, in_map_iff in Hi as (j & <- & _). lia.
  - apply NoDup_fmap_2; [intros i j; lia|]. apply NoDup_ListNoDup, seq_NoDup.
Qed.

(** C5 (the code breaks it): after [Clear] the counter restarts at 0, so
    the next [CreateNode] hands out the reserved identifier 0 and the one
    after it hands out 1 again, whatever was handed out before. *)
Theorem Clear_restarts_node_ids_at_zero (g : t) (k1 k2 : ComputeNodeKind) :
  let '(g1, node1) := CreateNode k1 (Clear g) in
  let '(g2, node2) := CreateNode k2 g1 in
  ComputeNode.id node1 = 0%N
  ∧ nodes g1 !! 0%N = Some node1
  ∧ ComputeNode.id node2 = 1%N.
Proof. simpl. rewrite lookup_insert_eq. done. Qed.

(** The failing run of C5: a fresh graph hands out 1, is cleared, and
    then hands out 0 and 1. *)
Example Clear_failing_run :
  let '(g1, n1) := CreateNode NK_Variable (new "g") in
  let '(g2, n2) := CreateNode NK_Variable (Clear g1) in
  let '(g3, n3) := CreateNode NK_Variable g2 in
  (ComputeNode.id n1, ComputeNode.id n2, ComputeNode.id n3) = (1%N, 0%N, 1%N).
Proof. reflexivity. Qed.

End NodeIds.

(** ** 8.3 Data-flow path from a statement to itself *)

Section DataFlowPath.
Import Query.

(** C10: [HasDataFlowPath(s, s, var)] is true for every statement and
    every filter: the first turn of the loop takes the source from the
    worklist and finds it equal to the sink. *)
Theorem HasDataFlowPath_same_stmt (ctx : CPGContext) (s : StmtPtr)
    (var : string) (fuel : nat) :
  HasDataFlowPath_fuel (S fuel) ctx s s var = Some true
  ∧ HasDataFlowPath ctx s s var = true.
Proof.
  assert (H : ∀ f, HasDataFlowPath_fuel (S f) ctx s s var = Some true).
  { intros f. unfold HasDataFlowPath_fuel. simpl. by case_decide. }
  split; [apply H|].
  unfold HasDataFlowPath. rewrite Nat.add_comm. simpl. by rewrite H.
Qed.

End DataFlowPath.

(** ** 8.4 Deduplication *)

Section Deduplicate.
Import ComputeGraphSet.

Local Abbreviation sig := ComputeGraph.ComputeCanonicalSignature.

Lemma Deduplicate_step_seen_ok st g :
  seen_ok st → seen_ok (Deduplicate_step st g).
Proof.
  intros [Ha Hs]. unfold Deduplicate_step.
  repeat case_decide; [done..|]. split; simpl; intros x.
  - rewrite map_app, elem_of_app, elem_of_union, elem_of_singleton, Ha.
    simpl. rewrite list_elem_of_singleton. tauto.
  - rewrite map_app, elem_of_app, elem_of_union, elem_of_singleton, Hs.
    simpl. rewrite list_elem_of_singleton. tauto.
Qed.

Lemma Deduplicate_step_NoDup st g :
  seen_ok st →
  NoDup (map anchorKey (unique st)) → NoDup (map sig (unique st)) →
  NoDup (map anchorKey (unique (Deduplicate_step st g)))
  ∧ NoDup (map sig (unique (Deduplicate_step st g))).
Proof.
  intros [Ha Hs] Hk Hg. unfold Deduplicate_step.
  repeat case_decide; [done..|]. simpl. rewrite !map_app. simpl.
  split; apply NoDup_app; (split; [done|]); split;
    try apply NoDup_singleton; intros x Hx Hx';
    apply list_elem_of_singleton in Hx'; subst x.
  - by apply Ha in Hx.
  - by apply Hs in Hx.
Qed.

Lemma Deduplicate_fold_NoDup graphs st :
  seen_ok st →
  NoDup (map anchorKey (unique st)) → NoDup (map sig (unique st)) →
  let st' := foldl Deduplicate_step st graphs in
  seen_ok st'
  ∧ NoDup (map anchorKey (unique st')) ∧ NoDup (map sig (unique st')).
Proof.
  revert st. induction graphs as [|g graphs IH]; intros st Hok Hk Hg; simpl.
  { done. }
  destruct (Deduplicate_step_NoDup st g Hok Hk Hg) as [Hk' Hg'].
  apply IH; auto using Deduplicate_step_seen_ok.
Qed.

(** A list with distinct keys and signatures, none of them seen, is kept
    whole. *)
Lemma Deduplicate_fold_keeps graphs st :
  seen_ok st →
  NoDup (map anchorKey graphs) → NoDup (map sig graphs) →
  (∀ g, g ∈ graphs → anchorKey g ∉ seenAnchors st) →
  (∀ g, g ∈ graphs → sig g ∉ seenSignatures st) →
  unique (foldl Deduplicate_step st graphs) = unique st ++ graphs.
Proof.
  revert st. induction graphs as [|g graphs IH]; intros st Hok Hk Hg Ha Hs; simpl.
  { by rewrite app_nil_r. }
  simpl in Hk, Hg. apply NoDup_cons in Hk as [Hk1 Hk2].
  apply NoDup_cons in Hg as [Hg1 Hg2].
  assert (Hstep : Deduplicate_step st g
                  = {| unique := unique st ++ [g];
                       seenAnchors := {[ anchorKey g ]} ∪ seenAnchors st;
                       seenSignatures := {[ sig g ]} ∪ seenSignatures st |}).
  { unfold Deduplicate_step.
    rewrite decide_False by (apply Ha; left).
    rewrite decide_False by (apply Hs; left). done. }
  rewrite IH.
  - rewrite Hstep. simpl. by rewrite <- app_assoc.
  - by apply Deduplicate_step_seen_ok.
  - done.
  - done.
  - intros g' Hg'. rewrite Hstep. simpl.
    rewrite elem_of_union, elem_of_singleton. intros [Heq|Hin].
    + apply Hk1. rewrite <- Heq. by apply list_elem_of_fmap_2.
    + apply (Ha g'); [by right|done].
  - intros g' Hg'. rewrite Hstep. simpl.
    rewrite elem_of_union, elem_of_singleton. intros [Heq|Hin].
    + apply Hg1. rewrite <- Heq. by apply list_elem_of_fmap_2.
    + apply (Hs g'); [by right|done].
Qed.

Lemma seen_ok_empty :
  seen_ok {| unique := []; seenAnchors := ∅; seenSignatures := ∅ |}.
Proof. split; intros x; simpl; rewrite elem_of_empty, elem_of_nil; tauto. Qed.

(** C7: [Deduplicate] is idempotent; the graphs that survive one run have
    pairwise distinct anchor keys (hence pairwise distinct
    [(anchor_func, anchor_line)] pairs) and pairwise distinct canonical
    signatures. *)
Theorem Deduplicate_idempotent (graphs : ComputeGraphSet.t) :
  Deduplicate (Deduplicate graphs) = Deduplicate graphs
  ∧ NoDup (map (fun g => (ComputeGraph.GetProperty "anchor_func" g,
                          ComputeGraph.GetProperty "anchor_line" g))
               (Deduplicate graphs))
  ∧ NoDup (map sig (Deduplicate graphs)).
Proof.
  destruct (Deduplicate_fold_NoDup graphs _ seen_ok_empty) as (_ & Hk & Hg);
    [constructor..|].
  fold (Deduplicate graphs) in Hk, Hg.
  split; [|split; [|done]].
  - unfold Deduplicate at 1.
    rewrite Deduplicate_fold_keeps; [done|apply seen_ok_empty|done..| |];
      intros g _; simpl; apply not_elem_of_empty.
  - apply (NoDup_fmap_1 (fun p : string * string => p.1 +:+ ":" +:+ p.2)).
    rewrite <- list_fmap_compose. exact Hk.
Qed.

End Deduplicate.

(** ** 8.5 Removing an edge *)

Section RemoveEdge.
Import ComputeGraph.

Lemma edges_from_delete g eid e n :
  edges g !! eid = Some e →
  filter (fun e' => ComputeEdge.sourceId e' = n) (map snd (map_to_list (edges g)))
  ≡ₚ (if decide (ComputeEdge.sourceId e = n) then [e] else [])
     ++ filter (fun e' => ComputeEdge.sourceId e' = n)
               (map snd (map_to_list (delete eid (edges g)))).
Proof.
  intros He. rewrite <- (map_to_list_delete _ _ _ He). simpl.
  rewrite filter_cons. simpl. by case_decide.
Qed.

Lemma edges_into_delete g eid e n :
  edges g !! eid = Some e →
  filter (fun e' => ComputeEdge.targetId e' = n) (map snd (map_to_list (edges g)))
  ≡ₚ (if decide (ComputeEdge.targetId e = n) then [e] else [])
     ++ filter (fun e' => ComputeEdge.targetId e' = n)
               (map snd (map_to_list (delete eid (edges g)))).
Proof.
  intros He. rewrite <- (map_to_list_delete _ _ _ He). simpl.
  rewrite filter_cons. simpl. by case_decide.
Qed.

Lemma RemoveEdge_Some g eid e :
  edges g !! eid = Some e →
  nodes (RemoveEdge eid g) = nodes g
  ∧ edges (RemoveEdge eid g) = delete eid (edges g)
  ∧ outEdges (RemoveEdge eid g)
    = (<[ComputeEdge.sourceId e :=
           filter (fun x => x ≠ eid) (default [] (outEdges g !! ComputeEdge.sourceId e))]>
         (outEdges g))
  ∧ inEdges (RemoveEdge eid g)
    = (<[ComputeEdge.targetId e :=
           filter (fun x => x ≠ eid) (default [] (inEdges g !! ComputeEdge.targetId e))]>
         (inEdges g)).
Proof. intros He. unfold RemoveEdge. rewrite He. done. Qed.

(** C9: [RemoveEdge] takes the edge out of the edge map and out of the
    [outEdges]/[inEdges] lists of its endpoints and leaves every node, hence
    every [inputNodes]/[outputNodes] vector, as it was: the entries that
    [AddEdge] appended for the edge remain, and the vectors, which agreed
    with the edge map before, no longer do. *)
Theorem RemoveEdge_leaves_node_vectors_stale (g : t) (eid : EdgeId)
    (e : ComputeEdge.t) :
  edges g !! eid = Some e →
  adjacency_agrees g →
  (is_Some (nodes g !! ComputeEdge.sourceId e)
   ∨ is_Some (nodes g !! ComputeEdge.targetId e)) →
  let g' := RemoveEdge eid g in
  edges g' = delete eid (edges g)
  ∧ (eid ∉ default [] (outEdges g' !! ComputeEdge.sourceId e))
  ∧ (eid ∉ default [] (inEdges g' !! ComputeEdge.targetId e))
  ∧ nodes g' = nodes g
  ∧ (∀ node, nodes g' !! ComputeEdge.sourceId e = Some node →
             ComputeEdge.targetId e ∈ ComputeNode.outputNodes node)
  ∧ (∀ node, nodes g' !! ComputeEdge.targetId e = Some node →
             ComputeEdge.sourceId e ∈ ComputeNode.inputNodes node)
  ∧ ¬ adjacency_agrees g'.
Proof.
  intros He Hag Hlive g'.
  destruct (RemoveEdge_Some g eid e He) as (Hn & Hed & Hout & Hin).
  fold g' in Hn, Hed, Hout, Hin.
  assert (Hsrc : ∀ node, nodes g !! ComputeEdge.sourceId e = Some node →
                 ComputeNode.outputNodes node
                 ≡ₚ ComputeEdge.targetId e
                    :: map ComputeEdge.targetId (edges_from (ComputeEdge.sourceId e) g')).
  { intros node Hnode. destruct (Hag _ _ Hnode) as [Ho _]. rewrite Ho.
    unfold edges_from. rewrite (edges_from_delete g eid e _ He), Hed.
    by rewrite decide_True. }
  assert (Htgt : ∀ node, nodes g !! ComputeEdge.targetId e = Some node →
                 ComputeNode.inputNodes node
                 ≡ₚ ComputeEdge.sourceId e
                    :: map ComputeEdge.sourceId (edges_into (ComputeEdge.targetId e) g')).
  { intros node Hnode. destruct (Hag _ _ Hnode) as [_ Hi]. rewrite Hi.
    unfold edges_into. rewrite (edges_into_delete g eid e _ He), Hed.
    by rewrite decide_True. }
  split; [done|]. split; [|split; [|split; [done|split; [|split]]]].
  - rewrite Hout, lookup_insert_eq. simpl.
    rewrite list_elem_of_filter. tauto.
  - rewrite Hin, lookup_insert_eq. simpl.
    rewrite list_elem_of_filter. tauto.
  - intros node Hnode. rewrite Hn in Hnode. rewrite (Hsrc _ Hnode). left.
  - intros node Hnode. rewrite Hn in Hnode. rewrite (Htgt _ Hnode). left.
  - intros Hag'. destruct Hlive as [[node Hnode]|[node Hnode]].
    + pose proof (Hsrc _ Hnode) as H1.
      assert (Hnode' : nodes g' !! ComputeEdge.sourceId e = Some node) by by rewrite Hn.
      destruct (Hag' _ _ Hnode') as [H2 _]. rewrite H2 in H1.
      apply Permutation_length in H1. simpl in H1. lia.
    + pose proof (Htgt _ Hnode) as H1.
      assert (Hnode' : nodes g' !! ComputeEdge.targetId e = Some node) by by rewrite Hn.
      destruct (Hag' _ _ Hnode') as [_ H2]. rewrite H2 in H1.
      apply Permutation_length in H1. simpl in H1. lia.
Qed.
End RemoveEdge.

(** An instance: removing the only edge of [example_edge_graph]. *)
Lemma RemoveEdge_leaves_node_vectors_stale_witness :
  ComputeNode.outputNodes
    <$> (ComputeGraph.nodes (ComputeGraph.RemoveEdge 0%N ComputeGraph.example_edge_graph)
           !! 1%N) = Some [2%N]
  ∧ ¬ ComputeGraph.adjacency_agrees
        (ComputeGraph.RemoveEdge 0%N ComputeGraph.example_edge_graph).
Proof.
  split; [reflexivity|].
  refine (proj2 (proj2 (proj2 (proj2 (proj2 (proj2
    (RemoveEdge_leaves_node_vectors_stale ComputeGraph.example_edge_graph 0%N
       {| ComputeEdge.id := 0%N; ComputeEdge.kind := EK_DataFlow;
          ComputeEdge.sourceId := 1%N; ComputeEdge.targetId := 2%N;
          ComputeEdge.label := "x" |} _ _ _))))))).
  - reflexivity.
  - apply (bool_decide_unpack _). vm_compute. exact I.
  - left. vm_compute. eauto.
Defined.

(** ** 8.6 The initializer of the loop variable *)

Section StdMap.
Context {V : Type}.

Lemma elem_of_std_map_keys (m : gmap N V) k :
  k ∈ std_map_keys m ↔ is_Some (m !! k).
Proof.
  unfold std_map_keys. rewrite merge_sort_Permutation.
  rewrite list_elem_of_fmap. split.
  - intros ([k' v] & -> & Hin). apply elem_of_map_to_list in Hin. by exists v.
  - intros [v Hv]. exists (k, v). split; [done|]. by apply elem_of_map_to_list.
Qed.

Lemma NoDup_std_map_keys (m : gmap N V) : NoDup (std_map_keys m).
Proof.
  unfold std_map_keys. rewrite merge_sort_Permutation.
  apply NoDup_fst_map_to_list.
Qed.

Lemma elem_of_std_map_items (m : gmap N V) k v :
  (k, v) ∈ std_map_items m ↔ m !! k = Some v.
Proof.
  unfold std_map_items. rewrite list_elem_of_omap. split.
  - intros (k' & _ & Hk). destruct (m !! k') as [v'|] eqn:E; simpl in Hk; [|done].
    by simplify_eq.
  - intros Hv. exists k. split; [apply elem_of_std_map_keys; eauto|].
    by rewrite Hv.
Qed.
End StdMap.

Section LoopVarInit.
Import ComputeGraph Builder.

Lemma FindLoopVarInit_step_unfold loopInfo loopLine acc k n :
  FindLoopVarInit_step loopInfo loopLine acc (k, n)
  = if decide (k = loopNodeId loopInfo) then acc
    else if decide (ComputeNode.name n = loopVarName loopInfo
                    ∧ ComputeNode.kind n = NK_Variable
                    ∧ ComputeNode.sourceLine n > 0
                    ∧ ComputeNode.sourceLine n < loopLine)
    then if decide (ComputeNode.sourceLine n > acc.2)
         then (k, ComputeNode.sourceLine n) else acc
    else acc.
Proof. reflexivity. Qed.

Lemma FindLoopVarInit_fold loopInfo loopLine items :
  let acc := foldl (FindLoopVarInit_step loopInfo loopLine) (0%N, 0) items in
  (∀ k n, (k, n) ∈ items → init_candidate loopInfo loopLine k n →
          ComputeNode.sourceLine n <= acc.2)
  ∧ (acc = (0%N, 0)
     ∨ ∃ n, (acc.1, n) ∈ items ∧ init_candidate loopInfo loopLine acc.1 n
            ∧ ComputeNode.sourceLine n = acc.2).
Proof.
  induction items as [|[k n] items IH] using rev_ind.
  { simpl. split; [|by left]. intros k n Hin. by apply elem_of_nil in Hin. }
  rewrite foldl_app. cbn [foldl]. cbv zeta in IH.
  set (acc := foldl _ _ items) in *. destruct IH as [IH1 IH2]. cbv zeta.
  assert (Hpos : 0 <= acc.2).
  { destruct IH2 as [E|(n' & _ & Hc & E)]; [by rewrite E|].
    rewrite <- E. destruct Hc as (_ & _ & _ & ? & _). lia. }
  assert (Hold : ∀ acc', acc' = acc →
            (∀ k' n', (k', n') ∈ items ++ [(k, n)] →
                      init_candidate loopInfo loopLine k' n' →
                      (k', n') ≠ (k, n) ∨ ComputeNode.sourceLine n <= acc.2 →
                      ComputeNode.sourceLine n' <= acc'.2)
            ∧ (acc' = (0%N, 0)
               ∨ ∃ n', (acc'.1, n') ∈ items ++ [(k, n)]
                       ∧ init_candidate loopInfo loopLine acc'.1 n'
                       ∧ ComputeNode.sourceLine n' = acc'.2)).
  { intros acc' ->. split.
    - intros k' n' Hin Hc Hcase. apply elem_of_app in Hin as [Hin|Hin].
      + by apply (IH1 k' n').
      + apply list_elem_of_singleton in Hin. simplify_eq.
        destruct Hcase as [Hcase|Hcase]; [by destruct Hcase|exact Hcase].
    - destruct IH2 as [E|(n' & Hin & Hc & Hl)]; [by left|right].
      exists n'. rewrite elem_of_app. by eauto. }
  rewrite FindLoopVarInit_step_unfold.
  destruct (decide (k = loopNodeId loopInfo)) as [Hk|Hk].
  { destruct (Hold acc eq_refl) as [H1 H2]. split; [|done].
    intros k' n' Hin Hc. apply (H1 k' n' Hin Hc). left. intros ?; simplify_eq.
    by destruct Hc. }
  destruct (decide (ComputeNode.name n = loopVarName loopInfo
                    ∧ ComputeNode.kind n = NK_Variable
                    ∧ ComputeNode.sourceLine n > 0
                    ∧ ComputeNode.sourceLine n < loopLine)) as [Hc|Hc].
  - destruct (decide (ComputeNode.sourceLine n > acc.2)) as [Hgt|Hle].
    + simpl. split.
      * intros k' n' Hin Hc'. apply elem_of_app in Hin as [Hin|Hin].
        -- specialize (IH1 _ _ Hin Hc'). lia.
        -- apply list_elem_of_singleton in Hin. by simplify_eq.
      * right. exists n. rewrite elem_of_app, list_elem_of_singleton.
        unfold init_candidate. tauto.
    + destruct (Hold acc eq_refl) as [H1 H2]. split; [|done].
      intros k' n' Hin Hc'. apply (H1 k' n' Hin Hc'). right. lia.
  - destruct (Hold acc eq_refl) as [H1 H2]. split; [|done].
    intros k' n' Hin Hc'. apply (H1 k' n' Hin Hc'). left. intros ?; simplify_eq.
    apply Hc. unfold init_candidate in Hc'. tauto.
Qed.

Lemma FindLoopVarInit_spec loopInfo loopLine g :
  let r := FindLoopVarInit loopInfo loopLine g in
  r.1 ≠ 0%N →
  ∃ node, nodes g !! r.1 = Some node
          ∧ init_candidate loopInfo loopLine r.1 node
          ∧ ∀ k n, nodes g !! k = Some n → init_candidate loopInfo loopLine k n →
                   ComputeNode.sourceLine n <= ComputeNode.sourceLine node.
Proof.
  intros r Hr. subst r. unfold FindLoopVarInit in *.
  destruct (FindLoopVarInit_fold loopInfo loopLine (std_map_items (nodes g)))
    as [H1 H2].
  destruct H2 as [H2|(n & Hin & Hc & Hl)].
  { rewrite H2 in Hr. done. }
  exists n. split; [by apply elem_of_std_map_items|]. split; [done|].
  intros k n' Hk Hc'. rewrite Hl. apply (H1 k n'); [|done].
  by apply elem_of_std_map_items.
Qed.

Lemma elem_of_GetOutgoingEdges g n e :
  outEdges_agree g →
  e ∈ GetOutgoingEdges n g
  ↔ edges g !! ComputeEdge.id e = Some e ∧ ComputeEdge.sourceId e = n.
Proof.
  intros [H1 H2]. unfold GetOutgoingEdges, GetEdge.
  rewrite list_elem_of_omap. split.
  - intros (eid & Hin & He). destruct (H1 _ _ He) as [Hid _]. rewrite Hid.
    split; [done|].
    destruct (outEdges g !! n) as [l|] eqn:El; simpl in Hin;
      [|by apply elem_of_nil in Hin].
    specialize (H2 _ _ El). rewrite Forall_forall in H2.
    specialize (H2 _ Hin). by rewrite He in H2.
  - intros [He Hs]. exists (ComputeEdge.id e). split; [|done].
    destruct (H1 _ _ He) as [_ Hin]. by rewrite Hs in Hin.
Qed.

Lemma edges_RemoveEdge eid g : edges (RemoveEdge eid g) = delete eid (edges g).
Proof.
  unfold RemoveEdge. destruct (edges g !! eid) eqn:E; [done|].
  by rewrite delete_id.
Qed.

Lemma edges_fold_RemoveEdge l g eid :
  edges (foldl (fun acc x => RemoveEdge x acc) g l) !! eid
  = if decide (eid ∈ l) then None else edges g !! eid.
Proof.
  revert g. induction l as [|x l IH]; intros g.
  { cbn [foldl]. case_decide as H; [by apply elem_of_nil in H|done]. }
  cbn [foldl]. rewrite IH, edges_RemoveEdge.
  destruct (decide (eid ∈ l)) as [Hin|Hnin].
  - rewrite decide_True; [done|by right].
  - destruct (decide (eid = x)) as [->|Hne].
    + rewrite decide_True by left. apply lookup_delete_eq.
    + rewrite decide_False; [by apply lookup_delete_ne|].
      rewrite elem_of_cons. tauto.
Qed.

Lemma AddEdge_outEdges_agree src tgt k lbl g :
  outEdges_agree g → edge_id_fresh g →
  outEdges_agree (AddEdge src tgt k lbl g).1.
Proof.
  intros [H1 H2] [F1 F2]. split; simpl.
  - intros eid e He. destruct (decide (nextEdgeId g = eid)) as [<-|Hne].
    + rewrite lookup_insert_eq in He. simplify_eq. simpl. split; [done|].
      rewrite lookup_insert_eq. simpl. apply elem_of_app. right. left.
    + rewrite lookup_insert_ne in He by done.
      destruct (H1 _ _ He) as [Hid Hin]. split; [done|].
      destruct (decide (src = ComputeEdge.sourceId e)) as [->|Hs].
      * rewrite lookup_insert_eq. simpl. apply elem_of_app. by left.
      * by rewrite lookup_insert_ne.
  - intros nid l Hl. apply Forall_forall. intros eid Hin.
    destruct (decide (nextEdgeId g = eid)) as [<-|Hne].
    + rewrite lookup_insert_eq. simpl.
      destruct (decide (src = nid)) as [->|Hs]; [done|].
      rewrite lookup_insert_ne in Hl by done. by destruct (F2 _ _ Hl).
    + rewrite lookup_insert_ne by done.
      destruct (decide (src = nid)) as [->|Hs].
      * rewrite lookup_insert_eq in Hl. simplify_eq.
        apply elem_of_app in Hin as [Hin|Hin];
          [|apply list_elem_of_singleton in Hin; done].
        destruct (outEdges g !! nid) as [l|] eqn:El; simpl in Hin;
          [|by apply elem_of_nil in Hin].
        specialize (H2 _ _ El). rewrite Forall_forall in H2. by apply H2.
      * rewrite lookup_insert_ne in Hl by done.
        specialize (H2 _ _ Hl). rewrite Forall_forall in H2. by apply H2.
Qed.
End LoopVarInit.
Section LoopVarInitMain.
Import ComputeGraph Builder.

Lemma edges_update_node nid f g : edges (update_node nid f g) = edges g.
Proof. reflexivity. Qed.

Lemma existsb_elem_of {A} (f : A → bool) (l : list A) :
  existsb f l = true ↔ ∃ x, x ∈ l ∧ f x = true.
Proof.
  rewrite existsb_exists. split; intros (x & Hin & Hf); exists x;
    (split; [by apply list_elem_of_In|done]).
Qed.

(** C3 (amended): after [ConnectLoopVarInitToLoop], for the external
    initializer of the loop variable (a Variable node of that name with the
    largest source line below the line of the loop), every outgoing DataFlow
    edge of the initializer goes to the Loop node and the initializer has
    an edge to the Loop node; when it had no edge to the Loop node before,
    it has exactly one outgoing DataFlow edge, labelled [init:var], to the
    Loop node. *)
Theorem ConnectLoopVarInitToLoop_outgoing_DataFlow (loopInfo : LoopInfo)
    (g : ComputeGraph.t) (loopNode : ComputeNode.t) :
  outEdges_agree g → edge_id_fresh g →
  loopNodeId loopInfo ≠ 0%N → loopVarName loopInfo ≠ "" →
  nodes g !! loopNodeId loopInfo = Some loopNode →
  (FindLoopVarInit loopInfo (ComputeNode.sourceLine loopNode) g).1 ≠ 0%N →
  let loopId := loopNodeId loopInfo in
  let loopLine := ComputeNode.sourceLine loopNode in
  let initId := (FindLoopVarInit loopInfo loopLine g).1 in
  let g' := ConnectLoopVarInitToLoop loopInfo g in
  (∃ initNode, nodes g !! initId = Some initNode
     ∧ init_candidate loopInfo loopLine initId initNode
     ∧ ∀ k n, nodes g !! k = Some n → init_candidate loopInfo loopLine k n →
              ComputeNode.sourceLine n <= ComputeNode.sourceLine initNode)
  ∧ (∀ eid e, edges g' !! eid = Some e →
              ComputeEdge.sourceId e = initId →
              ComputeEdge.kind e = EK_DataFlow →
              ComputeEdge.targetId e = loopId)
  ∧ (∃ eid e, edges g' !! eid = Some e
              ∧ ComputeEdge.sourceId e = initId
              ∧ ComputeEdge.targetId e = loopId)
  ∧ ((∃ eid e, edges g !! eid = Some e
               ∧ ComputeEdge.sourceId e = initId
               ∧ ComputeEdge.targetId e = loopId)
     ∨ (∃ eid e, edges g' !! eid = Some e
                 ∧ ComputeEdge.sourceId e = initId
                 ∧ ComputeEdge.kind e = EK_DataFlow
                 ∧ ComputeEdge.targetId e = loopId
                 ∧ ComputeEdge.label e = "init:" +:+ loopVarName loopInfo
                 ∧ ∀ eid' e', edges g' !! eid' = Some e' →
                              ComputeEdge.sourceId e' = initId →
                              ComputeEdge.kind e' = EK_DataFlow →
                              eid' = eid)).
Proof.
  intros Hag Hfresh Hl0 Hv Hloop Hinit loopId loopLine initId g'.
  destruct (FindLoopVarInit_spec loopInfo loopLine g Hinit)
    as (initNode & Hnode & Hcand & Hmax).
  fold initId in Hnode, Hcand, Hmax, Hinit.
  assert (Hne : initId ≠ loopId) by by destruct Hcand.
  split; [by exists initNode|].
  (* the graph after step 3 *)
  set (hasInitEdge :=
         existsb (fun edge => bool_decide (ComputeEdge.targetId edge = loopId))
                 (GetOutgoingEdges initId g)).
  set (g1 := if hasInitEdge then g
             else ConnectNodes initId loopId EK_DataFlow
                    ("init:" +:+ loopVarName loopInfo) g).
  assert (Hg' : ∀ eid, edges g' !! eid
                = if decide (eid ∈ edgesToRemove initId loopId g1) then None
                  else edges g1 !! eid).
  { intros eid. subst g'. unfold ConnectLoopVarInitToLoop.
    rewrite decide_False by tauto. unfold GetNode. rewrite Hloop.
    fold loopLine initId. rewrite decide_False by done.
    rewrite edges_update_node. fold loopId hasInitEdge g1.
    apply edges_fold_RemoveEdge. }
  set (newEdge := {| ComputeEdge.id := nextEdgeId g; ComputeEdge.kind := EK_DataFlow;
                     ComputeEdge.sourceId := initId; ComputeEdge.targetId := loopId;
                     ComputeEdge.label := "init:" +:+ loopVarName loopInfo |}).
  assert (Hg1 : (hasInitEdge = true ∧ g1 = g
                 ∧ ∃ e, edges g !! ComputeEdge.id e = Some e
                        ∧ ComputeEdge.sourceId e = initId
                        ∧ ComputeEdge.targetId e = loopId)
                ∨ (hasInitEdge = false
                   ∧ g1 = (AddEdge initId loopId EK_DataFlow
                             ("init:" +:+ loopVarName loopInfo) g).1
                   ∧ ∀ eid e, edges g !! eid = Some e →
                              ComputeEdge.sourceId e = initId →
                              ComputeEdge.targetId e ≠ loopId)).
  { destruct hasInitEdge eqn:E; [left|right]; (split; [done|]).
    - split; [done|]. subst hasInitEdge.
      apply existsb_elem_of in E as (e & Hin & Ht).
      apply bool_decide_eq_true in Ht.
      apply (elem_of_GetOutgoingEdges _ _ _ Hag) in Hin as [He Hs]. by exists e.
    - assert (Hno : ∀ e, e ∈ GetOutgoingEdges initId g →
                         ComputeEdge.targetId e ≠ loopId).
      { intros e Hin Ht. subst hasInitEdge.
        assert (existsb (fun edge => bool_decide (ComputeEdge.targetId edge = loopId))
                        (GetOutgoingEdges initId g) = true) as Hex; [|congruence].
        apply existsb_elem_of. exists e. split; [done|].
        by apply bool_decide_eq_true. }
      split.
      + subst g1. unfold ConnectNodes.
        rewrite decide_False by tauto.
        match goal with |- context [existsb ?f ?l] =>
          destruct (existsb f l) eqn:E2 end; [|done].
        apply existsb_elem_of in E2 as (e & Hin & Ht).
        apply bool_decide_eq_true in Ht as (Ht & _). by destruct (Hno e Hin).
      + intros eid e He Hs. apply Hno.
        pose proof Hag as [H1 _]. destruct (H1 _ _ He) as [Hid _].
        apply elem_of_GetOutgoingEdges; [done|]. by rewrite Hid. }
  assert (Hag1 : outEdges_agree g1).
  { destruct Hg1 as [(_ & -> & _)|(_ & -> & _)]; [done|].
    by apply AddEdge_outEdges_agree. }
  assert (Hrem : ∀ eid, eid ∈ edgesToRemove initId loopId g1
                 ↔ ∃ e, edges g1 !! eid = Some e
                        ∧ ComputeEdge.sourceId e = initId
                        ∧ ComputeEdge.targetId e ≠ loopId
                        ∧ ComputeEdge.kind e = EK_DataFlow).
  { intros eid. unfold edgesToRemove. rewrite list_elem_of_fmap. split.
    - intros (e & -> & Hin). apply list_elem_of_filter in Hin as [[Ht Hk] Hin].
      apply (elem_of_GetOutgoingEdges _ _ _ Hag1) in Hin as [He Hs]. by exists e.
    - intros (e & He & Hs & Ht & Hk). pose proof Hag1 as [H1 H2].
      destruct (H1 _ _ He) as [Hid _]. exists e. split; [done|].
      apply list_elem_of_filter. split; [done|].
      apply elem_of_GetOutgoingEdges; [by split|]. by rewrite Hid. }
  split; [|split].
  - intros eid e He Hs Hk. rewrite Hg' in He.
    case_decide as Hin; [done|].
    destruct (decide (ComputeEdge.targetId e = loopId)) as [|Ht]; [done|].
    destruct Hin. apply Hrem. by exists e.
  - destruct Hg1 as [(_ & Eg1 & e & He & Hs & Ht)|(_ & Eg1 & _)].
    + exists (ComputeEdge.id e), e. split; [|done]. rewrite Hg'.
      rewrite decide_False; [by rewrite Eg1|].
      rewrite Hrem. intros (e' & He' & _ & Ht' & _).
      rewrite Eg1 in He'. by simplify_eq.
    + exists (nextEdgeId g), newEdge. split; [|done]. rewrite Hg'.
      assert (He : edges g1 !! nextEdgeId g = Some newEdge).
      { rewrite Eg1. simpl. apply lookup_insert_eq. }
      rewrite decide_False; [done|].
      rewrite Hrem. intros (e' & He' & _ & Ht' & _). by simplify_eq.
  - destruct Hg1 as [(_ & Eg1 & e & He & Hs & Ht)|(_ & Eg1 & Hno)].
    { left. by exists (ComputeEdge.id e), e. }
    right. exists (nextEdgeId g), newEdge.
    assert (He : edges g1 !! nextEdgeId g = Some newEdge).
    { rewrite Eg1. simpl. apply lookup_insert_eq. }
    split.
    { rewrite Hg'. rewrite decide_False; [done|].
      rewrite Hrem. intros (e' & He' & _ & Ht' & _). by simplify_eq. }
    do 4 (split; [done|]).
    intros eid' e' He' Hs' Hk'. rewrite Hg' in He'.
    case_decide as Hin; [done|].
    destruct (decide (eid' = nextEdgeId g)) as [|Hneq]; [done|].
    destruct Hin. apply Hrem. exists e'. split; [done|]. split; [done|].
    split; [|done]. rewrite Eg1 in He'. simpl in He'.
    rewrite lookup_insert_ne in He' by done. by apply (Hno eid').
Qed.
End LoopVarInitMain.

(** An instance: [while_loop_graph], where the declaration of [i] had no
    edge to the loop. *)
Lemma ConnectLoopVarInitToLoop_outgoing_DataFlow_witness :
  let loopInfo := Builder.while_loop_info in
  let g := Builder.while_loop_graph in
  let loopId := 2%N in
  let loopLine := 2 in
  let initId := (Builder.FindLoopVarInit loopInfo loopLine g).1 in
  let g' := Builder.ConnectLoopVarInitToLoop loopInfo g in
  (∃ initNode, ComputeGraph.nodes g !! initId = Some initNode
     ∧ Builder.init_candidate loopInfo loopLine initId initNode
     ∧ ∀ k n, ComputeGraph.nodes g !! k = Some n →
              Builder.init_candidate loopInfo loopLine k n →
              ComputeNode.sourceLine n <= ComputeNode.sourceLine initNode)
  ∧ (∀ eid e, ComputeGraph.edges g' !! eid = Some e →
              ComputeEdge.sourceId e = initId →
              ComputeEdge.kind e = EK_DataFlow →
              ComputeEdge.targetId e = loopId)
  ∧ (∃ eid e, ComputeGraph.edges g' !! eid = Some e
              ∧ ComputeEdge.sourceId e = initId
              ∧ ComputeEdge.targetId e = loopId)
  ∧ ((∃ eid e, ComputeGraph.edges g !! eid = Some e
               ∧ ComputeEdge.sourceId e = initId
               ∧ ComputeEdge.targetId e = loopId)
     ∨ (∃ eid e, ComputeGraph.edges g' !! eid = Some e
                 ∧ ComputeEdge.sourceId e = initId
                 ∧ ComputeEdge.kind e = EK_DataFlow
                 ∧ ComputeEdge.targetId e = loopId
                 ∧ ComputeEdge.label e = "init:" +:+ Builder.loopVarName loopInfo
                 ∧ ∀ eid' e', ComputeGraph.edges g' !! eid' = Some e' →
                              ComputeEdge.sourceId e' = initId →
                              ComputeEdge.kind e' = EK_DataFlow →
                              eid' = eid)).
Proof.
  apply (ConnectLoopVarInitToLoop_outgoing_DataFlow Builder.while_loop_info
           Builder.while_loop_graph
           (ComputeNode.describe "while" Op_Unknown 2 (ComputeNode.new NK_Loop 2%N))).
  - apply (bool_decide_unpack _). vm_compute. exact I.
  - apply (bool_decide_unpack _). vm_compute. exact I.
  - vm_compute. discriminate.
  - vm_compute. discriminate.
  - reflexivity.
  - vm_compute. discriminate.
Defined.

(** C3 (as stated) fails: in [macro_init_graph] the initializer (node 1)
    already has a Control edge to the loop, no DataFlow edge is added, and
    its DataFlow edge to the use is removed: it is left with no outgoing
    DataFlow edge. *)
Lemma ConnectLoopVarInitToLoop_no_DataFlow_edge :
  let g' := Builder.ConnectLoopVarInitToLoop Builder.macro_init_info
              Builder.macro_init_graph in
  (Builder.FindLoopVarInit Builder.macro_init_info 5 Builder.macro_init_graph).1 = 1%N
  ∧ map (fun e => (ComputeEdge.kind e, ComputeEdge.targetId e))
        (ComputeGraph.GetOutgoingEdges 1%N Builder.macro_init_graph)
    = [(EK_Control, 2%N); (EK_DataFlow, 3%N)]
  ∧ map (fun e => (ComputeEdge.kind e, ComputeEdge.targetId e))
        (ComputeGraph.GetOutgoingEdges 1%N g')
    = [(EK_Control, 2%N)]
  ∧ length (filter (fun e => ComputeEdge.kind e = EK_DataFlow)
                   (ComputeGraph.GetAllEdges g')) ≠ 1%nat.
Proof. vm_compute. repeat split; discriminate. Qed.

(** ** 8.7 The guard of the callee analysis *)

Section CalleeAnalysisFacts.
Import Builder.
Variable calleeBody : FunctionDecl -> NodeId -> CallExpr -> list BodyStep.

Lemma call_state_kept_refl b : call_state_kept b b.
Proof.
  repeat split. exists []. split; [by rewrite app_nil_r|constructor].
Qed.

Lemma call_state_kept_trans b1 b2 b3 :
  call_state_kept b1 b2 → call_state_kept b2 b3 → call_state_kept b1 b3.
Proof.
  intros (E1 & M1 & D1 & S1 & n1 & L1 & F1) (E2 & M2 & D2 & S2 & n2 & L2 & F2).
  repeat split; try congruence.
  exists (n1 ++ n2). split; [by rewrite L2, L1, app_assoc|].
  apply Forall_app. split; [done|]. by rewrite <- M1.
Qed.

Lemma call_state_kept_set_graph g b : call_state_kept b (set_graph g b).
Proof.
  repeat split. exists []. split; [by rewrite app_nil_r|constructor].
Qed.

Lemma BodyStep_run_kept process steps b :
  (∀ c n b0, call_state_kept b0 (process c n b0)) →
  call_state_kept b (foldl (BodyStep_run process) b steps).
Proof.
  intros Hp. revert b. induction steps as [|step steps IH]; intros b; simpl.
  { apply call_state_kept_refl. }
  eapply call_state_kept_trans; [|apply IH].
  destruct step; [apply call_state_kept_set_graph|apply Hp].
Qed.

Lemma AnalyzeCalleeBody_kept process callee nodeId callExpr b :
  (∀ c n b0, call_state_kept b0 (process c n b0)) →
  call_state_kept b (AnalyzeCalleeBody calleeBody process callee nodeId callExpr b).
Proof.
  intros Hp. unfold AnalyzeCalleeBody.
  destruct (ShouldSkipCalleeAnalysis callee); [apply call_state_kept_refl|].
  eapply call_state_kept_trans; [apply call_state_kept_set_graph|].
  by apply BodyStep_run_kept.
Qed.

Lemma ProcessCalleeAnalysis_fuel_kept fuel callExpr nodeId b :
  call_state_kept b (ProcessCalleeAnalysis_fuel calleeBody fuel callExpr nodeId b).
Proof.
  revert callExpr nodeId b.
  induction fuel as [|fuel IH]; intros callExpr nodeId b; simpl.
  - repeat (case_match || case_decide);
      first [apply call_state_kept_refl|apply call_state_kept_set_graph].
  - destruct (negb (enableInterprocedural b)
              || bool_decide (currentCallDepth b >= maxCallDepth b)) eqn:Hg;
      [apply call_state_kept_refl|].
    destruct (ce_directCallee callExpr) as [callee|]; [|apply call_state_kept_refl].
    destruct (negb (fd_hasBody callee)); [apply call_state_kept_refl|].
    destruct (fd_isIntrinsic callee); [apply call_state_kept_set_graph|].
    destruct (decide (fd_canonical callee ∈ currentCallStack b)) as [Hstack|Hstack];
      [apply call_state_kept_refl|].
    apply orb_false_iff in Hg as [_ Hd]. apply bool_decide_eq_false in Hd.
    match goal with |- context [AnalyzeCalleeBody _ _ _ _ _ ?b2] =>
      pose proof (AnalyzeCalleeBody_kept (ProcessCalleeAnalysis_fuel calleeBody fuel)
                    callee nodeId callExpr b2 IH) as Hk;
      set (b3 := AnalyzeCalleeBody calleeBody _ callee nodeId callExpr b2) in * end.
    destruct Hk as (E & M & D & Hs & new & L & F). simpl in E, M, D, Hs, L, F.
    repeat split; simpl; try done.
    + rewrite D. lia.
    + rewrite Hs. apply set_eq. intros x.
      rewrite elem_of_difference, elem_of_union, elem_of_singleton.
      split; [tauto|]. intros Hx. split; [by right|]. by intros ->.
    + exists ((fd_canonical callee, currentCallStack b, currentCallDepth b) :: new).
      split; [by rewrite L, <- app_assoc|].
      constructor; [|done]. split; simpl; [done|lia].
Qed.

(** C8: every entry into [AnalyzeCalleeBody] that [ProcessCalleeAnalysis]
    makes, itself or through the nested calls of the callee bodies, is for
    a callee whose canonical declaration was not on [currentCallStack] and
    at a [currentCallDepth] below [maxCallDepth]; when the depth has
    reached the limit the call returns the builder unchanged, and for a
    callee that is on the stack it records no entry, adds no node and no
    edge (it returns the builder unchanged unless the callee is a vector
    intrinsic, which only marks the call node).  The call restores the
    stack and the depth it found. *)
Theorem AnalyzeCalleeBody_entry_guard (fuel : nat) (callExpr : CallExpr)
    (nodeId : NodeId) (b : t) :
  let b' := ProcessCalleeAnalysis_fuel calleeBody fuel callExpr nodeId b in
  (∃ new, entered b' = entered b ++ new
          ∧ Forall (fun e => (e.1.1 ∉ e.1.2) ∧ e.2 < maxCallDepth b) new)
  ∧ (currentCallDepth b >= maxCallDepth b → b' = b)
  ∧ (∀ callee, ce_directCallee callExpr = Some callee →
               fd_canonical callee ∈ currentCallStack b →
               entered b' = entered b
               ∧ ComputeGraph.edges (currentGraph b')
                 = ComputeGraph.edges (currentGraph b)
               ∧ dom (ComputeGraph.nodes (currentGraph b'))
                 = dom (ComputeGraph.nodes (currentGraph b))
               ∧ (fd_isIntrinsic callee = false → b' = b))
  ∧ currentCallDepth b' = currentCallDepth b
  ∧ currentCallStack b' = currentCallStack b.
Proof.
  intros b'.
  destruct (ProcessCalleeAnalysis_fuel_kept fuel callExpr nodeId b)
    as (_ & _ & D & Hs & Hnew). fold b' in D, Hs, Hnew.
  split; [exact Hnew|]. split; [|split; [|done]].
  - intros Hd. subst b'.
    assert (Hg : negb (enableInterprocedural b)
                 || bool_decide (currentCallDepth b >= maxCallDepth b) = true).
    { apply orb_true_iff. right. by apply bool_decide_eq_true. }
    destruct fuel; simpl; by rewrite Hg.
  - intros callee Hc Hin. subst b'.
    assert (Hcut : ProcessCalleeAnalysis_fuel calleeBody fuel callExpr nodeId b
                   = if negb (enableInterprocedural b)
                        || bool_decide (currentCallDepth b >= maxCallDepth b)
                     then b
                     else if negb (fd_hasBody callee) then b
                     else if fd_isIntrinsic callee then
                       set_graph
                         (ComputeGraph.update_node nodeId
                            (ComputeNode.SetProperty "is_intrinsic" "true")
                            (currentGraph b)) b
                     else b).
    { destruct fuel; simpl; rewrite Hc; by rewrite (decide_True _ _ Hin). }
    rewrite Hcut.
    destruct (negb (enableInterprocedural b)
              || bool_decide (currentCallDepth b >= maxCallDepth b)); [done|].
    destruct (negb (fd_hasBody callee)); [done|].
    destruct (fd_isIntrinsic callee); [|done].
    simpl. split; [done|]. split; [done|]. split; [|done].
    apply dom_alter_L.
Qed.

Lemma BodyStep_run_ext process1 process2 steps b b0 :
  (∀ c n b1, call_state_kept b1 (process1 c n b1)) →
  (∀ c n b1, call_state_kept b b1 → process1 c n b1 = process2 c n b1) →
  call_state_kept b b0 →
  foldl (BodyStep_run process1) b0 steps = foldl (BodyStep_run process2) b0 steps.
Proof.
  intros Hk Heq. revert b0.
  induction steps as [|step steps IH]; intros b0 Hb0; simpl; [done|].
  destruct step as [f|c n]; simpl.
  - apply IH. eapply call_state_kept_trans; [done|apply call_state_kept_set_graph].
  - rewrite <- (Heq c n b0 Hb0). apply IH.
    eapply call_state_kept_trans; [done|apply Hk].
Qed.

Lemma AnalyzeCalleeBody_ext process1 process2 callee nodeId callExpr b :
  (∀ c n b0, call_state_kept b0 (process1 c n b0)) →
  (∀ c n b0, call_state_kept b b0 → process1 c n b0 = process2 c n b0) →
  AnalyzeCalleeBody calleeBody process1 callee nodeId callExpr b
  = AnalyzeCalleeBody calleeBody process2 callee nodeId callExpr b.
Proof.
  intros Hk Heq. unfold AnalyzeCalleeBody.
  destruct (ShouldSkipCalleeAnalysis callee); [done|].
  apply (BodyStep_run_ext _ _ _ b); [done|done|apply call_state_kept_set_graph].
Qed.

(** Fuel beyond [maxCallDepth - currentCallDepth] changes nothing. *)
Lemma ProcessCalleeAnalysis_fuel_enough fuel1 fuel2 callExpr nodeId b :
  (Z.to_nat (maxCallDepth b - currentCallDepth b) <= fuel1)%nat →
  (Z.to_nat (maxCallDepth b - currentCallDepth b) <= fuel2)%nat →
  ProcessCalleeAnalysis_fuel calleeBody fuel1 callExpr nodeId b
  = ProcessCalleeAnalysis_fuel calleeBody fuel2 callExpr nodeId b.
Proof.
  revert fuel2 callExpr nodeId b.
  induction fuel1 as [|fuel1 IH]; intros fuel2 callExpr nodeId b H1 H2.
  - destruct fuel2; simpl; [done|].
    destruct (negb (enableInterprocedural b)
              || bool_decide (currentCallDepth b >= maxCallDepth b)) eqn:Hg; [done|].
    apply orb_false_iff in Hg as [_ Hd]. apply bool_decide_eq_false in Hd. lia.
  - destruct fuel2 as [|fuel2]; simpl.
    + destruct (negb (enableInterprocedural b)
                || bool_decide (currentCallDepth b >= maxCallDepth b)) eqn:Hg; [done|].
      apply orb_false_iff in Hg as [_ Hd]. apply bool_decide_eq_false in Hd. lia.
    + destruct (negb (enableInterprocedural b)
                || bool_decide (currentCallDepth b >= maxCallDepth b)) eqn:Hg; [done|].
      apply orb_false_iff in Hg as [_ Hd]. apply bool_decide_eq_false in Hd.
      destruct (ce_directCallee callExpr) as [callee|]; [|done].
      destruct (negb (fd_hasBody callee)); [done|].
      destruct (fd_isIntrinsic callee); [done|].
      destruct (decide (fd_canonical callee ∈ currentCallStack b)) as [Hstack|Hstack];
        [done|].
      erewrite AnalyzeCalleeBody_ext; [done| |].
      * intros c n b0. apply ProcessCalleeAnalysis_fuel_kept.
      * intros c n b0 (_ & M & D & _). simpl in M, D.
        apply IH; rewrite M, D; lia.
Qed.
End CalleeAnalysisFacts.

(** The recursive call inside [fact] is cut off: one entry, made with an
    empty stack at depth 0; the chain [f1 -> f2 -> ...] is cut off after
    [maxCallDepth = 3] entries. *)
Example ProcessCalleeAnalysis_cutoff_runs :
  Builder.entered
    (Builder.ProcessCalleeAnalysis Builder.example_calleeBody Builder.fact_call 1%N
       (Builder.BuildFromAnchor_init true 3 "main_L1"))
  = [(7%N, ∅, 0)]
  ∧ map (fun e => (e.1.1, e.2))
        (Builder.entered
           (Builder.ProcessCalleeAnalysis Builder.example_calleeBody
              (Builder.chain_call 1) 1%N
              (Builder.BuildFromAnchor_init true 3 "main_L1")))
    = [(1%N, 0); (2%N, 1); (3%N, 2)].
Proof. split; vm_compute; reflexivity. Qed.

(* --------------------------------------------------------------------- *)
(** ** 8.8 The backward trace of a variable reference                     *)
(* --------------------------------------------------------------------- *)

Section BackwardTrace.
Import Trace.



Lemma kill_loop_subset varName l d : d ∈ kill_loop varName l → d ∈ l.
Proof.
  induction l as [|x l IH]; simpl; [done|].
  destruct (existsb _ l).
  - intros H. right. by apply IH.
  - intros [->|H]%elem_of_cons; [left|right; by apply IH].
Qed.





Lemma collect_defInfos_NoDup useLine seen defs :
  NoDup (map ptr (collect_defInfos useLine seen defs))
  ∧ ∀ d, d ∈ collect_defInfos useLine seen defs → ptr d ∉ seen.
Proof.
  revert seen. induction defs as [|def rest IH]; intros seen; simpl.
  { split; [constructor|]. by intros d ?%elem_of_nil. }
  destruct (decide (ptr def ∈ seen)) as [Hin|Hnin]; [apply IH|].
  destruct (IH ({[ ptr def ]} ∪ seen)) as [Hnd Hseen].
  assert (Hseen' : ∀ d, d ∈ collect_defInfos useLine ({[ptr def]} ∪ seen) rest →
                        (ptr d ∉ seen) ∧ (ptr d ≠ ptr def)).
  { intros d Hd. specialize (Hseen d Hd).
    rewrite elem_of_union, elem_of_singleton in Hseen. tauto. }
  case_decide.
  - split.
    + simpl. constructor; [|done].
      intros (d & Hp & Hd)%list_elem_of_fmap.
      destruct (Hseen' d Hd) as [_ Hne]. congruence.
    + intros d [->|Hd]%elem_of_cons; [done|]. by apply Hseen'.
  - split; [done|]. intros d Hd. by apply Hseen'.
Qed.











(** When the earlier definition is the declaration [int x = 1;], the
    modification scan does not find it, and the second assignment is the
    only predecessor, whether the reaching-definition query or the scan of
    the function gives the definitions. *)
Example declaration_then_assignment :
  FindVariableModifications [decl1; assign2; use3] "x" = [assign2]
  ∧ (ProcessSingleVariableReference no_loop (ComputeGraph.new "f")
       [decl1; assign2; use3] [assign2] x_ref 5%N use3 no_sets).2
    = [(assign2, EK_DataFlow); (assign2, EK_DataFlow)]
  ∧ definitions_to_filter [decl1; assign2; use3] [] "x" = [decl1; assign2]
  ∧ (ProcessSingleVariableReference no_loop (ComputeGraph.new "f")
       [decl1; assign2; use3] [] x_ref 5%N use3 no_sets).2
    = [(assign2, EK_DataFlow); (assign2, EK_DataFlow)].
Proof. vm_compute. repeat split; reflexivity. Qed.

(** The traced list is filtered as it comes: ten statements that define
    other variables between the definition and the use push the definition
    out of the window, and nothing is connected; with nine, the definition
    is. *)
Example definition_outside_the_window :
  length (crowded_defs 10) = 11%nat
  ∧ StmtDefinesVariable assign2 "x" = true
  ∧ (∀ d, d ∈ crowded_defs 10 → line d < line use20)
  ∧ FilterKilledDefinitions (crowded_defs 10) use20 "x"
    = other_assign <$> seq 0 10
  ∧ ReachingDefConnections no_loop (crowded_defs 10) use20 "x" = []
  ∧ ReachingDefConnections no_loop (crowded_defs 9) use20 "x"
    = [(assign2, EK_DataFlow)].
Proof.
  split; [reflexivity|]. split; [reflexivity|]. split.
  { intros d Hd. vm_compute in Hd.
    repeat (apply elem_of_cons in Hd as [->|Hd]; [reflexivity|]).
    by apply elem_of_nil in Hd. }
  vm_compute. repeat split; reflexivity.
Qed.

(** The second reference to a variable at the same node connects nothing,
    and a reference without a node only runs the modification scan. *)
Example traced_reference_is_skipped :
  let first :=
    ProcessSingleVariableReference no_loop (ComputeGraph.new "f")
      [assign1; assign2; use3] [assign2] x_ref 5%N use3 no_sets in
  (ProcessSingleVariableReference no_loop (ComputeGraph.new "f")
     [assign1; assign2; use3] [assign2] x_ref 5%N use3 first.1).2 = []
  ∧ (ProcessSingleVariableReference no_loop (ComputeGraph.new "f")
       [assign1; assign2; use3] [assign2] x_ref 0%N use3 no_sets).2
    = [(assign1, EK_DataFlow); (assign2, EK_DataFlow)].
Proof. vm_compute. split; reflexivity. Qed.

(** A declaration is never among the modifications. *)
Lemma FindVariableModifications_no_declaration body varName s vars :
  s ∈ FindVariableModifications body varName → shape s ≠ DeclStmt vars.
Proof.
  unfold FindVariableModifications, is_modification_of.
  intros [Hs _]%list_elem_of_filter Hshape. by rewrite Hshape in Hs.
Qed.

End BackwardTrace.

(* --------------------------------------------------------------------- *)
(** ** 8.9 Parameter nodes of linked call sites                           *)
(* --------------------------------------------------------------------- *)

Section ParameterNodes.
Import ICFG.
Local Open Scope nat_scope.

Lemma length_filter_alter {A} (P : A → Prop) `{!∀ x, Decision (P x)}
    (g : A → A) (i : nat) (l : list A) :
  (∀ x, P (g x) ↔ P x) →
  length (filter P (alter g i l)) = length (filter P l).
Proof.
  intros Hg. revert i. induction l as [|x l IH]; intros [|i]; simpl; try done.
  - rewrite !filter_cons.
    destruct (decide (P (g x))) as [H1|H1], (decide (P x)) as [H2|H2];
      simpl; try done.
    + destruct H2. by apply Hg.
    + destruct H1. by apply Hg.
  - rewrite !filter_cons. destruct (decide (P x)); simpl; [f_equal|]; apply IH.
Qed.

Lemma nodes_where_update_node (P : ICFGNode → Prop) `{!∀ n, Decision (P n)}
    r g ctx f :
  (∀ n, P (g n) ↔ P n) →
  length (nodes_where P f (update_node r g ctx)) = length (nodes_where P f ctx).
Proof.
  intros Hg. unfold nodes_where, update_node. simpl.
  destruct (decide (r.1 = f)) as [<-|Hne].
  - rewrite lookup_alter_eq. destruct (icfgNodes ctx !! r.1); simpl; [|done].
    by apply length_filter_alter.
  - by rewrite lookup_alter_ne.
Qed.

Lemma nodes_where_AddICFGEdge (P : ICFGNode → Prop) `{!∀ n, Decision (P n)}
    from to k ctx f :
  (∀ n n', kind n = kind n' → callExpr n = callExpr n' →
           paramIndex n = paramIndex n' → P n ↔ P n') →
  length (nodes_where P f (AddICFGEdge from to k ctx))
  = length (nodes_where P f ctx).
Proof.
  intros Hsig. unfold AddICFGEdge.
  rewrite !nodes_where_update_node; [done|..]; intros n; by apply Hsig.
Qed.

Lemma nodes_where_CreateICFGNode (P : ICFGNode → Prop) `{!∀ n, Decision (P n)}
    k fdecl g ctx ctx1 r f :
  CreateICFGNode k fdecl ctx = (ctx1, r) →
  length (nodes_where P f (update_node r g ctx1))
  = length (nodes_where P f ctx)
    + (if decide (f = fd_canonical fdecl ∧ P (g (ICFGNode_new k (fd_ptr fdecl))))
       then 1 else 0).
Proof.
  unfold CreateICFGNode. intros [= <- <-].
  unfold nodes_where, update_node. simpl. rewrite alter_insert_eq.
  destruct (decide (f = fd_canonical fdecl)) as [->|Hne].
  - rewrite lookup_insert_eq. simpl.
    rewrite alter_app_r_alt by done. rewrite Nat.sub_diag. simpl.
    rewrite filter_app, length_app, filter_cons, filter_nil.
    repeat case_decide; simpl; try lia; exfalso; intuition congruence.
  - rewrite lookup_insert_ne by done.
    rewrite decide_False by (by intros [? _]). lia.
Qed.

Lemma FindFormalInNode_None calleeDecl i ctx :
  FindFormalInNode calleeDecl i ctx = None
  ↔ length (nodes_where (is_FormalIn i) (fd_canonical calleeDecl) ctx) = 0.
Proof.
  unfold FindFormalInNode, nodes_where.
  destruct (icfgNodes ctx !! fd_canonical calleeDecl) as [vec|]; simpl; [|done].
  destruct (list_find _ vec) as [[idx n]|] eqn:E.
  - split; [done|]. intros Hlen.
    apply list_find_Some in E as (Hin & HP & _).
    apply length_zero_iff_nil in Hlen.
    exfalso. eapply filter_nil_not_elem_of; [exact Hlen|exact HP|].
    by eapply list_elem_of_lookup_2.
  - split; [|done]. intros _. apply list_find_None in E.
    apply length_zero_iff_nil.
    induction E as [|x l Hx _ IH]; [done|].
    by rewrite filter_cons_False.
Qed.

Lemma CreateParameterNodes_step_FormalIn caller calleeDecl call callNode ctx i j f :
  length (nodes_where (is_FormalIn j) f
            (CreateParameterNodes_step caller calleeDecl call callNode ctx i))
  = length (nodes_where (is_FormalIn j) f ctx)
    + (if decide (f = fd_canonical calleeDecl ∧ j = Z.of_nat i
                  ∧ length (nodes_where (is_FormalIn j) f ctx) = 0)
       then 1 else 0).
Proof.
  assert (Hsig : ∀ n n', kind n = kind n' → callExpr n = callExpr n' →
                   paramIndex n = paramIndex n' →
                   is_FormalIn j n ↔ is_FormalIn j n').
  { intros n n' Hk _ Hp. unfold is_FormalIn. by rewrite Hk, Hp. }
  unfold CreateParameterNodes_step.
  destruct (CreateICFGNode IK_ActualIn caller ctx) as [ctx1 actualIn] eqn:E1.
  set (ctx2 := update_node actualIn _ ctx1).
  assert (H2 : ∀ j' f', length (nodes_where (is_FormalIn j') f' ctx2)
               = length (nodes_where (is_FormalIn j') f' ctx)).
  { intros j' f'. subst ctx2.
    rewrite (nodes_where_CreateICFGNode _ _ _ _ _ _ _ _ E1).
    rewrite decide_False; [lia|]. intros [_ [Hk _]]. done. }
  pose proof (FindFormalInNode_None calleeDecl (Z.of_nat i) ctx2) as HF.
  rewrite H2 in HF.
  destruct (FindFormalInNode calleeDecl (Z.of_nat i) ctx2) as [formalIn|].
  - rewrite !nodes_where_AddICFGEdge by done. rewrite H2.
    rewrite decide_False; [lia|]. intros (-> & -> & Hz).
    by apply HF in Hz.
  - destruct (CreateICFGNode IK_FormalIn calleeDecl ctx2) as [c formalIn] eqn:E2.
    rewrite !nodes_where_AddICFGEdge by done.
    rewrite (nodes_where_CreateICFGNode _ _ _ _ _ _ _ _ E2). rewrite H2.
    assert (Hz : length (nodes_where (is_FormalIn (Z.of_nat i))
                           (fd_canonical calleeDecl) ctx) = 0) by by apply HF.
    f_equal. destruct (decide (f = fd_canonical calleeDecl ∧ j = Z.of_nat i
                 ∧ length (nodes_where (is_FormalIn j) f ctx) = 0))
      as [(-> & -> & _)|Hn].
    + by rewrite decide_True.
    + rewrite decide_False; [done|]. intros [-> [_ Hp]]. simpl in Hp.
      subst j. by apply Hn.
Qed.

Lemma CreateParameterNodes_step_ActualIn caller calleeDecl call callNode ctx i
    c j f :
  length (nodes_where (is_ActualIn c j) f
            (CreateParameterNodes_step caller calleeDecl call callNode ctx i))
  = length (nodes_where (is_ActualIn c j) f ctx)
    + (if decide (f = fd_canonical caller ∧ ce_stmt call = ce_stmt c ∧ i = j)
       then 1 else 0).
Proof.
  assert (Hsig : ∀ n n', kind n = kind n' → callExpr n = callExpr n' →
                   paramIndex n = paramIndex n' →
                   is_ActualIn c j n ↔ is_ActualIn c j n').
  { intros n n' Hk Hc Hp. unfold is_ActualIn. by rewrite Hk, Hc, Hp. }
  unfold CreateParameterNodes_step.
  destruct (CreateICFGNode IK_ActualIn caller ctx) as [ctx1 actualIn] eqn:E1.
  set (ctx2 := update_node actualIn _ ctx1).
  assert (H2 : length (nodes_where (is_ActualIn c j) f ctx2)
               = length (nodes_where (is_ActualIn c j) f ctx)
                 + (if decide (f = fd_canonical caller
                               ∧ ce_stmt call = ce_stmt c ∧ i = j)
                    then 1 else 0)).
  { subst ctx2. rewrite (nodes_where_CreateICFGNode _ _ _ _ _ _ _ _ E1).
    f_equal. destruct (decide (f = fd_canonical caller
                               ∧ ce_stmt call = ce_stmt c ∧ i = j))
      as [(-> & Hc & ->)|Hn].
    + rewrite decide_True; [done|]. split; [done|].
      unfold is_ActualIn. simpl. by rewrite Hc.
    + rewrite decide_False; [done|]. intros [-> (_ & Hc & Hp)]. simpl in Hc, Hp.
      apply Hn. split; [done|]. split; [congruence|lia]. }
  destruct (FindFormalInNode calleeDecl (Z.of_nat i) ctx2) as [formalIn|].
  - by rewrite !nodes_where_AddICFGEdge.
  - destruct (CreateICFGNode IK_FormalIn calleeDecl ctx2) as [c' formalIn] eqn:E2.
    rewrite !nodes_where_AddICFGEdge by done.
    rewrite (nodes_where_CreateICFGNode _ _ _ _ _ _ _ _ E2), H2.
    rewrite (decide_False (P := _ ∧ is_ActualIn _ _ _)); [lia|].
    intros [_ [Hk _]]. done.
Qed.

Lemma CreateParameterNodes_ActualIn caller calleeDecl call callNode ctx c j f :
  length (nodes_where (is_ActualIn c j) f
            (CreateParameterNodes caller calleeDecl call callNode ctx))
  = length (nodes_where (is_ActualIn c j) f ctx)
    + (if decide (f = fd_canonical caller ∧ ce_stmt call = ce_stmt c
                  ∧ j < Nat.min (length (ce_args call))
                                (length (fd_params calleeDecl)))
       then 1 else 0).
Proof.
  unfold CreateParameterNodes.
  generalize (Nat.min (length (ce_args call)) (length (fd_params calleeDecl))).
  intros n. induction n as [|n IH].
  { simpl. rewrite decide_False; [lia|]. intros (_ & _ & ?). lia. }
  rewrite seq_S, foldl_app. cbn [foldl Nat.add].
  rewrite CreateParameterNodes_step_ActualIn, IH.
  repeat case_decide; try lia; exfalso; intuition lia.
Qed.

Lemma CreateParameterNodes_FormalIn caller calleeDecl call callNode ctx :
  let ctx' := CreateParameterNodes caller calleeDecl call callNode ctx in
  (FormalIn_unique ctx → FormalIn_unique ctx')
  ∧ (∀ j f, length (nodes_where (is_FormalIn j) f ctx)
            <= length (nodes_where (is_FormalIn j) f ctx'))
  ∧ (∀ i, i < Nat.min (length (ce_args call)) (length (fd_params calleeDecl)) →
          1 <= length (nodes_where (is_FormalIn (Z.of_nat i))
                         (fd_canonical calleeDecl) ctx')).
Proof.
  unfold CreateParameterNodes.
  generalize (Nat.min (length (ce_args call)) (length (fd_params calleeDecl))).
  intros n. induction n as [|n IH]; cbv zeta.
  { simpl. split; [done|]. split; [done|]. intros i Hi. lia. }
  rewrite seq_S, foldl_app. cbn [foldl Nat.add].
  set (mid := foldl _ ctx (seq 0 n)) in *. cbv zeta in IH.
  destruct IH as (IH1 & IH2 & IH3).
  split; [|split].
  - intros Hu j f. rewrite CreateParameterNodes_step_FormalIn.
    specialize (IH1 Hu j f). case_decide as Hd; [|lia].
    destruct Hd as (_ & _ & Hz). lia.
  - intros j f. rewrite CreateParameterNodes_step_FormalIn.
    specialize (IH2 j f). lia.
  - intros i Hi. rewrite CreateParameterNodes_step_FormalIn.
    destruct (decide (i = n)) as [->|Hne].
    + destruct (length (nodes_where (is_FormalIn (Z.of_nat n))
                          (fd_canonical calleeDecl) mid)) eqn:E; [|lia].
      rewrite decide_True by done. lia.
    + assert (i < n) as Hlt by lia. specialize (IH3 i Hlt). lia.
Qed.

Lemma link_all_snoc ctx links l :
  link_all ctx (links ++ [l])
  = CreateParameterNodes (link_caller l) (link_callee l) (link_call l)
      (link_callNode l) (link_all ctx links).
Proof. unfold link_all. by rewrite foldl_app. Qed.

(** C6: linking the call sites [links] into a context in which no function
    has two [FormalIn] nodes of one index.  For every call expression,
    argument position [j] and function [f], the [ActualIn] nodes of that
    call and position in [f] grow by one for every link of that call
    expression made in [f] with [j] below [min(numArgs, numParams)], and by
    nothing else: each linked position creates a fresh one in the caller.
    Afterwards still no function has two [FormalIn] nodes of one index, and
    the callee of every link has exactly one [FormalIn] node for every
    position below the link's [min(numArgs, numParams)], however many links
    lead to it. *)
Theorem link_all_parameter_nodes (ctx : CPGContext) (links : list Link) :
  FormalIn_unique ctx →
  let ctx' := link_all ctx links in
  (∀ call j f,
     length (nodes_where (is_ActualIn call j) f ctx')
     = length (nodes_where (is_ActualIn call j) f ctx)
       + length (filter (links_ActualIn call j f) links))
  ∧ FormalIn_unique ctx'
  ∧ (∀ l i, l ∈ links → i < linked_positions l →
            length (nodes_where (is_FormalIn (Z.of_nat i))
                      (fd_canonical (link_callee l)) ctx') = 1).
Proof.
  intros Hu. induction links as [|l links IH] using rev_ind; cbv zeta.
  { simpl. split; [intros; lia|]. split; [done|].
    intros l i Hl. by apply elem_of_nil in Hl. }
  rewrite link_all_snoc. cbv zeta in IH. destruct IH as (IH1 & IH2 & IH3).
  destruct (CreateParameterNodes_FormalIn (link_caller l) (link_callee l)
              (link_call l) (link_callNode l) (link_all ctx links))
    as (F1 & F2 & F3).
  cbv zeta in F1, F2, F3. specialize (F1 IH2).
  split; [|split; [done|]].
  - intros call j f. rewrite CreateParameterNodes_ActualIn, IH1.
    rewrite filter_app, length_app, filter_cons, filter_nil.
    unfold links_ActualIn at 3, linked_positions.
    repeat case_decide; simpl; try lia; exfalso; intuition congruence.
  - intros l' i [Hl'|Hl']%elem_of_app Hi.
    + specialize (IH3 l' i Hl' Hi).
      pose proof (F2 (Z.of_nat i) (fd_canonical (link_callee l'))).
      pose proof (F1 (fd_canonical (link_callee l')) (Z.of_nat i)). lia.
    + apply list_elem_of_singleton in Hl'. subst l'.
      specialize (F3 i Hi).
      pose proof (F1 (fd_canonical (link_callee l)) (Z.of_nat i)). lia.
Qed.

Lemma no_FormalIn_unique ctx : no_FormalIn ctx → FormalIn_unique ctx.
Proof.
  intros Hno f i. unfold nodes_where.
  destruct (icfgNodes ctx !! f) as [vec|] eqn:E; simpl; [|lia].
  apply Hno in E. simpl in E.
  induction E as [|n vec Hn _ IH]; [simpl; lia|].
  rewrite filter_cons_False; [done|]. by intros [? _].
Qed.

Lemma link_all_parameter_nodes_witness :
  let ctx' := link_all example_ctx example_links in
  (∀ call j f,
     length (nodes_where (is_ActualIn call j) f ctx')
     = length (nodes_where (is_ActualIn call j) f example_ctx)
       + length (filter (links_ActualIn call j f) example_links))
  ∧ FormalIn_unique ctx'
  ∧ (∀ l i, l ∈ example_links → i < linked_positions l →
            length (nodes_where (is_FormalIn (Z.of_nat i))
                      (fd_canonical (link_callee l)) ctx') = 1).
Proof.
  apply (link_all_parameter_nodes example_ctx example_links).
  apply no_FormalIn_unique. apply (bool_decide_unpack _). vm_compute. exact I.
Defined.

(** The two calls of [add]: four [ActualIn] nodes in [main], positions 0
    and 1 of each call, and two [FormalIn] nodes in [add], one per
    parameter; the surplus argument of the second call gets no node. *)
Example link_all_example_runs :
  let ctx' := link_all example_ctx example_links in
  map (fun n => (kind n, callExpr n, paramIndex n, paramName n))
      (default [] (icfgNodes ctx' !! 1%N))
  = [ (IK_Entry, None, -1, ""); (IK_CallSite, None, -1, "");
      (IK_CallSite, None, -1, "");
      (IK_ActualIn, Some 11%N, 0, "x"); (IK_ActualIn, Some 11%N, 1, "y");
      (IK_ActualIn, Some 12%N, 0, "u"); (IK_ActualIn, Some 12%N, 1, "v") ]%Z
  ∧ map (fun n => (kind n, paramIndex n, paramName n, predecessors n))
        (default [] (icfgNodes ctx' !! 2%N))
    = [ (IK_Entry, -1, "", []);
        (IK_FormalIn, 0, "a",
         [((1%N, 3%nat), IE_ParamIn); ((1%N, 5%nat), IE_ParamIn)]);
        (IK_FormalIn, 1, "b",
         [((1%N, 4%nat), IE_ParamIn); ((1%N, 6%nat), IE_ParamIn)]) ]%Z.
Proof. split; vm_compute; reflexivity. Qed.

End ParameterNodes.

(* --------------------------------------------------------------------- *)
(** ** 8.10 Topological sort                                              *)
(* --------------------------------------------------------------------- *)

Section TopoLoop.
Import ComputeGraph.

Lemma occurrences_app w l1 l2 :
  occurrences w (l1 ++ l2) = (occurrences w l1 + occurrences w l2)%nat.
Proof. unfold occurrences. by rewrite filter_app, length_app. Qed.

Lemma occurrences_pos w l : (1 <= occurrences w l)%nat ↔ w ∈ l.
Proof.
  unfold occurrences. split.
  - intros Hlen. destruct (filter _ l) as [|x l'] eqn:E; [simpl in Hlen; lia|].
    assert (Hx : x ∈ filter (fun x => x = w) l) by (rewrite E; left).
    apply list_elem_of_filter in Hx as [-> Hx]. done.
  - intros Hin.
    assert (Hw : w ∈ filter (fun x => x = w) l) by by apply list_elem_of_filter.
    destruct (filter _ l); [by apply elem_of_nil in Hw|simpl; lia].
Qed.

Lemma topo_deg_visit st outId w :
  topo_deg (topo_visit_output st outId) w
  = topo_deg st w - (if decide (w = outId) then 1 else 0).
Proof.
  unfold topo_deg, topo_visit_output. simpl.
  destruct (decide (w = outId)) as [->|Hne].
  - by rewrite lookup_insert_eq.
  - rewrite lookup_insert_ne by done. lia.
Qed.

(** The inner loop over [outputNodes]: every count falls by the number of
    occurrences, and the identifiers pushed are those whose count was
    positive and is used up on the way, each once. *)
Lemma foldl_topo_visit_output st outs :
  let st' := foldl topo_visit_output st outs in
  result st' = result st
  ∧ (∀ w, topo_deg st' w = topo_deg st w - Z.of_nat (occurrences w outs))
  ∧ ∃ added, queue st' = queue st ++ added
             ∧ NoDup added
             ∧ ∀ w, w ∈ added
                    ↔ 1 <= topo_deg st w <= Z.of_nat (occurrences w outs).
Proof.
  induction outs as [|x outs IH] using rev_ind; cbv zeta.
  { simpl. split; [done|]. split; [intros w; unfold occurrences; simpl; lia|].
    exists []. rewrite app_nil_r. split; [done|]. split; [constructor|].
    intros w. unfold occurrences. simpl. split; [by intros ?%elem_of_nil|lia]. }
  rewrite foldl_app. cbn [foldl]. cbv zeta in IH.
  set (mid := foldl topo_visit_output st outs) in *.
  destruct IH as (IHr & IHd & added & IHq & IHn & IHa).
  assert (Hocc : ∀ w, Z.of_nat (occurrences w (outs ++ [x]))
                      = Z.of_nat (occurrences w outs)
                        + (if decide (w = x) then 1 else 0)).
  { intros w. rewrite occurrences_app. unfold occurrences at 2.
    rewrite filter_cons, filter_nil.
    destruct (decide (x = w)) as [->|Hne].
    - rewrite decide_True by done. simpl. lia.
    - rewrite decide_False by done. simpl. lia. }
  split; [done|]. split.
  { intros w. rewrite topo_deg_visit, IHd, Hocc. lia. }
  unfold topo_visit_output at 1. cbn [queue].
  fold (topo_deg mid x).
  destruct (decide (topo_deg mid x - 1 = 0)) as [Hz|Hnz].
  - exists (added ++ [x]). rewrite IHq, app_assoc. split; [done|].
    rewrite IHd in Hz. split.
    + apply NoDup_app. split; [done|]. split; [|apply NoDup_singleton].
      intros w Hw ->%list_elem_of_singleton. apply IHa in Hw. lia.
    + intros w. rewrite elem_of_app, list_elem_of_singleton, IHa, Hocc.
      destruct (decide (w = x)) as [->|Hne]; lia.
  - exists added. split; [done|]. split; [done|].
    rewrite IHd in Hnz.
    intros w. rewrite IHa, Hocc.
    destruct (decide (w = x)) as [->|Hne]; lia.
Qed.

Lemma topo_queue_inv_init g : topo_queue_inv g [] (topo_init g).
Proof.
  unfold topo_queue_inv, topo_deg.
  change (inDegree (topo_init g)) with (topo_inDegree g).
  change (queue (topo_init g))
    with (filter (fun k => topo_inDegree g !! k = Some 0)
                 (std_map_keys (topo_inDegree g))).
  cbn [app]. split; [|split].
  - apply NoDup_filter, NoDup_std_map_keys.
  - intros w [Hw _]%list_elem_of_filter. cbv beta in Hw.
    split; [|apply Z.eq_le_incl; exact (f_equal (default 0) Hw)].
    unfold topo_inDegree in Hw. rewrite lookup_fmap in Hw.
    apply fmap_Some in Hw as (n & Hn & _). exists n. exact Hn.
  - intros w. unfold topo_inDegree. rewrite lookup_fmap.
    destruct (nodes g !! w); simpl; [by eexists|lia].
Qed.

Lemma topo_queue_inv_step g popped st v rest :
  topo_queue_inv g popped st → queue st = v :: rest →
  topo_queue_inv g (popped ++ [v]) (topo_step g v rest st).
Proof.
  intros (Hnd & Hq & Hpos) Hqueue. rewrite Hqueue in Hnd, Hq.
  unfold topo_step.
  destruct (GetNode v g) as [node|] eqn:Hnode.
  2: { unfold topo_queue_inv, topo_deg. cbn [queue inDegree].
       rewrite <- app_assoc. cbn [app]. done. }
  set (st1 := {| result := result st ++ [node]; queue := rest;
                 inDegree := inDegree st |}).
  destruct (foldl_topo_visit_output st1 (ComputeNode.outputNodes node))
    as (_ & Hd & added & Hq' & Hnd' & Hadd).
  assert (Hd1 : ∀ w, topo_deg st1 w = topo_deg st w) by done.
  unfold topo_queue_inv. rewrite Hq'. cbn [queue st1].
  rewrite <- app_assoc. cbn [app].
  change (popped ++ v :: rest ++ added) with (popped ++ (v :: rest) ++ added).
  rewrite app_assoc.
  split; [|split].
  - apply NoDup_app. split; [done|]. split; [|done].
    intros w Hw Hw'. apply Hq in Hw as [_ Hw]. apply Hadd in Hw'.
    rewrite Hd1 in Hw'. lia.
  - intros w [Hw|Hw]%elem_of_app.
    + apply Hq in Hw as [Hs Hw]. split; [done|]. rewrite Hd, Hd1. lia.
    + apply Hadd in Hw. rewrite Hd1 in Hw. split; [apply Hpos; lia|].
      rewrite Hd, Hd1. lia.
  - intros w. rewrite Hd, Hd1. intros Hw. apply Hpos. lia.
Qed.

(** An invariant of the turns of the loop holds of the state the loop ends
    in, and the loop stops on an empty queue or after all its turns. *)
Lemma topo_loop_invariant (Inv : list NodeId → TopoState → Prop) g :
  (∀ popped st v rest, Inv popped st → queue st = v :: rest →
                       Inv (popped ++ [v]) (topo_step g v rest st)) →
  ∀ fuel popped st, Inv popped st →
    ∃ popped', Inv popped' (topo_loop fuel g st)
               ∧ (queue (topo_loop fuel g st) = []
                  ∨ length popped' = (length popped + fuel)%nat).
Proof.
  intros Hstep fuel. induction fuel as [|fuel IH]; intros popped st Hinv.
  { exists popped. split; [done|]. right. simpl. lia. }
  simpl. destruct (queue st) as [|v rest] eqn:Hq.
  { exists popped. split; [done|]. by left. }
  destruct (IH _ _ (Hstep _ _ _ _ Hinv Hq)) as (popped' & Hinv' & Hend).
  exists popped'. split; [done|].
  destruct Hend as [Hend|Hend]; [by left|right].
  rewrite Hend, length_app. simpl. lia.
Qed.

Lemma length_keys_le {V} (m : gmap N V) (l : list N) :
  NoDup l → (∀ x, x ∈ l → is_Some (m !! x)) → (length l <= size m)%nat.
Proof.
  intros Hnd Hin. rewrite <- length_map_to_list.
  rewrite <- (length_fmap fst (map_to_list m)).
  apply submseteq_length, NoDup_submseteq; [done|].
  intros x [v Hx]%Hin. apply list_elem_of_fmap. exists (x, v).
  split; [done|]. by apply elem_of_map_to_list.
Qed.

(** The loop of [TopologicalSort] has emptied the queue after at most
    [size nodes] turns, in every graph. *)
Lemma topo_loop_fuel_enough g :
  queue (topo_loop (size (nodes g)) g (topo_init g)) = [].
Proof.
  destruct (topo_loop_invariant (topo_queue_inv g) g
              (topo_queue_inv_step g) (size (nodes g)) [] (topo_init g)
              (topo_queue_inv_init g))
    as (popped & (Hnd & Hq & _) & [Hend|Hend]); [done|].
  simpl in Hend.
  assert (Hlen : (length (popped ++ queue (topo_loop (size (nodes g)) g (topo_init g)))
                  <= size (nodes g))%nat).
  { apply length_keys_le; [done|]. intros x Hx. by apply Hq. }
  rewrite length_app in Hlen. apply length_zero_iff_nil. lia.
Qed.
End TopoLoop.

Section TopoOrder.
Import ComputeGraph.
Variable g : t.

Lemma filter_not_elem_of_nil (l : list NodeId) :
  filter (fun u => u ∉ []) l = l.
Proof.
  induction l as [|x l IH]; [done|].
  rewrite filter_cons_True by apply not_elem_of_nil. by rewrite IH.
Qed.

Lemma length_pending_snoc (popped l : list NodeId) v :
  v ∉ popped →
  length (filter (fun u => u ∉ popped) l)
  = (length (filter (fun u => u ∉ popped ++ [v]) l) + occurrences v l)%nat.
Proof.
  intros Hv. unfold occurrences. induction l as [|x l IH]; [done|].
  rewrite !filter_cons.
  destruct (decide (x = v)) as [->|Hne].
  - rewrite decide_True by done.
    rewrite decide_False.
    2: { intros H. apply H. apply elem_of_app. right. left. }
    simpl. lia.
  - destruct (decide (x ∉ popped)) as [Hx|Hx].
    + rewrite decide_True.
      2: { rewrite elem_of_app, list_elem_of_singleton. tauto. }
      simpl. lia.
    + rewrite decide_False.
      2: { rewrite elem_of_app, list_elem_of_singleton.
           intros H. apply Hx. tauto. }
      lia.
Qed.

Lemma topo_pending_nil popped w :
  topo_pending g popped w = [] ↔ ∀ u, u ∈ topo_ins g w → u ∈ popped.
Proof.
  unfold topo_pending. split.
  - intros Hnil u Hu. destruct (decide (u ∈ popped)) as [|Hn]; [done|].
    exfalso. eapply filter_nil_not_elem_of; [exact Hnil|exact Hn|exact Hu].
  - intros Hall. induction (topo_ins g w) as [|x l IH]; [done|].
    rewrite filter_cons_False.
    + apply IH. intros u Hu. apply Hall. by right.
    + intros Hx. apply Hx, Hall. left.
Qed.

Lemma topo_order_inv_init : topo_order_inv g [] (topo_init g).
Proof.
  unfold topo_order_inv. split; [done|]. split; [constructor|].
  assert (Hdeg : ∀ w, is_Some (nodes g !! w) →
            topo_deg (topo_init g) w
            = Z.of_nat (length (topo_pending g [] w))).
  { intros w [n Hn]. unfold topo_deg, topo_pending, topo_ins.
    change (inDegree (topo_init g)) with (topo_inDegree g).
    unfold topo_inDegree. rewrite lookup_fmap, Hn. simpl.
    by rewrite filter_not_elem_of_nil. }
  split; [done|]. split.
  - intros w Hw. cbn [app].
    change (queue (topo_init g))
      with (filter (fun k => topo_inDegree g !! k = Some 0)
                   (std_map_keys (topo_inDegree g))).
    rewrite list_elem_of_filter, elem_of_std_map_keys.
    specialize (Hdeg w Hw). unfold topo_deg in Hdeg.
    change (inDegree (topo_init g)) with (topo_inDegree g) in Hdeg.
    destruct Hw as [n Hn].
    assert (Hl : topo_inDegree g !! w
                 = Some (Z.of_nat (length (ComputeNode.inputNodes n)))).
    { unfold topo_inDegree. by rewrite lookup_fmap, Hn. }
    rewrite Hl in Hdeg. simpl in Hdeg.
    split.
    + intros [H0 _]. apply length_zero_iff_nil.
      assert (Some (Z.of_nat (length (ComputeNode.inputNodes n))) = Some 0)
        as [= Hz] by (rewrite <- Hl; exact H0).
      lia.
    + intros Hnil. rewrite Hnil in Hdeg. simpl in Hdeg.
      split; [|by eexists].
      transitivity (Some (Z.of_nat (length (ComputeNode.inputNodes n))));
        [exact Hl|by rewrite Hdeg].
  - intros l1 v l2 Hnil. by destruct l1.
Qed.

Lemma topo_order_inv_step popped st v rest :
  vectors_mirror g → nodes_keyed g →
  topo_queue_inv g popped st → topo_order_inv g popped st →
  queue st = v :: rest →
  topo_order_inv g (popped ++ [v]) (topo_step g v rest st).
Proof.
  intros Hmirror Hkeyed (Hnd & Hq & Hpos) (Hres & Hstored & Hdeg & Hdone & Hord) Hqueue.
  rewrite Hqueue in Hnd, Hq, Hdone.
  assert (Hv : is_Some (nodes g !! v)).
  { apply Hq. apply elem_of_app. right. left. }
  assert (Hvp : v ∉ popped).
  { apply NoDup_app in Hnd as (_ & Hnd & _). intros Hin.
    apply (Hnd v Hin). left. }
  destruct Hv as [node Hnode]. pose proof (Hkeyed v node Hnode) as Hid.
  simpl in Hid.
  unfold topo_step, GetNode. rewrite Hnode.
  set (st1 := {| result := result st ++ [node]; queue := rest;
                 inDegree := inDegree st |}).
  destruct (foldl_topo_visit_output st1 (ComputeNode.outputNodes node))
    as (Hr & Hd & added & Hq' & Hnd' & Hadd).
  assert (Hd1 : ∀ w, topo_deg st1 w = topo_deg st w) by done.
  assert (Houts : ComputeNode.outputNodes node = topo_outs g v).
  { unfold topo_outs. by rewrite Hnode. }
  assert (Hpend : ∀ w, length (topo_pending g popped w)
                       = (length (topo_pending g (popped ++ [v]) w)
                          + occurrences w (ComputeNode.outputNodes node))%nat).
  { intros w. unfold topo_pending.
    rewrite (length_pending_snoc popped (topo_ins g w) v Hvp).
    by rewrite Houts, (proj1 Hmirror v w). }
  unfold topo_order_inv. rewrite Hr, Hq'. cbn [result queue st1].
  split; [|split; [|split; [|split]]].
  - rewrite map_app, Hres. simpl. by rewrite Hid.
  - apply Forall_app. split; [done|]. constructor; [|constructor].
    by rewrite Hid.
  - intros w Hw. rewrite Hd, Hd1, (Hdeg w Hw). specialize (Hpend w). lia.
  - intros w Hw. specialize (Hpend w). specialize (Hdeg w Hw).
    specialize (Hdone w Hw).
    rewrite <- app_assoc. cbn [app].
    change (popped ++ v :: rest ++ added) with (popped ++ (v :: rest) ++ added).
    rewrite app_assoc, elem_of_app. split.
    + intros [Hin|Hin]; apply length_zero_iff_nil.
      * apply Hdone in Hin. rewrite Hin in Hpend. simpl in Hpend. lia.
      * apply Hadd in Hin. rewrite Hd1 in Hin. lia.
    + intros Hnil. rewrite Hnil in Hpend. simpl in Hpend.
      destruct (occurrences w (ComputeNode.outputNodes node)) as [|c] eqn:Hc.
      * left. apply Hdone. apply length_zero_iff_nil. lia.
      * right. apply Hadd. rewrite Hd1, Hc. lia.
  - intros l1 x l2 Heq u Hu.
    destruct l2 as [|y l2 _] using rev_ind.
    + apply (app_inj_2 _ _ _ [x]) in Heq as [<- [= <-]]; [|done].
      assert (Hin : v ∈ popped ++ v :: rest).
      { apply elem_of_app. right. left. }
      apply Hdone in Hin; [|by eexists].
      by apply (proj1 (topo_pending_nil popped v) Hin).
    + change (l1 ++ x :: l2 ++ [y]) with (l1 ++ (x :: l2) ++ [y]) in Heq.
      rewrite app_assoc in Heq.
      apply (app_inj_2 _ _ _ [y]) in Heq as [-> _]; [|done].
      by eapply Hord.
Qed.
End TopoOrder.

Section GraphShape.
Import ComputeGraph.

Lemma occurrences_targets (E : list ComputeEdge.t) u v :
  occurrences v (map ComputeEdge.targetId
                     (filter (fun e => ComputeEdge.sourceId e = u) E))
  = length (filter (fun e => ComputeEdge.sourceId e = u
                             ∧ ComputeEdge.targetId e = v) E).
Proof.
  unfold occurrences. induction E as [|e E IH]; [done|].
  rewrite !filter_cons.
  destruct (decide (ComputeEdge.sourceId e = u)) as [Hs|Hs].
  - simpl. rewrite filter_cons.
    destruct (decide (ComputeEdge.targetId e = v)) as [Ht|Ht].
    + rewrite decide_True by done. simpl. by rewrite <- IH.
    + rewrite decide_False by tauto. done.
  - rewrite decide_False by tauto. done.
Qed.

Lemma occurrences_sources (E : list ComputeEdge.t) u v :
  occurrences u (map ComputeEdge.sourceId
                     (filter (fun e => ComputeEdge.targetId e = v) E))
  = length (filter (fun e => ComputeEdge.sourceId e = u
                             ∧ ComputeEdge.targetId e = v) E).
Proof.
  unfold occurrences. induction E as [|e E IH]; [done|].
  rewrite !filter_cons.
  destruct (decide (ComputeEdge.targetId e = v)) as [Ht|Ht].
  - simpl. rewrite filter_cons.
    destruct (decide (ComputeEdge.sourceId e = u)) as [Hs|Hs].
    + rewrite decide_True by done. simpl. by rewrite <- IH.
    + rewrite decide_False by tauto. done.
  - rewrite decide_False by tauto. done.
Qed.

Lemma occurrences_Permutation w l1 l2 :
  l1 ≡ₚ l2 → occurrences w l1 = occurrences w l2.
Proof. intros Hp. unfold occurrences. by rewrite Hp. Qed.

Lemma edge_count_pos g u v : (1 <= edge_count g u v)%nat ↔ edge_rel g u v.
Proof.
  unfold edge_count, edge_rel. split.
  - intros Hlen.
    destruct (filter _ (map snd (map_to_list (edges g)))) as [|e l] eqn:E;
      [simpl in Hlen; lia|].
    assert (He : e ∈ filter (fun e => ComputeEdge.sourceId e = u
                                      ∧ ComputeEdge.targetId e = v)
                            (map snd (map_to_list (edges g))))
      by (rewrite E; left).
    apply list_elem_of_filter in He as [[Hs Ht] He].
    apply list_elem_of_fmap in He as ([eid e'] & -> & He).
    apply elem_of_map_to_list in He. by exists eid, e'.
  - intros (eid & e & He & Hs & Ht).
    assert (Hin : e ∈ filter (fun e => ComputeEdge.sourceId e = u
                                       ∧ ComputeEdge.targetId e = v)
                             (map snd (map_to_list (edges g)))).
    { apply list_elem_of_filter. split; [done|].
      apply list_elem_of_fmap. exists (eid, e). split; [done|].
      by apply elem_of_map_to_list. }
    destruct (filter _ _); [by apply elem_of_nil in Hin|simpl; lia].
Qed.

Lemma occurrences_topo_outs g u v :
  adjacency_agrees g → is_Some (nodes g !! u) →
  occurrences v (topo_outs g u) = edge_count g u v.
Proof.
  intros Hag [n Hn]. destruct (Hag u n Hn) as [Hout _].
  unfold topo_outs. rewrite Hn. simpl.
  rewrite (occurrences_Permutation _ _ _ Hout). apply occurrences_targets.
Qed.

Lemma occurrences_topo_ins g u v :
  adjacency_agrees g → is_Some (nodes g !! v) →
  occurrences u (topo_ins g v) = edge_count g u v.
Proof.
  intros Hag [n Hn]. destruct (Hag v n Hn) as [_ Hin].
  unfold topo_ins. rewrite Hn. simpl.
  rewrite (occurrences_Permutation _ _ _ Hin). apply occurrences_sources.
Qed.

Lemma edge_rel_stored g u v :
  edges_closed g → edge_rel g u v →
  is_Some (nodes g !! u) ∧ is_Some (nodes g !! v).
Proof.
  intros Hcl (eid & e & He & <- & <-). exact (Hcl eid e He).
Qed.

Lemma occurrences_not_stored g u v :
  nodes g !! u = None →
  occurrences v (topo_outs g u) = 0%nat ∧ occurrences v (topo_ins g u) = 0%nat.
Proof. intros Hn. unfold topo_outs, topo_ins. by rewrite Hn. Qed.

Lemma adjacency_vectors_mirror g :
  adjacency_agrees g → edges_closed g → vectors_mirror g.
Proof.
  intros Hag Hcl.
  assert (Hzero : ∀ u v, ¬ (is_Some (nodes g !! u) ∧ is_Some (nodes g !! v)) →
                         edge_count g u v = 0%nat).
  { intros u v Hn. destruct (edge_count g u v) as [|c] eqn:E; [done|].
    exfalso. apply Hn. apply (edge_rel_stored g u v Hcl).
    apply edge_count_pos. lia. }
  split.
  - intros u v.
    destruct (nodes g !! u) as [nu|] eqn:Hu, (nodes g !! v) as [nv|] eqn:Hv.
    + rewrite occurrences_topo_outs, occurrences_topo_ins; by eauto.
    + rewrite occurrences_topo_outs by eauto.
      rewrite (proj2 (occurrences_not_stored g v u Hv)).
      apply Hzero. rewrite Hv. by intros [_ [? ?]].
    + rewrite occurrences_topo_ins by eauto.
      rewrite (proj1 (occurrences_not_stored g u v Hu)).
      symmetry. apply Hzero. rewrite Hu. by intros [[? ?] _].
    + rewrite (proj1 (occurrences_not_stored g u v Hu)).
      by rewrite (proj2 (occurrences_not_stored g v u Hv)).
  - intros u v Hv.
    destruct (nodes g !! u) as [nu|] eqn:Hu.
    + apply occurrences_pos in Hv.
      rewrite occurrences_topo_outs in Hv by eauto.
      apply edge_count_pos in Hv. by apply (edge_rel_stored g u v Hcl).
    + unfold topo_outs in Hv. rewrite Hu in Hv. by apply elem_of_nil in Hv.
Qed.

Lemma topo_ins_edge_rel g u v :
  adjacency_agrees g → u ∈ topo_ins g v → edge_rel g u v.
Proof.
  intros Hag Hu.
  destruct (nodes g !! v) as [nv|] eqn:Hv.
  - apply occurrences_pos in Hu. rewrite occurrences_topo_ins in Hu by eauto.
    by apply edge_count_pos.
  - unfold topo_ins in Hu. rewrite Hv in Hu. by apply elem_of_nil in Hu.
Qed.

Lemma edge_rel_topo_ins g u v :
  adjacency_agrees g → edges_closed g → edge_rel g u v → u ∈ topo_ins g v.
Proof.
  intros Hag Hcl He. destruct (edge_rel_stored g u v Hcl He) as [_ Hv].
  apply occurrences_pos. rewrite occurrences_topo_ins by done.
  by apply edge_count_pos.
Qed.

Lemma tc_flip_edge_rel g u v :
  tc (flip (edge_rel g)) u v → tc (edge_rel g) v u.
Proof.
  induction 1 as [x y Hxy|x y z Hxy _ IH].
  - by apply tc_once.
  - eapply tc_r; [exact IH|exact Hxy].
Qed.

Lemma tc_flip_edge_rel_stored g u v :
  edges_closed g → tc (flip (edge_rel g)) u v → is_Some (nodes g !! v).
Proof.
  intros Hcl. induction 1 as [x y Hxy|x y z Hxy _ IH]; [|done].
  by apply (edge_rel_stored g y x Hcl).
Qed.

(** In a graph without a cycle every node can be reached only through
    finitely long chains of edges. *)
Lemma acyclic_Acc g v :
  edges_closed g → acyclic g → Acc (edge_rel g) v.
Proof.
  intros Hcl Hac.
  apply (tc_finite_sn (R:=flip (edge_rel g)) v).
  - intros u Hu. apply (Hac u). by apply tc_flip_edge_rel.
  - exists (std_map_keys (nodes g)). intros u Hu.
    apply elem_of_std_map_keys. by eapply tc_flip_edge_rel_stored.
Qed.

Lemma edges_ascend_acyclic g : edges_ascend g → acyclic g.
Proof.
  intros Hasc.
  assert (Hlt : ∀ u v, tc (edge_rel g) u v → (u < v)%N).
  { induction 1 as [x y Hxy|x y z Hxy _ IH].
    - destruct Hxy as (eid & e & He & <- & <-). exact (Hasc eid e He).
    - destruct Hxy as (eid & e & He & <- & <-).
      pose proof (Hasc eid e He) as Hlt. simpl in Hlt. lia. }
  intros u Hu. apply Hlt in Hu. lia.
Qed.
End GraphShape.

Section TopoSortCorrect.
Import ComputeGraph.

Lemma TopologicalSort_invariants g :
  nodes_keyed g → adjacency_agrees g → edges_closed g →
  ∃ popped,
    topo_queue_inv g popped (topo_loop (size (nodes g)) g (topo_init g))
    ∧ topo_order_inv g popped (topo_loop (size (nodes g)) g (topo_init g)).
Proof.
  intros Hkeyed Hag Hcl.
  pose proof (adjacency_vectors_mirror g Hag Hcl) as Hmirror.
  destruct (topo_loop_invariant
              (fun p st => topo_queue_inv g p st ∧ topo_order_inv g p st) g)
    with (fuel := size (nodes g)) (popped := @nil NodeId) (st := topo_init g)
    as (popped & Hinv & _).
  - intros p st v rest [Hq Ho] Hqueue. split.
    + by apply topo_queue_inv_step.
    + by apply topo_order_inv_step.
  - split; [apply topo_queue_inv_init|apply topo_order_inv_init].
  - by exists popped.
Qed.

Lemma map_snd_std_map_items {V} (m : gmap N V) :
  map snd (std_map_items m) = omap (fun k => m !! k) (std_map_keys m).
Proof.
  unfold std_map_items. induction (std_map_keys m) as [|k l IH]; [done|].
  simpl. destruct (m !! k); simpl; [f_equal|]; exact IH.
Qed.

Lemma result_of_popped g (res : list ComputeNode.t) :
  Forall (fun n => nodes g !! ComputeNode.id n = Some n) res →
  res = omap (fun k => nodes g !! k) (map ComputeNode.id res).
Proof.
  induction 1 as [|n res Hn _ IH]; [done|].
  simpl. rewrite Hn. simpl. f_equal. exact IH.
Qed.

(** C2 (amended): in a graph without a cycle, whose nodes are stored under
    their identifiers, whose [inputNodes]/[outputNodes] vectors agree with
    the edge map and whose edges join stored nodes, [TopologicalSort]
    returns a permutation of all nodes in which the source of every edge
    stands before its target. *)
Theorem TopologicalSort_acyclic (g : t) :
  nodes_keyed g → adjacency_agrees g → edges_closed g → acyclic g →
  TopologicalSort g ≡ₚ GetAllNodes g
  ∧ ∀ eid e, edges g !! eid = Some e →
      ∃ i j nu nv,
        (i < j)%nat
        ∧ TopologicalSort g !! i = Some nu
        ∧ TopologicalSort g !! j = Some nv
        ∧ ComputeNode.id nu = ComputeEdge.sourceId e
        ∧ ComputeNode.id nv = ComputeEdge.targetId e.
Proof.
  intros Hkeyed Hag Hcl Hac.
  destruct (TopologicalSort_invariants g Hkeyed Hag Hcl)
    as (popped & (Hnd & Hq & _) & (Hres & Hstored & _ & Hdone & Hord)).
  pose proof (topo_loop_fuel_enough g) as Hempty.
  fold (TopologicalSort g) in Hres, Hstored.
  rewrite Hempty, app_nil_r in Hnd, Hq, Hdone.
  assert (Hall : ∀ w, is_Some (nodes g !! w) → w ∈ popped).
  { intros w. induction (acyclic_Acc g w Hcl Hac) as [w _ IH]. intros Hw.
    apply (Hdone w Hw). apply topo_pending_nil. intros u Hu.
    apply IH; [by apply topo_ins_edge_rel|].
    apply (edge_rel_stored g u w Hcl). by apply topo_ins_edge_rel. }
  split.
  - unfold GetAllNodes. rewrite map_snd_std_map_items.
    rewrite (result_of_popped g (TopologicalSort g) Hstored), Hres.
    apply omap_Permutation, NoDup_Permutation;
      [done|apply NoDup_std_map_keys|].
    intros w. rewrite elem_of_std_map_keys. split; [|apply Hall].
    intros Hw. by apply Hq.
  - intros eid e He.
    assert (Hrel : edge_rel g (ComputeEdge.sourceId e) (ComputeEdge.targetId e))
      by by exists eid, e.
    destruct (edge_rel_stored g _ _ Hcl Hrel) as [_ Hv].
    apply Hall, list_elem_of_split in Hv as (l1 & l2 & Hpopped).
    pose proof (Hord l1 _ l2 Hpopped _ (edge_rel_topo_ins g _ _ Hag Hcl Hrel))
      as Hu.
    apply list_elem_of_split in Hu as (a & b & Hl1).
    assert (Hi : popped !! length a = Some (ComputeEdge.sourceId e)).
    { rewrite Hpopped, Hl1, <- app_assoc. by apply list_lookup_middle. }
    assert (Hj : popped !! length l1 = Some (ComputeEdge.targetId e)).
    { rewrite Hpopped. by apply list_lookup_middle. }
    rewrite <- Hres in Hi, Hj.
    change (map ComputeNode.id (TopologicalSort g))
      with (ComputeNode.id <$> TopologicalSort g) in Hi, Hj.
    rewrite list_lookup_fmap in Hi, Hj.
    apply fmap_Some in Hi as (nu & Hi & Hnu).
    apply fmap_Some in Hj as (nv & Hj & Hnv).
    exists (length a), (length l1), nu, nv.
    split; [rewrite Hl1, length_app; simpl; lia|]. done.
Qed.

Lemma TopologicalSort_acyclic_witness :
  TopologicalSort example_edge_graph ≡ₚ GetAllNodes example_edge_graph
  ∧ ∀ eid e, edges example_edge_graph !! eid = Some e →
      ∃ i j nu nv,
        (i < j)%nat
        ∧ TopologicalSort example_edge_graph !! i = Some nu
        ∧ TopologicalSort example_edge_graph !! j = Some nv
        ∧ ComputeNode.id nu = ComputeEdge.sourceId e
        ∧ ComputeNode.id nv = ComputeEdge.targetId e.
Proof.
  apply (TopologicalSort_acyclic example_edge_graph).
  - apply (bool_decide_unpack _). vm_compute. exact I.
  - apply (bool_decide_unpack _). vm_compute. exact I.
  - apply (bool_decide_unpack _). vm_compute. exact I.
  - apply edges_ascend_acyclic. apply (bool_decide_unpack _). vm_compute.
    exact I.
Defined.

(** C2, as stated, fails on a graph with a LoopCarried back-edge: with the
    edges [1 -> 2] (DataFlow) and [2 -> 1] (LoopCarried) both nodes start
    with one input, the queue starts empty and the result is empty, while
    the graph has two nodes. *)
Lemma TopologicalSort_drops_nodes_on_a_cycle :
  TopologicalSort example_back_edge_graph = []
  ∧ map ComputeNode.id (GetAllNodes example_back_edge_graph) = [1%N; 2%N]
  ∧ map (fun e => (ComputeEdge.sourceId e, ComputeEdge.targetId e,
                   ComputeEdge.kind e))
        (GetAllEdges example_back_edge_graph)
    = [(1%N, 2%N, EK_DataFlow); (2%N, 1%N, EK_LoopCarried)]
  ∧ adjacency_agrees example_back_edge_graph.
Proof.
  split; [vm_compute; reflexivity|]. split; [vm_compute; reflexivity|].
  split; [vm_compute; reflexivity|].
  apply (bool_decide_unpack _). vm_compute. exact I.
Qed.

End TopoSortCorrect.

(* --------------------------------------------------------------------- *)
(** ** 8.11 The path query terminates                                     *)
(* --------------------------------------------------------------------- *)

Section PathQueryTerminates.
Import Query.
Variable ctx : CPGContext.
Variable source : StmtPtr.
Local Abbreviation path_inv := (path_inv ctx source).

Lemma GetUses_stored current var use :
  use ∈ GetUses ctx current var → is_Some (pdgNodes ctx !! use).
Proof.
  unfold GetUses. intros ([k n] & -> & Hin)%list_elem_of_fmap.
  apply list_elem_of_filter in Hin as [_ Hin].
  apply elem_of_std_map_items in Hin. by exists n.
Qed.

Lemma EnqueueVariableUses_inv popped current var st :
  path_inv popped st → path_inv popped (EnqueueVariableUses ctx current var st).
Proof.
  unfold EnqueueVariableUses.
  assert (Hgen : ∀ uses, (∀ u, u ∈ uses → is_Some (pdgNodes ctx !! u)) →
            path_inv popped st →
            path_inv popped
              (foldl (fun acc use =>
                        if decide (use ∈ snd acc) then acc
                        else (fst acc ++ [use], {[ use ]} ∪ snd acc)) st uses)).
  { intros uses. induction uses as [|u uses IH] using rev_ind; [done|].
    intros Hst Hinv. rewrite foldl_app. cbn [foldl].
    match goal with |- context [foldl ?f st uses] =>
      set (acc := foldl f st uses) in * end.
    assert (Hacc : path_inv popped acc).
    { apply IH; [|done]. intros x Hx. apply Hst, elem_of_app. by left. }
    destruct (decide (u ∈ snd acc)) as [|Hnew]; [done|].
    destruct Hacc as (Hnd & Hvis & Hkeys).
    unfold path_inv. cbn [fst snd]. rewrite app_assoc. split; [|split].
    - apply NoDup_app. split; [done|]. split; [|apply NoDup_singleton].
      intros x Hx ->%list_elem_of_singleton. by apply Hnew, Hvis.
    - intros x [Hx|Hx]%elem_of_app.
      + apply elem_of_union. right. by apply Hvis.
      + apply list_elem_of_singleton in Hx. subst x.
        apply elem_of_union. left. by apply elem_of_singleton.
    - intros x [Hx|Hx]%elem_of_union; [|by apply Hkeys].
      apply elem_of_singleton in Hx. subst x.
      right. apply Hst, elem_of_app. right. left. }
  apply Hgen. intros u. apply GetUses_stored.
Qed.

Lemma ProcessDefinedVarsForPath_inv popped current filterVar st :
  path_inv popped st →
  path_inv popped (ProcessDefinedVarsForPath ctx current filterVar st).
Proof.
  unfold ProcessDefinedVarsForPath.
  induction (GetDefinedVars ctx current) as [|v vars IH] using rev_ind; [done|].
  intros Hinv. rewrite foldl_app. cbn [foldl].
  destruct (decide (filterVar ≠ "" ∧ v ≠ filterVar)); [by apply IH|].
  by apply EnqueueVariableUses_inv, IH.
Qed.

Lemma path_inv_length popped st :
  path_inv popped st →
  (length (popped ++ fst st) <= size (pdgNodes ctx) + 1)%nat.
Proof.
  intros (Hnd & Hvis & Hkeys).
  rewrite <- length_map_to_list.
  rewrite <- (length_fmap fst (map_to_list (pdgNodes ctx))).
  rewrite Nat.add_comm.
  change (1 + length ((map_to_list (pdgNodes ctx)).*1))%nat
    with (length (source :: (map_to_list (pdgNodes ctx)).*1)).
  apply submseteq_length, NoDup_submseteq; [done|].
  intros x Hx. destruct (Hkeys x (Hvis x Hx)) as [->|[n Hn]]; [left|right].
  apply list_elem_of_fmap. exists (x, n). split; [done|].
  by apply elem_of_map_to_list.
Qed.

Lemma HasDataFlowPath_loop_returns fuel sink filterVar popped st :
  path_inv popped st →
  (size (pdgNodes ctx) + 2 <= fuel + length popped)%nat →
  is_Some (HasDataFlowPath_loop fuel ctx sink filterVar st).
Proof.
  revert popped st. induction fuel as [|fuel IH]; intros popped st Hinv Hfuel.
  { apply path_inv_length in Hinv. rewrite length_app in Hinv. lia. }
  simpl. destruct (fst st) as [|current rest] eqn:Hw; [by eexists|].
  case_decide; [by eexists|].
  apply (IH (popped ++ [current])).
  - apply ProcessDefinedVarsForPath_inv.
    destruct Hinv as (Hnd & Hvis & Hkeys). rewrite Hw in Hnd, Hvis.
    unfold path_inv. cbn [fst snd]. rewrite <- app_assoc. done.
  - rewrite length_app. simpl. lia.
Qed.

(** The loop of [HasDataFlowPath] ends within [size pdgNodes + 2] turns. *)
Lemma HasDataFlowPath_fuel_enough sink filterVar :
  is_Some (HasDataFlowPath_fuel (size (pdgNodes ctx) + 2) ctx source sink
             filterVar).
Proof.
  unfold HasDataFlowPath_fuel.
  apply (HasDataFlowPath_loop_returns _ _ _ []); [|simpl; lia].
  unfold path_inv. cbn [app fst snd]. split; [apply NoDup_singleton|].
  split.
  - intros x ->%list_elem_of_singleton. by apply elem_of_singleton.
  - intros x ->%elem_of_singleton. by left.
Qed.
End PathQueryTerminates.

(* ===================================================================== *)
(** * 9. Further properties                                               *)
(* ===================================================================== *)

(** ** 9.1 The graph container *)

Section GraphContainer.
Import ComputeGraph GraphEdit.

Lemma size_of_keys {V} (m : gmap N V) (l : list N) :
  NoDup l → (∀ k, k ∈ l ↔ is_Some (m !! k)) → size m = length l.
Proof.
  intros Hnd Hin. rewrite <- length_map_to_list.
  rewrite <- (length_fmap fst (map_to_list m)).
  apply Permutation_length, NoDup_Permutation;
    [apply NoDup_fst_map_to_list|done|].
  intros k. rewrite Hin, list_elem_of_fmap. split.
  - intros ([k' v] & -> & Hkv). apply elem_of_map_to_list in Hkv. by exists v.
  - intros [v Hv]. exists (k, v). split; [done|]. by apply elem_of_map_to_list.
Qed.

Lemma create_nodes_lookup kinds g j :
  (N.of_nat (length kinds) + nextNodeId g < 2 ^ 64)%N →
  nodes (fst (create_nodes kinds g)) !! j
  = match (if decide (nextNodeId g <= j)%N
           then kinds !! N.to_nat (j - nextNodeId g) else None) with
    | Some k => Some (ComputeNode.new k j)
    | None => nodes g !! j
    end.
Proof.
  revert g. induction kinds as [|k rest IH]; intros g Hlt.
  { cbn [create_nodes fst]. case_decide; by rewrite ?lookup_nil. }
  cbn [create_nodes fst]. simpl length in Hlt.
  assert (Hn : incr64 (nextNodeId g) = (nextNodeId g + 1)%N).
  { unfold incr64. apply N.mod_small. lia. }
  rewrite IH; [|rewrite CreateNode_nextNodeId, Hn; lia].
  rewrite CreateNode_nextNodeId, Hn.
  destruct (decide (nextNodeId g + 1 <= j)%N) as [Hj|Hj].
  - rewrite decide_True by lia.
    replace (N.to_nat (j - nextNodeId g))
      with (S (N.to_nat (j - (nextNodeId g + 1)))) by lia.
    cbn [lookup list_lookup].
    destruct (rest !! N.to_nat (j - (nextNodeId g + 1))); [done|].
    simpl. rewrite lookup_insert_ne; [done|]. lia.
  - destruct (decide (nextNodeId g <= j)%N) as [Hj'|Hj'].
    + assert (j = nextNodeId g) as -> by lia.
      rewrite N.sub_diag. simpl. by rewrite lookup_insert_eq.
    + simpl. rewrite lookup_insert_ne; [done|]. lia.
Qed.

(** X1: on a graph from the constructor, [CreateNode] hands out the
    identifiers 1, 2, 3, ... (below [2^64] nodes); [GetNode] finds each node
    under its identifier, as created, nothing is stored under 0, and the
    graph holds as many nodes as were created. *)
Theorem create_nodes_on_new_graph (name : string)
    (kinds : list ComputeNodeKind) :
  (N.of_nat (length kinds) + 1 < 2 ^ 64)%N →
  let g := fst (create_nodes kinds (new name)) in
  snd (create_nodes kinds (new name))
  = map (fun i => N.of_nat (S i)) (seq 0 (length kinds))
  ∧ (∀ i k, kinds !! i = Some k →
            GetNode (N.of_nat (S i)) g
            = Some (ComputeNode.new k (N.of_nat (S i))))
  ∧ GetNode 0%N g = None
  ∧ size (nodes g) = length kinds.
Proof.
  intros Hlt g.
  assert (Hlook : ∀ j, nodes g !! j
            = match (if decide (1 <= j)%N then kinds !! N.to_nat (j - 1)
                     else None) with
              | Some k => Some (ComputeNode.new k j)
              | None => None
              end).
  { intros j. subst g. rewrite create_nodes_lookup by (simpl; lia).
    simpl. by destruct (if decide (1 <= j)%N then _ else _). }
  split; [|split; [|split]].
  - destruct (create_nodes_ids kinds (new name)) as [-> _]; [simpl; lia|].
    simpl. apply map_ext. intros i. lia.
  - intros i k Hk. unfold GetNode. rewrite Hlook.
    rewrite decide_True by lia.
    replace (N.to_nat (N.of_nat (S i) - 1)) with i by lia. by rewrite Hk.
  - unfold GetNode. rewrite Hlook. by rewrite decide_False by lia.
  - rewrite (size_of_keys _ (map (fun i => N.of_nat (S i)) (seq 0 (length kinds)))).
    + by rewrite length_map, length_seq.
    + apply NoDup_fmap_2; [intros i j; lia|]. apply NoDup_ListNoDup, seq_NoDup.
    + intros j. rewrite Hlook, list_elem_of_fmap. split.
      * intros (i & -> & Hi). apply elem_of_seq in Hi.
        rewrite decide_True by lia.
        replace (N.to_nat (N.of_nat (S i) - 1)) with i by lia.
        destruct (lookup_lt_is_Some_2 kinds i) as [k ->]; [lia|]. by eexists.
      * destruct (decide (1 <= j)%N) as [Hj|Hj]; [|by intros [? ?]].
        destruct (kinds !! N.to_nat (j - 1)) as [k|] eqn:Hk; [|by intros [? ?]].
        intros _. exists (N.to_nat (j - 1)). split; [lia|].
        apply elem_of_seq. apply lookup_lt_Some in Hk. lia.
Qed.
Lemma create_nodes_on_new_graph_witness :
  let g := fst (create_nodes [NK_Variable; NK_BinaryOp] (new "g")) in
  snd (create_nodes [NK_Variable; NK_BinaryOp] (new "g"))
  = map (fun i => N.of_nat (S i)) (seq 0 2)
  ∧ (∀ i k, [NK_Variable; NK_BinaryOp] !! i = Some k →
            GetNode (N.of_nat (S i)) g
            = Some (ComputeNode.new k (N.of_nat (S i))))
  ∧ GetNode 0%N g = None
  ∧ size (nodes g) = 2%nat.
Proof.
  apply (create_nodes_on_new_graph "g" [NK_Variable; NK_BinaryOp]).
  vm_compute. reflexivity.
Defined.

End GraphContainer.

Section AddEdgeFacts.
Import ComputeGraph GraphEdit.

Lemma omap_lookup_insert_fresh {V} (m : gmap N V) (k : N) (v : V) (l : list N) :
  k ∉ l → omap (fun x => <[k := v]> m !! x) l = omap (fun x => m !! x) l.
Proof.
  induction l as [|x l IH]; [done|]. intros Hk.
  apply not_elem_of_cons in Hk as [Hne Hk]. simpl.
  rewrite lookup_insert_ne by done.
  destruct (m !! x); [f_equal|]; by apply IH.
Qed.

(** X2: [AddEdge] with an unused next identifier: the new edge carries
    that identifier and the given endpoints, kind and label, [GetEdge]
    finds it, it is the last outgoing edge of its source and the last
    incoming edge of its target, and all other edges and edge lists read as
    before. *)
Theorem AddEdge_then_get (src tgt : NodeId) (k : ComputeEdgeKind)
    (lbl : string) (g : t) :
  edge_id_unused g →
  let g' := fst (AddEdge src tgt k lbl g) in
  let e := snd (AddEdge src tgt k lbl g) in
  e = {| ComputeEdge.id := nextEdgeId g; ComputeEdge.kind := k;
         ComputeEdge.sourceId := src; ComputeEdge.targetId := tgt;
         ComputeEdge.label := lbl |}
  ∧ GetEdge (nextEdgeId g) g' = Some e
  ∧ (∀ eid, eid ≠ nextEdgeId g → GetEdge eid g' = GetEdge eid g)
  ∧ GetOutgoingEdges src g' = GetOutgoingEdges src g ++ [e]
  ∧ GetIncomingEdges tgt g' = GetIncomingEdges tgt g ++ [e]
  ∧ (∀ n, n ≠ src → GetOutgoingEdges n g' = GetOutgoingEdges n g)
  ∧ (∀ n, n ≠ tgt → GetIncomingEdges n g' = GetIncomingEdges n g).
Proof.
  intros [[Hnone Hout] Hin] g' e. subst g' e.
  unfold GetEdge, GetOutgoingEdges, GetIncomingEdges, GetEdge. simpl.
  assert (Ho : ∀ n, nextEdgeId g ∉ default [] (outEdges g !! n)).
  { intros n. destruct (outEdges g !! n) as [l|] eqn:E; simpl;
      [by apply (Hout n l)|apply not_elem_of_nil]. }
  assert (Hi : ∀ n, nextEdgeId g ∉ default [] (inEdges g !! n)).
  { intros n. destruct (inEdges g !! n) as [l|] eqn:E; simpl;
      [by apply (Hin n l)|apply not_elem_of_nil]. }
  split; [done|]. split; [by rewrite lookup_insert_eq|].
  split; [intros eid Hne; by rewrite lookup_insert_ne|].
  split; [|split; [|split]].
  - rewrite lookup_insert_eq. simpl. rewrite omap_app. simpl.
    rewrite lookup_insert_eq. simpl.
    by rewrite omap_lookup_insert_fresh.
  - rewrite lookup_insert_eq. simpl. rewrite omap_app. simpl.
    rewrite lookup_insert_eq. simpl.
    by rewrite omap_lookup_insert_fresh.
  - intros n Hn. rewrite lookup_insert_ne by done.
    by apply omap_lookup_insert_fresh.
  - intros n Hn. rewrite lookup_insert_ne by done.
    by apply omap_lookup_insert_fresh.
Qed.

Lemma edges_list_insert g eid e :
  edges g !! eid = None →
  map snd (map_to_list (<[eid := e]> (edges g)))
  ≡ₚ e :: map snd (map_to_list (edges g)).
Proof.
  intros Hnone. rewrite map_to_list_insert by done. done.
Qed.

(** X3: [AddEdge] keeps the [inputNodes]/[outputNodes] vectors in
    agreement with the edge map, whether or not its endpoints are stored
    nodes, and also for an edge from a node to itself. *)
Theorem AddEdge_keeps_adjacency (src tgt : NodeId) (k : ComputeEdgeKind)
    (lbl : string) (g : t) :
  adjacency_agrees g → edges g !! nextEdgeId g = None →
  adjacency_agrees (fst (AddEdge src tgt k lbl g)).
Proof.
  intros Hag Hnone nid node' Hnode'. simpl in Hnode'.
  unfold edges_from, edges_into. cbn [AddEdge fst edges].
  rewrite !(edges_list_insert g _ _ Hnone), !filter_cons. cbn.
  set (fo := fun n => ComputeNode.set_outputNodes
                        (ComputeNode.outputNodes n ++ [tgt]) n) in *.
  set (fi := fun n => ComputeNode.set_inputNodes
                        (ComputeNode.inputNodes n ++ [src]) n) in *.
  assert (Hlook : ∃ node, nodes g !! nid = Some node
            ∧ node' = (if decide (tgt = nid) then fi else id)
                        ((if decide (src = nid) then fo else id) node)).
  { destruct (decide (tgt = nid)) as [->|Ht].
    - rewrite lookup_alter_eq in Hnode'.
      apply fmap_Some in Hnode' as (n1 & Hn1 & ->).
      destruct (decide (src = nid)) as [->|Hs].
      + rewrite lookup_alter_eq in Hn1.
        apply fmap_Some in Hn1 as (n0 & Hn0 & ->). by exists n0.
      + rewrite lookup_alter_ne in Hn1 by done. by exists n1.
    - rewrite lookup_alter_ne in Hnode' by done.
      destruct (decide (src = nid)) as [->|Hs].
      + rewrite lookup_alter_eq in Hnode'.
        apply fmap_Some in Hnode' as (n0 & Hn0 & ->). by exists n0.
      + rewrite lookup_alter_ne in Hnode' by done. by exists node'. }
  destruct Hlook as (node & Hnode & ->).
  destruct (Hag nid node Hnode) as [Ho Hi].
  unfold edges_from, edges_into in Ho, Hi.
  split.
  - destruct (decide (src = nid)) as [Hs|Hs];
      destruct (decide (tgt = nid)) as [Ht|Ht]; simpl;
      rewrite ?Ho; try done.
    + by rewrite Permutation_app_comm.
    + by rewrite Permutation_app_comm.
  - destruct (decide (src = nid)) as [Hs|Hs];
      destruct (decide (tgt = nid)) as [Ht|Ht]; simpl;
      rewrite ?Hi; try done.
    + by rewrite Permutation_app_comm.
    + by rewrite Permutation_app_comm.
Qed.
Lemma AddEdge_then_get_witness :
  let g := example_edge_graph in
  let g' := fst (AddEdge 2%N 1%N EK_LoopCarried "x (next iter)" g) in
  let e := snd (AddEdge 2%N 1%N EK_LoopCarried "x (next iter)" g) in
  e = {| ComputeEdge.id := nextEdgeId g; ComputeEdge.kind := EK_LoopCarried;
         ComputeEdge.sourceId := 2%N; ComputeEdge.targetId := 1%N;
         ComputeEdge.label := "x (next iter)" |}
  ∧ GetEdge (nextEdgeId g) g' = Some e
  ∧ (∀ eid, eid ≠ nextEdgeId g → GetEdge eid g' = GetEdge eid g)
  ∧ GetOutgoingEdges 2%N g' = GetOutgoingEdges 2%N g ++ [e]
  ∧ GetIncomingEdges 1%N g' = GetIncomingEdges 1%N g ++ [e]
  ∧ (∀ n, n ≠ 2%N → GetOutgoingEdges n g' = GetOutgoingEdges n g)
  ∧ (∀ n, n ≠ 1%N → GetIncomingEdges n g' = GetIncomingEdges n g).
Proof.
  apply (AddEdge_then_get 2%N 1%N EK_LoopCarried "x (next iter)"
           example_edge_graph).
  apply (bool_decide_unpack _). vm_compute. exact I.
Defined.

Lemma AddEdge_keeps_adjacency_witness :
  adjacency_agrees
    (fst (AddEdge 2%N 1%N EK_LoopCarried "x (next iter)" example_edge_graph)).
Proof.
  apply (AddEdge_keeps_adjacency 2%N 1%N EK_LoopCarried "x (next iter)"
           example_edge_graph).
  - apply (bool_decide_unpack _). vm_compute. exact I.
  - vm_compute. reflexivity.
Defined.

End AddEdgeFacts.

Section RemoveNodeFacts.
Import ComputeGraph GraphEdit.

Lemma nodes_RemoveEdge eid g : nodes (RemoveEdge eid g) = nodes g.
Proof. unfold RemoveEdge. by destruct (edges g !! eid). Qed.

Lemma nodes_fold_RemoveEdge l g :
  nodes (foldl (fun acc x => RemoveEdge x acc) g l) = nodes g.
Proof.
  revert g. induction l as [|x l IH]; intros g; [done|].
  cbn [foldl]. by rewrite IH, nodes_RemoveEdge.
Qed.

(** X4: [RemoveNode] of an identifier that is not stored changes
    nothing; of a stored node it erases the node and exactly the edges of
    the edge map that start or end at it, and keeps every other node as it
    is stored (their [inputNodes]/[outputNodes] are not touched). *)
Theorem RemoveNode_removes_incident_edges (nid : NodeId) (g : t) :
  let g' := RemoveNode nid g in
  (nodes g !! nid = None → g' = g)
  ∧ (is_Some (nodes g !! nid) →
     nodes g' = delete nid (nodes g)
     ∧ edges g'
       = filter (fun kv => ComputeEdge.sourceId (snd kv) ≠ nid
                           ∧ ComputeEdge.targetId (snd kv) ≠ nid) (edges g)).
Proof.
  cbv zeta. unfold RemoveNode. split.
  - by intros ->.
  - intros [node Hnode]. rewrite Hnode. cbn [set_nodes nodes edges].
    rewrite nodes_fold_RemoveEdge. split; [done|].
    apply map_eq. intros eid. rewrite edges_fold_RemoveEdge.
    destruct (edges g !! eid) as [e|] eqn:He.
    + destruct (decide (ComputeEdge.sourceId e ≠ nid
                        ∧ ComputeEdge.targetId e ≠ nid)) as [Hk|Hk].
      * rewrite decide_False.
        { symmetry. by apply map_lookup_filter_Some. }
        intros ([eid' e'] & -> & Hin)%list_elem_of_fmap.
        apply list_elem_of_filter in Hin as [Hp Hin].
        apply elem_of_std_map_items in Hin. simpl in *.
        pose proof (eq_trans (eq_sym He) Hin) as [= ->]. tauto.
      * rewrite decide_True.
        { symmetry. apply map_lookup_filter_None. right. intros e' He'.
          rewrite He in He'. by simplify_eq. }
        apply list_elem_of_fmap. exists (eid, e). split; [done|].
        apply list_elem_of_filter. split.
        { simpl. destruct (decide (ComputeEdge.sourceId e = nid)); [by left|].
          destruct (decide (ComputeEdge.targetId e = nid)); [by right|].
          destruct Hk. done. }
        by apply elem_of_std_map_items.
    + assert (filter (fun kv => ComputeEdge.sourceId (snd kv) ≠ nid
                                ∧ ComputeEdge.targetId (snd kv) ≠ nid)
                     (edges g) !! eid = None) as ->.
      { apply map_lookup_filter_None. by left. }
      by case_decide.
Qed.
End RemoveNodeFacts.

Section TopoSortMore.
Import ComputeGraph GraphEdit.

Lemma topo_loop_stable fuel g st : queue st = [] → topo_loop fuel g st = st.
Proof. intros Hq. destruct fuel; simpl; [done|]. by rewrite Hq. Qed.

Lemma topo_loop_add a b g st :
  topo_loop (a + b) g st = topo_loop b g (topo_loop a g st).
Proof.
  revert st. induction a as [|a IH]; intros st; [done|].
  simpl. destruct (queue st) as [|v rest] eqn:Hq; [|apply IH].
  symmetry. by apply topo_loop_stable.
Qed.

Lemma topo_step_result g v rest st node :
  nodes g !! v = Some node →
  result (topo_step g v rest st) = result st ++ [node].
Proof.
  intros Hn. unfold topo_step, GetNode. rewrite Hn.
  by destruct (foldl_topo_visit_output
                 {| result := result st ++ [node]; queue := rest;
                    inDegree := inDegree st |} (ComputeNode.outputNodes node))
    as [-> _].
Qed.

Lemma topo_stored_inv_step g popped st v rest :
  topo_queue_inv g popped st →
  Forall2 (fun k n => nodes g !! k = Some n) popped (result st) →
  queue st = v :: rest →
  Forall2 (fun k n => nodes g !! k = Some n) (popped ++ [v])
          (result (topo_step g v rest st)).
Proof.
  intros (_ & Hq & _) Hst Hqueue.
  destruct (Hq v) as [[node Hnode] _].
  { rewrite Hqueue. apply elem_of_app. right. left. }
  rewrite (topo_step_result g v rest st node Hnode).
  apply Forall2_app; [done|]. by repeat constructor.
Qed.

Lemma TopologicalSort_stored g :
  ∃ popped,
    topo_queue_inv g popped (topo_loop (size (nodes g)) g (topo_init g))
    ∧ Forall2 (fun k n => nodes g !! k = Some n) popped (TopologicalSort g).
Proof.
  destruct (topo_loop_invariant
              (fun p st => topo_queue_inv g p st
                           ∧ Forall2 (fun k n => nodes g !! k = Some n) p
                                     (result st)) g)
    with (fuel := size (nodes g)) (popped := @nil NodeId) (st := topo_init g)
    as (popped & Hinv & _).
  - intros p st v rest [Hq Ho] Hqueue. split.
    + by apply topo_queue_inv_step.
    + by apply topo_stored_inv_step.
  - split; [apply topo_queue_inv_init|constructor].
  - by exists popped.
Qed.

(** X5: in every graph, also one with cycles or with vectors that name
    missing nodes, the loop of [TopologicalSort] is done within
    [size nodes] turns (more turns give the same result), and the result
    lists stored nodes, each found under a key of its own, no key twice. *)
Theorem TopologicalSort_any_graph (g : t) :
  (∀ fuel, (size (nodes g) <= fuel)%nat →
           result (topo_loop fuel g (topo_init g)) = TopologicalSort g)
  ∧ (length (TopologicalSort g) <= size (nodes g))%nat
  ∧ ∃ keys, NoDup keys
            ∧ Forall2 (fun k n => nodes g !! k = Some n) keys
                      (TopologicalSort g).
Proof.
  split; [|split].
  - intros fuel Hfuel.
    replace fuel with (size (nodes g) + (fuel - size (nodes g)))%nat by lia.
    rewrite topo_loop_add, topo_loop_stable; [done|].
    apply topo_loop_fuel_enough.
  - destruct (TopologicalSort_stored g) as (popped & (Hnd & Hq & _) & Hst).
    rewrite <- (Forall2_length _ _ _ Hst).
    rewrite topo_loop_fuel_enough, app_nil_r in Hnd, Hq.
    apply length_keys_le; [done|]. intros x Hx. by apply Hq.
  - destruct (TopologicalSort_stored g) as (popped & (Hnd & _) & Hst).
    rewrite topo_loop_fuel_enough, app_nil_r in Hnd. by exists popped.
Qed.

Lemma elem_of_topo_init_queue g k :
  k ∈ queue (topo_init g)
  ↔ ∃ n, nodes g !! k = Some n ∧ ComputeNode.inputNodes n = [].
Proof.
  change (queue (topo_init g))
    with (filter (fun k => topo_inDegree g !! k = Some 0)
                 (std_map_keys (topo_inDegree g))).
  rewrite list_elem_of_filter, elem_of_std_map_keys.
  unfold topo_inDegree. split.
  - intros [H0 _]. rewrite lookup_fmap in H0.
    apply fmap_Some in H0 as (n & Hn & Hz).
    exists n. split; [exact Hn|]. apply length_zero_iff_nil. lia.
  - intros (n & Hn & Hnil).
    assert (Hl : ((fun n => Z.of_nat (length (ComputeNode.inputNodes n)))
                    <$> nodes g) !! k = Some 0).
    { rewrite lookup_fmap. rewrite Hn. simpl. by rewrite Hnil. }
    split; [exact Hl|]. eexists. exact Hl.
Qed.

Lemma topo_loop_result_grows fuel g st :
  ∃ l, result (topo_loop fuel g st) = result st ++ l.
Proof.
  revert st. induction fuel as [|fuel IH]; intros st.
  { exists []. by rewrite app_nil_r. }
  simpl. destruct (queue st) as [|v rest] eqn:Hq.
  { exists []. by rewrite app_nil_r. }
  destruct (IH (topo_step g v rest st)) as [l ->].
  unfold topo_step. destruct (GetNode v g) as [node|].
  - destruct (foldl_topo_visit_output
                {| result := result st ++ [node]; queue := rest;
                   inDegree := inDegree st |} (ComputeNode.outputNodes node))
      as [-> _].
    simpl. exists ([node] ++ l). by rewrite app_assoc.
  - simpl. by exists l.
Qed.

(** X6: [TopologicalSort] returns the empty vector exactly when
    [GetRootNodes] does. *)
Theorem TopologicalSort_nil_iff_no_root (g : t) :
  TopologicalSort g = [] ↔ GetRootNodes g = [].
Proof.
  assert (Hroot : ∀ n, n ∈ GetRootNodes g
            ↔ ComputeNode.inputNodes n = [] ∧ ∃ k, nodes g !! k = Some n).
  { intros n. unfold GetRootNodes, GetAllNodes.
    rewrite list_elem_of_filter, list_elem_of_fmap. split.
    - intros [Hnil ([k n'] & -> & Hin)]. split; [done|].
      apply elem_of_std_map_items in Hin. by exists k.
    - intros [Hnil [k Hk]]. split; [done|]. exists (k, n). split; [done|].
      by apply elem_of_std_map_items. }
  split.
  - intros Hnil. destruct (GetRootNodes g) as [|n l] eqn:E; [done|]. exfalso.
    assert (Hn : n ∈ n :: l) by left.
    apply Hroot in Hn as [Hin [k Hk]].
    assert (Hq : k ∈ queue (topo_init g)).
    { apply elem_of_topo_init_queue. by exists n. }
    destruct (queue (topo_init g)) as [|v rest] eqn:Eq;
      [by apply elem_of_nil in Hq|].
    assert (Hv : v ∈ queue (topo_init g)) by (rewrite Eq; left).
    apply elem_of_topo_init_queue in Hv as (nv & Hnv & _).
    unfold TopologicalSort in Hnil.
    destruct (size (nodes g)) as [|f] eqn:Esz.
    { apply map_size_empty_inv in Esz. rewrite Esz in Hk.
      by rewrite lookup_empty in Hk. }
    cbn [topo_loop] in Hnil. rewrite Eq in Hnil.
    destruct (topo_loop_result_grows f g (topo_step g v rest (topo_init g)))
      as [l' Hl'].
    rewrite Hl', (topo_step_result g v rest _ nv Hnv) in Hnil.
    by destruct (result (topo_init g)).
  - intros Hnil. unfold TopologicalSort.
    rewrite topo_loop_stable; [done|].
    destruct (queue (topo_init g)) as [|v rest] eqn:Eq; [done|]. exfalso.
    assert (Hv : v ∈ queue (topo_init g)) by (rewrite Eq; left).
    apply elem_of_topo_init_queue in Hv as (nv & Hnv & Hin).
    assert (Hr : nv ∈ GetRootNodes g) by (apply Hroot; eauto).
    rewrite Hnil in Hr. by apply elem_of_nil in Hr.
Qed.

Lemma TopologicalSort_source_before g u v j :
  nodes_keyed g → adjacency_agrees g → edges_closed g →
  edge_rel g u v →
  map ComputeNode.id (TopologicalSort g) !! j = Some v →
  ∃ i, (i < j)%nat ∧ map ComputeNode.id (TopologicalSort g) !! i = Some u.
Proof.
  intros Hkeyed Hag Hcl Hrel Hj.
  destruct (TopologicalSort_invariants g Hkeyed Hag Hcl)
    as (popped & _ & (Hres & _ & _ & _ & Hord)).
  fold (TopologicalSort g) in Hres. rewrite Hres in Hj |- *.
  pose proof (take_drop_middle popped j v Hj) as Hsplit.
  assert (Hu : u ∈ take j popped).
  { apply (Hord (take j popped) v (drop (S j) popped)); [done|].
    by apply edge_rel_topo_ins. }
  apply list_elem_of_lookup in Hu as [i Hi].
  apply lookup_take_Some in Hi as [Hi Hlt]. by exists i.
Qed.

(** X7: in a graph whose vectors agree with the edge map, cyclic or not,
    whenever the target of an edge is in the result of [TopologicalSort],
    the source of the edge stands at an earlier position of the result. *)
Theorem TopologicalSort_sources_first (g : t) (eid : EdgeId)
    (e : ComputeEdge.t) (j : nat) (nv : ComputeNode.t) :
  nodes_keyed g → adjacency_agrees g → edges_closed g →
  edges g !! eid = Some e →
  TopologicalSort g !! j = Some nv →
  ComputeNode.id nv = ComputeEdge.targetId e →
  ∃ i nu, (i < j)%nat ∧ TopologicalSort g !! i = Some nu
          ∧ ComputeNode.id nu = ComputeEdge.sourceId e.
Proof.
  intros Hkeyed Hag Hcl He Hj Hid.
  destruct (TopologicalSort_source_before g (ComputeEdge.sourceId e)
              (ComputeEdge.targetId e) j Hkeyed Hag Hcl) as (i & Hlt & Hi).
  - by exists eid, e.
  - change (map ComputeNode.id (TopologicalSort g))
      with (ComputeNode.id <$> TopologicalSort g).
    rewrite list_lookup_fmap, Hj. simpl. by rewrite Hid.
  - change (map ComputeNode.id (TopologicalSort g))
      with (ComputeNode.id <$> TopologicalSort g) in Hi.
    rewrite list_lookup_fmap in Hi.
    apply fmap_Some in Hi as (nu & Hi & Hnu). by exists i, nu.
Qed.

(** X8: in a graph whose vectors agree with the edge map,
    [TopologicalSort] leaves out every node that lies on a cycle of edges. *)
Theorem TopologicalSort_leaves_out_cycles (g : t) (v : NodeId) :
  nodes_keyed g → adjacency_agrees g → edges_closed g →
  tc (edge_rel g) v v →
  v ∉ map ComputeNode.id (TopologicalSort g).
Proof.
  intros Hkeyed Hag Hcl Hcyc Hin.
  assert (Hgen : ∀ u w, tc (edge_rel g) u w →
            ∀ j, map ComputeNode.id (TopologicalSort g) !! j = Some w →
                 ∃ i, (i < j)%nat
                      ∧ map ComputeNode.id (TopologicalSort g) !! i = Some u).
  { induction 1 as [x y Hxy|x y z Hxy _ IH]; intros j Hj.
    - by eapply TopologicalSort_source_before.
    - destruct (IH j Hj) as (i & Hlt & Hi).
      destruct (TopologicalSort_source_before g x y i Hkeyed Hag Hcl Hxy Hi)
        as (i' & Hlt' & Hi').
      exists i'. split; [lia|done]. }
  destruct (TopologicalSort_invariants g Hkeyed Hag Hcl)
    as (popped & (Hnd & _) & (Hres & _)).
  fold (TopologicalSort g) in Hres.
  rewrite topo_loop_fuel_enough, app_nil_r in Hnd. rewrite <- Hres in Hnd.
  apply list_elem_of_lookup in Hin as [j Hj].
  destruct (Hgen v v Hcyc j Hj) as (i & Hlt & Hi).
  pose proof (NoDup_lookup _ _ _ _ Hnd Hi Hj). lia.
Qed.
Lemma TopologicalSort_sources_first_witness :
  ∃ i nu, (i < 1)%nat
          ∧ TopologicalSort example_edge_graph !! i = Some nu
          ∧ ComputeNode.id nu = 1%N.
Proof.
  apply (TopologicalSort_sources_first example_edge_graph 0%N
           {| ComputeEdge.id := 0%N; ComputeEdge.kind := EK_DataFlow;
              ComputeEdge.sourceId := 1%N; ComputeEdge.targetId := 2%N;
              ComputeEdge.label := "x" |}
           1%nat
           (ComputeNode.set_inputNodes [1%N] (ComputeNode.new NK_BinaryOp 2%N))).
  - apply (bool_decide_unpack _). vm_compute. exact I.
  - apply (bool_decide_unpack _). vm_compute. exact I.
  - apply (bool_decide_unpack _). vm_compute. exact I.
  - vm_compute. reflexivity.
  - vm_compute. reflexivity.
  - reflexivity.
Defined.

Lemma TopologicalSort_leaves_out_cycles_witness :
  tc (edge_rel example_back_edge_graph) 1%N 1%N
  ∧ 1%N ∉ map ComputeNode.id (TopologicalSort example_back_edge_graph).
Proof.
  assert (Hcyc : tc (edge_rel example_back_edge_graph) 1%N 1%N).
  { apply (tc_l _ _ 2%N).
    - exists 0%N, {| ComputeEdge.id := 0%N; ComputeEdge.kind := EK_DataFlow;
                     ComputeEdge.sourceId := 1%N; ComputeEdge.targetId := 2%N;
                     ComputeEdge.label := "x" |}.
      split; [vm_compute; reflexivity|done].
    - apply tc_once.
      exists 1%N, {| ComputeEdge.id := 1%N; ComputeEdge.kind := EK_LoopCarried;
                     ComputeEdge.sourceId := 2%N; ComputeEdge.targetId := 1%N;
                     ComputeEdge.label := "x (next iter)" |}.
      split; [vm_compute; reflexivity|done]. }
  split; [exact Hcyc|].
  apply (TopologicalSort_leaves_out_cycles example_back_edge_graph 1%N);
    [apply (bool_decide_unpack _); vm_compute; exact I..|exact Hcyc].
Defined.

End TopoSortMore.

(** ** 9.2 Names and labels *)

Section PrintingFacts.
Import Stdlib.Strings.Ascii.
Import Printing.

(** X9: [StringToOpCode] gives back the opcode [OpCodeToString] printed,
    for every opcode but the three unary ones: the spellings ["neg"], ["!"]
    and ["~"] of [Neg], [Not] and [BitNot] are not among the strings
    [StringToOpCode] knows and read as [Unknown]. *)
Theorem StringToOpCode_OpCodeToString (op : OpCode) :
  StringToOpCode (OpCodeToString op)
  = match op with
    | Op_Neg | Op_Not | Op_BitNot => Op_Unknown
    | _ => op
    end.
Proof. destruct op; vm_compute; reflexivity. Qed.

Lemma EscapeDotChar_chars c x :
  In x (String.list_ascii_of_string (EscapeDotChar c)) →
  x ≠ char_dquote ∧ x ≠ char_newline ∧ x ≠ char_return.
Proof.
  unfold EscapeDotChar.
  repeat case_decide; simpl; intros Hin;
    repeat (destruct Hin as [<-|Hin]); try done;
    repeat split; try discriminate; congruence.
Qed.

Lemma list_ascii_of_string_append s1 s2 :
  String.list_ascii_of_string (s1 +:+ s2)
  = (String.list_ascii_of_string s1 ++ String.list_ascii_of_string s2)%list.
Proof. induction s1 as [|c s1 IH]; simpl; [done|]. by rewrite IH. Qed.

(** X10: the output of [EscapeDotString] holds no double quote, no
    newline and no carriage return; a string with none of the nine
    characters the switch names comes back unchanged; the output is at most
    twice as long as the input. *)
Theorem EscapeDotString_output (str : string) :
  (∀ x, In x (String.list_ascii_of_string (EscapeDotString str)) →
        x ≠ char_dquote ∧ x ≠ char_newline ∧ x ≠ char_return)
  ∧ ((∀ x, In x (String.list_ascii_of_string str) →
           ¬ In x [char_dquote; char_backslash; char_newline; char_return;
                   "<"; ">"; "{"; "}"; "|"]%char) →
     EscapeDotString str = str)
  ∧ (String.length (EscapeDotString str) <= 2 * String.length str)%nat.
Proof.
  induction str as [|c rest (IH1 & IH2 & IH3)]; simpl.
  { split; [done|]. split; [done|lia]. }
  split; [|split].
  - intros x. rewrite list_ascii_of_string_append, in_app_iff.
    intros [Hx|Hx]; [by eapply EscapeDotChar_chars|by apply IH1].
  - intros Hplain. rewrite IH2 by (intros x Hx; apply Hplain; by right).
    assert (Hc : ¬ In c [char_dquote; char_backslash; char_newline;
                         char_return; "<"; ">"; "{"; "}"; "|"]%char)
      by (apply Hplain; by left).
    simpl in Hc. unfold EscapeDotChar.
    repeat (case_decide; [exfalso; apply Hc; subst c; tauto|]). done.
  - assert (Hlen : ∀ s1 s2, String.length (s1 +:+ s2)
                            = (String.length s1 + String.length s2)%nat).
    { intros s1 s2. induction s1; simpl; [done|]. by f_equal. }
    rewrite Hlen.
    assert (String.length (EscapeDotChar c) <= 2)%nat; [|lia].
    unfold EscapeDotChar. repeat case_decide; simpl; lia.
Qed.
End PrintingFacts.

(** ** 9.3 The graph set *)

Section GraphSetFacts.
Import ComputeGraphSet GraphSetOps.

Local Abbreviation signature := ComputeGraph.ComputeCanonicalSignature.

(** X11: [GetGraph] after an edit of the set.  After [RemoveGraph name]
    no graph is found under [name] and the lookup of every other name is
    as before.  After [AddGraph g] the lookup of the name of [g] gives the
    graph that was already found under that name, if there was one (the
    new graph is then shadowed), and [g] otherwise; the lookup of every
    other name is as before. *)
Theorem GetGraph_after_edits (name other : string) (g : ComputeGraph.t)
    (s : ComputeGraphSet.t) :
  GetGraph name (RemoveGraph name s) = None
  ∧ (other ≠ name → GetGraph other (RemoveGraph name s) = GetGraph other s)
  ∧ GetGraph (ComputeGraph.name g) (AddGraph g s)
    = match GetGraph (ComputeGraph.name g) s with
      | Some old => Some old
      | None => Some g
      end
  ∧ (other ≠ ComputeGraph.name g →
     GetGraph other (AddGraph g s) = GetGraph other s).
Proof.
  unfold GetGraph, RemoveGraph, AddGraph.
  split; [|split; [|split]].
  - induction s as [|x s IH]; [done|].
    rewrite filter_cons. case_decide as Hx; [|done].
    simpl. rewrite decide_False by done.
    destruct (list_find _ (filter _ s)) as [[i y]|]; [done|done].
  - intros Hne. induction s as [|x s IH]; [done|].
    rewrite filter_cons. destruct (decide (ComputeGraph.name x ≠ name)) as [Hx|Hx].
    + simpl. case_decide; [done|].
      destruct (list_find _ (filter _ s)) as [[i y]|],
               (list_find _ s) as [[i' y']|]; simpl in *; by simplify_eq.
    + simpl. rewrite decide_False; [|intros Heq; apply Hx; congruence].
      destruct (list_find _ (filter _ s)) as [[i y]|],
               (list_find _ s) as [[i' y']|]; simpl in *; by simplify_eq.
  - induction s as [|x s IH]; simpl.
    { by rewrite decide_True. }
    case_decide; [done|].
    destruct (list_find _ (s ++ [g])) as [[i y]|],
             (list_find _ s) as [[i' y']|]; simpl in *; by simplify_eq.
  - intros Hne. induction s as [|x s IH]; simpl.
    { by rewrite decide_False. }
    case_decide; [done|].
    destruct (list_find _ (s ++ [g])) as [[i y]|],
             (list_find _ s) as [[i' y']|]; simpl in *; by simplify_eq.
Qed.

Lemma Deduplicate_fold_sublist graphs st :
  ∃ kept, unique (foldl Deduplicate_step st graphs) = unique st ++ kept
          ∧ sublist kept graphs
          ∧ (∀ x, x ∈ seenAnchors st →
                  x ∈ seenAnchors (foldl Deduplicate_step st graphs))
          ∧ (∀ x, x ∈ seenSignatures st →
                  x ∈ seenSignatures (foldl Deduplicate_step st graphs))
          ∧ (∀ g, g ∈ graphs →
                  anchorKey g ∈ seenAnchors (foldl Deduplicate_step st graphs)
                  ∨ signature g ∈ seenSignatures (foldl Deduplicate_step st graphs)).
Proof.
  revert st. induction graphs as [|g graphs IH]; intros st.
  { exists []. simpl. rewrite app_nil_r. split; [done|]. split; [done|].
    split; [done|]. split; [done|]. intros g Hg. by apply elem_of_nil in Hg. }
  cbn [foldl].
  destruct (IH (Deduplicate_step st g)) as (kept & Hu & Hsub & Ha & Hs & Hcov).
  destruct (decide (anchorKey g ∈ seenAnchors st)) as [Hin|Hnin].
  { assert (Hstep : Deduplicate_step st g = st).
    { unfold Deduplicate_step. by rewrite decide_True. }
    rewrite Hstep in Hu, Ha, Hs, Hcov |- *.
    exists kept. split; [done|]. split; [by apply sublist_cons|].
    split; [done|]. split; [done|].
    intros g' [->|Hg']%elem_of_cons; [left; by apply Ha|by apply Hcov]. }
  destruct (decide (signature g ∈ seenSignatures st)) as [Hin'|Hnin'].
  { assert (Hstep : Deduplicate_step st g = st).
    { unfold Deduplicate_step. rewrite decide_False by done.
      by rewrite decide_True. }
    rewrite Hstep in Hu, Ha, Hs, Hcov |- *.
    exists kept. split; [done|]. split; [by apply sublist_cons|].
    split; [done|]. split; [done|].
    intros g' [->|Hg']%elem_of_cons; [right; by apply Hs|by apply Hcov]. }
  assert (Hstep : Deduplicate_step st g
                  = {| unique := unique st ++ [g];
                       seenAnchors := {[ anchorKey g ]} ∪ seenAnchors st;
                       seenSignatures := {[ signature g ]} ∪ seenSignatures st |}).
  { unfold Deduplicate_step. rewrite decide_False by done.
    by rewrite decide_False. }
  rewrite Hstep in Hu, Ha, Hs, Hcov |- *. simpl in Hu, Ha, Hs.
  exists (g :: kept). split; [by rewrite Hu, <- app_assoc|].
  split; [by apply sublist_skip|].
  split; [intros x Hx; apply Ha, elem_of_union; by right|].
  split; [intros x Hx; apply Hs, elem_of_union; by right|].
  intros g' [->|Hg']%elem_of_cons; [|by apply Hcov].
  left. apply Ha, elem_of_union. left. by apply elem_of_singleton.
Qed.

(** X12: [Deduplicate] keeps a subsequence of the graphs, in their
    order; the first graph always survives; and every graph of the input
    shares its anchor key or its canonical signature with a graph that
    survives. *)
Theorem Deduplicate_keeps_first_of_each (graphs : ComputeGraphSet.t) :
  sublist (Deduplicate graphs) graphs
  ∧ (∀ g rest, graphs = g :: rest →
               ∃ rest', Deduplicate graphs = g :: rest')
  ∧ (∀ g, g ∈ graphs →
          ∃ s, s ∈ Deduplicate graphs
               ∧ (anchorKey s = anchorKey g ∨ signature s = signature g)).
Proof.
  destruct (Deduplicate_fold_sublist graphs
              {| unique := []; seenAnchors := ∅; seenSignatures := ∅ |})
    as (kept & Hu & Hsub & _ & _ & Hcov).
  destruct (Deduplicate_fold_NoDup graphs
              {| unique := []; seenAnchors := ∅; seenSignatures := ∅ |}
              seen_ok_empty)
    as ([Hok1 Hok2] & _); [constructor..|].
  assert (HD : Deduplicate graphs = kept) by exact Hu.
  split; [by rewrite HD|]. split.
  - intros g rest ->. unfold Deduplicate. cbn [foldl].
    assert (Hstep : Deduplicate_step
                      {| unique := []; seenAnchors := ∅; seenSignatures := ∅ |} g
                    = {| unique := [g];
                         seenAnchors := {[anchorKey g]} ∪ ∅;
                         seenSignatures := {[signature g]} ∪ ∅ |}).
    { unfold Deduplicate_step. simpl.
      rewrite decide_False by apply not_elem_of_empty.
      by rewrite decide_False by apply not_elem_of_empty. }
    rewrite Hstep.
    destruct (Deduplicate_fold_sublist rest
                {| unique := [g];
                   seenAnchors := {[anchorKey g]} ∪ ∅;
                   seenSignatures := {[signature g]} ∪ ∅ |})
      as (kept' & -> & _).
    by exists kept'.
  - intros g Hg. unfold Deduplicate. destruct (Hcov g Hg) as [Hin|Hin].
    + apply Hok1, list_elem_of_fmap in Hin as (s & Hs & Hin). exists s.
      split; [done|]. by left.
    + apply Hok2, list_elem_of_fmap in Hin as (s & Hs & Hin). exists s.
      split; [done|]. by right.
Qed.
End GraphSetFacts.

(** ** 9.4 Ranking the anchors *)

Section AnchorRankFacts.
Import Anchor AnchorRank.
Variable finder : AnchorFinder.
Variable getNameAsString : FuncPtr -> string.

Lemma unique_step_fold anchors acc :
  (∀ a, a ∈ snd acc → stmt a ∈ fst acc) →
  NoDup (map stmt (snd acc)) →
  let r := foldl unique_step acc anchors in
  (∀ a, a ∈ snd r → stmt a ∈ fst r)
  ∧ NoDup (map stmt (snd r))
  ∧ (∀ a, a ∈ snd r → a ∈ snd acc ∨ a ∈ anchors).
Proof.
  revert acc. induction anchors as [|x anchors IH]; intros acc Hseen Hnd.
  { simpl. split; [done|]. split; [done|]. intros a Ha. by left. }
  cbn [foldl].
  destruct (decide (stmt x ∈ fst acc)) as [Hin|Hnin].
  - assert (Hstep : unique_step acc x = acc).
    { unfold unique_step. by rewrite decide_True. }
    rewrite Hstep.
    destruct (IH acc Hseen Hnd) as (H1 & H2 & H3). cbv zeta in *.
    split; [done|]. split; [done|].
    intros a Ha. destruct (H3 a Ha) as [?|?]; [by left|right; by right].
  - assert (Hstep : unique_step acc x
                    = ({[stmt x]} ∪ fst acc, snd acc ++ [x])).
    { unfold unique_step. by rewrite decide_False. }
    rewrite Hstep.
    destruct (IH ({[stmt x]} ∪ fst acc, snd acc ++ [x])) as (H1 & H2 & H3).
    + cbn [fst snd]. intros a [Ha|Ha]%elem_of_app.
      * apply elem_of_union. right. by apply Hseen.
      * apply list_elem_of_singleton in Ha. subst a.
        apply elem_of_union. left. by apply elem_of_singleton.
    + cbn [fst snd]. rewrite map_app. apply NoDup_app. split; [done|].
      split; [|apply NoDup_singleton].
      intros s Hs Hs'. apply list_elem_of_singleton in Hs'. subst s.
      apply list_elem_of_fmap in Hs as (a & Heq & Ha).
      apply Hnin. rewrite Heq. by apply Hseen.
    + cbv zeta in *. split; [done|]. split; [done|].
      intros a Ha. destruct (H3 a Ha) as [Hin|Hin]; [|right; by right].
      cbn [snd] in Hin. apply elem_of_app in Hin as [Hin|Hin]; [by left|].
      apply list_elem_of_singleton in Hin. subst a. right. left.
Qed.

Lemma filter_step_fold anchors st :
  (∀ a, a ∈ filtered st → stmt a ∈ seenStmts2 st
                          ∧ locKey getNameAsString a ∈ seenLocations st) →
  NoDup (map stmt (filtered st)) →
  NoDup (map (locKey getNameAsString) (filtered st)) →
  let r := foldl (filter_step finder getNameAsString) st anchors in
  (∀ a, a ∈ filtered r → stmt a ∈ seenStmts2 r
                         ∧ locKey getNameAsString a ∈ seenLocations r)
  ∧ NoDup (map stmt (filtered r))
  ∧ NoDup (map (locKey getNameAsString) (filtered r))
  ∧ (∀ a, a ∈ filtered r →
          a ∈ filtered st
          ∨ a ∈ anchors
            ∧ (includeNonLoopOps finder = false →
               minLoopDepth finder <= loopDepth a)).
Proof.
  revert st. induction anchors as [|x anchors IH]; intros st Hseen Hnd1 Hnd2.
  { simpl. split; [done|]. split; [done|]. split; [done|].
    intros a Ha. by left. }
  cbn [foldl].
  assert (Hskip : filter_step finder getNameAsString st x = st →
            let r := foldl (filter_step finder getNameAsString)
                           (filter_step finder getNameAsString st x) anchors in
            (∀ a, a ∈ filtered r → stmt a ∈ seenStmts2 r
                                   ∧ locKey getNameAsString a ∈ seenLocations r)
            ∧ NoDup (map stmt (filtered r))
            ∧ NoDup (map (locKey getNameAsString) (filtered r))
            ∧ (∀ a, a ∈ filtered r →
                    a ∈ filtered st
                    ∨ a ∈ x :: anchors
                      ∧ (includeNonLoopOps finder = false →
                         minLoopDepth finder <= loopDepth a))).
  { intros ->. destruct (IH st Hseen Hnd1 Hnd2) as (H1 & H2 & H3 & H4).
    cbv zeta in *. split; [done|]. split; [done|]. split; [done|].
    intros a Ha. destruct (H4 a Ha) as [?|[? ?]]; [by left|].
    right. split; [by right|done]. }
  destruct (decide (stmt x ∈ seenStmts2 st)) as [Hs|Hs].
  { apply Hskip. unfold filter_step. by rewrite decide_True. }
  destruct (decide (locKey getNameAsString x ∈ seenLocations st)) as [Hl|Hl].
  { apply Hskip. unfold filter_step. rewrite decide_False by done.
    by rewrite decide_True. }
  destruct (bool_decide (loopDepth x < minLoopDepth finder)
            && negb (includeNonLoopOps finder)) eqn:Hd.
  { apply Hskip. unfold filter_step. rewrite decide_False by done.
    rewrite decide_False by done. by rewrite Hd. }
  clear Hskip.
  set (st' := {| seenStmts2 := {[stmt x]} ∪ seenStmts2 st;
                 seenLocations := {[locKey getNameAsString x]} ∪ seenLocations st;
                 filtered := filtered st ++ [x] |}).
  assert (Hstep : filter_step finder getNameAsString st x = st').
  { unfold filter_step. rewrite decide_False by done.
    rewrite decide_False by done. by rewrite Hd. }
  rewrite Hstep.
  destruct (IH st') as (H1 & H2 & H3 & H4).
  - subst st'. cbn [filtered seenStmts2 seenLocations].
    intros a [Ha|Ha]%elem_of_app.
    + destruct (Hseen a Ha). split; apply elem_of_union; by right.
    + apply list_elem_of_singleton in Ha. subst a.
      split; apply elem_of_union; left; by apply elem_of_singleton.
  - subst st'. cbn [filtered]. rewrite map_app. apply NoDup_app.
    split; [done|]. split; [|apply NoDup_singleton].
    intros s Hin Hin'. apply list_elem_of_singleton in Hin'. subst s.
    apply list_elem_of_fmap in Hin as (a & Heq & Ha).
    apply Hs. rewrite Heq. by apply Hseen.
  - subst st'. cbn [filtered]. rewrite map_app. apply NoDup_app.
    split; [done|]. split; [|apply NoDup_singleton].
    intros s Hin Hin'. apply list_elem_of_singleton in Hin'. subst s.
    apply list_elem_of_fmap in Hin as (a & Heq & Ha).
    apply Hl. rewrite Heq. by apply Hseen.
  - cbv zeta in *. split; [done|]. split; [done|]. split; [done|].
    intros a Ha. destruct (H4 a Ha) as [Hin|[Hin Hdep]].
    + subst st'. cbn [filtered] in Hin.
      apply elem_of_app in Hin as [Hin|Hin]; [by left|].
      apply list_elem_of_singleton in Hin. subst a. right. split; [left|].
      intros Hno. rewrite Hno in Hd. simpl in Hd.
      rewrite andb_true_r in Hd. apply bool_decide_eq_false in Hd. lia.
    + right. split; [by right|done].
Qed.

Lemma filtered_anchors_spec anchors :
  let l := filtered_anchors finder getNameAsString anchors in
  NoDup (map stmt l)
  ∧ NoDup (map (locKey getNameAsString) l)
  ∧ ∀ a, a ∈ l →
         a ∈ anchors
         ∧ (includeNonLoopOps finder = false →
            minLoopDepth finder <= loopDepth a).
Proof.
  unfold filtered_anchors. cbv zeta.
  destruct (unique_step_fold anchors (∅, [])) as (_ & _ & U3);
    [by intros a ?%elem_of_nil|constructor|].
  cbv zeta in U3.
  destruct (filter_step_fold (snd (foldl unique_step (∅, []) anchors))
              {| seenStmts2 := ∅; seenLocations := ∅; filtered := [] |})
    as (_ & F2 & F3 & F4); [by intros a ?%elem_of_nil|constructor..|].
  cbv zeta in *. split; [done|]. split; [done|].
  intros a Ha. destruct (F4 a Ha) as [Hin|[Hin Hdep]];
    [by apply elem_of_nil in Hin|].
  split; [|done]. destruct (U3 a Hin) as [Hnil|?]; [|done].
  by apply elem_of_nil in Hnil.
Qed.

Lemma FilterAndRankAnchors_prefix anchors :
  ∃ cut, merge_sort score_ge (filtered_anchors finder getNameAsString anchors)
         = FilterAndRankAnchors finder getNameAsString anchors ++ cut
         ∧ (length (FilterAndRankAnchors finder getNameAsString anchors)
            <= MAX_ANCHORS)%nat.
Proof.
  unfold FilterAndRankAnchors. cbv zeta.
  set (sorted := merge_sort score_ge _).
  case_decide.
  - exists (drop MAX_ANCHORS sorted). split; [by rewrite take_drop|].
    rewrite length_take. lia.
  - exists []. split; [by rewrite app_nil_r|lia].
Qed.

(** X13: what [FilterAndRankAnchors] returns: at most 50 anchors, all of
    them among the given ones, no two on the same statement and no two
    with the same key ["function:line"]; unless [includeNonLoopOps] is
    set, each has a loop depth of at least [minLoopDepth]. *)
Theorem FilterAndRankAnchors_selection (anchors : list AnchorPoint) :
  let result := FilterAndRankAnchors finder getNameAsString anchors in
  (length result <= 50)%nat
  ∧ NoDup (map stmt result)
  ∧ NoDup (map (locKey getNameAsString) result)
  ∧ ∀ a, a ∈ result →
         a ∈ anchors
         ∧ (includeNonLoopOps finder = false →
            minLoopDepth finder <= loopDepth a).
Proof.
  cbv zeta.
  destruct (FilterAndRankAnchors_prefix anchors) as (cut & Hsorted & Hlen).
  destruct (filtered_anchors_spec anchors) as (Hnd1 & Hnd2 & Hin).
  cbv zeta in *.
  assert (Hperm : FilterAndRankAnchors finder getNameAsString anchors ++ cut
                  ≡ₚ filtered_anchors finder getNameAsString anchors).
  { rewrite <- Hsorted. apply merge_sort_Permutation. }
  split; [done|]. rewrite <- Hperm in Hnd1, Hnd2.
  rewrite map_app in Hnd1, Hnd2.
  apply NoDup_app in Hnd1 as [Hnd1 _]. apply NoDup_app in Hnd2 as [Hnd2 _].
  split; [done|]. split; [done|].
  intros a Ha. apply Hin. rewrite <- Hperm. apply elem_of_app. by left.
Qed.

(** X14: the result of [FilterAndRankAnchors] is in descending order of
    [ComputeAnchorScore]; it and the anchors that were cut off make up the
    anchors that passed the two filters; anchors are cut off only when 50
    are returned, and no anchor cut off scores higher than a returned
    one. *)
Theorem FilterAndRankAnchors_ranking (anchors : list AnchorPoint) :
  let result := FilterAndRankAnchors finder getNameAsString anchors in
  StronglySorted score_ge result
  ∧ ∃ cut, result ++ cut
           ≡ₚ filtered_anchors finder getNameAsString anchors
           ∧ (cut ≠ [] → length result = 50%nat)
           ∧ ∀ a b, a ∈ result → b ∈ cut →
                    ComputeAnchorScore b <= ComputeAnchorScore a.
Proof.
  cbv zeta.
  destruct (FilterAndRankAnchors_prefix anchors) as (cut & Hsorted & Hlen).
  pose proof (StronglySorted_merge_sort score_ge
                (filtered_anchors finder getNameAsString anchors)) as Hss.
  rewrite Hsorted in Hss.
  split; [by apply StronglySorted_app_1_l in Hss|].
  exists cut. split; [rewrite <- Hsorted; apply merge_sort_Permutation|].
  split.
  - intros Hcut. unfold FilterAndRankAnchors in Hsorted |- *. cbv zeta in *.
    case_decide as Hd.
    + rewrite length_take. unfold MAX_ANCHORS in *. lia.
    + destruct cut; [done|].
      apply (f_equal length) in Hsorted. rewrite length_app in Hsorted.
      simpl in Hsorted. lia.
  - intros a b Ha Hb. by apply (StronglySorted_app_1_elem_of _ _ _ a b Hss).
Qed.
End AnchorRankFacts.

(** ** 9.5 Edges and overlap in the builder *)

Section BuilderOpsFacts.
Import ComputeGraph Builder BuilderOps.

(** X15: the builder's [GetOpCodeFromBinaryOp] and the anchor visitor's
    [GetOpCode] agree on every binary operator except the six compound
    assignments [%=], [<<=], [>>=], [&=], [|=] and [^=]: the builder has no
    case for them and answers [Unknown], where the visitor answers [Mod],
    [Shl], [Shr], [And], [Or] and [Xor]. *)
Theorem GetOpCodeFromBinaryOp_vs_GetOpCode (op : Anchor.BinaryOperatorKind) :
  GetOpCodeFromBinaryOp op
  = match op with
    | Anchor.BO_RemAssign | Anchor.BO_ShlAssign | Anchor.BO_ShrAssign
    | Anchor.BO_AndAssign | Anchor.BO_OrAssign | Anchor.BO_XorAssign =>
        Op_Unknown
    | _ => Anchor.GetOpCode op
    end
  ∧ (GetOpCodeFromBinaryOp op ≠ Anchor.GetOpCode op
     ↔ op = Anchor.BO_RemAssign ∨ op = Anchor.BO_ShlAssign
       ∨ op = Anchor.BO_ShrAssign ∨ op = Anchor.BO_AndAssign
       ∨ op = Anchor.BO_OrAssign ∨ op = Anchor.BO_XorAssign)
  ∧ (GetOpCodeFromBinaryOp Anchor.BO_RemAssign = Op_Unknown
     ∧ Anchor.GetOpCode Anchor.BO_RemAssign = Op_Mod)
  ∧ (GetOpCodeFromBinaryOp Anchor.BO_ShlAssign = Op_Unknown
     ∧ Anchor.GetOpCode Anchor.BO_ShlAssign = Op_Shl)
  ∧ (GetOpCodeFromBinaryOp Anchor.BO_ShrAssign = Op_Unknown
     ∧ Anchor.GetOpCode Anchor.BO_ShrAssign = Op_Shr)
  ∧ (GetOpCodeFromBinaryOp Anchor.BO_AndAssign = Op_Unknown
     ∧ Anchor.GetOpCode Anchor.BO_AndAssign = Op_And)
  ∧ (GetOpCodeFromBinaryOp Anchor.BO_OrAssign = Op_Unknown
     ∧ Anchor.GetOpCode Anchor.BO_OrAssign = Op_Or)
  ∧ (GetOpCodeFromBinaryOp Anchor.BO_XorAssign = Op_Unknown
     ∧ Anchor.GetOpCode Anchor.BO_XorAssign = Op_Xor).
Proof.
  split; [by destruct op|]. split; [|done].
  destruct op; simpl; split; try done; try (intros _; tauto);
    intros Hop; repeat (destruct Hop as [Hop|Hop]; [discriminate Hop|]);
    discriminate Hop.
Qed.

Lemma GetOutgoingEdges_AddEdge src tgt k lbl g :
  edge_id_fresh g →
  GetOutgoingEdges src (fst (AddEdge src tgt k lbl g))
  = GetOutgoingEdges src g ++ [snd (AddEdge src tgt k lbl g)].
Proof.
  intros [Hnone Hout]. unfold GetOutgoingEdges, GetEdge. simpl.
  assert (Ho : nextEdgeId g ∉ default [] (outEdges g !! src)).
  { destruct (outEdges g !! src) as [l|] eqn:E; simpl;
      [by apply (Hout src l)|apply not_elem_of_nil]. }
  rewrite lookup_insert_eq. simpl. rewrite omap_app. simpl.
  rewrite lookup_insert_eq. simpl.
  by rewrite omap_lookup_insert_fresh.
Qed.

(** X16: [ConnectNodes] on a graph whose next edge id is not yet used.
    It changes nothing when the two ends are the same node or one of them
    is the id 0; otherwise it either leaves the graph as it is or does
    exactly one [AddEdge]; it adds an edge only if no outgoing edge of
    [from] has the same target, kind and label; and a second call with
    the same arguments changes nothing. *)
Theorem ConnectNodes_once (from to : NodeId) (kind : ComputeEdgeKind)
    (label : string) (g : ComputeGraph.t) :
  edge_id_fresh g →
  let g' := ConnectNodes from to kind label g in
  ((from = to ∨ from = 0%N ∨ to = 0%N) → g' = g)
  ∧ (g' = g ∨ g' = fst (AddEdge from to kind label g))
  ∧ (g' ≠ g →
     ¬ ∃ e, e ∈ GetOutgoingEdges from g
            ∧ ComputeEdge.targetId e = to ∧ ComputeEdge.kind e = kind
            ∧ ComputeEdge.label e = label)
  ∧ ConnectNodes from to kind label g' = g'.
Proof.
  intros Hfresh g'. subst g'. unfold ConnectNodes.
  destruct (decide (from = to ∨ from = 0%N ∨ to = 0%N)) as [Hbad|Hok].
  { split; [done|]. split; [by left|]. by split. }
  destruct (existsb _ (GetOutgoingEdges from g)) eqn:Hex.
  { split; [done|]. split; [by left|]. split; [done|]. by rewrite Hex. }
  split; [done|]. split; [by right|]. split.
  - intros _ (e & He & Ht & Hk & Hl).
    assert (Htrue : existsb (fun edge =>
                      bool_decide (ComputeEdge.targetId edge = to
                                   ∧ ComputeEdge.kind edge = kind
                                   ∧ ComputeEdge.label edge = label))
                     (GetOutgoingEdges from g) = true).
    { apply existsb_exists. exists e. split; [by apply list_elem_of_In|].
      by apply bool_decide_eq_true. }
    by rewrite Htrue in Hex.
  - rewrite GetOutgoingEdges_AddEdge by done.
    rewrite existsb_app. simpl.
    rewrite (bool_decide_eq_true_2 _); [|done].
    by rewrite orb_true_r.
Qed.

Lemma ConnectNodes_once_witness :
  let g := example_edge_graph in
  let g' := ConnectNodes 2%N 1%N EK_LoopCarried "x (next iter)" g in
  ((2%N = 1%N ∨ 2%N = 0%N ∨ 1%N = 0%N) → g' = g)
  ∧ (g' = g ∨ g' = fst (AddEdge 2%N 1%N EK_LoopCarried "x (next iter)" g))
  ∧ (g' ≠ g →
     ¬ ∃ e, e ∈ GetOutgoingEdges 2%N g
            ∧ ComputeEdge.targetId e = 1%N
            ∧ ComputeEdge.kind e = EK_LoopCarried
            ∧ ComputeEdge.label e = "x (next iter)")
  ∧ ConnectNodes 2%N 1%N EK_LoopCarried "x (next iter)" g' = g'.
Proof.
  apply (ConnectNodes_once 2%N 1%N EK_LoopCarried "x (next iter)"
           example_edge_graph).
  apply (bool_decide_unpack _). vm_compute. exact I.
Defined.

Lemma HasOverlap_true g1 g2 :
  HasOverlap g1 g2 = true
  ↔ ∃ s n1 n2, n1 ∈ GetAllNodes g1 ∧ n2 ∈ GetAllNodes g2
               ∧ ComputeNode.astStmt n1 = Some s
               ∧ ComputeNode.astStmt n2 = Some s.
Proof.
  unfold HasOverlap. cbv zeta. rewrite existsb_exists. split.
  - intros (n2 & Hn2 & Hs). apply list_elem_of_In in Hn2.
    destruct (ComputeNode.astStmt n2) as [s|] eqn:E; [|done].
    apply bool_decide_eq_true in Hs.
    apply elem_of_list_to_set, list_elem_of_omap in Hs as (n1 & Hn1 & Hs1).
    by exists s, n1, n2.
  - intros (s & n1 & n2 & Hn1 & Hn2 & Hs1 & Hs2).
    exists n2. split; [by apply list_elem_of_In|]. rewrite Hs2.
    apply bool_decide_eq_true, elem_of_list_to_set, list_elem_of_omap.
    by exists n1.
Qed.

(** X17: [HasOverlap] does not depend on the order of its two graphs,
    and a graph overlaps with itself exactly when one of its nodes has a
    statement attached. *)
Theorem HasOverlap_symmetric (g1 g2 : ComputeGraph.t) :
  HasOverlap g1 g2 = HasOverlap g2 g1
  ∧ (HasOverlap g1 g1 = true
     ↔ ∃ n, n ∈ GetAllNodes g1 ∧ is_Some (ComputeNode.astStmt n)).
Proof.
  split.
  - destruct (HasOverlap g1 g2) eqn:E1, (HasOverlap g2 g1) eqn:E2; try done.
    + apply HasOverlap_true in E1 as (s & n1 & n2 & ? & ? & ? & ?).
      assert (HasOverlap g2 g1 = true) as Ht
        by (apply HasOverlap_true; by exists s, n2, n1).
      by rewrite Ht in E2.
    + apply HasOverlap_true in E2 as (s & n1 & n2 & ? & ? & ? & ?).
      assert (HasOverlap g1 g2 = true) as Ht
        by (apply HasOverlap_true; by exists s, n2, n1).
      by rewrite Ht in E1.
  - rewrite HasOverlap_true. split.
    + intros (s & n1 & _ & Hn1 & _ & Hs & _). exists n1. split; [done|].
      by eexists.
    + intros (n & Hn & [s Hs]). by exists s, n, n.
Qed.
End BuilderOpsFacts.

(** ** 9.6 Path queries *)

Section WorklistFacts.
Import Worklist.
Context {A : Type} `{Countable A}.

Lemma push_all_spec (st : list A * gset A) (xs : list A) :
  ∃ new, fst (foldl push_new st xs) = fst st ++ new
         ∧ NoDup new
         ∧ (∀ x, x ∈ new ↔ x ∈ xs ∧ x ∉ snd st)
         ∧ (∀ x, x ∈ snd (foldl push_new st xs) ↔ x ∈ snd st ∨ x ∈ xs).
Proof.
  revert st. induction xs as [|x xs IH]; intros st; cbn [foldl].
  { exists []. rewrite app_nil_r. split; [done|]. split; [constructor|].
    split; intros x; rewrite elem_of_nil; tauto. }
  destruct (decide (x ∈ snd st)) as [Hin|Hnin].
  - assert (Hstep : push_new st x = st)
      by (unfold push_new; by rewrite decide_True).
    rewrite Hstep.
    destruct (IH st) as (new & Hq & Hnd & Hnew & Hvis).
    exists new. split; [done|]. split; [done|]. split.
    + intros y. rewrite Hnew, elem_of_cons. split; [tauto|].
      intros [[->|Hy] Hn]; [done|tauto].
    + intros y. rewrite Hvis, elem_of_cons. split; [tauto|].
      intros [Hy|[->|Hy]]; tauto.
  - assert (Hstep : push_new st x = (fst st ++ [x], {[ x ]} ∪ snd st))
      by (unfold push_new; by rewrite decide_False).
    rewrite Hstep.
    destruct (IH (fst st ++ [x], {[ x ]} ∪ snd st))
      as (new & Hq & Hnd & Hnew & Hvis). cbn [fst snd] in *.
    exists (x :: new). split; [by rewrite Hq, <- app_assoc|]. split.
    { constructor; [|done]. rewrite Hnew. intros [_ Hx]. apply Hx.
      apply elem_of_union. left. by apply elem_of_singleton. }
    split.
    + intros y. rewrite !elem_of_cons, Hnew, elem_of_union, elem_of_singleton.
      destruct (decide (y = x)) as [->|Hne]; tauto.
    + intros y. rewrite Hvis, elem_of_cons, elem_of_union, elem_of_singleton.
      tauto.
Qed.

Variable succs : A -> list A.
Local Abbreviation step := (step succs).

Lemma search_inv_init source sink :
  search_inv succs source sink [] ([source], {[ source ]}).
Proof.
  unfold search_inv. cbn [app fst snd].
  split; [apply NoDup_singleton|]. split; [|split].
  - intros x. by rewrite elem_of_singleton, list_elem_of_singleton.
  - intros x Hx. by apply elem_of_nil in Hx.
  - intros x ->%elem_of_singleton. done.
Qed.

Lemma search_inv_step source sink popped current rest visited :
  search_inv succs source sink popped (current :: rest, visited) →
  current ≠ sink →
  search_inv succs source sink (popped ++ [current])
    (foldl push_new (rest, visited) (succs current)).
Proof.
  intros (Hnd & Hvis & Hpop & Hreach) Hne. cbn [fst snd] in *.
  destruct (push_all_spec (rest, visited) (succs current))
    as (new & Hq & Hndn & Hnew & Hv). cbn [fst snd] in *.
  unfold search_inv. rewrite Hq.
  assert (Hcur : current ∈ visited).
  { apply Hvis, elem_of_app. right. left. }
  split; [|split; [|split]].
  - replace ((popped ++ [current]) ++ rest ++ new)
      with ((popped ++ current :: rest) ++ new)
      by (by rewrite <- !app_assoc).
    apply NoDup_app. split; [done|]. split; [|done].
    intros x Hx Hx'. apply Hnew in Hx' as [_ Hx']. by apply Hx', Hvis.
  - intros x. rewrite Hv, Hvis, <- app_assoc. cbn [app].
    rewrite !elem_of_app, !elem_of_cons, elem_of_app, Hnew, Hvis.
    rewrite elem_of_app, elem_of_cons.
    destruct (decide (x ∈ popped)); [tauto|].
    destruct (decide (x = current)); [tauto|].
    destruct (decide (x ∈ rest)); tauto.
  - intros x [Hx|Hx]%elem_of_app.
    + destruct (Hpop x Hx) as [Hs Hc]. split; [done|].
      intros y Hy. apply Hv. left. by apply Hc.
    + apply list_elem_of_singleton in Hx. subst x. split; [done|].
      intros y Hy. apply Hv. by right.
  - intros x [Hx|Hx]%Hv; [by apply Hreach|].
    eapply rtc_r; [by apply Hreach|done].
Qed.

Lemma search_inv_true source sink popped st fuel :
  search_inv succs source sink popped st →
  search succs fuel sink st = Some true → rtc step source sink.
Proof.
  revert popped st. induction fuel as [|fuel IH]; intros popped [q v] Hinv;
    [done|]. cbn [search fst snd].
  destruct q as [|current rest]; [done|].
  destruct (decide (current = sink)) as [->|Hne].
  - intros _. destruct Hinv as (_ & Hvis & _ & Hreach).
    apply Hreach, Hvis, elem_of_app. right. left.
  - apply (IH (popped ++ [current])). by apply search_inv_step.
Qed.

Lemma search_inv_false source sink popped st fuel :
  search_inv succs source sink popped st →
  source ∈ snd st →
  search succs fuel sink st = Some false → ¬ rtc step source sink.
Proof.
  revert popped st. induction fuel as [|fuel IH]; intros popped [q v] Hinv Hsrc;
    [done|]. cbn [search fst snd] in *.
  destruct q as [|current rest].
  - intros _ Hrtc. destruct Hinv as (_ & Hvis & Hpop & _).
    cbn [fst snd] in *. rewrite app_nil_r in Hvis.
    assert (Hall : ∀ x, rtc step source x → x ∈ v).
    { intros x Hx. revert x Hx. apply (rtc_ind_r (fun x => x ∈ v)); [done|].
      intros y z _ Hstep Hy. apply Hvis in Hy. by apply (Hpop y Hy). }
    by destruct (Hpop sink (proj1 (Hvis sink) (Hall sink Hrtc))).
  - destruct (decide (current = sink)) as [->|Hne]; [done|].
    apply (IH (popped ++ [current])); [by apply search_inv_step|].
    destruct (push_all_spec (rest, v) (succs current)) as (_ & _ & _ & _ & Hv).
    apply Hv. by left.
Qed.

Lemma search_inv_returns (U : list A) source sink popped st fuel :
  (∀ a b, b ∈ succs a → b ∈ U) →
  search_inv succs source sink popped st →
  (length U + 2 <= fuel + length popped)%nat →
  is_Some (search succs fuel sink st).
Proof.
  intros HU. revert popped st.
  assert (Hlen : ∀ popped st, search_inv succs source sink popped st →
                 (length (popped ++ fst st) <= S (length U))%nat).
  { intros popped st (Hnd & Hvis & _ & Hreach).
    change (S (length U)) with (length (source :: U)).
    apply submseteq_length, NoDup_submseteq; [done|].
    intros x Hx. apply Hvis, Hreach in Hx.
    apply rtc_inv_r in Hx as [->|(y & _ & Hy)]; [left|right].
    by eapply HU. }
  induction fuel as [|fuel IH]; intros popped [q v] Hinv Hfuel.
  { apply Hlen in Hinv. rewrite length_app in Hinv. lia. }
  cbn [search fst snd]. destruct q as [|current rest]; [by eexists|].
  case_decide; [by eexists|].
  apply (IH (popped ++ [current])); [by apply search_inv_step|].
  rewrite length_app. simpl. lia.
Qed.

(** The search answers, and answers [true] exactly when the sink can be
    reached from the source along the successor function. *)
Lemma search_correct (U : list A) source sink fuel :
  (∀ a b, b ∈ succs a → b ∈ U) →
  (length U + 2 <= fuel)%nat →
  ∃ b, search succs fuel sink ([source], {[ source ]}) = Some b
       ∧ (b = true ↔ rtc step source sink).
Proof.
  intros HU Hfuel.
  pose proof (search_inv_init source sink) as Hinv.
  destruct (search_inv_returns U source sink [] _ fuel HU Hinv) as [b Hb].
  { simpl. lia. }
  exists b. split; [done|]. destruct b.
  - split; [|done]. intros _. by eapply search_inv_true.
  - split; [done|]. intros Hr. exfalso.
    eapply search_inv_false; [done| |done|done].
    by apply elem_of_singleton.
Qed.
End WorklistFacts.

Section FlowPathFacts.
Import Query FlowPath.

Lemma foldl_concat {B C} (f : B → C → B) (b : B) (ls : list (list C)) :
  foldl f b (concat ls) = foldl (fun acc l => foldl f acc l) b ls.
Proof.
  revert b. induction ls as [|l ls IH]; intros b; [done|].
  simpl. by rewrite foldl_app, IH.
Qed.

Lemma elem_of_concat {B} (x : B) (ls : list (list B)) :
  x ∈ concat ls ↔ ∃ l, x ∈ l ∧ l ∈ ls.
Proof.
  induction ls as [|l ls IH]; simpl.
  - split; [by intros ?%elem_of_nil|]. by intros (l & _ & ?%elem_of_nil).
  - rewrite elem_of_app, IH. split.
    + intros [Hx|(l' & Hx & Hl)]; [exists l; split; [done|left]|].
      exists l'. split; [done|by right].
    + intros (l' & Hx & [->|Hl]%elem_of_cons); [by left|].
      right. by exists l'.
Qed.

Lemma ProcessDefinedVarsForPath_push_all ctx current filterVar st :
  ProcessDefinedVarsForPath ctx current filterVar st
  = foldl Worklist.push_new st (flow_succs ctx filterVar current).
Proof.
  unfold ProcessDefinedVarsForPath, flow_succs.
  rewrite foldl_concat. revert st.
  induction (GetDefinedVars ctx current) as [|v vars IH]; intros st; [done|].
  cbn [foldl]. rewrite filter_cons.
  destruct (decide (filterVar ≠ "" ∧ v ≠ filterVar)) as [Hskip|Hpass].
  - rewrite decide_False by tauto. apply IH.
  - rewrite decide_True by done. cbn [map foldl]. apply IH.
Qed.

Lemma HasDataFlowPath_loop_search fuel ctx sink filterVar st :
  HasDataFlowPath_loop fuel ctx sink filterVar st
  = Worklist.search (flow_succs ctx filterVar) fuel sink st.
Proof.
  revert st. induction fuel as [|fuel IH]; intros st; [done|].
  cbn [HasDataFlowPath_loop Worklist.search].
  destruct (fst st) as [|current rest]; [done|].
  case_decide; [done|].
  by rewrite IH, ProcessDefinedVarsForPath_push_all.
Qed.

Lemma elem_of_flow_succs ctx filterVar a b :
  b ∈ flow_succs ctx filterVar a ↔ flows_to ctx filterVar a b.
Proof.
  unfold flow_succs, flows_to. rewrite elem_of_concat. split.
  - intros (l & Hb & Hl). apply list_elem_of_fmap in Hl as (var & -> & Hvar).
    apply list_elem_of_filter in Hvar as [Hpass Hvar].
    exists var. split; [done|]. split; [|done].
    destruct (decide (filterVar = "")); [by left|].
    destruct (decide (var = filterVar)); [by right|]. tauto.
  - intros (var & Hvar & Hpass & Hb). exists (GetUses ctx a var).
    split; [done|]. apply list_elem_of_fmap. exists var. split; [done|].
    apply list_elem_of_filter. split; [|done]. intros [? ?].
    by destruct Hpass.
Qed.

(** X18: [HasDataFlowPath(source, sink, var)] is true exactly when the
    sink can be reached from the source in zero or more data-flow steps,
    a step leading from a statement to a use ([GetUses]) of a variable it
    defines ([GetDefinedVars]) that the filter lets through.  The loop has
    answered within [pdgNodes.size() + 2] turns: with more turns allowed
    it gives the same answer. *)
Theorem HasDataFlowPath_reachability (ctx : CPGContext)
    (source sink : StmtPtr) (filterVar : string) :
  (HasDataFlowPath ctx source sink filterVar = true
   ↔ rtc (flows_to ctx filterVar) source sink)
  ∧ ∀ extra,
      HasDataFlowPath_fuel (size (pdgNodes ctx) + 2 + extra) ctx source sink
        filterVar
      = Some (HasDataFlowPath ctx source sink filterVar).
Proof.
  assert (Hsub : ∀ x y, rtc (Worklist.step (flow_succs ctx filterVar)) x y
                        ↔ rtc (flows_to ctx filterVar) x y).
  { intros x y. split; apply rtc_subrel; intros a b; apply elem_of_flow_succs. }
  assert (Hrun : ∀ extra, ∃ b,
            HasDataFlowPath_fuel (size (pdgNodes ctx) + 2 + extra) ctx source
              sink filterVar = Some b
            ∧ (b = true ↔ rtc (flows_to ctx filterVar) source sink)).
  { intros extra. unfold HasDataFlowPath_fuel.
    rewrite HasDataFlowPath_loop_search.
    destruct (search_correct (flow_succs ctx filterVar)
                (map fst (map_to_list (pdgNodes ctx))) source sink
                (size (pdgNodes ctx) + 2 + extra)) as (b & Hb & Hiff).
    - intros a b' (var & _ & _ & Hin)%elem_of_flow_succs.
      destruct (GetUses_stored ctx a var b' Hin) as [n Hn].
      apply list_elem_of_fmap. exists (b', n). split; [done|].
      by apply elem_of_map_to_list.
    - rewrite length_map, length_map_to_list. lia.
    - exists b. split; [done|]. by rewrite Hiff, Hsub. }
  assert (Hdef : ∃ b, HasDataFlowPath ctx source sink filterVar = b
                      ∧ (b = true ↔ rtc (flows_to ctx filterVar) source sink)).
  { destruct (Hrun 0%nat) as (b & Hb & Hiff). exists b. split; [|done].
    unfold HasDataFlowPath. rewrite Nat.add_0_r in Hb. by rewrite Hb. }
  destruct Hdef as (b & Hb & Hiff). rewrite Hb. split; [done|].
  intros extra. destruct (Hrun extra) as (b' & Hb' & Hiff'). rewrite Hb'.
  f_equal. destruct b, b'; try done.
  - by apply (proj2 Hiff'), (proj1 Hiff).
  - symmetry. by apply (proj2 Hiff), (proj1 Hiff').
Qed.
End FlowPathFacts.

Section ControlFlowFacts.
Import ICFG ControlFlow.

Lemma HasControlFlowPath_loop_search fuel ctx sinkNode st :
  HasControlFlowPath_loop fuel ctx sinkNode st
  = Worklist.search (GetSuccessors ctx) fuel sinkNode st.
Proof.
  revert st. induction fuel as [|fuel IH]; intros st; [done|].
  cbn [HasControlFlowPath_loop Worklist.search].
  destruct (fst st) as [|current rest]; [done|].
  case_decide; [done|]. by rewrite IH.
Qed.

Lemma GetSuccessors_targets ctx a b :
  b ∈ GetSuccessors ctx a → b ∈ successor_targets ctx.
Proof.
  unfold GetSuccessors, node_at, successor_targets.
  destruct (icfgNodes ctx !! fst a) as [vec|] eqn:Hvec;
    [|by intros ?%elem_of_nil].
  destruct (vec !! snd a) as [n|] eqn:Hn; [|by intros ?%elem_of_nil].
  intros Hb. apply elem_of_concat.
  exists (concat (map (fun n => map fst (successors n)) vec)). split.
  - apply elem_of_concat. exists (map fst (successors n)). split; [done|].
    apply list_elem_of_fmap. exists n. split; [done|].
    by eapply list_elem_of_lookup_2.
  - apply list_elem_of_fmap. exists (fst a, vec). split; [done|].
    by apply elem_of_map_to_list.
Qed.

(** X19: [HasControlFlowPath(source, sink)] is true exactly when both
    statements have a (non-null) ICFG node and the node of the sink can be
    reached from the node of the source along successor entries, in zero
    or more steps.  From any source node the loop answers within the
    number of successor entries plus 2 turns. *)
Theorem HasControlFlowPath_reachability (stmtToICFGNode : StmtMap)
    (ctx : CPGContext) (source sink : StmtPtr) :
  (HasControlFlowPath stmtToICFGNode ctx source sink = true
   ↔ ∃ sourceNode sinkNode,
       GetICFGNode stmtToICFGNode source = Some sourceNode
       ∧ GetICFGNode stmtToICFGNode sink = Some sinkNode
       ∧ rtc (icfg_step ctx) sourceNode sinkNode)
  ∧ ∀ sourceNode sinkNode extra,
      ∃ b, HasControlFlowPath_loop (length (successor_targets ctx) + 2 + extra)
             ctx sinkNode ([sourceNode], {[ sourceNode ]}) = Some b
           ∧ (b = true ↔ rtc (icfg_step ctx) sourceNode sinkNode).
Proof.
  assert (Hrun : ∀ sourceNode sinkNode extra,
      ∃ b, HasControlFlowPath_loop (length (successor_targets ctx) + 2 + extra)
             ctx sinkNode ([sourceNode], {[ sourceNode ]}) = Some b
           ∧ (b = true ↔ rtc (icfg_step ctx) sourceNode sinkNode)).
  { intros a b extra. rewrite HasControlFlowPath_loop_search.
    apply (search_correct (GetSuccessors ctx) (successor_targets ctx)).
    - intros x y. apply GetSuccessors_targets.
    - lia. }
  split; [|done]. unfold HasControlFlowPath.
  destruct (GetICFGNode stmtToICFGNode source) as [a|];
    [|split; [done|by intros (? & ? & ? & _)]].
  destruct (GetICFGNode stmtToICFGNode sink) as [b|];
    [|split; [done|by intros (? & ? & _ & ? & _)]].
  destruct (Hrun a b 0%nat) as (r & Hr & Hiff).
  rewrite Nat.add_0_r in Hr. rewrite Hr. simpl. rewrite Hiff. split.
  - intros Hrtc. by exists a, b.
  - by intros (? & ? & [= <-] & [= <-] & Hrtc).
Qed.
End ControlFlowFacts.

Section FindAllPathsFacts.
Import ICFG ControlFlow.
Variable ctx : CPGContext.
Variable sink : NodeRef.
Variable maxDepth : Z.

Lemma is_chain_cons a q b : is_chain ctx a q b → ∃ q', q = a :: q'.
Proof. destruct q as [|x q']; [done|]. intros [-> _]. by eexists. Qed.

Lemma FindPathsDFS_spec fuel node depth st :
  maxDepth - depth + 1 <= Z.of_nat fuel →
  node ∉ visited st →
  (∀ x, x ∈ visited st ↔ x ∈ currentPath st) →
  NoDup (currentPath st) →
  let st' := FindPathsDFS fuel ctx node sink depth maxDepth st in
  currentPath st' = currentPath st
  ∧ visited st' = visited st
  ∧ ∃ new, allPaths st' = allPaths st ++ new
     ∧ ∀ p, p ∈ new ↔
            ∃ q, p = currentPath st ++ q
                 ∧ is_chain ctx node q sink
                 ∧ NoDup (currentPath st ++ q)
                 ∧ Z.of_nat (length q) <= maxDepth - depth + 1.
Proof.
  revert node depth st.
  assert (Hnone : ∀ node depth (st : DfsState),
            maxDepth - depth + 1 <= 0 →
            currentPath st = currentPath st ∧ visited st = visited st
            ∧ ∃ new, allPaths st = allPaths st ++ new
               ∧ ∀ p, p ∈ new ↔
                      ∃ q, p = currentPath st ++ q
                           ∧ is_chain ctx node q sink
                           ∧ NoDup (currentPath st ++ q)
                           ∧ Z.of_nat (length q) <= maxDepth - depth + 1).
  { intros node depth st Hd. split; [done|]. split; [done|]. exists [].
    split; [by rewrite app_nil_r|].
    intros p. split; [by intros ?%elem_of_nil|].
    intros (q & _ & Hq & _ & Hlen).
    apply is_chain_cons in Hq as [q' ->]. simpl in Hlen. lia. }
  induction fuel as [|fuel IH]; intros node depth st Hfuel Hnode Hvis Hnd.
  { cbn [FindPathsDFS]. apply Hnone. lia. }
  cbn [FindPathsDFS]. destruct (decide (depth > maxDepth)) as [Hd|Hd].
  { apply Hnone. lia. }
  cbv zeta. cbn [currentPath visited allPaths].
  set (cp := currentPath st) in *. set (V := visited st) in *.
  assert (HV : ({[ node ]} ∪ V) ∖ {[ node ]} = V).
  { apply set_eq. intros x.
    rewrite elem_of_difference, elem_of_union, elem_of_singleton.
    split; [tauto|]. intros Hx. split; [tauto|]. by intros ->. }
  assert (Hnd1 : NoDup (cp ++ [node])).
  { apply NoDup_app. split; [done|]. split; [|apply NoDup_singleton].
    intros x Hx ->%list_elem_of_singleton. by apply Hnode, Hvis. }
  destruct (decide (node = sink)) as [Hsink|Hns].
  - cbn [currentPath visited allPaths].
    split; [apply removelast_last|]. split; [done|].
    exists [cp ++ [node]]. split; [done|].
    intros p. rewrite list_elem_of_singleton. split.
    + intros ->. exists [node]. split; [done|]. split; [done|].
      split; [done|]. simpl. lia.
    + intros (q & -> & Hq & Hndq & _).
      destruct q as [|x [|y q']]; [done|by destruct Hq as [-> _]|].
      exfalso. destruct Hq as [-> [_ Hq]].
      apply NoDup_app in Hndq as (_ & _ & Hndq).
      apply NoDup_cons in Hndq as [Hnin _]. apply Hnin.
      clear -Hq Hsink. subst sink. revert y Hq.
      induction q' as [|z q' IHq]; intros y Hq.
      * destruct Hq as [_ ->]. left.
      * destruct Hq as [_ [_ Hq]]. right. by apply IHq.
  - assert (Hfold : ∀ ss acc,
              currentPath acc = cp ++ [node] →
              visited acc = {[ node ]} ∪ V →
              let acc' :=
                foldl (fun acc succ =>
                         if decide (succ ∈ visited acc) then acc
                         else FindPathsDFS fuel ctx succ sink (depth + 1)
                                maxDepth acc) acc ss in
              currentPath acc' = cp ++ [node]
              ∧ visited acc' = {[ node ]} ∪ V
              ∧ ∃ new, allPaths acc' = allPaths acc ++ new
                 ∧ ∀ p, p ∈ new ↔
                        ∃ succ q, succ ∈ ss
                          ∧ p = (cp ++ [node]) ++ q
                          ∧ is_chain ctx succ q sink
                          ∧ NoDup ((cp ++ [node]) ++ q)
                          ∧ Z.of_nat (length q) <= maxDepth - (depth + 1) + 1).
    { induction ss as [|s ss IHss]; intros acc Hcp HVacc; cbn [foldl].
      { split; [done|]. split; [done|]. exists [].
        split; [by rewrite app_nil_r|]. intros p.
        split; [by intros ?%elem_of_nil|].
        by intros (? & ? & ?%elem_of_nil & _). }
      assert (Hvis1 : ∀ x, x ∈ visited acc ↔ x ∈ currentPath acc).
      { intros x. rewrite Hcp, HVacc, elem_of_union, elem_of_singleton,
          elem_of_app, list_elem_of_singleton. specialize (Hvis x). tauto. }
      destruct (decide (s ∈ visited acc)) as [Hin|Hnin].
      - destruct (IHss acc Hcp HVacc) as (H1 & H2 & new & H3 & H4).
        split; [done|]. split; [done|]. exists new. split; [done|].
        intros p. rewrite H4. split.
        + intros (succ & q & Hs & Hrest). exists succ, q.
          split; [by right|done].
        + intros (succ & q & [->|Hs]%elem_of_cons & Hp & Hq & Hndq & Hl);
            [|by exists succ, q].
          exfalso. apply is_chain_cons in Hq as [q' ->].
          apply NoDup_app in Hndq as (_ & Hdisj & _).
          apply (Hdisj s); [|left]. rewrite <- Hcp. by apply Hvis1.
      - destruct (IH s (depth + 1) acc) as (G1 & G2 & new1 & G3 & G4);
          [lia|done|done|by rewrite Hcp|].
        cbv zeta in IHss.
        destruct (IHss (FindPathsDFS fuel ctx s sink (depth + 1) maxDepth acc))
          as (H1 & H2 & new2 & H3 & H4);
          [by rewrite G1|by rewrite G2|].
        split; [done|]. split; [done|]. exists (new1 ++ new2).
        split; [by rewrite H3, G3, app_assoc|].
        intros p. rewrite elem_of_app, G4, H4, Hcp. split.
        + intros [(q & Hp & Hq & Hndq & Hl)|(succ & q & Hs & Hrest)].
          * exists s, q. split; [left|done].
          * exists succ, q. split; [by right|done].
        + intros (succ & q & [->|Hs]%elem_of_cons & Hrest).
          * left. by exists q.
          * right. by exists succ, q. }
    destruct (Hfold (GetSuccessors ctx node)
                {| currentPath := cp ++ [node]; visited := {[ node ]} ∪ V;
                   allPaths := allPaths st |} eq_refl eq_refl)
      as (H1 & H2 & new & H3 & H4).
    cbv zeta in H1, H2, H3. cbn [allPaths] in H3.
    split; [exact (eq_trans (f_equal (fun l => removelast l) H1) (removelast_last _ _))|].
    split; [exact (eq_trans (f_equal (fun v => v ∖ {[ node ]}) H2) HV)|].
    exists new. split; [exact H3|]. intros p. rewrite H4. split.
    + intros (succ & q & Hs & -> & Hq & Hndq & Hl).
      exists (node :: q). split; [by rewrite <- app_assoc|].
      split; [|split; [by rewrite <- app_assoc in Hndq|simpl; lia]].
      destruct (is_chain_cons _ _ _ Hq) as [q' ->]. by cbn.
    + intros (q & -> & Hq & Hndq & Hl).
      destruct q as [|x [|y q']]; [done| |].
      { destruct Hq as [-> Hq]. done. }
      destruct Hq as [-> [Hy Hq]].
      exists y, (y :: q'). split; [done|]. split; [by rewrite <- app_assoc|].
      split; [done|]. split; [by rewrite <- app_assoc|].
      simpl in *. lia.
Qed.

(** More fuel than [maxDepth - depth + 1] changes nothing. *)
Lemma FindPathsDFS_fuel_enough fuel extra node depth st :
  maxDepth - depth + 1 <= Z.of_nat fuel →
  FindPathsDFS (fuel + extra) ctx node sink depth maxDepth st
  = FindPathsDFS fuel ctx node sink depth maxDepth st.
Proof.
  revert node depth st. induction fuel as [|fuel IH]; intros node depth st Hfuel.
  { destruct extra as [|extra]; [done|]. cbn [Nat.add FindPathsDFS].
    rewrite decide_True by lia. done. }
  cbn [Nat.add FindPathsDFS]. case_decide; [done|].
  destruct (decide (node = sink)); [done|]. cbv zeta.
  assert (Hext : ∀ ss acc,
            foldl (fun acc succ =>
                     if decide (succ ∈ visited acc) then acc
                     else FindPathsDFS (fuel + extra) ctx succ sink (depth + 1)
                            maxDepth acc) acc ss
            = foldl (fun acc succ =>
                       if decide (succ ∈ visited acc) then acc
                       else FindPathsDFS fuel ctx succ sink (depth + 1)
                              maxDepth acc) acc ss).
  { induction ss as [|s ss IHss]; intros acc; [done|]. cbn [foldl].
    case_decide; [apply IHss|]. rewrite IH by lia. apply IHss. }
  by rewrite Hext.
Qed.

Lemma is_chain_ends a q b :
  is_chain ctx a q b → head q = Some a ∧ last q = Some b.
Proof.
  revert a. induction q as [|x q IH]; intros a; [done|].
  intros [-> Hq]. split; [done|].
  destruct q as [|y q']; [by subst|].
  destruct Hq as [_ Hq]. apply IH in Hq as [_ Hl]. done.
Qed.

Lemma is_chain_links a q b i x y :
  is_chain ctx a q b → q !! i = Some x → q !! S i = Some y →
  icfg_step ctx x y.
Proof.
  revert a i. induction q as [|z q IH]; intros a i; [done|].
  intros [-> Hq] Hx Hy. destruct q as [|w q']; [done|].
  destruct Hq as [Hw Hq]. destruct i as [|i].
  - simpl in Hx, Hy. by simplify_eq.
  - by apply (IH w i).
Qed.

Lemma is_chain_intro a q b :
  head q = Some a → last q = Some b →
  (∀ i x y, q !! i = Some x → q !! S i = Some y → icfg_step ctx x y) →
  is_chain ctx a q b.
Proof.
  revert a. induction q as [|z q IH]; intros a; [done|].
  intros [= ->] Hl Hlinks. split; [done|].
  destruct q as [|w q']; [by simplify_eq/=|].
  split; [by apply (Hlinks 0%nat)|].
  apply IH; [done|done|]. intros i x y. apply (Hlinks (S i)).
Qed.

(** X20: the paths [FindAllPaths(source, sink, maxDepth)] returns are
    exactly the simple paths from the source to the sink with at most
    [maxDepth + 1] nodes: a list of nodes is returned if and only if it
    starts with the source, ends with the sink, each node is a successor
    of the one before, no node occurs twice, and it is that short.  The
    recursion is [maxDepth + 1] levels deep at most: allowing more levels
    gives the same paths. *)
Theorem FindAllPaths_simple_paths (source : NodeRef) :
  (∀ p, p ∈ FindAllPaths ctx source sink maxDepth
        ↔ head p = Some source
          ∧ last p = Some sink
          ∧ (∀ i x y, p !! i = Some x → p !! S i = Some y → icfg_step ctx x y)
          ∧ NoDup p
          ∧ Z.of_nat (length p) <= maxDepth + 1)
  ∧ ∀ extra,
      allPaths (FindPathsDFS (Z.to_nat (maxDepth + 1) + extra) ctx source sink
                  0 maxDepth
                  {| currentPath := []; visited := ∅; allPaths := [] |})
      = FindAllPaths ctx source sink maxDepth.
Proof.
  split; [|intros extra; unfold FindAllPaths;
           rewrite FindPathsDFS_fuel_enough; [done|lia]].
  intros p. unfold FindAllPaths.
  destruct (FindPathsDFS_spec (Z.to_nat (maxDepth + 1)) source 0
              {| currentPath := []; visited := ∅; allPaths := [] |})
    as (_ & _ & new & Hnew & Hchar).
  - lia.
  - apply not_elem_of_empty.
  - intros x. cbn. split; [by intros ?%elem_of_empty|by intros ?%elem_of_nil].
  - constructor.
  - rewrite Hnew. cbn [allPaths currentPath app] in *. rewrite Hchar. split.
    + intros (q & -> & Hq & Hnd & Hl).
      destruct (is_chain_ends _ _ _ Hq) as [Hh Ht].
      split; [done|]. split; [done|]. split; [|split; [done|lia]].
      intros i x y. exact (is_chain_links source q sink i x y Hq).
    + intros (Hh & Ht & Hlinks & Hnd & Hl). exists p. split; [done|].
      split; [by apply is_chain_intro|]. split; [done|lia].
Qed.
End FindAllPathsFacts.

(** ** 9.7 Edges of the ICFG *)

Section MirroredEdges.
Import ICFG ControlFlow.

Lemma node_at_update_node ctx r g r' :
  node_at (update_node r g ctx) r'
  = if decide (r' = r) then g <$> node_at ctx r' else node_at ctx r'.
Proof.
  destruct r as [f i], r' as [f' i']. unfold node_at, update_node.
  cbn [icfgNodes fst snd].
  destruct (decide (f' = f)) as [->|Hf].
  - rewrite lookup_alter_eq.
    destruct (icfgNodes ctx !! f) as [vec|] eqn:Hvec; cbn.
    + destruct (decide (i' = i)) as [->|Hi].
      * rewrite decide_True by done. apply list_lookup_alter_eq.
      * rewrite decide_False by congruence. by apply list_lookup_alter_ne.
    + by case_decide.
  - rewrite lookup_alter_ne by done. by rewrite decide_False by congruence.
Qed.

Lemma node_at_CreateICFGNode k fdecl ctx ctx1 r :
  CreateICFGNode k fdecl ctx = (ctx1, r) →
  node_at ctx r = None
  ∧ node_at ctx1 r = Some (ICFGNode_new k (fd_ptr fdecl))
  ∧ ∀ r', r' ≠ r → node_at ctx1 r' = node_at ctx r'.
Proof.
  unfold CreateICFGNode. intros [= <- <-]. unfold node_at. cbn [icfgNodes fst snd].
  split; [|split].
  - destruct (icfgNodes ctx !! fd_canonical fdecl) as [vec|]; [|done].
    cbn. by apply lookup_ge_None_2.
  - rewrite lookup_insert_eq. apply list_lookup_middle. done.
  - intros [f' i'] Hne. cbn [fst snd].
    destruct (decide (f' = fd_canonical fdecl)) as [->|Hf].
    + rewrite lookup_insert_eq.
      assert (Hi : i' ≠ length (default [] (icfgNodes ctx !! fd_canonical fdecl)))
        by congruence.
      destruct (icfgNodes ctx !! fd_canonical fdecl) as [vec|]; cbn in *.
      * destruct (decide (i' < length vec)%nat).
        -- by rewrite lookup_app_l.
        -- rewrite !lookup_ge_None_2; [done|lia|].
           rewrite length_app. simpl. lia.
      * destruct i' as [|i']; [done|]. done.
    + by rewrite lookup_insert_ne.
Qed.

Lemma edges_mirrored_ext ctx ctx' :
  (∀ r, GetSuccessorsWithEdgeKind ctx' r = GetSuccessorsWithEdgeKind ctx r) →
  (∀ r, predecessors_of ctx' r = predecessors_of ctx r) →
  edges_mirrored ctx → edges_mirrored ctx'.
Proof. intros Hs Hp Hm a b k. by rewrite Hs, Hp. Qed.

Lemma edges_mirrored_update_node ctx r g :
  (∀ n, successors (g n) = successors n) →
  (∀ n, predecessors (g n) = predecessors n) →
  edges_mirrored ctx → edges_mirrored (update_node r g ctx).
Proof.
  intros Hs Hp. apply edges_mirrored_ext; intros r';
    unfold GetSuccessorsWithEdgeKind, predecessors_of;
    rewrite node_at_update_node; case_decide; try done;
    by destruct (node_at ctx r'); cbn.
Qed.

Lemma edges_mirrored_CreateICFGNode k fdecl ctx ctx1 r :
  CreateICFGNode k fdecl ctx = (ctx1, r) →
  edges_mirrored ctx → edges_mirrored ctx1.
Proof.
  intros (Hold & Hnew & Hother)%node_at_CreateICFGNode.
  apply edges_mirrored_ext; intros r';
    unfold GetSuccessorsWithEdgeKind, predecessors_of;
    (destruct (decide (r' = r)) as [->|Hne];
      [by rewrite Hold, Hnew|by rewrite Hother]).
Qed.

Lemma AddICFGEdge_vectors from to k ctx :
  is_Some (node_at ctx from) → is_Some (node_at ctx to) →
  (∀ r, GetSuccessorsWithEdgeKind (AddICFGEdge from to k ctx) r
        = GetSuccessorsWithEdgeKind ctx r
          ++ (if decide (r = from) then [(to, k)] else []))
  ∧ (∀ r, predecessors_of (AddICFGEdge from to k ctx) r
          = predecessors_of ctx r
            ++ (if decide (r = to) then [(from, k)] else [])).
Proof.
  intros [nf Hf] [nt Ht].
  split; intros r; unfold GetSuccessorsWithEdgeKind, predecessors_of, AddICFGEdge;
    rewrite !node_at_update_node;
    destruct (decide (r = to)) as [Hto|Hto],
             (decide (r = from)) as [Hfrom|Hfrom];
    destruct (node_at ctx r) as [n|] eqn:Hn; cbn; rewrite ?app_nil_r;
    try done; exfalso; subst; congruence.
Qed.

Lemma count_edge_app e l1 l2 :
  count_edge e (l1 ++ l2) = (count_edge e l1 + count_edge e l2)%nat.
Proof. unfold count_edge. by rewrite filter_app, length_app. Qed.

Lemma edges_mirrored_AddICFGEdge from to k ctx :
  is_Some (node_at ctx from) → is_Some (node_at ctx to) →
  edges_mirrored ctx → edges_mirrored (AddICFGEdge from to k ctx).
Proof.
  intros Hf Ht Hm a b k'.
  destruct (AddICFGEdge_vectors from to k ctx Hf Ht) as [Hs Hp].
  rewrite Hs, Hp, !count_edge_app, (Hm a b k'). f_equal.
  unfold count_edge.
  destruct (decide (a = from)) as [->|Ha], (decide (b = to)) as [->|Hb];
    rewrite ?filter_cons, ?filter_nil; repeat case_decide; simplify_eq; done.
Qed.

Lemma node_at_is_Some_update_node ctx r g r' :
  is_Some (node_at ctx r') → is_Some (node_at (update_node r g ctx) r').
Proof.
  intros [n Hn]. rewrite node_at_update_node, Hn. case_decide; by eexists.
Qed.

Lemma node_at_is_Some_AddICFGEdge ctx from to k r :
  is_Some (node_at ctx r) → is_Some (node_at (AddICFGEdge from to k ctx) r).
Proof. intros Hr. unfold AddICFGEdge. by do 2 apply node_at_is_Some_update_node. Qed.

Lemma node_at_is_Some_CreateICFGNode k fdecl ctx ctx1 r r' :
  CreateICFGNode k fdecl ctx = (ctx1, r) →
  is_Some (node_at ctx r') → is_Some (node_at ctx1 r').
Proof.
  intros (Hold & Hnew & Hother)%node_at_CreateICFGNode Hr'.
  destruct (decide (r' = r)) as [->|Hne]; [by rewrite Hnew|by rewrite Hother].
Qed.

Lemma FindFormalInNode_node_at calleeDecl idx ctx r :
  FindFormalInNode calleeDecl idx ctx = Some r → is_Some (node_at ctx r).
Proof.
  unfold FindFormalInNode, node_at.
  destruct (icfgNodes ctx !! fd_canonical calleeDecl) as [vec|] eqn:Hvec; [|done].
  destruct (list_find _ vec) as [[i n]|] eqn:Hfind; [|done].
  intros [= <-]. cbn [fst snd]. rewrite Hvec.
  apply list_find_Some in Hfind as (Hi & _). by eexists.
Qed.

Lemma CreateParameterNodes_step_mirrored caller calleeDecl call callNode ctx i :
  is_Some (node_at ctx callNode) → edges_mirrored ctx →
  is_Some (node_at (CreateParameterNodes_step caller calleeDecl call callNode
                      ctx i) callNode)
  ∧ edges_mirrored (CreateParameterNodes_step caller calleeDecl call callNode
                      ctx i).
Proof.
  intros Hcall Hm. unfold CreateParameterNodes_step.
  destruct (CreateICFGNode IK_ActualIn caller ctx) as [ctx1 actualIn] eqn:E1.
  set (ctx2 := update_node actualIn _ ctx1).
  assert (Hm2 : edges_mirrored ctx2).
  { apply edges_mirrored_update_node; [done|done|].
    by eapply edges_mirrored_CreateICFGNode. }
  assert (Ha2 : is_Some (node_at ctx2 actualIn)).
  { apply node_at_is_Some_update_node.
    apply node_at_CreateICFGNode in E1 as (_ & -> & _). by eexists. }
  assert (Hc2 : is_Some (node_at ctx2 callNode)).
  { apply node_at_is_Some_update_node.
    by eapply node_at_is_Some_CreateICFGNode. }
  destruct (FindFormalInNode calleeDecl (Z.of_nat i) ctx2) as [formalIn|] eqn:EF.
  - pose proof (FindFormalInNode_node_at _ _ _ _ EF) as Hf.
    split.
    + by do 2 apply node_at_is_Some_AddICFGEdge.
    + apply edges_mirrored_AddICFGEdge;
        [by apply node_at_is_Some_AddICFGEdge
        |by apply node_at_is_Some_AddICFGEdge|].
      by apply edges_mirrored_AddICFGEdge.
  - destruct (CreateICFGNode IK_FormalIn calleeDecl ctx2) as [c formalIn] eqn:E2.
    set (ctx3 := update_node formalIn _ c).
    assert (Hm3 : edges_mirrored ctx3).
    { apply edges_mirrored_update_node; [done|done|].
      by eapply edges_mirrored_CreateICFGNode. }
    assert (Hf3 : is_Some (node_at ctx3 formalIn)).
    { apply node_at_is_Some_update_node.
      apply node_at_CreateICFGNode in E2 as (_ & -> & _). by eexists. }
    assert (Ha3 : is_Some (node_at ctx3 actualIn)).
    { apply node_at_is_Some_update_node.
      by eapply node_at_is_Some_CreateICFGNode. }
    assert (Hc3 : is_Some (node_at ctx3 callNode)).
    { apply node_at_is_Some_update_node.
      by eapply node_at_is_Some_CreateICFGNode. }
    split.
    + by do 2 apply node_at_is_Some_AddICFGEdge.
    + apply edges_mirrored_AddICFGEdge;
        [by apply node_at_is_Some_AddICFGEdge
        |by apply node_at_is_Some_AddICFGEdge|].
      by apply edges_mirrored_AddICFGEdge.
Qed.

Lemma edges_mirrored_no_edges ctx : no_edges ctx → edges_mirrored ctx.
Proof.
  intros Hno a b k.
  assert (Hnil : ∀ r, GetSuccessorsWithEdgeKind ctx r = []
                      ∧ predecessors_of ctx r = []).
  { intros r. unfold GetSuccessorsWithEdgeKind, predecessors_of, node_at.
    destruct (icfgNodes ctx !! fst r) as [vec|] eqn:Hvec; [|done].
    destruct (vec !! snd r) as [n|] eqn:Hn; [|done].
    specialize (Hno _ _ Hvec). rewrite Forall_forall in Hno.
    apply Hno. by eapply list_elem_of_lookup_2. }
  destruct (Hnil a) as [-> _], (Hnil b) as [_ ->]. done.
Qed.

(** X21: [AddICFGEdge(from, to, kind)] between two existing nodes appends
    [to] to the successors of [from] and [from] to the predecessors of
    [to], leaves every other successor and predecessor vector as it is,
    and keeps the two kinds of vectors mirrored if they were. *)
Theorem AddICFGEdge_both_ends (from to : NodeRef) (k : ICFGEdgeKind)
    (ctx : CPGContext) :
  is_Some (node_at ctx from) → is_Some (node_at ctx to) →
  let ctx' := AddICFGEdge from to k ctx in
  GetSuccessors ctx' from = GetSuccessors ctx from ++ [to]
  ∧ GetPredecessors ctx' to = GetPredecessors ctx to ++ [from]
  ∧ (∀ r, r ≠ from → GetSuccessors ctx' r = GetSuccessors ctx r)
  ∧ (∀ r, r ≠ to → GetPredecessors ctx' r = GetPredecessors ctx r)
  ∧ (edges_mirrored ctx → edges_mirrored ctx').
Proof.
  intros Hf Ht ctx'.
  destruct (AddICFGEdge_vectors from to k ctx Hf Ht) as [Hs Hp].
  assert (HS : ∀ c r, GetSuccessors c r = map fst (GetSuccessorsWithEdgeKind c r)).
  { intros c r. unfold GetSuccessors, GetSuccessorsWithEdgeKind.
    by destruct (node_at c r). }
  assert (HP : ∀ c r, GetPredecessors c r = map fst (predecessors_of c r)).
  { intros c r. unfold GetPredecessors, predecessors_of.
    by destruct (node_at c r). }
  subst ctx'. rewrite !HS, !HP, Hs, Hp, !map_app, !decide_True by done.
  split; [done|]. split; [done|]. split; [|split].
  - intros r Hr. by rewrite !HS, Hs, decide_False, app_nil_r.
  - intros r Hr. by rewrite !HP, Hp, decide_False, app_nil_r.
  - by apply edges_mirrored_AddICFGEdge.
Qed.

Lemma AddICFGEdge_both_ends_witness :
  let ctx' := AddICFGEdge (1%N, 1%nat) (2%N, 0%nat) IE_Call example_ctx in
  GetSuccessors ctx' (1%N, 1%nat)
  = GetSuccessors example_ctx (1%N, 1%nat) ++ [(2%N, 0%nat)]
  ∧ GetPredecessors ctx' (2%N, 0%nat)
    = GetPredecessors example_ctx (2%N, 0%nat) ++ [(1%N, 1%nat)]
  ∧ (∀ r, r ≠ (1%N, 1%nat) → GetSuccessors ctx' r = GetSuccessors example_ctx r)
  ∧ (∀ r, r ≠ (2%N, 0%nat) →
          GetPredecessors ctx' r = GetPredecessors example_ctx r)
  ∧ (edges_mirrored example_ctx → edges_mirrored ctx').
Proof.
  apply (AddICFGEdge_both_ends (1%N, 1%nat) (2%N, 0%nat) IE_Call example_ctx);
    vm_compute; by eexists.
Defined.

(** X22: [CreateParameterNodes] on an existing call node keeps the
    successor and predecessor vectors mirrored: afterwards, as before,
    every node lists [(b, kind)] among its successors as often as [b]
    lists it, with that kind, among its predecessors. *)
Theorem CreateParameterNodes_keeps_mirror (caller calleeDecl : FunctionDecl)
    (call : CallExpr) (callNode : NodeRef) (ctx : CPGContext) :
  is_Some (node_at ctx callNode) → edges_mirrored ctx →
  edges_mirrored (CreateParameterNodes caller calleeDecl call callNode ctx).
Proof.
  intros Hcall Hm. unfold CreateParameterNodes.
  generalize (seq 0 (length (ce_args call) `min` length (fd_params calleeDecl))).
  intros l. revert ctx Hcall Hm.
  induction l as [|i l IH]; intros ctx Hcall Hm; [done|].
  cbn [foldl].
  destruct (CreateParameterNodes_step_mirrored caller calleeDecl call callNode
              ctx i Hcall Hm) as [Hc' Hm'].
  by apply IH.
Qed.
Lemma CreateParameterNodes_keeps_mirror_witness :
  edges_mirrored
    (CreateParameterNodes example_main example_add example_call1
       (1%N, 1%nat) example_ctx).
Proof.
  apply (CreateParameterNodes_keeps_mirror example_main example_add
           example_call1 (1%N, 1%nat) example_ctx).
  - vm_compute. by eexists.
  - apply edges_mirrored_no_edges, (bool_decide_unpack _). vm_compute. exact I.
Defined.

End MirroredEdges.

(** ** 9.8 Reaching definitions *)

Section ReachingDefsFacts.
Import ReachingDefs.

Lemma foldl_merge_defs (l : list (string * gset StmtPtr)) (acc : DefsMap)
    (var : string) (s : StmtPtr) :
  s ∈ default ∅ (foldl merge_defs acc l !! var)
  ↔ s ∈ default ∅ (acc !! var) ∨ ∃ defs, (var, defs) ∈ l ∧ s ∈ defs.
Proof.
  revert acc. induction l as [|[v d] l IH]; intros acc; cbn [foldl].
  { split; [by left|]. intros [?|(? & ?%elem_of_nil & _)]; done. }
  rewrite IH. unfold merge_defs. cbn [fst snd].
  destruct (decide (v = var)) as [->|Hne].
  - rewrite lookup_insert_eq. cbn. rewrite elem_of_union. split.
    + intros [[?|?]|(defs & Hin & Hs)]; [by left| |].
      * right. exists d. split; [left|done].
      * right. exists defs. split; [by right|done].
    + intros [?|(defs & [[= <-]|Hin]%elem_of_cons & Hs)]; [tauto|tauto|].
      right. by exists defs.
  - rewrite lookup_insert_ne by done. split.
    + intros [?|(defs & Hin & Hs)]; [by left|].
      right. exists defs. split; [by right|done].
    + intros [?|(defs & [[= ? ?]|Hin]%elem_of_cons & Hs)]; [tauto|done|].
      right. by exists defs.
Qed.

(** X23: a definition is in the set [ComputeBlockIn] gives for a variable
    exactly when it is in the set that the [blockOut] entry of some
    reachable predecessor of the block has for that variable. *)
Theorem ComputeBlockIn_union (block : CFGBlock) (blockOut : BlockDefsMap)
    (var : string) (s : StmtPtr) :
  s ∈ default ∅ (ComputeBlockIn block blockOut !! var)
  ↔ ∃ predBlock predOut defs,
      Some predBlock ∈ block_preds block
      ∧ blockOut !! predBlock = Some predOut
      ∧ predOut !! var = Some defs
      ∧ s ∈ defs.
Proof.
  unfold ComputeBlockIn.
  assert (Hgen : ∀ preds acc,
            s ∈ default ∅
                  (foldl (fun blockIn pred =>
                            match pred with
                            | None => blockIn
                            | Some predBlock =>
                                match blockOut !! predBlock with
                                | None => blockIn
                                | Some predOut =>
                                    foldl merge_defs blockIn (map_to_list predOut)
                                end
                            end) acc preds !! var)
            ↔ s ∈ default ∅ (acc !! var)
              ∨ ∃ predBlock predOut defs,
                  Some predBlock ∈ preds
                  ∧ blockOut !! predBlock = Some predOut
                  ∧ predOut !! var = Some defs
                  ∧ s ∈ defs).
  { induction preds as [|p preds IH]; intros acc; cbn [foldl].
    { split; [by left|]. intros [?|(? & ? & ? & ?%elem_of_nil & _)]; done. }
    rewrite IH. destruct p as [pb|].
    - destruct (blockOut !! pb) as [po|] eqn:Hpo.
      + rewrite foldl_merge_defs. split.
        * intros [[?|(defs & Hin & Hs)]|(pb' & po' & defs & Hin & Hrest)].
          -- by left.
          -- right. exists pb, po, defs. split; [left|].
             split; [done|]. split; [|done]. by apply elem_of_map_to_list in Hin.
          -- right. exists pb', po', defs. split; [by right|done].
        * intros [?|(pb' & po' & defs & [[= <-]|Hin]%elem_of_cons & Ho & Hv & Hs)].
          -- tauto.
          -- left. right. exists defs. split; [|done].
             apply elem_of_map_to_list. congruence.
          -- right. by exists pb', po', defs.
      + split.
        * intros [?|(pb' & po' & defs & Hin & Hrest)]; [by left|].
          right. exists pb', po', defs. split; [by right|done].
        * intros [?|(pb' & po' & defs & [[= <-]|Hin]%elem_of_cons & Ho & Hrest)].
          -- tauto.
          -- congruence.
          -- right. by exists pb', po', defs.
    - split.
      + intros [?|(pb' & po' & defs & Hin & Hrest)]; [by left|].
        right. exists pb', po', defs. split; [by right|done].
      + intros [?|(pb' & po' & defs & [?|Hin]%elem_of_cons & Hrest)];
          [tauto|done|].
        right. by exists pb', po', defs. }
  rewrite Hgen. rewrite lookup_empty. cbn. split.
  - intros [?%elem_of_empty|?]; done.
  - by right.
Qed.

Lemma foldl_gen_def s (vars : list string) (cur : DefsMap) (var : string) :
  foldl (gen_def s) cur vars !! var
  = if decide (var ∈ vars) then Some {[ s ]} else cur !! var.
Proof.
  revert cur. induction vars as [|v vars IH]; intros cur; cbn [foldl].
  { by rewrite decide_False by apply not_elem_of_nil. }
  rewrite IH. unfold gen_def.
  destruct (decide (var ∈ vars)) as [Hin|Hnin].
  - by rewrite decide_True by by right.
  - destruct (decide (var = v)) as [->|Hne].
    + rewrite lookup_insert_eq. by rewrite decide_True by left.
    + rewrite lookup_insert_ne by done.
      rewrite decide_False; [done|]. by intros [?|?]%elem_of_cons.
Qed.

Lemma ApplyKillGen_step_defined_by st elem s :
  defined_by (snd (ApplyKillGen_step st elem)) s = defined_by (snd st) s.
Proof.
  destruct elem as [s'|]; [|done]. unfold defined_by. cbn.
  destruct (decide (s' = s)) as [->|Hne].
  - by rewrite lookup_insert_eq.
  - by rewrite lookup_insert_ne.
Qed.

Lemma ApplyKillGen_fold_defined_by elems st s :
  defined_by (snd (foldl ApplyKillGen_step st elems)) s = defined_by (snd st) s.
Proof.
  revert st. induction elems as [|e elems IH]; intros st; [done|].
  cbn [foldl]. by rewrite IH, ApplyKillGen_step_defined_by.
Qed.

Lemma ApplyKillGen_fold_snoc elems e st :
  foldl ApplyKillGen_step st (elems ++ [e])
  = ApplyKillGen_step (foldl ApplyKillGen_step st elems) e.
Proof. by rewrite foldl_app. Qed.

(** X24: [ApplyKillGen] over a block.  Afterwards [currentDefs] maps a
    variable to the one-element set of the last statement of the block
    that defines it, and to what it mapped to before if no statement of
    the block defines it.  The variables [info.definitions] gives for a
    statement are unchanged.  [info.reachingDefs] of a statement of the
    block holds the [currentDefs] as they are after the statements before
    its last occurrence, and is unchanged for every other statement. *)
Theorem ApplyKillGen_kill_gen (block : CFGBlock) (currentDefs : DefsMap)
    (info : ReachingDefsInfo) :
  let r := ApplyKillGen block currentDefs info in
  (∀ var,
     fst r !! var
     = match last_definition info var (block_elems block) with
       | Some s => Some {[ s ]}
       | None => currentDefs !! var
       end)
  ∧ (∀ s, defined_by (snd r) s = defined_by info s)
  ∧ (∀ before s after,
       block_elems block = before ++ Some s :: after →
       Some s ∉ after →
       reachingDefs (snd r) !! s
       = Some (fst (ApplyKillGen
                      {| block_ptr := block_ptr block;
                         block_preds := block_preds block;
                         block_elems := before |} currentDefs info)))
  ∧ (∀ s, Some s ∉ block_elems block →
          reachingDefs (snd r) !! s = reachingDefs info !! s).
Proof.
  cbv zeta. unfold ApplyKillGen. cbn [block_elems].
  generalize (block_elems block). intros elems.
  split; [|split; [|split]].
  - intros var. induction elems as [|e elems IH] using rev_ind; [done|].
    rewrite ApplyKillGen_fold_snoc. unfold last_definition in *.
    rewrite omap_app, filter_app. destruct e as [s|].
    + replace (omap id [Some s]) with [s] by done.
      cbn [ApplyKillGen_step fst]. rewrite foldl_gen_def.
      pose proof (ApplyKillGen_fold_defined_by elems (currentDefs, info) s)
        as Hdb.
      unfold defined_by in Hdb |- *. cbn [snd] in Hdb. rewrite Hdb.
      rewrite filter_cons, filter_nil.
      destruct (decide (var ∈ default ∅ (definitions info !! s))) as [Hin|Hnin].
      * rewrite decide_True by (by apply elem_of_elements).
        by rewrite last_snoc.
      * rewrite decide_False by (by rewrite elem_of_elements).
        by rewrite app_nil_r.
    + replace (omap id [@None StmtPtr]) with (@nil StmtPtr) by done.
      cbn [ApplyKillGen_step]. by rewrite filter_nil, app_nil_r.
  - intros s. apply ApplyKillGen_fold_defined_by.
  - intros before s after -> Hafter.
    rewrite foldl_app. cbn [foldl].
    set (st := foldl ApplyKillGen_step (currentDefs, info) before).
    assert (Hstep : reachingDefs (snd (ApplyKillGen_step st (Some s))) !! s
                    = Some (fst st)).
    { cbn. by rewrite lookup_insert_eq. }
    revert Hstep. generalize (ApplyKillGen_step st (Some s)). intros st1 Hst1.
    revert st1 Hst1 Hafter.
    induction after as [|e after IH]; intros st1 Hst1 Hafter; [done|].
    cbn [foldl]. apply IH.
    + destruct e as [s'|]; [|done]. cbn.
      rewrite lookup_insert_ne; [done|]. intros ->. apply Hafter. left.
    + intros Hin. apply Hafter. by right.
  - intros s Hs. revert currentDefs info.
    induction elems as [|e elems IH]; intros currentDefs info; [done|].
    cbn [foldl]. destruct e as [s'|].
    + cbn [ApplyKillGen_step].
      replace (foldl (gen_def s') (currentDefs, info).1 _, _) with
        (foldl (gen_def s') currentDefs
           (elements (default ∅ (definitions info !! s'))),
         {| reachingDefs := <[s' := currentDefs]> (reachingDefs info);
            definitions := <[s' := default ∅ (definitions info !! s')]>
                             (definitions info);
            uses := uses info |}) by done.
      rewrite IH by (intros Hin; apply Hs; by right).
      cbn. rewrite lookup_insert_ne; [done|]. intros ->. apply Hs. left.
    + cbn [ApplyKillGen_step]. destruct (currentDefs, info) eqn:E.
      injection E as <- <-. apply IH. intros Hin. apply Hs. by right.
Qed.
End ReachingDefsFacts.

Section IterateFacts.
Import ReachingDefs.

Lemma ComputeBlockIn_out_of block (o o' : BlockDefsMap) :
  (∀ p, out_of o p = out_of o' p) →
  ComputeBlockIn block o = ComputeBlockIn block o'.
Proof.
  intros Hview. unfold ComputeBlockIn.
  generalize (∅ : DefsMap). induction (block_preds block) as [|p preds IH];
    intros acc; [done|].
  cbn [foldl]. destruct p as [pb|]; [|apply IH].
  specialize (Hview pb). unfold out_of in Hview.
  destruct (o !! pb) as [po|], (o' !! pb) as [po'|]; cbn in Hview; subst;
    rewrite ?map_to_list_empty; apply IH.
Qed.

Lemma ApplyKillGen_fst_defined_by elems cur (i i' : ReachingDefsInfo) :
  (∀ s, defined_by i s = defined_by i' s) →
  fst (foldl ApplyKillGen_step (cur, i) elems)
  = fst (foldl ApplyKillGen_step (cur, i') elems).
Proof.
  revert cur i i'. induction elems as [|e elems IH]; intros cur i i' Hdef;
    [done|].
  cbn [foldl]. destruct e as [s|]; [|by apply IH].
  cbn [ApplyKillGen_step fst snd].
  pose proof (Hdef s) as Hs. unfold defined_by in Hs. rewrite Hs.
  apply IH. intros s'. unfold defined_by. cbn.
  destruct (decide (s = s')) as [->|Hne].
  - by rewrite !lookup_insert_eq.
  - rewrite !lookup_insert_ne by done. apply Hdef.
Qed.

Lemma sweep_unchanged rpo (st : BlockDefsMap * ReachingDefsInfo) c st' :
  foldl sweep_step (st, c) rpo = (st', false) →
  c = false
  ∧ (∀ p, out_of (fst st') p = out_of (fst st) p)
  ∧ (∀ s, defined_by (snd st') s = defined_by (snd st) s)
  ∧ ∀ b, Some b ∈ rpo →
         out_of (fst st) (block_ptr b)
         = fst (ApplyKillGen b (ComputeBlockIn b (fst st)) (snd st)).
Proof.
  revert st c. induction rpo as [|blk rpo IH]; intros st c; cbn [foldl].
  { intros [= <- <-]. split; [done|]. split; [done|]. split; [done|].
    by intros b ?%elem_of_nil. }
  destruct blk as [b|]; cbn [sweep_step].
  - set (r := ProcessBlockReachingDefs b (st, c).1).
    intros Hrest. apply IH in Hrest as (Hc & Hview & Hdef & Hsol).
    cbn [fst snd] in *.
    destruct (snd r) eqn:Hchg; [done|]. subst c.
    unfold r, ProcessBlockReachingDefs in Hchg, Hview, Hdef, Hsol.
    cbn [fst snd] in *.
    apply bool_decide_eq_false in Hchg. apply dec_stable in Hchg.
    set (new := (ApplyKillGen b (ComputeBlockIn b st.1) st.2)) in *.
    assert (Hsame : ∀ p, out_of (<[block_ptr b := new.1]> st.1) p
                         = out_of st.1 p).
    { intros p. unfold out_of. destruct (decide (block_ptr b = p)) as [<-|Hne].
      - by rewrite lookup_insert_eq.
      - by rewrite lookup_insert_ne. }
    assert (Hdb : ∀ s, defined_by new.2 s = defined_by st.2 s).
    { intros s. apply ApplyKillGen_fold_defined_by. }
    split; [done|]. split; [by intros p; rewrite Hview|].
    split; [by intros s; rewrite Hdef|].
    intros b' [[= <-]|Hin]%elem_of_cons.
    + unfold out_of. by rewrite <- Hchg.
    + rewrite <- Hsame, (Hsol b' Hin).
      rewrite (ComputeBlockIn_out_of b' _ st.1 Hsame).
      apply ApplyKillGen_fst_defined_by, Hdb.
  - intros Hrest. apply IH in Hrest as (Hc & Hview & Hdef & Hsol).
    split; [done|]. split; [done|]. split; [done|].
    intros b' [?|Hin]%elem_of_cons; [done|]. by apply Hsol.
Qed.

Lemma sweep_defined_by rpo (st : BlockDefsMap * ReachingDefsInfo) c s :
  defined_by (snd (fst (foldl sweep_step (st, c) rpo))) s
  = defined_by (snd st) s.
Proof.
  revert st c. induction rpo as [|blk rpo IH]; intros st c; [done|].
  cbn [foldl]. destruct blk as [b|]; cbn [sweep_step]; [|apply IH].
  rewrite IH. unfold ProcessBlockReachingDefs. cbn [fst snd].
  apply ApplyKillGen_fold_defined_by.
Qed.

Lemma IterateReachingDefs_loop_solution remaining rpo st st' :
  IterateReachingDefs_loop remaining rpo st = (st', false) →
  (∀ s, defined_by (snd st') s = defined_by (snd st) s)
  ∧ ∀ b, Some b ∈ rpo →
         out_of (fst st') (block_ptr b)
         = fst (ApplyKillGen b (ComputeBlockIn b (fst st')) (snd st')).
Proof.
  revert st. induction remaining as [|n IH]; intros st; [done|].
  cbn [IterateReachingDefs_loop].
  destruct (foldl sweep_step (st, false) rpo) as [st1 c1] eqn:Hsweep.
  cbn [fst snd]. destruct c1.
  - intros Hloop. apply IH in Hloop as [Hdef Hsol]. split; [|done].
    intros s. rewrite Hdef.
    pose proof (sweep_defined_by rpo st false s) as Hd.
    by rewrite Hsweep in Hd.
  - intros [= <-].
    destruct (sweep_unchanged rpo st false st1 Hsweep)
      as (_ & Hview & Hdef & Hsol).
    split; [done|]. intros b Hb.
    rewrite Hview, (Hsol b Hb).
    rewrite (ComputeBlockIn_out_of b st1.1 st.1 Hview).
    symmetry. apply ApplyKillGen_fst_defined_by, Hdef.
Qed.

(** X25: when [IterateReachingDefs] stops because a sweep changed
    nothing (and not because of the limit of 100 sweeps), the [blockOut]
    it has built solves the data-flow equations: for every block of the
    traversal, [blockOut[block]] is what [ApplyKillGen] makes of the
    [ComputeBlockIn] of the block. *)
Theorem IterateReachingDefs_solution (rpo : list (option CFGBlock))
    (info : ReachingDefsInfo) (blockOut : BlockDefsMap)
    (info' : ReachingDefsInfo) :
  IterateReachingDefs rpo info = (blockOut, info', false) →
  ∀ b, Some b ∈ rpo →
       out_of blockOut (block_ptr b)
       = fst (ApplyKillGen b (ComputeBlockIn b blockOut) info).
Proof.
  unfold IterateReachingDefs. intros Hloop b Hb.
  apply IterateReachingDefs_loop_solution in Hloop as [Hdef Hsol].
  cbn [fst snd] in *. rewrite (Hsol b Hb).
  apply ApplyKillGen_fst_defined_by, Hdef.
Qed.
Lemma IterateReachingDefs_solution_witness :
  let r := IterateReachingDefs example_rpo example_info in
  snd r = false
  ∧ ∀ b, Some b ∈ example_rpo →
         out_of (fst (fst r)) (block_ptr b)
         = fst (ApplyKillGen b (ComputeBlockIn b (fst (fst r))) example_info).
Proof.
  cbv zeta.
  assert (Hc : snd (IterateReachingDefs example_rpo example_info) = false)
    by (vm_compute; reflexivity).
  destruct (IterateReachingDefs example_rpo example_info) as [[o i] c] eqn:E.
  cbn [fst snd] in *. subst c. split; [reflexivity|].
  exact (IterateReachingDefs_solution example_rpo example_info o i E).
Defined.

End IterateFacts.

(** ** 9.9 The window of the kill filter *)

Section KilledDefinitions.
Import Trace.

Lemma kill_loop_sublist varName l : sublist (kill_loop varName l) l.
Proof.
  induction l as [|x l IH]; simpl; [constructor|].
  destruct (existsb _ l); by constructor.
Qed.

Lemma StronglySorted_sublist {A} (R : relation A) (l1 l2 : list A) :
  sublist l1 l2 → StronglySorted R l2 → StronglySorted R l1.
Proof.
  induction 1 as [|x l1 l2 Hsub IH|x l1 l2 Hsub IH]; intros Hs; [done|..].
  - apply StronglySorted_inv in Hs as [Hs Hall]. constructor; [by apply IH|].
    rewrite Forall_forall in Hall |- *. intros y Hy. apply Hall.
    by eapply elem_of_sublist.
  - apply StronglySorted_inv in Hs as [Hs _]. by apply IH.
Qed.

Lemma kill_loop_definer_first varName l i d :
  kill_loop varName l !! i = Some d →
  varName ∈ GetDefinedVarsCached d → i = 0%nat.
Proof.
  revert i. induction l as [|x l IH]; intros i; simpl; [done|].
  destruct (existsb _ l) eqn:Hex; [apply IH|].
  destruct i as [|i]; [done|]. simpl. intros Hd Hdef. exfalso.
  assert (Hin : d ∈ l).
  { eapply kill_loop_subset. by eapply list_elem_of_lookup_2. }
  assert (Htrue : existsb (fun laterDef =>
                    bool_decide (varName ∈ GetDefinedVarsCached laterDef)) l
                  = true).
  { apply existsb_exists. exists d. split; [by apply list_elem_of_In|].
    by apply bool_decide_eq_true. }
  by rewrite Htrue in Hex.
Qed.

(** X26: [FilterKilledDefinitions] returns a list of at most one
    definition unchanged, whatever its line.  Of two or more definitions
    it returns at most 10, in ascending order of their lines and without
    a statement twice, and only the first of them can be a statement that
    defines the variable. *)
Theorem FilterKilledDefinitions_window (defs : list Stmt) (useStmt : Stmt)
    (varName : string) :
  let filtered := FilterKilledDefinitions defs useStmt varName in
  ((length defs <= 1)%nat → filtered = defs)
  ∧ ((2 <= length defs)%nat →
     (length filtered <= 10)%nat
     ∧ StronglySorted line_le filtered
     ∧ NoDup (map ptr filtered)
     ∧ ∀ i d, filtered !! i = Some d →
              varName ∈ GetDefinedVarsCached d → i = 0%nat).
Proof.
  cbv zeta. unfold FilterKilledDefinitions. split.
  { intros Hle. by rewrite decide_True. }
  intros Hge. rewrite decide_False by lia.
  destruct (collect_defInfos (GetSourceLine useStmt) ∅ defs)
    as [|i0 infos] eqn:Ecol.
  { split; [simpl; lia|]. split; [constructor|]. split; [constructor|].
    by intros i d. }
  rewrite <- Ecol. clear Ecol i0 infos.
  set (infos := collect_defInfos (GetSourceLine useStmt) ∅ defs).
  set (sorted := merge_sort line_le infos).
  set (startIdx := if decide (MAX_DEFS_TO_CHECK < length sorted)%nat
                   then (length sorted - MAX_DEFS_TO_CHECK)%nat else 0%nat).
  assert (Hsub : sublist (kill_loop varName (drop startIdx sorted)) sorted).
  { etrans; [apply kill_loop_sublist|apply sublist_drop]. }
  split; [|split; [|split]].
  - etrans; [apply sublist_length, kill_loop_sublist|].
    rewrite length_drop. unfold startIdx, MAX_DEFS_TO_CHECK.
    case_decide; lia.
  - eapply StronglySorted_sublist; [done|].
    apply (StronglySorted_merge_sort line_le).
  - eapply sublist_NoDup; [|by apply fmap_sublist].
    assert (Hperm : sorted ≡ₚ infos) by apply merge_sort_Permutation.
    rewrite Hperm. apply collect_defInfos_NoDup.
  - apply kill_loop_definer_first.
Qed.
End KilledDefinitions.

(** ** 9.10 Subgraphs and clones *)

Section GraphCopyFacts.
Import ComputeGraph GraphCopy.

Lemma AddEdge_without_adjacency src tgt k lbl g :
  without_adjacency <$> nodes (fst (AddEdge src tgt k lbl g))
  = without_adjacency <$> nodes g.
Proof.
  apply map_eq. intros j. cbn [AddEdge fst nodes]. rewrite !lookup_fmap.
  destruct (decide (tgt = j)) as [->|Ht].
  - rewrite lookup_alter_eq. destruct (decide (src = j)) as [->|Hs].
    + rewrite lookup_alter_eq. by destruct (nodes g !! j).
    + rewrite lookup_alter_ne by done. by destruct (nodes g !! j).
  - rewrite lookup_alter_ne by done. destruct (decide (src = j)) as [->|Hs].
    + rewrite lookup_alter_eq. by destruct (nodes g !! j).
    + by rewrite lookup_alter_ne.
Qed.

Lemma ExtractSubgraph_edges_fold nodeIds es st :
  let st' := foldl (ExtractSubgraph_edge nodeIds) st es in
  without_adjacency <$> nodes (fst st') = without_adjacency <$> nodes (fst st)
  ∧ nextNodeId (fst st') = nextNodeId (fst st)
  ∧ name (fst st') = name (fst st).
Proof.
  revert st. induction es as [|e es IH]; intros st; [done|].
  cbn [foldl]. destruct (IH (ExtractSubgraph_edge nodeIds st e)) as (H1 & H2 & H3).
  cbv zeta. rewrite H1, H2, H3. unfold ExtractSubgraph_edge.
  case_decide; [|done]. cbn [fst]. by rewrite AddEdge_without_adjacency.
Qed.

Lemma ExtractSubgraph_nodes_fold g ids st k :
  nextNodeId (fst st) = k →
  (k + N.of_nat (length (stored_of g ids)) < 2 ^ 64)%N →
  let st' := foldl (ExtractSubgraph_node g) st ids in
  nextNodeId (fst st') = (k + N.of_nat (length (stored_of g ids)))%N
  ∧ name (fst st') = name (fst st)
  ∧ (∀ i oldId node,
       stored_of g ids !! i = Some oldId → GetNode oldId g = Some node →
       nodes (fst st') !! (k + N.of_nat i)%N
       = Some (ExtractSubgraph_copy node
                 (ComputeNode.new (ComputeNode.kind node) (k + N.of_nat i)%N)))
  ∧ (∀ j, (j < k ∨ k + N.of_nat (length (stored_of g ids)) <= j)%N →
          nodes (fst st') !! j = nodes (fst st) !! j).
Proof.
  revert st k. induction ids as [|x ids IH]; intros st k Hk Hlt; cbn [foldl].
  { cbn. rewrite N.add_0_r. split; [done|]. split; [done|]. by split. }
  assert (Hcons : stored_of g (x :: ids)
                  = if decide (is_Some (GetNode x g)) then x :: stored_of g ids
                    else stored_of g ids).
  { unfold stored_of. by rewrite filter_cons. }
  rewrite Hcons in Hlt |- *. clear Hcons.
  unfold ExtractSubgraph_node at 2 4 6 8.
  destruct (GetNode x g) as [node|] eqn:Hx.
  - rewrite decide_True in Hlt |- * by done. cbn [length] in Hlt |- *.
    set (st1 := (update_node _ _ _, _)).
    assert (Hinc : incr64 k = (k + 1)%N).
    { unfold incr64. apply N.mod_small. lia. }
    assert (Hk1 : nextNodeId (fst st1) = (k + 1)%N).
    { unfold st1. cbn. by rewrite Hk. }
    assert (Hn1 : nodes (fst st1)
                  = <[k := ExtractSubgraph_copy node
                             (ComputeNode.new (ComputeNode.kind node) k)]>
                      (nodes (fst st))).
    { unfold st1. cbn. rewrite Hk. apply map_eq. intros j.
      destruct (decide (k = j)) as [->|Hne].
      - by rewrite lookup_alter_eq, !lookup_insert_eq.
      - by rewrite lookup_alter_ne, !lookup_insert_ne. }
    destruct (IH st1 (k + 1)%N Hk1) as (G1 & G2 & G3 & G4); [lia|].
    cbv zeta in G1, G2, G3, G4.
    split; [rewrite G1; lia|]. split; [by rewrite G2|]. split.
    + intros [|i] oldId node' Hi Hold.
      * cbn in Hi. injection Hi as <-. rewrite Hx in Hold. injection Hold as <-.
        rewrite N.add_0_r, G4 by lia. by rewrite Hn1, lookup_insert_eq.
      * cbn in Hi.
        replace (k + N.of_nat (S i))%N with (k + 1 + N.of_nat i)%N by lia.
        by apply (G3 i oldId node').
    + intros j Hj. rewrite G4 by lia. rewrite Hn1, lookup_insert_ne; [done|lia].
  - rewrite decide_False in Hlt |- * by (by intros [? ?]).
    by apply IH.
Qed.

(** X27: [ExtractSubgraph] renumbers.  With [n] of the requested
    identifiers stored in the graph ([n + 1 < 2^64]), the subgraph is
    named after the graph with ["_sub"] appended, its nodes are stored
    under 1, ..., [n] and nowhere else, and the node under [i + 1] is the
    copy of the stored node with the [i]-th smallest requested identifier:
    apart from the adjacency vectors it has the new identifier, the kind
    and the copied fields of that node, and the defaults for [sourceText]
    and [sourceLine], which are not copied.  [Clone] has the nodes of
    [ExtractSubgraph] over all identifiers of the graph. *)
Theorem ExtractSubgraph_renumbers (nodeIds : gset NodeId) (g : ComputeGraph.t) :
  (N.of_nat (length (stored_ids nodeIds g)) + 1 < 2 ^ 64)%N →
  let sub := ExtractSubgraph nodeIds g in
  name sub = name g +:+ "_sub"
  ∧ nextNodeId sub = (N.of_nat (length (stored_ids nodeIds g)) + 1)%N
  ∧ (∀ j, is_Some (GetNode j sub)
          ↔ (1 <= j <= N.of_nat (length (stored_ids nodeIds g)))%N)
  ∧ (∀ i oldId node,
       stored_ids nodeIds g !! i = Some oldId →
       GetNode oldId g = Some node →
       without_adjacency <$> GetNode (N.of_nat (S i)) sub
       = Some (without_adjacency
                 (ExtractSubgraph_copy node
                    (ComputeNode.new (ComputeNode.kind node) (N.of_nat (S i))))))
  ∧ nodes (Clone g) = nodes (ExtractSubgraph (dom (nodes g)) g).
Proof.
  intros Hlt. cbv zeta. unfold ExtractSubgraph, stored_ids in *.
  set (st0 := (new (name g +:+ "_sub"), (∅ : gmap NodeId NodeId))).
  set (ids := merge_sort N.le (elements nodeIds)) in *.
  destruct (ExtractSubgraph_nodes_fold g ids st0 1%N eq_refl)
    as (G1 & G2 & G3 & G4); [lia|].
  cbv zeta in G1, G2, G3, G4.
  set (stored := stored_of g ids) in *.
  set (st1 := foldl (ExtractSubgraph_node g) st0 ids) in *.
  destruct (ExtractSubgraph_edges_fold nodeIds (GetAllEdges g) st1)
    as (H1 & H2 & H3).
  cbv zeta in H1, H2, H3.
  set (sub := fst (foldl (ExtractSubgraph_edge nodeIds) st1 (GetAllEdges g))) in *.
  assert (Hlook : ∀ j, without_adjacency <$> nodes sub !! j
                       = without_adjacency <$> nodes (fst st1) !! j).
  { intros j. by rewrite <- !lookup_fmap, H1. }
  split; [by rewrite H3, G2|]. split; [rewrite H2, G1; lia|].
  split; [|split; [|done]].
  - intros j. unfold GetNode. rewrite <- (fmap_is_Some without_adjacency), Hlook,
      fmap_is_Some. split.
    + intros Hj. destruct (decide (1 <= j <= N.of_nat (length stored))%N)
        as [|Hout]; [done|].
      rewrite G4 in Hj by lia. cbn in Hj. rewrite lookup_empty in Hj.
      by destruct Hj.
    + intros Hj.
      destruct (lookup_lt_is_Some_2 stored (N.to_nat (j - 1)))
        as [oldId Hold]; [lia|].
      assert (Hst : is_Some (GetNode oldId g)).
      { apply list_elem_of_lookup_2 in Hold.
        unfold stored, stored_of in Hold.
        by apply list_elem_of_filter in Hold as [? _]. }
      destruct Hst as [node Hnode].
      pose proof (G3 _ _ _ Hold Hnode) as Hg.
      replace (1 + N.of_nat (N.to_nat (j - 1)))%N with j in Hg by lia.
      eexists. exact Hg.
  - intros i oldId node Hi Hnode. unfold GetNode. rewrite Hlook.
    pose proof (G3 _ _ _ Hi Hnode) as Hg.
    replace (1 + N.of_nat i)%N with (N.of_nat (S i)) in Hg by lia.
    exact (f_equal (fmap without_adjacency) Hg).
Qed.

Lemma ExtractSubgraph_renumbers_witness :
  let sub := ExtractSubgraph {[ 2%N; 7%N ]} example_edge_graph in
  name sub = name example_edge_graph +:+ "_sub"
  ∧ nextNodeId sub
    = (N.of_nat (length (stored_ids {[ 2%N; 7%N ]} example_edge_graph)) + 1)%N
  ∧ (∀ j, is_Some (GetNode j sub)
          ↔ (1 <= j
             <= N.of_nat (length (stored_ids {[ 2%N; 7%N ]} example_edge_graph)))%N)
  ∧ (∀ i oldId node,
       stored_ids {[ 2%N; 7%N ]} example_edge_graph !! i = Some oldId →
       GetNode oldId example_edge_graph = Some node →
       without_adjacency <$> GetNode (N.of_nat (S i)) sub
       = Some (without_adjacency
                 (ExtractSubgraph_copy node
                    (ComputeNode.new (ComputeNode.kind node) (N.of_nat (S i))))))
  ∧ nodes (Clone example_edge_graph)
    = nodes (ExtractSubgraph (dom (nodes example_edge_graph)) example_edge_graph).
Proof.
  apply (ExtractSubgraph_renumbers {[ 2%N; 7%N ]} example_edge_graph).
  vm_compute. reflexivity.
Defined.
End GraphCopyFacts.

(** ** 9.11 Pattern matching *)

Section PatternMatchFacts.
Import ComputeGraph PatternMatch.
Variable g : ComputeGraph.t.
Variable all : list PatternNode.

Lemma MatchNode_false nid p b :
  fst (MatchNode g nid p b) = false → snd (MatchNode g nid p b) = b.
Proof.
  unfold MatchNode. destruct (GetNode nid g); [|done].
  repeat case_decide; try done. by destruct (b !! captureId p).
Qed.

Lemma MatchNode_true nid p b :
  p ∈ all → bindings_sound g all b →
  fst (MatchNode g nid p b) = true →
  b ⊆ snd (MatchNode g nid p b)
  ∧ bindings_sound g all (snd (MatchNode g nid p b))
  ∧ (0 <= captureId p → is_Some (snd (MatchNode g nid p b) !! captureId p)).
Proof.
  intros Hp Hs. unfold MatchNode.
  destruct (GetNode nid g) as [node|] eqn:Hn; [|done].
  destruct (decide (pn_kind p ≠ NK_Unknown ∧ _)) as [|Hk]; [done|].
  destruct (decide (pn_opCode p ≠ Op_Unknown ∧ _)) as [|Ho]; [done|].
  assert (Hm : node_matches p node).
  { split.
    - destruct (decide (pn_kind p = NK_Unknown)); [by left|].
      destruct (decide (ComputeNode.kind node = pn_kind p)); [by right|tauto].
    - destruct (decide (pn_opCode p = Op_Unknown)); [by left|].
      destruct (decide (ComputeNode.opCode node = pn_opCode p)); [by right|tauto]. }
  destruct (decide (captureId p >= 0)) as [Hc|Hc].
  - destruct (b !! captureId p) as [bound|] eqn:Hb; cbn [fst snd].
    + intros _. split; [done|]. split; [done|]. intros _. by rewrite Hb.
    + intros _. split; [by apply insert_subseteq|]. split.
      * intros c nid'. destruct (decide (captureId p = c)) as [<-|Hne].
        -- rewrite lookup_insert_eq. intros [= <-]. split; [lia|].
           by exists p, node.
        -- rewrite lookup_insert_ne by done. apply Hs.
      * intros _. by rewrite lookup_insert_eq.
  - cbn [fst snd]. intros _. split; [done|]. split; [done|]. lia.
Qed.

Lemma try_candidates_true p b cands :
  p ∈ all → bindings_sound g all b →
  fst (try_candidates g p b cands) = true →
  b ⊆ snd (try_candidates g p b cands)
  ∧ bindings_sound g all (snd (try_candidates g p b cands))
  ∧ (0 <= captureId p → is_Some (snd (try_candidates g p b cands) !! captureId p)).
Proof.
  intros Hp. revert b. induction cands as [|c cands IH]; intros b Hs; [done|].
  cbn [try_candidates]. cbv zeta.
  destruct (fst (MatchNode g (ComputeNode.id c) p b)) eqn:Hm.
  - cbn [fst snd]. intros _. by apply MatchNode_true.
  - rewrite (MatchNode_false _ _ _ Hm). by apply IH.
Qed.

Lemma covered_mono b b' ps : b ⊆ b' → covered b ps → covered b' ps.
Proof.
  intros Hsub Hc p Hp Hge. destruct (Hc p Hp Hge) as [nid Hnid].
  exists nid. by eapply lookup_weaken.
Qed.

Lemma match_rest_fold rest done_ps b :
  (∀ p, p ∈ rest → p ∈ all) →
  bindings_sound g all b → covered b done_ps →
  fst (foldl (match_rest_step g) (true, b) rest) = true →
  bindings_sound g all (snd (foldl (match_rest_step g) (true, b) rest))
  ∧ covered (snd (foldl (match_rest_step g) (true, b) rest)) (done_ps ++ rest).
Proof.
  revert done_ps b. induction rest as [|p rest IH]; intros done_ps b Hall Hs Hc.
  { intros _. cbn. by rewrite app_nil_r. }
  cbn [foldl].
  assert (Hfalse : ∀ b', fst (foldl (match_rest_step g) (false, b') rest) = false).
  { clear. intros b'. induction rest as [|q rest IH]; [done|]. apply IH. }
  assert (Hp : p ∈ all) by (apply Hall; left).
  assert (Hall' : ∀ q, q ∈ rest → q ∈ all) by (intros q Hq; apply Hall; by right).
  unfold match_rest_step at 2 4 6. cbn [fst snd].
  destruct (b !! captureId p) as [bound|] eqn:Hb.
  - destruct (match GetNode bound g with
              | Some boundNode =>
                  bool_decide (ComputeNode.kind boundNode = pn_kind p)
              | None => false
              end) eqn:Hm.
    + intros Hrest.
      destruct (IH (done_ps ++ [p]) b Hall' Hs) as [G1 G2]; [|done|].
      * intros q [Hq|Hq]%elem_of_app; [by apply Hc|].
        apply list_elem_of_singleton in Hq. subst q. intros _. by rewrite Hb.
      * split; [done|]. by rewrite <- app_assoc in G2.
    + by rewrite Hfalse.
  - destruct (fst (try_candidates g p b (GetAllNodes g))) eqn:Ht.
    + destruct (try_candidates_true p b (GetAllNodes g) Hp Hs Ht)
        as (Hsub & Hs' & Hcov).
      destruct (try_candidates g p b (GetAllNodes g)) as [ok b'].
      cbn [fst snd] in *. subst ok. intros Hrest.
      destruct (IH (done_ps ++ [p]) b' Hall' Hs') as [G1 G2]; [|done|].
      * intros q [Hq|Hq]%elem_of_app; [by eapply covered_mono|].
        apply list_elem_of_singleton in Hq. by subst q.
      * split; [done|]. by rewrite <- app_assoc in G2.
    + destruct (try_candidates g p b (GetAllNodes g)) as [ok b'].
      cbn [fst] in Ht. subst ok. by rewrite Hfalse.
Qed.
End PatternMatchFacts.

Section FindMatchesFacts.
Import ComputeGraph PatternMatch.

(** X28: [FindMatches] returns at most one match per node of the graph,
    and none for a pattern that is not registered or is empty.  In every
    match it returns, each capture of the pattern (a [captureId] that is
    not negative) is bound, and each binding is of a capture of the
    pattern to a stored node that passes the kind and opcode tests of a
    pattern node with that capture. *)
Theorem FindMatches_sound (patterns : gmap string RewritePattern)
    (g : ComputeGraph.t) (patternName : string) :
  (length (FindMatches patterns g patternName) <= length (GetAllNodes g))%nat
  ∧ (patterns !! patternName = None → FindMatches patterns g patternName = [])
  ∧ (∀ rewritePattern,
       patterns !! patternName = Some rewritePattern →
       pattern rewritePattern = [] →
       FindMatches patterns g patternName = [])
  ∧ ∀ bindings, bindings ∈ FindMatches patterns g patternName →
      ∃ rewritePattern,
        patterns !! patternName = Some rewritePattern
        ∧ (∀ p, p ∈ pattern rewritePattern → 0 <= captureId p →
                is_Some (bindings !! captureId p))
        ∧ bindings_sound g (pattern rewritePattern) bindings.
Proof.
  unfold FindMatches.
  destruct (patterns !! patternName) as [rp|];
    [|split; [simpl; lia|split; [done|split;
        [done|by intros ? ?%elem_of_nil]]]].
  destruct (pattern rp) as [|first rest] eqn:Hpat;
    [split; [simpl; lia|split; [done|split;
        [done|by intros ? ?%elem_of_nil]]]|].
  split; [|split; [done|split;
    [intros rp' [= <-] Hnil; by rewrite Hnil in Hpat|]]].
  { induction (GetAllNodes g) as [|n l IH]; [done|]. cbn.
    destruct (match_from g first rest n); simpl; lia. }
  intros bindings (node & Hnode & Hm)%list_elem_of_omap.
  exists rp. split; [done|]. rewrite Hpat.
  unfold match_from in Hm. cbv zeta in Hm.
  destruct (fst (MatchNode g (ComputeNode.id node) first ∅)) eqn:Hfirst; [|done].
  destruct (fst (foldl (match_rest_step g)
                   (true, snd (MatchNode g (ComputeNode.id node) first ∅)) rest))
    eqn:Hrest; [|done].
  injection Hm as <-.
  destruct (MatchNode_true g (first :: rest) (ComputeNode.id node) first ∅)
    as (_ & Hs & Hc); [left| |done|].
  { intros c nid. by rewrite lookup_empty. }
  destruct (match_rest_fold g (first :: rest) rest [first]
              (snd (MatchNode g (ComputeNode.id node) first ∅)))
    as [G1 G2]; [by intros p Hp; right|done| |done|].
  { intros p ->%list_elem_of_singleton. done. }
  split; [|done]. intros p Hp. by apply G2.
Qed.
End FindMatchesFacts.

(** ** 9.12 Merging graphs *)

Section GraphMergeFacts.
Import ComputeGraph GraphMerge.

Lemma AddEdge_stmts_map src tgt k lbl g :
  stmts_map (fst (AddEdge src tgt k lbl g)) = stmts_map g.
Proof.
  apply map_eq. intros j. unfold stmts_map. cbn [AddEdge fst nodes].
  rewrite !lookup_fmap.
  destruct (decide (tgt = j)) as [->|Ht].
  - rewrite lookup_alter_eq. destruct (decide (src = j)) as [->|Hs].
    + rewrite lookup_alter_eq. by destruct (nodes g !! j).
    + rewrite lookup_alter_ne by done. by destruct (nodes g !! j).
  - rewrite lookup_alter_ne by done. destruct (decide (src = j)) as [->|Hs].
    + rewrite lookup_alter_eq. by destruct (nodes g !! j).
    + by rewrite lookup_alter_ne.
Qed.

Lemma Merge_edge1_fold es st :
  stmts_map (merged (foldl Merge_edge1 st es)) = stmts_map (merged st)
  ∧ nextNodeId (merged (foldl Merge_edge1 st es)) = nextNodeId (merged st)
  ∧ name (merged (foldl Merge_edge1 st es)) = name (merged st)
  ∧ stmtToNode (foldl Merge_edge1 st es) = stmtToNode st.
Proof.
  revert st. induction es as [|e es IH]; intros st; [done|].
  cbn [foldl]. destruct (IH (Merge_edge1 st e)) as (H1 & H2 & H3 & H4).
  rewrite H1, H2, H3, H4. unfold Merge_edge1. cbn [merged stmtToNode].
  by rewrite AddEdge_stmts_map.
Qed.

Lemma Merge_edge2_fold es st :
  stmts_map (merged (foldl Merge_edge2 st es)) = stmts_map (merged st)
  ∧ nextNodeId (merged (foldl Merge_edge2 st es)) = nextNodeId (merged st)
  ∧ name (merged (foldl Merge_edge2 st es)) = name (merged st).
Proof.
  revert st. induction es as [|e es IH]; intros st; [done|].
  cbn [foldl]. destruct (IH (Merge_edge2 st e)) as (H1 & H2 & H3).
  rewrite H1, H2, H3. unfold Merge_edge2. cbn [merged].
  destruct (existsb _ _); [done|]. by rewrite AddEdge_stmts_map.
Qed.

Lemma copy_into_spec node m k :
  nextNodeId m = k → (k + 1 < 2 ^ 64)%N →
  snd (copy_into node m) = k
  ∧ nextNodeId (fst (copy_into node m)) = (k + 1)%N
  ∧ name (fst (copy_into node m)) = name m
  ∧ stmts_map (fst (copy_into node m))
    = <[k := ComputeNode.astStmt node]> (stmts_map m).
Proof.
  intros Hk Hlt. unfold copy_into. cbn. rewrite Hk.
  split; [done|]. split; [unfold incr64; apply N.mod_small; lia|].
  split; [done|]. unfold stmts_map. cbn.
  apply map_eq. intros j. rewrite lookup_fmap.
  destruct (decide (k = j)) as [->|Hne].
  - by rewrite lookup_alter_eq, !lookup_insert_eq.
  - by rewrite lookup_alter_ne, !lookup_insert_ne, ?lookup_fmap.
Qed.

Lemma copy_step_inv node m sm k :
  merge_inv k m sm → (k + 1 < 2 ^ 64)%N →
  merge_inv (k + 1)%N (fst (copy_into node m))
    (register_stmt node (snd (copy_into node m)) sm)
  ∧ (∀ s, has_stmt (fst (copy_into node m)) s
          ↔ has_stmt m s ∨ ComputeNode.astStmt node = Some s)
  ∧ (stmt_unique m →
     (∀ s, ComputeNode.astStmt node = Some s → ¬ has_stmt m s) →
     stmt_unique (fst (copy_into node m)))
  ∧ name (fst (copy_into node m)) = name m.
Proof.
  intros (Hk & Hfresh & Hreg & Hall) Hlt.
  destruct (copy_into_spec node m k Hk Hlt) as (Hid & Hnext & Hname & Hmap).
  rewrite Hid.
  assert (Hlook : ∀ j, stmts_map (fst (copy_into node m)) !! j
                       = if decide (k = j) then Some (ComputeNode.astStmt node)
                         else stmts_map m !! j).
  { intros j. rewrite Hmap. case_decide as Hj.
    - subst j. by rewrite lookup_insert_eq.
    - by rewrite lookup_insert_ne. }
  assert (Hkm : stmts_map m !! k = None) by (apply Hfresh; lia).
  split; [|split; [|split; [|done]]].
  - split; [done|]. split; [|split].
    + intros j Hj. rewrite Hlook, decide_False by lia. apply Hfresh. lia.
    + intros s nid. unfold register_stmt.
      destruct (ComputeNode.astStmt node) as [s0|] eqn:Hs0.
      * destruct (decide (s0 = s)) as [->|Hne].
        -- rewrite lookup_insert_eq. intros [= <-].
           by rewrite Hlook, decide_True.
        -- rewrite lookup_insert_ne by done. intros Hnid.
           rewrite Hlook. case_decide as Hj; [|by apply Hreg].
           subst nid. apply Hreg in Hnid. congruence.
      * intros Hnid. rewrite Hlook. case_decide as Hj; [|by apply Hreg].
        subst nid. apply Hreg in Hnid. congruence.
    + intros j s. rewrite Hlook. unfold register_stmt. case_decide as Hj.
      * intros [= ->]. by rewrite lookup_insert_eq.
      * intros Hjs. destruct (Hall j s Hjs) as [nid Hnid].
        destruct (ComputeNode.astStmt node) as [s0|]; [|by eexists].
        destruct (decide (s0 = s)) as [->|Hne].
        -- rewrite lookup_insert_eq. by eexists.
        -- rewrite lookup_insert_ne by done. by eexists.
  - intros s. unfold has_stmt. split.
    + intros [j Hj]. rewrite Hlook in Hj. case_decide.
      * right. congruence.
      * left. by exists j.
    + intros [[j Hj]|Hs].
      * exists j. rewrite Hlook. case_decide; [|done]. subst j. congruence.
      * exists k. by rewrite Hlook, decide_True, Hs.
  - intros Huniq Hnew i j s. rewrite !Hlook.
    destruct (decide (k = i)) as [<-|Hi], (decide (k = j)) as [<-|Hj].
    + done.
    + intros [= Hs] Hjs. exfalso. apply (Hnew s Hs). by exists j.
    + intros His [= Hs]. exfalso. apply (Hnew s Hs). by exists i.
    + apply Huniq.
Qed.

Lemma omap_astStmt_cons (node : ComputeNode.t) (l : list ComputeNode.t) :
  omap ComputeNode.astStmt (node :: l)
  = match ComputeNode.astStmt node with
    | Some y => y :: omap ComputeNode.astStmt l
    | None => omap ComputeNode.astStmt l
    end.
Proof. done. Qed.

Lemma elem_of_omap_cons_iff (P : Prop) (node : ComputeNode.t)
    (l : list ComputeNode.t) (s : StmtPtr) :
  (P ∨ ComputeNode.astStmt node = Some s) ∨ s ∈ omap ComputeNode.astStmt l
  ↔ P ∨ s ∈ omap ComputeNode.astStmt (node :: l).
Proof.
  rewrite omap_astStmt_cons.
  destruct (ComputeNode.astStmt node) as [s0|].
  - rewrite elem_of_cons. split.
    + intros [[?|[= ->]]|?]; [by left|right; by left|right; by right].
    + intros [?|[->|?]]; [left; by left|left; by right|by right].
  - split.
    + intros [[?|?]|?]; [by left|done|by right].
    + intros [?|?]; [left; by left|by right].
Qed.

Lemma Merge_node1_fold l st k :
  merge_inv k (merged st) (stmtToNode st) →
  (k + N.of_nat (length l) < 2 ^ 64)%N →
  let st' := foldl Merge_node1 st l in
  merge_inv (k + N.of_nat (length l))%N (merged st') (stmtToNode st')
  ∧ (∀ s, has_stmt (merged st') s
          ↔ has_stmt (merged st) s ∨ s ∈ omap ComputeNode.astStmt l)
  ∧ (stmt_unique (merged st) →
     NoDup (omap ComputeNode.astStmt l) →
     (∀ s, s ∈ omap ComputeNode.astStmt l → ¬ has_stmt (merged st) s) →
     stmt_unique (merged st'))
  ∧ name (merged st') = name (merged st).
Proof.
  revert st k. induction l as [|node l IH]; intros st k Hinv Hlt; cbn [foldl].
  { cbn. rewrite N.add_0_r. split; [done|]. split; [|by split].
    intros s. rewrite elem_of_nil. tauto. }
  cbn [length] in Hlt.
  destruct (copy_step_inv node (merged st) (stmtToNode st) k Hinv)
    as (Hinv1 & Hhas1 & Huniq1 & Hname1); [lia|].
  destruct (IH (Merge_node1 st node) (k + 1)%N Hinv1) as (G1 & G2 & G3 & G4);
    [lia|].
  cbv zeta in G1, G2, G3, G4. cbn [Merge_node1 merged] in G2, G3, G4.
  split; [|split; [|split]].
  - replace (k + N.of_nat (length (node :: l)))%N
      with (k + 1 + N.of_nat (length l))%N by (cbn [length]; lia).
    exact G1.
  - intros s. rewrite G2, Hhas1. apply elem_of_omap_cons_iff.
  - intros Hu Hnd Hdisj. apply G3.
    + apply Huniq1; [done|]. intros s Hs. apply Hdisj. rewrite omap_astStmt_cons.
      rewrite Hs. left.
    + rewrite omap_astStmt_cons in Hnd. destruct (ComputeNode.astStmt node); [|done].
      by apply NoDup_cons in Hnd as [_ ?].
    + intros s Hs. rewrite Hhas1. intros [Hm|Hn].
      * apply (Hdisj s); [|done]. rewrite omap_astStmt_cons.
        destruct (ComputeNode.astStmt node); [by right|done].
      * rewrite omap_astStmt_cons in Hnd. rewrite Hn in Hnd.
        by apply NoDup_cons in Hnd as [? _].
  - by rewrite G4, <- Hname1.
Qed.

Lemma Merge_node2_fold l st k :
  merge_inv k (merged st) (stmtToNode st) →
  (k + N.of_nat (length l) < 2 ^ 64)%N →
  let st' := foldl Merge_node2 st l in
  (∃ k', merge_inv k' (merged st') (stmtToNode st'))
  ∧ (∀ s, has_stmt (merged st') s
          ↔ has_stmt (merged st) s ∨ s ∈ omap ComputeNode.astStmt l)
  ∧ (stmt_unique (merged st) → stmt_unique (merged st'))
  ∧ name (merged st') = name (merged st).
Proof.
  revert st k. induction l as [|node l IH]; intros st k Hinv Hlt; cbn [foldl].
  { split; [by exists k|]. split; [|by split].
    intros s. rewrite elem_of_nil. tauto. }
  cbn [length] in Hlt.
  destruct (ComputeNode.astStmt node ≫= (fun s => stmtToNode st !! s))
    as [existing|] eqn:Hfind.
  - set (st1 := {| merged := merged st; g1Map := g1Map st;
                   g2Map := <[ComputeNode.id node := existing]> (g2Map st);
                   stmtToNode := stmtToNode st |}).
    assert (Hstep : Merge_node2 st node = st1)
      by (unfold Merge_node2; by rewrite Hfind).
    rewrite Hstep. clear Hstep.
    destruct (ComputeNode.astStmt node) as [s0|] eqn:Hs0; [|done].
    cbn in Hfind.
    destruct (IH st1 k Hinv) as (G1 & G2 & G3 & G4); [lia|].
    cbv zeta in G1, G2, G3, G4. subst st1. cbn [merged] in G2, G3, G4.
    split; [done|]. split; [|by split].
    intros s. rewrite G2, omap_astStmt_cons, Hs0, elem_of_cons.
    split; [tauto|]. intros [?|[->|?]]; [tauto| |tauto].
    left. destruct Hinv as (_ & _ & Hreg & _). exists existing. by apply Hreg.
  - destruct (copy_step_inv node (merged st) (stmtToNode st) k Hinv)
      as (Hinv1 & Hhas1 & Huniq1 & Hname1); [lia|].
    set (st1 := {| merged := fst (copy_into node (merged st));
                   g1Map := g1Map st;
                   g2Map := <[ComputeNode.id node
                                := snd (copy_into node (merged st))]> (g2Map st);
                   stmtToNode := register_stmt node
                                   (snd (copy_into node (merged st)))
                                   (stmtToNode st) |}).
    assert (Hstep : Merge_node2 st node = st1)
      by (unfold Merge_node2; by rewrite Hfind).
    rewrite Hstep. clear Hstep.
    destruct (IH st1 (k + 1)%N Hinv1) as (G1 & G2 & G3 & G4); [lia|].
    cbv zeta in G1, G2, G3, G4. subst st1. cbn [merged] in G2, G3, G4.
    split; [done|]. split; [|split].
    + intros s. rewrite G2, Hhas1. apply elem_of_omap_cons_iff.
    + intros Hu. apply G3, Huniq1; [done|].
      intros s Hs [j Hj]. rewrite Hs in Hfind. cbn in Hfind.
      destruct Hinv as (_ & _ & _ & Hall).
      destruct (Hall j s Hj) as [nid Hnid]. congruence.
    + by rewrite G4, <- Hname1.
Qed.

Lemma elem_of_stmts_of g s : s ∈ stmts_of g ↔ has_stmt g s.
Proof.
  unfold stmts_of, has_stmt, stmts_map, GetAllNodes. split.
  - intros (n & Hin & Hn)%list_elem_of_omap.
    apply list_elem_of_fmap in Hin as ([j n'] & -> & Hin).
    apply elem_of_std_map_items in Hin. exists j.
    rewrite lookup_fmap. apply fmap_Some. exists n'. split; [exact Hin|].
    by rewrite <- Hn.
  - intros [j Hj]. rewrite lookup_fmap in Hj.
    apply fmap_Some in Hj as (n & Hn & Hs).
    apply list_elem_of_omap. exists n. split; [|done].
    apply list_elem_of_fmap. exists (j, n). split; [done|].
    by apply elem_of_std_map_items.
Qed.

Lemma NoDup_omap_items {V B} (f : V → option B) (l : list (N * V)) :
  NoDup (map fst l) →
  (∀ i j x y b, (i, x) ∈ l → (j, y) ∈ l → f x = Some b → f y = Some b → i = j) →
  NoDup (omap f (map snd l)).
Proof.
  induction l as [|[i x] l IH]; intros Hnd Hinj; [constructor|].
  cbn [map fst] in Hnd. apply NoDup_cons in Hnd as [Hi Hnd].
  assert (Htl : NoDup (omap f (map snd l))).
  { apply IH; [done|]. intros i' j' x' y' b Hx Hy. apply Hinj; by right. }
  change (NoDup (match f x with
                 | Some b => b :: omap f (map snd l)
                 | None => omap f (map snd l)
                 end)).
  destruct (f x) as [b|] eqn:Hfx; [|done].
  constructor; [|done].
  intros (y & Hy & Hfy)%list_elem_of_omap.
  apply list_elem_of_fmap in Hy as ([j y'] & -> & Hy). cbn in Hfy.
  assert (i = j) as -> by (eapply Hinj; [left|by right|done|done]).
  apply Hi. apply list_elem_of_fmap. by exists (j, y').
Qed.

Lemma map_fst_std_map_items {V} (m : gmap N V) :
  map fst (std_map_items m) = std_map_keys m.
Proof.
  unfold std_map_items.
  assert (Hall : ∀ k, k ∈ std_map_keys m → is_Some (m !! k))
    by (intros k; apply elem_of_std_map_keys).
  induction (std_map_keys m) as [|k l IH]; [done|].
  destruct (Hall k) as [v Hv]; [left|].
  change (omap (fun k => pair k <$> m !! k) (k :: l))
    with (match pair k <$> m !! k with
          | Some y => y :: omap (fun k => pair k <$> m !! k) l
          | None => omap (fun k => pair k <$> m !! k) l
          end).
  rewrite Hv. cbn. f_equal. apply IH. intros k' Hk'. apply Hall. by right.
Qed.

Lemma stmt_unique_NoDup g : stmt_unique g → NoDup (stmts_of g).
Proof.
  intros Hu. unfold stmts_of, GetAllNodes. apply NoDup_omap_items.
  - rewrite map_fst_std_map_items. apply NoDup_std_map_keys.
  - intros i j x y s Hx%elem_of_std_map_items Hy%elem_of_std_map_items Hfx Hfy.
    apply (Hu i j s); unfold stmts_map; rewrite lookup_fmap; apply fmap_Some.
    + exists x. split; [exact Hx|done].
    + exists y. split; [exact Hy|done].
Qed.

(** X29: [ComputeGraphMerger::Merge] of two graphs with fewer than
    [2^64 - 1] nodes together: the result is named after the first graph
    with ["_merged"] appended; the statements attached to its nodes are
    those of the first graph and those of the second; and if no two nodes
    of the first graph share a statement, no two nodes of the result
    do. *)
Theorem Merge_statements (g1 g2 : ComputeGraph.t) :
  (N.of_nat (length (GetAllNodes g1) + length (GetAllNodes g2)) + 1 < 2 ^ 64)%N →
  name (Merge g1 g2) = name g1 +:+ "_merged"
  ∧ (∀ s, s ∈ stmts_of (Merge g1 g2) ↔ s ∈ stmts_of g1 ∨ s ∈ stmts_of g2)
  ∧ (NoDup (stmts_of g1) → NoDup (stmts_of (Merge g1 g2))).
Proof.
  intros Hlt. unfold Merge. cbv zeta.
  set (st0 := {| merged := new (name g1 +:+ "_merged");
                 g1Map := ∅; g2Map := ∅; stmtToNode := ∅ |}).
  assert (Hinv0 : merge_inv 1%N (merged st0) (stmtToNode st0)).
  { split; [done|]. split; [|split].
    - intros j _. unfold stmts_map. cbn. by rewrite fmap_empty, lookup_empty.
    - intros s nid. cbn. by rewrite lookup_empty.
    - intros j s. unfold stmts_map. cbn. by rewrite fmap_empty, lookup_empty. }
  assert (Hno0 : ∀ s, ¬ has_stmt (merged st0) s).
  { intros s [j Hj]. unfold stmts_map in Hj. cbn in Hj.
    by rewrite fmap_empty, lookup_empty in Hj. }
  destruct (Merge_node1_fold (GetAllNodes g1) st0 1%N Hinv0)
    as (A1 & A2 & A3 & A4); [rewrite Nat2N.inj_add in Hlt; lia|].
  cbv zeta in A1, A2, A3, A4.
  set (st1 := foldl Merge_node1 st0 (GetAllNodes g1)) in *.
  destruct (Merge_edge1_fold (GetAllEdges g1) st1) as (B1 & B2 & B3 & B4).
  set (st2 := foldl Merge_edge1 st1 (GetAllEdges g1)) in *.
  assert (Hinv2 : merge_inv (1 + N.of_nat (length (GetAllNodes g1)))%N
                    (merged st2) (stmtToNode st2)).
  { destruct A1 as (C1 & C2 & C3 & C4). unfold merge_inv.
    rewrite B1, B2, B4. done. }
  destruct (Merge_node2_fold (GetAllNodes g2) st2 _ Hinv2)
    as (D1 & D2 & D3 & D4); [rewrite Nat2N.inj_add in Hlt; lia|].
  cbv zeta in D1, D2, D3, D4.
  set (st3 := foldl Merge_node2 st2 (GetAllNodes g2)) in *.
  destruct (Merge_edge2_fold (GetAllEdges g2) st3) as (E1 & E2 & E3).
  set (st4 := foldl Merge_edge2 st3 (GetAllEdges g2)) in *.
  assert (Hhas : ∀ g g', stmts_map g = stmts_map g' →
                         ∀ s, has_stmt g s ↔ has_stmt g' s).
  { intros g g' Heq s. unfold has_stmt. by rewrite Heq. }
  assert (Huq : ∀ g g', stmts_map g = stmts_map g' →
                        stmt_unique g' → stmt_unique g).
  { intros g g' Heq. unfold stmt_unique. by rewrite Heq. }
  split; [by rewrite E3, D4, B3, A4|]. split.
  - intros s. rewrite (elem_of_stmts_of (merged st4) s).
    rewrite (Hhas _ _ E1), D2, (Hhas _ _ B1), A2.
    unfold stmts_of. split.
    + intros [[?|?]|?]; [by destruct (Hno0 s)|by left|by right].
    + intros [?|?]; [left; by right|by right].
  - intros Hnd. apply stmt_unique_NoDup.
    apply (Huq _ _ E1), D3, (Huq _ _ B1), A3; [|done|].
    + intros i j s Hi. exfalso. apply (Hno0 s). by exists i.
    + intros s _. apply Hno0.
Qed.
Lemma Merge_statements_witness :
  let g1 := example_stmts_graph "a" [10%N; 11%N] in
  let g2 := example_stmts_graph "b" [11%N; 12%N] in
  name (Merge g1 g2) = name g1 +:+ "_merged"
  ∧ (∀ s, s ∈ stmts_of (Merge g1 g2) ↔ s ∈ stmts_of g1 ∨ s ∈ stmts_of g2)
  ∧ (NoDup (stmts_of g1) → NoDup (stmts_of (Merge g1 g2))).
Proof.
  apply (Merge_statements (example_stmts_graph "a" [10%N; 11%N])
           (example_stmts_graph "b" [11%N; 12%N])).
  vm_compute. reflexivity.
Defined.

Lemma MergeOverlapping_pass_length graphs graphs' :
  MergeOverlapping_pass graphs = Some graphs' →
  S (length graphs') = length graphs.
Proof.
  revert graphs'. induction graphs as [|gi later IH]; intros graphs'; [done|].
  cbn [MergeOverlapping_pass].
  destruct (list_find _ later) as [[j gj]|] eqn:Hfind.
  - intros [= <-]. apply list_find_Some in Hfind as (Hj & _).
    cbn [length]. rewrite length_delete by by eexists. 
    apply lookup_lt_Some in Hj. lia.
  - destruct (MergeOverlapping_pass later) as [later'|]; [|done].
    intros [= <-]. cbn [length]. by rewrite (IH later').
Qed.

Lemma MergeOverlapping_pass_None graphs :
  MergeOverlapping_pass graphs = None
  ↔ ∀ i j gi gj, (i < j)%nat → graphs !! i = Some gi → graphs !! j = Some gj →
                 BuilderOps.HasOverlap gi gj = false.
Proof.
  induction graphs as [|g later IH]; cbn [MergeOverlapping_pass].
  { split; [by intros _ i j gi gj _ ?|done]. }
  destruct (list_find _ later) as [[j gj]|] eqn:Hfind.
  - split; [done|]. intros Hno. exfalso.
    apply list_find_Some in Hfind as (Hj & Hov & _).
    specialize (Hno 0%nat (S j) g gj). rewrite Hno in Hov; [done|lia|done|done].
  - apply list_find_None in Hfind. rewrite Forall_forall in Hfind.
    destruct (MergeOverlapping_pass later) as [later'|] eqn:Hpass.
    + split; [done|]. intros Hno. exfalso.
      assert (Hc : Some later' = None); [|done].
      apply IH. intros i j gi gj Hij Hi Hj.
      apply (Hno (S i) (S j)); [lia|done|done].
    + split; [|done]. intros _ i j gi gj Hij Hi Hj.
      destruct i as [|i].
      * cbn in Hi. injection Hi as <-. destruct j as [|j]; [lia|].
        cbn in Hj. apply list_elem_of_lookup_2 in Hj.
        specialize (Hfind gj Hj). by destruct (BuilderOps.HasOverlap g gj).
      * destruct j as [|j]; [lia|]. cbn in Hi, Hj.
        apply (proj1 IH eq_refl i j); [lia|done|done].
Qed.

Lemma MergeOverlapping_loop_spec fuel graphs :
  (length graphs <= fuel)%nat →
  MergeOverlapping_pass (MergeOverlapping_loop fuel graphs) = None
  ∧ (length (MergeOverlapping_loop fuel graphs) <= length graphs)%nat
  ∧ (graphs ≠ [] → MergeOverlapping_loop fuel graphs ≠ []).
Proof.
  revert graphs. induction fuel as [|fuel IH]; intros graphs Hlen.
  { destruct graphs; [done|simpl in Hlen; lia]. }
  cbn [MergeOverlapping_loop].
  destruct (MergeOverlapping_pass graphs) as [graphs'|] eqn:Hpass; [|done].
  pose proof (MergeOverlapping_pass_length _ _ Hpass) as Hl.
  destruct (IH graphs') as (H1 & H2 & H3); [lia|].
  split; [done|]. split; [lia|]. intros _. apply H3.
  destruct graphs as [|gi later]; [done|]. cbn [MergeOverlapping_pass] in Hpass.
  destruct (list_find _ later) as [[j gj]|]; [by injection Hpass as <-|].
  destruct (MergeOverlapping_pass later); [by injection Hpass as <-|done].
Qed.

Lemma MergeOverlapping_loop_fuel fuel extra graphs :
  (length graphs <= fuel)%nat →
  MergeOverlapping_loop (fuel + extra) graphs = MergeOverlapping_loop fuel graphs.
Proof.
  revert graphs. induction fuel as [|fuel IH]; intros graphs Hlen.
  { destruct graphs; [|simpl in Hlen; lia]. by destruct extra. }
  cbn [Nat.add MergeOverlapping_loop].
  destruct (MergeOverlapping_pass graphs) as [graphs'|] eqn:Hpass; [|done].
  apply IH. apply MergeOverlapping_pass_length in Hpass. lia.
Qed.

(** X30: after [MergeOverlapping] no two graphs of the set overlap
    ([HasOverlap]); the set has not grown, and is not empty unless it was;
    a set without overlapping graphs is left as it is; and the loop is
    finished within as many passes as there were graphs (more passes
    change nothing). *)
Theorem MergeOverlapping_no_overlap_left (graphs : list ComputeGraph.t) :
  let result := MergeOverlapping graphs in
  (∀ i j gi gj, (i < j)%nat → result !! i = Some gi → result !! j = Some gj →
                BuilderOps.HasOverlap gi gj = false)
  ∧ (length result <= length graphs)%nat
  ∧ (graphs ≠ [] → result ≠ [])
  ∧ ((∀ i j gi gj, (i < j)%nat → graphs !! i = Some gi → graphs !! j = Some gj →
                   BuilderOps.HasOverlap gi gj = false) →
     result = graphs)
  ∧ ∀ extra, MergeOverlapping_loop (length graphs + extra) graphs = result.
Proof.
  cbv zeta. unfold MergeOverlapping.
  destruct (MergeOverlapping_loop_spec (length graphs) graphs) as (H1 & H2 & H3);
    [done|].
  split; [by apply MergeOverlapping_pass_None|]. split; [done|].
  split; [done|]. split.
  - intros Hno. apply MergeOverlapping_pass_None in Hno.
    destruct graphs as [|g l]; [done|].
    cbn [length MergeOverlapping_loop]. by rewrite Hno.
  - intros extra. by apply MergeOverlapping_loop_fuel.
Qed.
End GraphMergeFacts.
